(** * Wallet core: Shamir sharing over the secp256k1 scalar field,
      the MPC wallet, guardian invites and the recovery state machine.

    The development embeds the TypeScript sources function by function:
    BigInt values are [Z] (the BigInt remainder [%] truncates toward zero,
    so it is [Z.rem]), byte arrays are lists of [Byte.byte], strings are
    [String.string] holding their UTF-8 bytes, thrown errors are the left
    summand of a result, and every method of a class takes the object's
    fields and returns them updated, also when it throws. *)

From Stdlib Require Import ZArith Lia List Bool String Ascii Strings.Byte.
From Stdlib Require Import Znumtheory Zdivisibility.
From Stdlib Require Import Zmod.ZmodInv.
Import ListNotations.
Open Scope Z_scope.

(* ================================================================== *)
(** * Field arithmetic (packages/mpc/src/shamir.ts) *)
(* ================================================================== *)

Module Field.

(** [const PRIME = 0xFFFF...4141n], the order of the secp256k1 group. *)
Definition PRIME : Z :=
  0xFFFFFFFFFFFFFFFFFFFFFFFFFFFFFFFEBAAEDCE6AF48A03BBFD25E8CD0364141.

(** The [while (exp > 0n)] loop of [modPow]; one unit of fuel per
    iteration. *)
Fixpoint modPow_loop (fuel : nat) (result base exp md : Z) : Z :=
  match fuel with
  | O => result
  | S fuel' =>
      if 0 <? exp then
        let result' :=
          if Z.rem exp 2 =? 1 then Z.rem (result * base) md else result in
        modPow_loop fuel' result' (Z.rem (base * base) md) (Z.shiftr exp 1) md
      else result
  end.

(** [modPow(base, exp, mod)].  The loop halves [exp] at every turn, so
    [log2 exp + 1] iterations exhaust it (lemma [modPow_loop_fuel]). *)
Definition modPow (base exp md : Z) : Z :=
  modPow_loop (S (Z.to_nat (Z.log2 exp))) 1 (Z.rem base md) exp md.

(** [modInverse(a, mod) = modPow(a, mod - 2n, mod)]. *)
Definition modInverse (a md : Z) : Z := modPow a (md - 2) md.

(** The final normalisation [((v % PRIME) + PRIME) % PRIME]. *)
Definition normalize (v : Z) : Z := Z.rem (Z.rem v PRIME + PRIME) PRIME.

End Field.

(* ================================================================== *)
(** * Thrown errors *)
(* ================================================================== *)

(** Every [throw new Error(msg)] of the modelled sources, one constructor
    per message; the comment gives the message. *)
Inductive Error : Type :=
| ThresholdTooSmall      (* 'Threshold must be at least 2' *)
| TotalBelowThreshold    (* 'Total shares must be >= threshold' *)
| TooManyShares          (* 'Maximum 255 shares supported' *)
| SecretTooLarge         (* 'Secret too large for prime field' *)
| SyntaxError            (* BigInt('0x...') on a malformed literal *)
| RangeError             (* BigInt(x) on a number that is not an integer *)
| TooFewShares           (* 'Need at least 2 shares to reconstruct' *)
| DuplicateIndex         (* 'Duplicate share indices detected' *)
| OwnerSharesTooSmall    (* 'Owner must have at least 1 share' *)
| NotEnoughGuardianShares (* 'Not enough guardian shares for recovery without owner' *)
| ThresholdExceedsTotal  (* 'Threshold cannot exceed total shares' *)
| StateNotLoaded         (* 'Wallet state not loaded' *)
| WrongWallet            (* 'Share does not belong to this wallet' *)
| NotEnoughShares        (* 'Need ${threshold} shares, have ${n}' *)
| SignTooFewShares       (* 'Need at least 2 shares to sign' *)
| SignBelowThreshold     (* 'Need at least ${threshold} shares, got ${n}' *)
| MixedKeys              (* 'All shares must belong to the same key' *)
| BadHashLength          (* 'Message hash must be 32 bytes' *)
| SignerFailure          (* an exception of the secp256k1 library *)
| BadVersion             (* 'Unsupported encryption version: ${v}' *)
| Undecryptable          (* 'Decryption failed: invalid password or corrupted data' *)
| BadBase64              (* atob on a malformed string *)
| GuardianNotFound       (* 'Guardian not found' *)
| InviteNotFound         (* 'Invite not found' *)
| InviteExpired          (* 'Invite has expired' *)
| BadCode                (* 'Invalid verification code' *)
| RequestNotFound        (* 'Recovery request not found' *)
| InvalidState           (* 'Invalid request status: ${status}. Expected: ...' *)
| DuplicateGuardian      (* 'Guardian has already approved this request' *)
| Cooldown               (* 'Please wait ${h} hours between recovery attempts' *)
| AlreadyPending.        (* 'A recovery request is already pending for this wallet' *)

(** The outcome of a call: a thrown error or the returned value. *)
Definition result (A : Type) : Type := (Error + A)%type.

Definition is_ok {A} (r : result A) : bool :=
  match r with inr _ => true | inl _ => false end.

(* ================================================================== *)
(** * Numbers that name a share *)
(* ================================================================== *)

Module JsNumber.

(** A value of the type [number] where the sources use it as the index
    of a share, which they compare and convert but never compute with:
    an integer (the two zeros are one value), NaN, or another value
    that is not an integer, a fraction or an infinity, named by its
    IEEE 754 bit pattern, of which it has one. *)
Inductive number : Type :=
| Int (z : Z)
| NonInteger (bits : Z)
| NaN.

(** [a === b]: NaN equals nothing, not even itself. *)
Definition strictEq (a b : number) : bool :=
  match a, b with
  | Int v, Int v' => v =? v'
  | NonInteger v, NonInteger v' => v =? v'
  | _, _ => false
  end.

(** The equality under which a [Set] keeps one of two elements
    (SameValueZero): [===], but NaN equals NaN. *)
Definition sameValueZero (a b : number) : bool :=
  match a, b with
  | NaN, NaN => true
  | _, _ => strictEq a b
  end.

(** [BigInt(a)]: a RangeError ([None]) unless [a] is an integer. *)
Definition toBigInt (a : number) : option Z :=
  match a with
  | Int v => Some v
  | _ => None
  end.

Definition isNaN (a : number) : bool :=
  match a with
  | NaN => true
  | _ => false
  end.

(** No two of the numbers are [===]. *)
Fixpoint strictlyDistinct (values : list number) : Prop :=
  match values with
  | [] => True
  | v :: rest =>
      (forall v', In v' rest -> strictEq v v' = false) /\ strictlyDistinct rest
  end.

(** [new Set(values)], in the order of the first occurrences. *)
Fixpoint distinctValues (values : list number) : list number :=
  match values with
  | [] => []
  | v :: rest =>
      v :: filter (fun v' => negb (sameValueZero v v')) (distinctValues rest)
  end.

End JsNumber.

(* ================================================================== *)
(** * Hexadecimal strings (packages/mpc/src/shamir.ts) *)
(* ================================================================== *)

Module Hex.

(** The digit of [d] in [0..15], as [toString(16)] prints it. *)
Definition hexDigit (d : Z) : ascii :=
  if d <? 10 then ascii_of_N (Z.to_N (48 + d))
  else ascii_of_N (Z.to_N (87 + d)).

(** The value of a hexadecimal digit, upper or lower case. *)
Definition hexVal (c : ascii) : option Z :=
  let n := Z.of_N (N_of_ascii c) in
  if (48 <=? n) && (n <=? 57) then Some (n - 48)
  else if (97 <=? n) && (n <=? 102) then Some (n - 87)
  else if (65 <=? n) && (n <=? 70) then Some (n - 55)
  else None.

(** The digits of a non-negative [v], most significant first. *)
Fixpoint hexDigits (fuel : nat) (v : Z) : string :=
  match fuel with
  | O => EmptyString
  | S fuel' =>
      String.append
        (if v / 16 =? 0 then EmptyString else hexDigits fuel' (v / 16))
        (String (hexDigit (v mod 16)) EmptyString)
  end.

(** [value.toString(16)] of a BigInt. *)
Definition toString16 (v : Z) : string :=
  if v <? 0
  then String "-"%char (hexDigits (S (Z.to_nat (Z.log2 (- v)))) (- v))
  else hexDigits (S (Z.to_nat (Z.log2 v))) v.

Fixpoint replicate (n : nat) (c : ascii) : string :=
  match n with O => EmptyString | S n' => String c (replicate n' c) end.

(** [s.padStart(n, c)] for a one-character filler. *)
Definition padStart (n : nat) (c : ascii) (s : string) : string :=
  String.append (replicate (n - String.length s) c) s.

(** [bigIntToHex(value)]: 64 characters, no [0x] prefix. *)
Definition bigIntToHex (value : Z) : string :=
  padStart 64 "0"%char (toString16 value).

Fixpoint parseHexAcc (s : string) (acc : Z) : option Z :=
  match s with
  | EmptyString => Some acc
  | String c r =>
      match hexVal c with
      | Some d => parseHexAcc r (acc * 16 + d)
      | None => None
      end
  end.

(** Whether [s] is white space only, as the grammar of numeric strings
    has it ([StrWhiteSpaceChar]: TAB, LF, VT, FF, CR, the space, U+00A0,
    U+1680, U+2000 to U+200A, U+2028, U+2029, U+202F, U+205F, U+3000 and
    U+FEFF), read off the UTF-8 bytes. *)
Fixpoint isStrWhiteSpace (s : string) : bool :=
  match s with
  | EmptyString => true
  | String c1 r1 =>
      let a := Z.of_N (N_of_ascii c1) in
      if ((9 <=? a) && (a <=? 13)) || (a =? 32) then isStrWhiteSpace r1
      else
        match r1 with
        | EmptyString => false
        | String c2 r2 =>
            let b := Z.of_N (N_of_ascii c2) in
            if (a =? 194) && (b =? 160) then isStrWhiteSpace r2
            else
              match r2 with
              | EmptyString => false
              | String c3 r3 =>
                  let d := Z.of_N (N_of_ascii c3) in
                  if ((a =? 225) && (b =? 154) && (d =? 128))
                     || ((a =? 226) && (b =? 128)
                         && (((128 <=? d) && (d <=? 138))
                             || (d =? 168) || (d =? 169) || (d =? 175)))
                     || ((a =? 226) && (b =? 129) && (d =? 159))
                     || ((a =? 227) && (b =? 128) && (d =? 128))
                     || ((a =? 239) && (b =? 187) && (d =? 191))
                  then isStrWhiteSpace r3
                  else false
              end
        end
  end.

(** [s] without the white space at its end. *)
Fixpoint trimEnd (s : string) : string :=
  match s with
  | EmptyString => EmptyString
  | String c r => if isStrWhiteSpace s then EmptyString else String c (trimEnd r)
  end.

(** [BigInt('0x' + digits)]: the string starts with [0x], so it has to
    be a hexadecimal literal, followed by white space or by nothing; a
    [SyntaxError] ([None]) when no digit is left or something else than
    a digit comes before the white space at the end. *)
Definition parseHex (digits : string) : option Z :=
  match trimEnd digits with
  | EmptyString => None
  | literal => parseHexAcc literal 0
  end.

Definition startsWith0x (s : string) : bool :=
  match s with
  | String "0"%char (String "x"%char _) => true
  | _ => false
  end.

(** [hex.slice(2)]. *)
Definition slice2 (s : string) : string :=
  match s with
  | String _ (String _ r) => r
  | _ => EmptyString
  end.

(** [hexToBigInt(hex)]. *)
Definition hexToBigInt (hex : string) : option Z :=
  let cleanHex := if startsWith0x hex then slice2 hex else hex in
  parseHex cleanHex.

End Hex.

(* ================================================================== *)
(** * Shamir's secret sharing (packages/mpc/src/shamir.ts) *)
(* ================================================================== *)

Module Shamir.
Import Field.

(** [interface Share { x: number; y: string }]. *)
Record Share : Type := mkShare { x : Z; y : string }.

(** [randomFieldElement()], on the 32 bytes that [randomBytes(32)]
    returned. *)
Definition randomFieldElement (bytes : list Byte.byte) : Z :=
  Z.rem
    (fold_left (fun value byte =>
                  Z.lor (Z.shiftl value 8) (Z.of_N (Byte.to_N byte)))
               bytes 0)
    PRIME.

Fixpoint evaluateLoop (coefficients : list Z) (x result xPow : Z) : Z :=
  match coefficients with
  | [] => result
  | coef :: rest =>
      evaluateLoop rest x (Z.rem (result + coef * xPow) PRIME)
                   (Z.rem (xPow * x) PRIME)
  end.

(** [evaluatePolynomial(coefficients, x)]. *)
Definition evaluatePolynomial (coefficients : list Z) (x : Z) : Z :=
  normalize (evaluateLoop coefficients x 0 1).

(** The coefficient loop [for (let i = 1; i < threshold; i++)]: call
    number [i] of [randomFieldElement] reads the block [entropy i]. *)
Definition drawCoefficients (threshold : Z) (entropy : nat -> list Byte.byte)
  : list Z :=
  map (fun i => randomFieldElement (entropy i))
      (seq 1 (Z.to_nat (threshold - 1))).

(** The share loop [for (let i = 1; i <= totalShares; i++)]. *)
Definition shareLoop (coefficients : list Z) (totalShares : Z) : list Share :=
  map (fun i => let i := Z.of_nat i in
                mkShare i (Hex.bigIntToHex (evaluatePolynomial coefficients i)))
      (seq 1 (Z.to_nat totalShares)).

(** [splitSecret(secret, totalShares, threshold)]. *)
Definition splitSecret (secret : string) (totalShares threshold : Z)
    (entropy : nat -> list Byte.byte) : result (list Share) :=
  if threshold <? 2 then inl ThresholdTooSmall
  else if totalShares <? threshold then inl TotalBelowThreshold
  else if 255 <? totalShares then inl TooManyShares
  else
    match Hex.hexToBigInt secret with
    | None => inl SyntaxError
    | Some secretBigInt =>
        if PRIME <=? secretBigInt then inl SecretTooLarge
        else
          let coefficients := secretBigInt :: drawCoefficients threshold entropy in
          inr (shareLoop coefficients totalShares)
    end.

(** The inner loop over [j], which skips [j = i]. *)
Fixpoint basisLoop (i : nat) (xi : Z) (j : nat) (rest : list Share)
    (numerator denominator : Z) : Z * Z :=
  match rest with
  | [] => (numerator, denominator)
  | sj :: rest' =>
      if Nat.eqb i j then basisLoop i xi (S j) rest' numerator denominator
      else
        basisLoop i xi (S j) rest'
                  (Z.rem (numerator * (- x sj)) PRIME)
                  (Z.rem (denominator * (xi - x sj)) PRIME)
  end.

(** The outer loop over [i]; [todo] holds [shares[i..]]. *)
Fixpoint combineLoop (shares : list Share) (i : nat) (todo : list Share)
    (secret : Z) : result Z :=
  match todo with
  | [] => inr secret
  | si :: todo' =>
      match Hex.hexToBigInt (y si) with
      | None => inl SyntaxError
      | Some yi =>
          let (numerator, denominator) := basisLoop i (x si) 0 shares 1 1 in
          let numerator := normalize numerator in
          let denominator := normalize denominator in
          let lagrangeBasis :=
            Z.rem (numerator * modInverse denominator PRIME) PRIME in
          combineLoop shares (S i) todo' (Z.rem (secret + yi * lagrangeBasis) PRIME)
      end
  end.

(** [combineShares(shares)]. *)
Definition combineShares (shares : list Share) : result string :=
  if (List.length shares <? 2)%nat then inl TooFewShares
  else if negb (List.length (nodup Z.eq_dec (map x shares))
                =? List.length shares)%nat
  then inl DuplicateIndex
  else
    match combineLoop shares 0 shares 0 with
    | inl e => inl e
    | inr secret => inr (Hex.bigIntToHex (normalize secret))
    end.

End Shamir.

(** [combineShares] once more, for callers that pass shares whose [x]
    is any number: the wallet hands over the indices it was given.  On
    shares with integers as [x] it is [Shamir.combineShares] (lemma
    [combineShares_ofInteger]). *)
Module ShamirNumbers.
Import Field JsNumber.

(** [interface Share { x: number; y: string }]. *)
Record Share : Type := mkShare { x : number; y : string }.

(** The inner loop over [j]; [BigInt(shares[j].x)] is evaluated for
    every [j] but [i]. *)
Fixpoint basisLoop (i : nat) (xi : Z) (j : nat) (rest : list Share)
    (numerator denominator : Z) : result (Z * Z) :=
  match rest with
  | [] => inr (numerator, denominator)
  | sj :: rest' =>
      if Nat.eqb i j then basisLoop i xi (S j) rest' numerator denominator
      else
        match toBigInt (x sj) with
        | None => inl RangeError
        | Some xj =>
            basisLoop i xi (S j) rest'
                      (Z.rem (numerator * (- xj)) PRIME)
                      (Z.rem (denominator * (xi - xj)) PRIME)
        end
  end.

(** The outer loop over [i]: [BigInt(shares[i].x)] comes first, then
    [hexToBigInt(shares[i].y)], then the inner loop. *)
Fixpoint combineLoop (shares : list Share) (i : nat) (todo : list Share)
    (secret : Z) : result Z :=
  match todo with
  | [] => inr secret
  | si :: todo' =>
      match toBigInt (x si) with
      | None => inl RangeError
      | Some xi =>
          match Hex.hexToBigInt (y si) with
          | None => inl SyntaxError
          | Some yi =>
              match basisLoop i xi 0 shares 1 1 with
              | inl e => inl e
              | inr (numerator, denominator) =>
                  let numerator := normalize numerator in
                  let denominator := normalize denominator in
                  let lagrangeBasis :=
                    Z.rem (numerator * modInverse denominator PRIME) PRIME in
                  combineLoop shares (S i) todo'
                              (Z.rem (secret + yi * lagrangeBasis) PRIME)
              end
          end
      end
  end.

(** [combineShares(shares)]. *)
Definition combineShares (shares : list Share) : result string :=
  if (List.length shares <? 2)%nat then inl TooFewShares
  else if negb (List.length (distinctValues (map x shares))
                =? List.length shares)%nat
  then inl DuplicateIndex
  else
    match combineLoop shares 0 shares 0 with
    | inl e => inl e
    | inr secret => inr (Hex.bigIntToHex (normalize secret))
    end.

(** A share of [Shamir], whose [x] is an integer. *)
Definition ofInteger (s : Shamir.Share) : Share :=
  mkShare (Int (Shamir.x s)) (Shamir.y s).

(** Back: the share of [Shamir] behind a share whose [x] is an
    integer. *)
Definition toInteger (s : Share) : Shamir.Share :=
  Shamir.mkShare (match x s with Int v => v | _ => 0 end) (y s).

(** What the first turn of the outer loop throws when some [x] is not
    an integer: the first share is converted before its [y] is read,
    and the [x] of the others before the second [y]. *)
Definition firstThrown (shares : list Share) : Error :=
  match shares with
  | first :: _ =>
      match toBigInt (x first), Hex.hexToBigInt (y first) with
      | Some _, None => SyntaxError
      | _, _ => RangeError
      end
  | [] => RangeError
  end.

End ShamirNumbers.

(* ================================================================== *)
(** * Integer polynomials as coefficient lists *)
(* ================================================================== *)

Module Poly.

(** The value at [x] of the polynomial with coefficients [cs], constant
    term first. *)
Fixpoint peval (cs : list Z) (x : Z) : Z :=
  match cs with
  | [] => 0
  | c :: cs' => c + x * peval cs' x
  end.

Fixpoint padd (a b : list Z) : list Z :=
  match a, b with
  | [], _ => b
  | _, [] => a
  | ca :: a', cb :: b' => (ca + cb) :: padd a' b'
  end.

Definition pscale (k : Z) (a : list Z) : list Z := map (Z.mul k) a.

(** [(X - r) * a]. *)
Definition pmulX (r : Z) (a : list Z) : list Z :=
  padd (0 :: a) (pscale (- r) a).

(** The quotient of [a] by [X - r] (synthetic division). *)
Fixpoint pdiv (a : list Z) (r : Z) : list Z :=
  match a with
  | [] => []
  | _ :: a' =>
      match a' with
      | [] => []
      | _ => peval a' r :: pdiv a' r
      end
  end.

(** [prod_j (X - x_j)]. *)
Definition prodX (X : Z) (xs : list Z) : Z :=
  fold_right (fun xj acc => (X - xj) * acc) 1 xs.

(** The coefficients of [prod_j (X - x_j)]. *)
Definition prodPoly (xs : list Z) : list Z :=
  fold_right pmulX [1] xs.

(** Pairwise distinct modulo [p]. *)
Fixpoint distinct_mod (p : Z) (rs : list Z) : Prop :=
  match rs with
  | [] => True
  | r :: rs' => (forall r', In r' rs' -> ~ (p | r' - r)) /\ distinct_mod p rs'
  end.

End Poly.

(* ================================================================== *)
(** * The interpolation sum of [combineShares] *)
(* ================================================================== *)

Module Lagrange.
Import Field Shamir Poly.

(** The factor [modInverse(denominator, PRIME)] of the basis value of the
    share at [xi], the other shares being at [others]. *)
Definition cinv (xi : Z) (others : list Z) : Z :=
  modInverse (prodX xi others mod PRIME) PRIME.

(** The sum that [combineShares] accumulates, as a function of the
    evaluation point [X] ([combineShares] takes [X = 0]); [yv] reads the
    value of a share. *)
Fixpoint terms (yv : Share -> Z) (done : list Z) (todo : list Share) (X : Z) : Z :=
  match todo with
  | [] => 0
  | si :: r =>
      let others := done ++ map x r in
      yv si * cinv (x si) others * prodX X others
      + terms yv (done ++ [x si]) r X
  end.

Fixpoint termsPoly (yv : Share -> Z) (done : list Z) (todo : list Share) : list Z :=
  match todo with
  | [] => []
  | si :: r =>
      let others := done ++ map x r in
      padd (pscale (yv si * cinv (x si) others) (prodPoly others))
           (termsPoly yv (done ++ [x si]) r)
  end.

(** What the inner loop of [combineShares] returns for the share at
    [xi]: the two products over the other shares, up to congruence. *)
Definition basis_ok (xi : Z) (r : Z * Z) (num den : Z) (others : list Z) : Prop :=
  fst r mod Field.PRIME = (num * prodX 0 others) mod Field.PRIME
  /\ snd r mod Field.PRIME = (den * prodX xi others) mod Field.PRIME.

End Lagrange.

(* ================================================================== *)
(** * Primality certificates *)
(* ================================================================== *)

Module Primality.

(** Trial division: [d] runs from 2 upward until [d * d > n]. *)
Fixpoint no_divisor_from (fuel : nat) (d n : Z) : bool :=
  match fuel with
  | O => false
  | S fuel' =>
      if n <? d * d then true
      else if n mod d =? 0 then false
      else no_divisor_from fuel' (d + 1) n
  end.

Definition prime_trial (n : Z) : bool :=
  (1 <? n) && no_divisor_from (Z.to_nat (Z.sqrt n)) 2 n.

(** One line of a Pocklington certificate for [n]: a prime divisor [q] of
    [n - 1] and a base [a] with [a^(n-1) = 1] and
    [gcd (a^((n-1)/q) - 1) n = 1] modulo [n]. *)
Definition pock_line (n : Z) (qa : Z * Z) : bool :=
  let (q, a) := qa in
  (0 <=? a) && ((n - 1) mod q =? 0)
  && (Field.modPow a (n - 1) n =? 1)
  && (Z.gcd (Field.modPow a ((n - 1) / q) n - 1) n =? 1).

Fixpoint distinct (l : list Z) : bool :=
  match l with
  | [] => true
  | x :: r => negb (existsb (Z.eqb x) r) && distinct r
  end.

Definition product (l : list Z) : Z := fold_right Z.mul 1 l.

Definition pock_check (n : Z) (cert : list (Z * Z)) : bool :=
  (1 <? n) && forallb (pock_line n) cert
  && distinct (map fst cert)
  && (n <? product (map fst cert) * product (map fst cert)).

End Primality.

(* ================================================================== *)
(** * SHA-256 and Keccak-256 (@noble/hashes) *)
(* ================================================================== *)

(** The two hash functions the sources import, written after FIPS 180-4
    and the Keccak submission (the padding byte of [keccak_256] is
    [0x01]); bytes are numbers in [0..255]. *)
Module Hash.

Definition bytesToZ (bs : list byte) : list Z :=
  map (fun b => Z.of_N (Byte.to_N b)) bs.

Definition zToByte (v : Z) : byte :=
  match Byte.of_N (Z.to_N (v mod 256)) with
  | Some b => b
  | None => x00
  end.

(** A number as [n] bytes, most significant first. *)
Fixpoint bigEndian (n : nat) (v : Z) : list Z :=
  match n with
  | O => []
  | S n' => bigEndian n' (v / 256) ++ [v mod 256]
  end.

(** A number as [n] bytes, least significant first. *)
Fixpoint littleEndian (n : nat) (v : Z) : list Z :=
  match n with
  | O => []
  | S n' => (v mod 256) :: littleEndian n' (v / 256)
  end.

Definition fromBigEndian (bs : list Z) : Z :=
  fold_left (fun acc b => acc * 256 + b) bs 0.

Definition fromLittleEndian (bs : list Z) : Z :=
  fold_right (fun b acc => b + 256 * acc) 0 bs.

(** Cut a list into chunks of [n] elements ([fuel] bounds their number). *)
Fixpoint chunks {A} (fuel n : nat) (l : list A) : list (list A) :=
  match fuel with
  | O => []
  | S fuel' =>
      match l with
      | [] => []
      | _ => firstn n l :: chunks fuel' n (skipn n l)
      end
  end.

Module Sha256.

Definition w32 (v : Z) : Z := v mod 2 ^ 32.
Definition add32 (a b : Z) : Z := w32 (a + b).
Definition rotr (n v : Z) : Z :=
  w32 (Z.lor (Z.shiftr v n) (Z.shiftl v (32 - n))).
Definition not32 (v : Z) : Z := 2 ^ 32 - 1 - v.

Definition Ch (e f g : Z) : Z := Z.lxor (Z.land e f) (Z.land (not32 e) g).
Definition Maj (a b c : Z) : Z :=
  Z.lxor (Z.lxor (Z.land a b) (Z.land a c)) (Z.land b c).
Definition Sigma0 (a : Z) : Z := Z.lxor (Z.lxor (rotr 2 a) (rotr 13 a)) (rotr 22 a).
Definition Sigma1 (e : Z) : Z := Z.lxor (Z.lxor (rotr 6 e) (rotr 11 e)) (rotr 25 e).
Definition sigma0 (v : Z) : Z := Z.lxor (Z.lxor (rotr 7 v) (rotr 18 v)) (Z.shiftr v 3).
Definition sigma1 (v : Z) : Z := Z.lxor (Z.lxor (rotr 17 v) (rotr 19 v)) (Z.shiftr v 10).

(** The integer cube root, bit by bit from bit [n - 1] down. *)
Fixpoint icbrt (n : nat) (v acc : Z) : Z :=
  match n with
  | O => acc
  | S n' =>
      let cand := acc + 2 ^ Z.of_nat n' in
      if cand * cand * cand <=? v then icbrt n' v cand else icbrt n' v acc
  end.

(** The first 64 prime numbers. *)
Definition primes64 : list Z := Eval vm_compute in
  filter Primality.prime_trial (map Z.of_nat (seq 2 310)).

(** The round constants: the first 32 bits of the fractional parts of
    the cube roots of the first 64 primes (FIPS 180-4, 4.2.2). *)
Definition K : list Z := Eval vm_compute in
  map (fun p => w32 (icbrt 42 (p * 2 ^ 96) 0)) primes64.

(** The initial hash value: the first 32 bits of the fractional parts
    of the square roots of the first 8 primes (FIPS 180-4, 5.3.3). *)
Definition H0 : list Z := Eval vm_compute in
  map (fun p => w32 (Z.sqrt (p * 2 ^ 64))) (firstn 8 primes64).

(** [msg || 0x80 || 0...0 || bit length (8 bytes)], a multiple of 64
    bytes. *)
Definition pad (msg : list Z) : list Z :=
  let len := Z.of_nat (List.length msg) in
  let zeros := Z.to_nat ((55 - len) mod 64) in
  msg ++ [0x80] ++ List.repeat 0 zeros ++ bigEndian 8 (8 * len).

(** The message schedule: [w] holds the words so far, latest first. *)
Fixpoint schedule (n : nat) (w : list Z) : list Z :=
  match n with
  | O => w
  | S n' =>
      let next :=
        add32 (add32 (sigma1 (nth 1 w 0)) (nth 6 w 0))
              (add32 (sigma0 (nth 14 w 0)) (nth 15 w 0)) in
      schedule n' (next :: w)
  end.

Definition round (st : list Z) (kw : Z * Z) : list Z :=
  match st with
  | [a; b; c; d; e; f; g; h] =>
      let t1 := add32 (add32 (add32 h (Sigma1 e)) (add32 (Ch e f g) (fst kw)))
                      (snd kw) in
      let t2 := add32 (Sigma0 a) (Maj a b c) in
      [add32 t1 t2; a; b; c; add32 d t1; e; f; g]
  | _ => st
  end.

Definition compress (h : list Z) (block : list Z) : list Z :=
  let w0 := map fromBigEndian (chunks 16 4 block) in
  let w := rev (schedule 48 (rev w0)) in
  let st := fold_left round (combine K w) h in
  map (fun p => add32 (fst p) (snd p)) (combine h st).

Definition sha256Z (msg : list Z) : list Z :=
  let p := pad msg in
  let h := fold_left compress (chunks (List.length p) 64 p) H0 in
  flat_map (bigEndian 4) h.

End Sha256.

(** [sha256(bytes)]. *)
Definition sha256 (msg : list byte) : list byte :=
  map zToByte (Sha256.sha256Z (bytesToZ msg)).

Module Keccak.

Definition w64 (v : Z) : Z := v mod 2 ^ 64.
Definition rotl (n v : Z) : Z :=
  w64 (Z.lor (Z.shiftl v n) (Z.shiftr v (64 - n))).
Definition not64 (v : Z) : Z := 2 ^ 64 - 1 - v.

(** Lane [(x, y)] of the state is element [x + 5 * y]. *)
Definition lane (st : list Z) (x y : nat) : Z :=
  nth ((x mod 5) + 5 * (y mod 5)) st 0.

Definition idx : list nat := seq 0 25.

Definition theta (st : list Z) : list Z :=
  let c := map (fun x => fold_left Z.lxor
                           (map (fun y => lane st x y) (seq 0 5)) 0)
               (seq 0 5) in
  let d := map (fun x => Z.lxor (nth ((x + 4) mod 5) c 0)
                                (rotl 1 (nth ((x + 1) mod 5) c 0)))
               (seq 0 5) in
  map (fun i => Z.lxor (nth i st 0) (nth (i mod 5) d 0)) idx.

(** Rotation offsets, indexed by [x + 5 * y]. *)
Definition rotc : list Z :=
  [ 0;  1; 62; 28; 27;
   36; 44;  6; 55; 20;
    3; 10; 43; 25; 39;
   41; 45; 15; 21;  8;
   18;  2; 61; 56; 14].

(** [rho] and [pi]: lane [(x, y)] rotated goes to [(y, 2x + 3y)]; read
    backwards, the new lane [(X, Y)] comes from [(X + 3Y, X)]. *)
Definition rhopi (st : list Z) : list Z :=
  map (fun i =>
         let X := (i mod 5)%nat in
         let Y := (i / 5)%nat in
         let x := ((X + 3 * Y) mod 5)%nat in
         let y := X in
         rotl (nth (x + 5 * y) rotc 0) (lane st x y))
      idx.

Definition chi (st : list Z) : list Z :=
  map (fun i =>
         let x := (i mod 5)%nat in
         let y := (i / 5)%nat in
         Z.lxor (lane st x y)
                (Z.land (not64 (lane st (x + 1) y)) (lane st (x + 2) y)))
      idx.

Definition RC : list Z :=
  [0x0000000000000001; 0x0000000000008082; 0x800000000000808A;
   0x8000000080008000; 0x000000000000808B; 0x0000000080000001;
   0x8000000080008081; 0x8000000000008009; 0x000000000000008A;
   0x0000000000000088; 0x0000000080008009; 0x000000008000000A;
   0x000000008000808B; 0x800000000000008B; 0x8000000000008089;
   0x8000000000008003; 0x8000000000008002; 0x8000000000000080;
   0x000000000000800A; 0x800000008000000A; 0x8000000080008081;
   0x8000000000008080; 0x0000000080000001; 0x8000000080008008].

Definition iota (rc : Z) (st : list Z) : list Z :=
  match st with
  | l0 :: rest => Z.lxor l0 rc :: rest
  | [] => []
  end.

Definition keccakRound (st : list Z) (rc : Z) : list Z :=
  iota rc (chi (rhopi (theta st))).

Definition keccakF (st : list Z) : list Z := fold_left keccakRound RC st.

(** The rate of Keccak-256 in bytes. *)
Definition rate : nat := 136.

(** [msg || 0x01 || 0...0 || 0x80] (one byte [0x81] when a single byte
    is missing), a multiple of the rate. *)
Definition pad (msg : list Z) : list Z :=
  let q := (rate - (List.length msg mod rate))%nat in
  match q with
  | 1%nat => msg ++ [0x81]
  | _ => msg ++ [0x01] ++ List.repeat 0 (q - 2) ++ [0x80]
  end.

Definition absorb (st : list Z) (block : list Z) : list Z :=
  let lanes := map fromLittleEndian (chunks 17 8 block) ++ List.repeat 0 8 in
  keccakF (map (fun p => Z.lxor (fst p) (snd p)) (combine st lanes)).

Definition keccak256Z (msg : list Z) : list Z :=
  let p := pad msg in
  let st := fold_left absorb (chunks (List.length p) rate p) (List.repeat 0 25) in
  firstn 32 (flat_map (littleEndian 8) st).

End Keccak.

(** [keccak_256(bytes)]. *)
Definition keccak_256 (msg : list byte) : list byte :=
  map zToByte (Keccak.keccak256Z (bytesToZ msg)).

(** [Array.from(bytes).map(b => b.toString(16).padStart(2, '0')).join('')]. *)
Fixpoint bytesToHex (bs : list byte) : string :=
  match bs with
  | [] => EmptyString
  | b :: r =>
      let v := Z.of_N (Byte.to_N b) in
      String (Hex.hexDigit (v / 16))
             (String (Hex.hexDigit (v mod 16)) (bytesToHex r))
  end.

End Hash.

(* ================================================================== *)
(** * JavaScript [Map] with string keys *)
(* ================================================================== *)

(** A [Map] keeps its entries in insertion order; [set] on a present key
    replaces the value in place. *)
Module JsMap.

Definition t (V : Type) : Type := list (string * V).

Definition empty {V} : t V := [].

Fixpoint get {V} (k : string) (m : t V) : option V :=
  match m with
  | [] => None
  | (k', v) :: r => if String.eqb k k' then Some v else get k r
  end.

Fixpoint set {V} (k : string) (v : V) (m : t V) : t V :=
  match m with
  | [] => [(k, v)]
  | (k', v') :: r =>
      if String.eqb k k' then (k, v) :: r else (k', v') :: set k v r
  end.

Definition delete {V} (k : string) (m : t V) : t V :=
  filter (fun e => negb (String.eqb k (fst e))) m.

Definition values {V} (m : t V) : list V := map snd m.

End JsMap.

(* ================================================================== *)
(** * Guardian manager (packages/social-recovery/src/guardian.ts) *)
(* ================================================================== *)

Module Guardian.

Inductive GuardianStatus : Type := pending | accepted | declined | revoked.

Inductive ContactType : Type := email | phone | wallet | other.

Record Guardian : Type := mkGuardian {
  id : string;
  name : string;
  contact : string;
  contactType : ContactType;
  shareIndex : Z;
  status : GuardianStatus;
  addedAt : Z;
  acceptedAt : option Z;
  publicKey : option string;
  verificationHash : option string
}.

Record GuardianInvite : Type := mkInvite {
  inv_id : string;
  inv_guardianId : string;
  inv_walletAddress : string;
  inv_ownerName : string;
  inv_threshold : Z;
  inv_totalGuardians : Z;
  inv_encryptedShare : string;
  inv_verificationCode : string;
  inv_expiresAt : Z;
  inv_createdAt : Z
}.

Record GuardianResponse : Type := mkResponse {
  resp_inviteId : string;
  resp_guardianId : string;
  resp_accepted : bool;
  resp_publicKey : option string;
  resp_verificationCode : string;
  resp_respondedAt : Z
}.

(** The parameter object of [createInvite]. *)
Record InviteParams : Type := mkInviteParams {
  p_guardianId : string;
  p_walletAddress : string;
  p_ownerName : string;
  p_threshold : Z;
  p_totalGuardians : Z;
  p_encryptedShare : string;
  p_expirationDays : option Z
}.

(** [class GuardianManager]: its two private maps. *)
Record GuardianManager : Type := mkManager {
  guardians : JsMap.t Guardian;
  pendingInvites : JsMap.t GuardianInvite
}.

(** [new GuardianManager()]. *)
Definition newManager : GuardianManager := mkManager JsMap.empty JsMap.empty.

(** [generateId()], on the bytes of [randomBytes(16)]. *)
Definition generateId (bytes : list byte) : string := Hash.bytesToHex bytes.

(** The decimal digits of a non-negative integer ([Number.toString()]). *)
Fixpoint decDigits (fuel : nat) (v : Z) : string :=
  match fuel with
  | O => EmptyString
  | S fuel' =>
      String.append
        (if v / 10 =? 0 then EmptyString else decDigits fuel' (v / 10))
        (String (ascii_of_N (Z.to_N (48 + v mod 10))) EmptyString)
  end.

Definition toString10 (v : Z) : string :=
  decDigits (S (Z.to_nat (Z.log2 v))) v.

(** The 32-bit signed integer that JavaScript's bitwise operators return. *)
Definition toInt32 (v : Z) : Z :=
  let m := v mod 2 ^ 32 in
  if 2 ^ 31 <=? m then m - 2 ^ 32 else m.

Definition byteAt (bytes : list byte) (i : nat) : Z :=
  Z.of_N (Byte.to_N (nth i bytes x00)).

(** [generateVerificationCode()], on the bytes of [randomBytes(4)]. *)
Definition generateVerificationCode (bytes : list byte) : string :=
  let num :=
    toInt32 (Z.lor (Z.lor (Z.lor (toInt32 (Z.shiftl (byteAt bytes 0) 24))
                                 (toInt32 (Z.shiftl (byteAt bytes 1) 16)))
                          (toInt32 (Z.shiftl (byteAt bytes 2) 8)))
                   (byteAt bytes 3)) in
  Hex.padStart 6 "0"%char (toString10 (Z.abs num mod 1000000)).

(** [hashVerificationCode(code)]: [TextEncoder] gives the UTF-8 bytes
    that the string holds. *)
Definition hashVerificationCode (code : string) : string :=
  Hash.bytesToHex (Hash.sha256 (list_byte_of_string code)).

Definition set_verificationHash (h : string) (g : Guardian) : Guardian :=
  mkGuardian (id g) (name g) (contact g) (contactType g) (shareIndex g)
             (status g) (addedAt g) (acceptedAt g) (publicKey g) (Some h).

Definition set_status (s : GuardianStatus) (g : Guardian) : Guardian :=
  mkGuardian (id g) (name g) (contact g) (contactType g) (shareIndex g)
             s (addedAt g) (acceptedAt g) (publicKey g) (verificationHash g).

Definition set_acceptedAt (t : Z) (g : Guardian) : Guardian :=
  mkGuardian (id g) (name g) (contact g) (contactType g) (shareIndex g)
             (status g) (addedAt g) (Some t) (publicKey g) (verificationHash g).

Definition set_publicKey (k : string) (g : Guardian) : Guardian :=
  mkGuardian (id g) (name g) (contact g) (contactType g) (shareIndex g)
             (status g) (addedAt g) (acceptedAt g) (Some k) (verificationHash g).

(** [addGuardian(params)]; [idBytes] is what [randomBytes(16)] returned
    and [clock 0] the reading of [Date.now()]. *)
Definition addGuardian (name0 contact0 : string) (contactType0 : ContactType)
    (shareIndex0 : Z) (publicKey0 : option string)
    (idBytes : list byte) (clock : nat -> Z) (m : GuardianManager)
  : Guardian * GuardianManager :=
  let guardian :=
    mkGuardian (generateId idBytes) name0 contact0 contactType0 shareIndex0
               pending (clock 0%nat) None publicKey0 None in
  (guardian,
   mkManager (JsMap.set (id guardian) guardian (guardians m)) (pendingInvites m)).

(** [getGuardian(id)]. *)
Definition getGuardian (gid : string) (m : GuardianManager) : option Guardian :=
  JsMap.get gid (guardians m).

(** [createInvite(params)]; [codeBytes] and [idBytes] are the results of
    [randomBytes(4)] and [randomBytes(16)], [clock k] is reading number
    [k] of [Date.now()] during the call. *)
Definition createInvite (params : InviteParams) (codeBytes idBytes : list byte)
    (clock : nat -> Z) (m : GuardianManager)
  : result GuardianInvite * GuardianManager :=
  match JsMap.get (p_guardianId params) (guardians m) with
  | None => (inl GuardianNotFound, m)
  | Some guardian =>
      let verificationCode := generateVerificationCode codeBytes in
      let guardian' :=
        set_verificationHash (hashVerificationCode verificationCode) guardian in
      let days := match p_expirationDays params with Some d => d | None => 7 end in
      let invite :=
        mkInvite (generateId idBytes) (p_guardianId params)
                 (p_walletAddress params) (p_ownerName params)
                 (p_threshold params) (p_totalGuardians params)
                 (p_encryptedShare params) verificationCode
                 (clock 0%nat + days * 24 * 60 * 60 * 1000) (clock 1%nat) in
      (inr invite,
       mkManager (JsMap.set (p_guardianId params) guardian' (guardians m))
                 (JsMap.set (inv_id invite) invite (pendingInvites m)))
  end.

Definition option_string_eqb (a b : option string) : bool :=
  match a, b with
  | Some s1, Some s2 => String.eqb s1 s2
  | None, None => true
  | _, _ => false
  end.

(** [processResponse(response)]. *)
Definition processResponse (response : GuardianResponse) (clock : nat -> Z)
    (m : GuardianManager) : result bool * GuardianManager :=
  match JsMap.get (resp_inviteId response) (pendingInvites m) with
  | None => (inl InviteNotFound, m)
  | Some invite =>
      if inv_expiresAt invite <? clock 0%nat then
        (inl InviteExpired,
         mkManager (guardians m) (JsMap.delete (inv_id invite) (pendingInvites m)))
      else
        match JsMap.get (resp_guardianId response) (guardians m) with
        | None => (inl GuardianNotFound, m)
        | Some guardian =>
            let providedHash :=
              hashVerificationCode (resp_verificationCode response) in
            if negb (option_string_eqb (Some providedHash)
                                       (verificationHash guardian))
            then (inl BadCode, m)
            else
              let guardian' :=
                if resp_accepted response then
                  let g1 := set_acceptedAt (clock 1%nat)
                                           (set_status accepted guardian) in
                  match resp_publicKey response with
                  | Some pk =>
                      if String.eqb pk EmptyString then g1 else set_publicKey pk g1
                  | None => g1
                  end
                else set_status declined guardian in
              (inr (resp_accepted response),
               mkManager
                 (JsMap.set (resp_guardianId response) guardian' (guardians m))
                 (JsMap.delete (inv_id invite) (pendingInvites m)))
        end
  end.

End Guardian.

(* ================================================================== *)
(** * Recovery manager (packages/social-recovery/src/recovery.ts) *)
(* ================================================================== *)

(** Every method takes the readings of [Date.now()] it makes as
    [clock 0], [clock 1], ... in the order of the calls, and returns the
    manager as the call leaves it, also when the call throws. *)
Module Recovery.

Inductive RecoveryStatus : Type :=
  pending | approved | ready | executed | cancelled | expired.

Definition status_eqb (a b : RecoveryStatus) : bool :=
  match a, b with
  | pending, pending | approved, approved | ready, ready
  | executed, executed | cancelled, cancelled | expired, expired => true
  | _, _ => false
  end.

Record GuardianApproval : Type := mkApproval {
  guardianId : string;
  shareIndex : Z;
  shareValue : string;
  approvedAt : Z;
  signature : option string
}.

Record RecoveryRequest : Type := mkRequest {
  id : string;
  walletAddress : string;
  keyId : string;
  initiator : string;
  reason : string;
  status : RecoveryStatus;
  threshold : Z;
  approvals : list GuardianApproval;
  timelockMs : Z;
  createdAt : Z;
  req_approvedAt : option Z;
  timelockExpiresAt : option Z;
  expiresAt : Z;
  executedAt : option Z;
  recoveredSecret : option string
}.

Record RecoveryConfig : Type := mkConfig {
  timelockHours : Z;
  expirationDays : Z;
  notifyOwner : bool;
  cooldownHours : Z
}.

Definition DEFAULT_CONFIG : RecoveryConfig := mkConfig 48 7 true 24.

(** [class RecoveryManager]: its private fields. *)
Record RecoveryManager : Type := mkManager {
  requests : JsMap.t RecoveryRequest;
  config : RecoveryConfig;
  lastAttempt : JsMap.t Z
}.

(** [new RecoveryManager(config)], [{ ...DEFAULT_CONFIG, ...config }]:
    the fields that [config] gives override the defaults. *)
Definition newManager (timelockHours0 expirationDays0 : option Z)
    (notifyOwner0 : option bool) (cooldownHours0 : option Z)
  : RecoveryManager :=
  mkManager JsMap.empty
    (mkConfig
       (match timelockHours0 with Some h => h | None => timelockHours DEFAULT_CONFIG end)
       (match expirationDays0 with Some d => d | None => expirationDays DEFAULT_CONFIG end)
       (match notifyOwner0 with Some b => b | None => notifyOwner DEFAULT_CONFIG end)
       (match cooldownHours0 with Some h => h | None => cooldownHours DEFAULT_CONFIG end))
    JsMap.empty.

Definition set_status (s : RecoveryStatus) (r : RecoveryRequest) : RecoveryRequest :=
  mkRequest (id r) (walletAddress r) (keyId r) (initiator r) (reason r) s
            (threshold r) (approvals r) (timelockMs r) (createdAt r)
            (req_approvedAt r) (timelockExpiresAt r) (expiresAt r)
            (executedAt r) (recoveredSecret r).

Definition set_approvals (a : list GuardianApproval) (r : RecoveryRequest)
  : RecoveryRequest :=
  mkRequest (id r) (walletAddress r) (keyId r) (initiator r) (reason r)
            (status r) (threshold r) a (timelockMs r) (createdAt r)
            (req_approvedAt r) (timelockExpiresAt r) (expiresAt r)
            (executedAt r) (recoveredSecret r).

(** [status = 'approved'; approvedAt = t1; timelockExpiresAt = t2]. *)
Definition set_approved (t1 t2 : Z) (r : RecoveryRequest) : RecoveryRequest :=
  mkRequest (id r) (walletAddress r) (keyId r) (initiator r) (reason r)
            approved (threshold r) (approvals r) (timelockMs r) (createdAt r)
            (Some t1) (Some t2) (expiresAt r)
            (executedAt r) (recoveredSecret r).

(** [status = 'executed'; executedAt = t; recoveredSecret = s]. *)
Definition set_executed (t : Z) (s : string) (r : RecoveryRequest)
  : RecoveryRequest :=
  mkRequest (id r) (walletAddress r) (keyId r) (initiator r) (reason r)
            executed (threshold r) (approvals r) (timelockMs r) (createdAt r)
            (req_approvedAt r) (timelockExpiresAt r) (expiresAt r)
            (Some t) (Some s).

Definition set_shareValue (v : string) (a : GuardianApproval) : GuardianApproval :=
  mkApproval (guardianId a) (shareIndex a) v (approvedAt a) (signature a).

(** The truth value of [request.timelockExpiresAt && now >= ...]: an
    unset field and the number 0 are both falsy. *)
Definition timelockPassed (now : Z) (r : RecoveryRequest) : bool :=
  match timelockExpiresAt r with
  | Some t => negb (t =? 0) && (t <=? now)
  | None => false
  end.

(** [updateRequestStatus(request)] with [now] the reading of
    [Date.now()]. *)
Definition updateRequestStatus (now : Z) (r : RecoveryRequest) : RecoveryRequest :=
  if (expiresAt r <? now) && negb (status_eqb (status r) executed)
  then set_status expired r
  else if status_eqb (status r) approved && timelockPassed now r
  then set_status ready r
  else r.

(** [validateRequestStatus(request, allowedStatuses)]: the request as
    updated, and whether the call throws. *)
Definition validateRequestStatus (now : Z) (r : RecoveryRequest)
    (allowedStatuses : list RecoveryStatus) : result unit * RecoveryRequest :=
  let r' := updateRequestStatus now r in
  if existsb (status_eqb (status r')) allowedStatuses
  then (inr tt, r')
  else (inl InvalidState, r').

(** The request object found under [requestId] is changed in place:
    the entry of the map now holds [r]. *)
Definition store (requestId : string) (r : RecoveryRequest) (m : RecoveryManager)
  : RecoveryManager :=
  mkManager (JsMap.set requestId r (requests m)) (config m) (lastAttempt m).

(** [addApproval(requestId, approval)]; the [approvedAt] field of the
    argument is not read. *)
Definition addApproval (requestId : string) (approval : GuardianApproval)
    (clock : nat -> Z) (m : RecoveryManager)
  : result RecoveryRequest * RecoveryManager :=
  match JsMap.get requestId (requests m) with
  | None => (inl RequestNotFound, m)
  | Some request =>
      match validateRequestStatus (clock 0%nat) request [pending; approved] with
      | (inl e, r1) => (inl e, store requestId r1 m)
      | (inr _, r1) =>
          if existsb (fun a => String.eqb (guardianId a) (guardianId approval))
                     (approvals r1)
          then (inl DuplicateGuardian, store requestId r1 m)
          else
            let r2 :=
              set_approvals
                (approvals r1 ++
                 [mkApproval (guardianId approval) (shareIndex approval)
                             (shareValue approval) (clock 1%nat)
                             (signature approval)]) r1 in
            let r3 :=
              if (threshold r2 <=? Z.of_nat (List.length (approvals r2)))
                 && status_eqb (status r2) pending
              then set_approved (clock 2%nat) (clock 3%nat + timelockMs r2) r2
              else r2 in
            (inr r3, store requestId r3 m)
      end
  end.

(** [isReadyForExecution(requestId)]. *)
Definition isReadyForExecution (requestId : string) (clock : nat -> Z)
    (m : RecoveryManager) : bool * RecoveryManager :=
  match JsMap.get requestId (requests m) with
  | None => (false, m)
  | Some request =>
      let r1 := updateRequestStatus (clock 0%nat) request in
      (status_eqb (status r1) ready, store requestId r1 m)
  end.

(** [executeRecovery(requestId)]: the status is updated twice, by the
    call of [updateRequestStatus] and inside [validateRequestStatus]. *)
Definition executeRecovery (requestId : string) (clock : nat -> Z)
    (m : RecoveryManager) : result string * RecoveryManager :=
  match JsMap.get requestId (requests m) with
  | None => (inl RequestNotFound, m)
  | Some request =>
      let r0 := updateRequestStatus (clock 0%nat) request in
      match validateRequestStatus (clock 1%nat) r0 [ready] with
      | (inl e, r1) => (inl e, store requestId r1 m)
      | (inr _, r1) =>
          let shares :=
            map (fun a => Shamir.mkShare (shareIndex a) (shareValue a))
                (approvals r1) in
          match Shamir.combineShares shares with
          | inl e => (inl e, store requestId r1 m)
          | inr secret =>
              (inr secret, store requestId (set_executed (clock 2%nat) secret r1) m)
          end
      end
  end.

(** [cancelRecovery(requestId)]. *)
Definition cancelRecovery (requestId : string) (clock : nat -> Z)
    (m : RecoveryManager) : result unit * RecoveryManager :=
  match JsMap.get requestId (requests m) with
  | None => (inl RequestNotFound, m)
  | Some request =>
      match validateRequestStatus (clock 0%nat) request
                                  [pending; approved; ready] with
      | (inl e, r1) => (inl e, store requestId r1 m)
      | (inr _, r1) =>
          let r2 := set_status cancelled r1 in
          let r3 := set_approvals
                      (map (set_shareValue EmptyString) (approvals r2)) r2 in
          (inr tt, store requestId r3 m)
      end
  end.

(** [getRequest(requestId)]. *)
Definition getRequest (requestId : string) (clock : nat -> Z)
    (m : RecoveryManager) : option RecoveryRequest * RecoveryManager :=
  match JsMap.get requestId (requests m) with
  | None => (None, m)
  | Some request =>
      let r1 := updateRequestStatus (clock 0%nat) request in
      (Some r1, store requestId r1 m)
  end.

Definition isOpen (s : RecoveryStatus) : bool :=
  existsb (status_eqb s) [pending; approved; ready].

(** The loop of [getPendingRequest] over [requests.values()]: request
    number [k] of the scan is updated at [clock k]; the scan stops at the
    first match and leaves the later requests as they are. *)
Fixpoint pendingScan (walletAddress0 : string) (clock : nat -> Z) (k : nat)
    (entries : JsMap.t RecoveryRequest)
  : option RecoveryRequest * JsMap.t RecoveryRequest :=
  match entries with
  | [] => (None, [])
  | (key, request) :: rest =>
      let r1 := updateRequestStatus (clock k) request in
      if String.eqb (walletAddress r1) walletAddress0 && isOpen (status r1)
      then (Some r1, (key, r1) :: rest)
      else
        let (found, rest') := pendingScan walletAddress0 clock (S k) rest in
        (found, (key, r1) :: rest')
  end.

(** [getPendingRequest(walletAddress)]. *)
Definition getPendingRequest (walletAddress0 : string) (clock : nat -> Z)
    (m : RecoveryManager) : option RecoveryRequest * RecoveryManager :=
  let (found, entries) := pendingScan walletAddress0 clock 0 (requests m) in
  (found, mkManager entries (config m) (lastAttempt m)).

(** The loop of [getRequestsForWallet]: only the requests of the wallet
    are updated, each at its own reading of the clock. *)
Fixpoint walletScan (walletAddress0 : string) (clock : nat -> Z) (k : nat)
    (entries : JsMap.t RecoveryRequest)
  : list RecoveryRequest * JsMap.t RecoveryRequest :=
  match entries with
  | [] => ([], [])
  | (key, request) :: rest =>
      if String.eqb (walletAddress request) walletAddress0 then
        let r1 := updateRequestStatus (clock k) request in
        let (found, rest') := walletScan walletAddress0 clock (S k) rest in
        (r1 :: found, (key, r1) :: rest')
      else
        let (found, rest') := walletScan walletAddress0 clock k rest in
        (found, (key, request) :: rest')
  end.

(** [results.sort((a, b) => b.createdAt - a.createdAt)], newest first;
    the sort is stable, so requests created at the same time keep the
    order of the scan: [r], which the scan met before the requests of
    [sorted], goes in front of the first one that is not newer. *)
Fixpoint insertByCreatedAt (r : RecoveryRequest) (sorted : list RecoveryRequest)
  : list RecoveryRequest :=
  match sorted with
  | [] => [r]
  | r' :: rest =>
      if createdAt r' <=? createdAt r then r :: sorted
      else r' :: insertByCreatedAt r rest
  end.

(** [getRequestsForWallet(walletAddress)]. *)
Definition getRequestsForWallet (walletAddress0 : string) (clock : nat -> Z)
    (m : RecoveryManager) : list RecoveryRequest * RecoveryManager :=
  let (found, entries) := walletScan walletAddress0 clock 0 (requests m) in
  (fold_right insertByCreatedAt [] found,
   mkManager entries (config m) (lastAttempt m)).

(** The truth value of [if (lastAttempt)]: 0 is falsy. *)
Definition cooldownActive (now : Z) (m : RecoveryManager) (walletAddress0 : string)
  : bool :=
  match JsMap.get walletAddress0 (lastAttempt m) with
  | Some t =>
      negb (t =? 0) && (now - t <? cooldownHours (config m) * 60 * 60 * 1000)
  | None => false
  end.

(** [initiateRecovery(params)]; [idBytes] is what [randomBytes(16)]
    returned.  The scan of [getPendingRequest] reads the clock from
    [clock 1] on, the three readings after it are [after 0..2]. *)
Definition initiateRecovery (walletAddress0 keyId0 initiator0 reason0 : string)
    (threshold0 : Z) (idBytes : list byte) (clock after : nat -> Z)
    (m : RecoveryManager) : result RecoveryRequest * RecoveryManager :=
  if cooldownActive (clock 0%nat) m walletAddress0 then (inl Cooldown, m)
  else
    match getPendingRequest walletAddress0 (fun k => clock (S k)) m with
    | (Some _, m1) => (inl AlreadyPending, m1)
    | (None, m1) =>
        let request :=
          mkRequest (Guardian.generateId idBytes) walletAddress0 keyId0
                    initiator0 reason0 pending threshold0 []
                    (timelockHours (config m1) * 60 * 60 * 1000)
                    (after 0%nat) None None
                    (after 1%nat + expirationDays (config m1) * 24 * 60 * 60 * 1000)
                    None None in
        (inr request,
         mkManager (JsMap.set (id request) request (requests m1)) (config m1)
                   (JsMap.set walletAddress0 (after 2%nat) (lastAttempt m1)))
    end.

(** The calls that can touch a stored request. *)
Inductive Call : Type :=
| CallAddApproval (requestId : string) (approval : GuardianApproval)
| CallExecute (requestId : string)
| CallCancel (requestId : string)
| CallGetRequest (requestId : string)
| CallIsReady (requestId : string)
| CallGetPending (walletAddress0 : string)
| CallGetRequestsForWallet (walletAddress0 : string).

(** The manager after a call, whatever the call returned or threw. *)
Definition step (c : Call) (clock : nat -> Z) (m : RecoveryManager)
  : RecoveryManager :=
  match c with
  | CallAddApproval rid a => snd (addApproval rid a clock m)
  | CallExecute rid => snd (executeRecovery rid clock m)
  | CallCancel rid => snd (cancelRecovery rid clock m)
  | CallGetRequest rid => snd (getRequest rid clock m)
  | CallIsReady rid => snd (isReadyForExecution rid clock m)
  | CallGetPending w => snd (getPendingRequest w clock m)
  | CallGetRequestsForWallet w => snd (getRequestsForWallet w clock m)
  end.

(** A sequence of calls, each with its own clock readings. *)
Fixpoint run (calls : list (Call * (nat -> Z))) (m : RecoveryManager)
  : RecoveryManager :=
  match calls with
  | [] => m
  | (c, clock) :: rest => run rest (step c clock m)
  end.

(** The status of the request filed under [requestId]. *)
Definition statusOf (requestId : string) (m : RecoveryManager)
  : option RecoveryStatus :=
  option_map status (JsMap.get requestId (requests m)).

End Recovery.

(* ================================================================== *)
(** * Envelope cipher (packages/core/src/encryption.ts) *)
(* ================================================================== *)

(** The functions of other packages that the wallet calls: tweetnacl's
    [secretbox], noble's [scrypt] and [secp256k1.signAsync], the
    platform's [atob], [btoa] and [TextDecoder], and [hexToBytes], a byte
    codec of the signing path that only reads its argument.  A [None] is
    a thrown exception (for [secretbox_open], the [null] it returns).

    [scryptCore] is scrypt (N = 2^18, r = 8, p = 1, dkLen = 32) as a
    function of the HMAC-SHA256 key block of the password and of the
    salt: scrypt reads the password only as the key of the
    PBKDF2-HMAC-SHA256 at its two ends (RFC 7914), and HMAC reads its key
    through one 64-byte block (RFC 2104; [hmacKeyBlock] below). *)
Record Primitives : Type := mkPrimitives {
  scryptCore : list byte -> list byte -> list byte;
  secretbox : list byte -> list byte -> list byte -> list byte;
  secretbox_open : list byte -> list byte -> list byte -> option (list byte);
  atob : string -> option (list byte);
  btoa : list byte -> string;
  textDecode : list byte -> string;
  hexToBytes : string -> list byte;
  signAsync : list byte -> list byte -> option (Z * Z * option Z)
}.

Module Encryption.

Definition ENCRYPTION_VERSION : Z := 1.

Record EncryptedPayload : Type := mkPayload {
  ciphertext : list byte;
  nonce : list byte;
  salt : list byte;
  version : Z
}.

Record SerializedEncryptedPayload : Type := mkSerialized {
  s_ciphertext : string;
  s_nonce : string;
  s_salt : string;
  s_version : Z
}.

(** The key block of HMAC-SHA256: a key of at most 64 bytes followed
    by zeros up to 64 bytes, a longer key hashed first (the [pad] of
    noble's HMAC before the [0x36] mask). *)
Definition hmacKeyBlock (key : list byte) : list byte :=
  let k := if (64 <? List.length key)%nat then Hash.sha256 key else key in
  k ++ List.repeat x00 (64 - List.length k).

Section WithPrimitives.
Variable P : Primitives.

(** [scrypt(password, salt, SCRYPT_PARAMS)]. *)
Definition scrypt (password salt0 : list byte) : list byte :=
  scryptCore P (hmacKeyBlock password) salt0.

(** [deriveKey(password, salt)]: [TextEncoder] gives the UTF-8 bytes
    that the string holds. *)
Definition deriveKey (password : string) (salt0 : list byte) : list byte :=
  scrypt (list_byte_of_string password) salt0.

(** [encrypt(plaintext, password)]; [saltBytes] and [nonceBytes] are the
    results of [randomBytes(32)] and [randomBytes(24)]. *)
Definition encrypt (plaintext password : string) (saltBytes nonceBytes : list byte)
  : EncryptedPayload :=
  let key := deriveKey password saltBytes in
  mkPayload (secretbox P (list_byte_of_string plaintext) nonceBytes key)
            nonceBytes saltBytes ENCRYPTION_VERSION.

(** [decrypt(payload, password)]. *)
Definition decrypt (payload : EncryptedPayload) (password : string)
  : result string :=
  if negb (version payload =? ENCRYPTION_VERSION) then inl BadVersion
  else
    let key := deriveKey password (salt payload) in
    match secretbox_open P (ciphertext payload) (nonce payload) key with
    | None => inl Undecryptable
    | Some plaintext => inr (textDecode P plaintext)
    end.

(** [serializePayload(payload)]. *)
Definition serializePayload (payload : EncryptedPayload)
  : SerializedEncryptedPayload :=
  mkSerialized (btoa P (ciphertext payload)) (btoa P (nonce payload))
               (btoa P (salt payload)) (version payload).

(** [deserializePayload(serialized)]. *)
Definition deserializePayload (serialized : SerializedEncryptedPayload)
  : result EncryptedPayload :=
  match atob P (s_ciphertext serialized), atob P (s_nonce serialized),
        atob P (s_salt serialized) with
  | Some c, Some n, Some s => inr (mkPayload c n s (s_version serialized))
  | _, _, _ => inl BadBase64
  end.

End WithPrimitives.

End Encryption.

(* ================================================================== *)
(** * Threshold signing (packages/mpc/src/threshold-signature.ts) *)
(* ================================================================== *)

Module Threshold.

Record ThresholdConfig : Type := mkThresholdConfig {
  totalShares : Z;
  threshold : Z
}.

Record KeyShare : Type := mkKeyShare {
  index : JsNumber.number;
  share : string;
  publicKey : string;
  address : string;
  keyId : string;
  config : ThresholdConfig
}.

(** The argument [messageHash: string | Uint8Array]. *)
Inductive HashArg : Type :=
| HashHex (hex : string)
| HashBytes (bytes : list byte).

Record Signed : Type := mkSigned {
  sig_r : string;
  sig_s : string;
  sig_v : Z;
  sig_signature : string
}.

Section WithPrimitives.
Variable P : Primitives.

(** [signWithShares(messageHash, shares)]. *)
Definition signWithShares (messageHash : HashArg) (shares : list KeyShare)
  : result Signed :=
  match shares with
  | [] | [_] => inl SignTooFewShares
  | first :: _ =>
      if Z.of_nat (List.length shares) <? threshold (config first)
      then inl SignBelowThreshold
      else if negb (forallb (fun s => String.eqb (keyId s) (keyId first)) shares)
      then inl MixedKeys
      else
        match ShamirNumbers.combineShares
                (map (fun s => ShamirNumbers.mkShare (index s) (share s))
                     shares) with
        | inl e => inl e
        | inr privateKey =>
            let msgHash :=
              match messageHash with
              | HashHex h => hexToBytes P h
              | HashBytes b => b
              end in
            if negb (List.length msgHash =? 32)%nat then inl BadHashLength
            else
              match signAsync P msgHash (hexToBytes P privateKey) with
              | None => inl SignerFailure
              | Some (sr, ss, recovery) =>
                  let v := 27 + match recovery with Some b => b | None => 0 end in
                  let r := Hex.padStart 64 "0"%char (Hex.toString16 sr) in
                  let s := Hex.padStart 64 "0"%char (Hex.toString16 ss) in
                  inr (mkSigned (String.append "0x" r) (String.append "0x" s) v
                         (String.append "0x"
                            (String.append r (String.append s (Hex.toString16 v)))))
              end
        end
  end.

(** The argument [message: string | Uint8Array] of
    [signPersonalMessage]. *)
Inductive MessageArg : Type :=
| MessageText (text : string)
| MessageBytes (bytes : list byte).

(** [signPersonalMessage(message, shares)] (EIP-191). *)
Definition signPersonalMessage (message : MessageArg) (shares : list KeyShare)
  : result string :=
  let messageBytes :=
    match message with
    | MessageText t => list_byte_of_string t
    | MessageBytes b => b
    end in
  let prefix :=
    String.append (String (ascii_of_nat 25) "Ethereum Signed Message:")
      (String (ascii_of_nat 10)
              (Guardian.toString10 (Z.of_nat (List.length messageBytes)))) in
  let fullMessage := list_byte_of_string prefix ++ messageBytes in
  match signWithShares (HashBytes (Hash.keccak_256 fullMessage)) shares with
  | inl e => inl e
  | inr signed => inr (sig_signature signed)
  end.

End WithPrimitives.

End Threshold.

(* ================================================================== *)
(** * MPC wallet (packages/mpc/src/mpc-wallet.ts) *)
(* ================================================================== *)

Module MPCWallet.
Import Threshold.

Record EncryptedKeyShare : Type := mkEncryptedKeyShare {
  e_index : JsNumber.number;
  e_encryptedShare : Encryption.SerializedEncryptedPayload;
  e_publicKey : string;
  e_address : string;
  e_keyId : string;
  e_config : ThresholdConfig;
  e_label : option string
}.

Inductive HolderType : Type := local | guardian | device | cloud.

Record ShareHolder : Type := mkShareHolder {
  h_id : string;
  h_name : string;
  h_type : HolderType;
  h_shareIndex : Z;
  h_contact : option string;
  h_createdAt : Z
}.

Record MPCWalletState : Type := mkState {
  st_keyId : string;
  st_publicKey : string;
  st_address : string;
  st_config : ThresholdConfig;
  st_shareHolders : list ShareHolder;
  st_createdAt : Z
}.

(** [class MPCWallet]: its two private fields. *)
Record MPCWallet : Type := mkWallet {
  state : option MPCWalletState;
  collectedShares : list KeyShare
}.

(** [new MPCWallet()]. *)
Definition newWallet : MPCWallet := mkWallet None [].

(** The transaction object of [signTransaction]. *)
Record TxData : Type := mkTx {
  tx_nonce : Z;
  tx_gasPrice : option Z;
  tx_gasLimit : Z;
  tx_to : string;
  tx_value : Z;
  tx_data : string;
  tx_chainId : Z
}.

(** The two private RLP encoders of the class, [encodeTransaction] and
    [encodeSignedTransaction]: byte codecs that read only their
    arguments. *)
Record Encoders : Type := mkEncoders {
  encodeTransaction : TxData -> list byte;
  encodeSignedTransaction : TxData -> string -> string -> Z -> string
}.

(** [loadState(state)]. *)
Definition loadState (s : MPCWalletState) (w : MPCWallet) : MPCWallet :=
  mkWallet (Some s) [].

(** [getCollectedShareCount()]. *)
Definition getCollectedShareCount (w : MPCWallet) : Z :=
  Z.of_nat (List.length (collectedShares w)).

(** [canSign()]. *)
Definition canSign (w : MPCWallet) : bool :=
  match state w with
  | None => false
  | Some s => threshold (st_config s) <=? Z.of_nat (List.length (collectedShares w))
  end.

(** [clearShares()]. *)
Definition clearShares (w : MPCWallet) : MPCWallet := mkWallet (state w) [].

Section WithPrimitives.
Variable P : Primitives.
Variable E : Encoders.

(** [addShare(encryptedShare, password)]: whatever is thrown inside the
    [try] block makes the call return [false]. *)
Definition addShare (encryptedShare : EncryptedKeyShare) (password : string)
    (w : MPCWallet) : result bool * MPCWallet :=
  match state w with
  | None => (inl StateNotLoaded, w)
  | Some s =>
      if negb (String.eqb (e_keyId encryptedShare) (st_keyId s))
      then (inl WrongWallet, w)
      else if existsb (fun k => JsNumber.strictEq (index k)
                                                  (e_index encryptedShare))
                      (collectedShares w)
      then (inr false, w)
      else
        match Encryption.deserializePayload P (e_encryptedShare encryptedShare) with
        | inl _ => (inr false, w)
        | inr payload =>
            match Encryption.decrypt P payload password with
            | inl _ => (inr false, w)
            | inr shareValue =>
                let keyShare :=
                  mkKeyShare (e_index encryptedShare) shareValue
                             (e_publicKey encryptedShare)
                             (e_address encryptedShare)
                             (e_keyId encryptedShare)
                             (e_config encryptedShare) in
                (inr true, mkWallet (state w) (collectedShares w ++ [keyShare]))
            end
        end
  end.

(** [addPlainShare(share)]. *)
Definition addPlainShare (share0 : KeyShare) (w : MPCWallet)
  : result bool * MPCWallet :=
  match state w with
  | None => (inl StateNotLoaded, w)
  | Some s =>
      if negb (String.eqb (keyId share0) (st_keyId s)) then (inl WrongWallet, w)
      else if existsb (fun k => JsNumber.strictEq (index k) (index share0))
                      (collectedShares w)
      then (inr false, w)
      else (inr true, mkWallet (state w) (collectedShares w ++ [share0]))
  end.

(** [signHash(messageHash)]. *)
Definition signHash (messageHash : HashArg) (w : MPCWallet)
  : result string * MPCWallet :=
  if negb (canSign w) then (inl NotEnoughShares, w)
  else
    match signWithShares P messageHash (collectedShares w) with
    | inl e => (inl e, w)
    | inr signed => (inr (sig_signature signed), w)
    end.

(** [signMessage(message)]. *)
Definition signMessage (message : MessageArg) (w : MPCWallet)
  : result string * MPCWallet :=
  if negb (canSign w) then (inl NotEnoughShares, w)
  else (signPersonalMessage P message (collectedShares w), w).

(** [signTransaction(txData)]. *)
Definition signTransaction (txData : TxData) (w : MPCWallet)
  : result string * MPCWallet :=
  if negb (canSign w) then (inl NotEnoughShares, w)
  else
    let txForSigning := encodeTransaction E txData in
    let txHash := Hash.keccak_256 txForSigning in
    match signWithShares P (HashBytes txHash) (collectedShares w) with
    | inl e => (inl e, w)
    | inr signed =>
        let eip155V := tx_chainId txData * 2 + 35 + (sig_v signed - 27) in
        (inr (encodeSignedTransaction E txData (sig_r signed) (sig_s signed)
                                      eip155V), w)
    end.

(** The three signing methods. *)
Inductive SignCall : Type :=
| SignHash (messageHash : HashArg)
| SignMessage (message : MessageArg)
| SignTransaction (txData : TxData).

Definition sign (c : SignCall) (w : MPCWallet) : result string * MPCWallet :=
  match c with
  | SignHash h => signHash h w
  | SignMessage msg => signMessage msg w
  | SignTransaction tx => signTransaction tx w
  end.

End WithPrimitives.

End MPCWallet.

(* ================================================================== *)
(** * Social-recovery facade
      (packages/social-recovery/src/social-recovery-wallet.ts) *)
(* ================================================================== *)

Module Facade.

Record SocialRecoveryConfig : Type := mkConfig {
  totalShares : Z;
  threshold : Z;
  ownerShares : Z;
  timelockHours : Z;
  expirationDays : Z
}.

(** [Partial<SocialRecoveryConfig>]: the fields that the caller gives,
    as integers.  (A field given as [undefined] or NaN is not
    represented: the spread would keep it over the default, and every
    comparison of [validateConfig] is false on it.) *)
Record PartialConfig : Type := mkPartial {
  opt_totalShares : option Z;
  opt_threshold : option Z;
  opt_ownerShares : option Z;
  opt_timelockHours : option Z;
  opt_expirationDays : option Z
}.

Definition DEFAULT_CONFIG : SocialRecoveryConfig := mkConfig 5 3 1 48 7.

Definition orDefault (o : option Z) (d : Z) : Z :=
  match o with Some v => v | None => d end.

(** [{ ...DEFAULT_CONFIG, ...config }]. *)
Definition mergeConfig (c : PartialConfig) : SocialRecoveryConfig :=
  mkConfig (orDefault (opt_totalShares c) (totalShares DEFAULT_CONFIG))
           (orDefault (opt_threshold c) (threshold DEFAULT_CONFIG))
           (orDefault (opt_ownerShares c) (ownerShares DEFAULT_CONFIG))
           (orDefault (opt_timelockHours c) (timelockHours DEFAULT_CONFIG))
           (orDefault (opt_expirationDays c) (expirationDays DEFAULT_CONFIG)).

Record SocialRecoveryWalletState : Type := mkState {
  mpcState : MPCWallet.MPCWalletState;
  st_guardians : list Guardian.Guardian;
  st_config : SocialRecoveryConfig;
  st_ownerShares : list MPCWallet.EncryptedKeyShare;
  setupCompletedAt : option Z
}.

(** [class SocialRecoveryWallet]: its private fields. *)
Record SocialRecoveryWallet : Type := mkWallet {
  mpcWallet : MPCWallet.MPCWallet;
  guardianManager : Guardian.GuardianManager;
  recoveryManager : Recovery.RecoveryManager;
  config : SocialRecoveryConfig;
  ownerEncryptedShares : list MPCWallet.EncryptedKeyShare;
  state : option SocialRecoveryWalletState
}.

(** [validateConfig()]. *)
Definition validateConfig (c : SocialRecoveryConfig) : result unit :=
  let guardianShares := totalShares c - ownerShares c in
  if threshold c <? 2 then inl ThresholdTooSmall
  else if ownerShares c <? 1 then inl OwnerSharesTooSmall
  else if guardianShares <? threshold c - ownerShares c
  then inl NotEnoughGuardianShares
  else if totalShares c <? threshold c then inl ThresholdExceedsTotal
  else inr tt.

(** [new SocialRecoveryWallet(config)]. *)
Definition newWallet (c : PartialConfig) : result SocialRecoveryWallet :=
  let cfg := mergeConfig c in
  let w :=
    mkWallet MPCWallet.newWallet Guardian.newManager
             (Recovery.newManager (Some (timelockHours cfg))
                                  (Some (expirationDays cfg)) None None)
             cfg [] None in
  match validateConfig cfg with
  | inl e => inl e
  | inr _ => inr w
  end.

(** The spec's error kind [ConfigInvalid]: the four messages of
    [validateConfig]. *)
Definition isConfigInvalid (e : Error) : bool :=
  match e with
  | ThresholdTooSmall | OwnerSharesTooSmall | NotEnoughGuardianShares
  | ThresholdExceedsTotal => true
  | _ => false
  end.

Definition set_mpcWallet (m : MPCWallet.MPCWallet) (w : SocialRecoveryWallet)
  : SocialRecoveryWallet :=
  mkWallet m (guardianManager w) (recoveryManager w) (config w)
           (ownerEncryptedShares w) (state w).

(** [lock()]. *)
Definition lock (w : SocialRecoveryWallet) : SocialRecoveryWallet :=
  set_mpcWallet (MPCWallet.clearShares (mpcWallet w)) w.

(** [canSign()]. *)
Definition canSign (w : SocialRecoveryWallet) : bool :=
  MPCWallet.canSign (mpcWallet w).

Section WithPrimitives.
Variable P : Primitives.
Variable E : MPCWallet.Encoders.

(** [signMessage(message)]. *)
Definition signMessage (message : Threshold.MessageArg) (w : SocialRecoveryWallet)
  : result string * SocialRecoveryWallet :=
  let (r, m) := MPCWallet.signMessage P message (mpcWallet w) in
  (r, set_mpcWallet m w).

(** [signTransaction(txData)]. *)
Definition signTransaction (txData : MPCWallet.TxData) (w : SocialRecoveryWallet)
  : result string * SocialRecoveryWallet :=
  let (r, m) := MPCWallet.signTransaction P E txData (mpcWallet w) in
  (r, set_mpcWallet m w).

(** [addGuardianShare(encryptedShare, password)]. *)
Definition addGuardianShare (encryptedShare : MPCWallet.EncryptedKeyShare)
    (password : string) (w : SocialRecoveryWallet)
  : result bool * SocialRecoveryWallet :=
  let (r, m) := MPCWallet.addShare P encryptedShare password (mpcWallet w) in
  (r, set_mpcWallet m w).

End WithPrimitives.

End Facade.

(* ================================================================== *)
(** * Properties stated about the managers *)
(* ================================================================== *)

Module EnvelopeProps.
Import Encryption.




End EnvelopeProps.

Module GuardianProps.

Definition isDecimalDigit (c : ascii) : Prop :=
  48 <= Z.of_N (N_of_ascii c) <= 57.

Fixpoint allDecimal (s : string) : Prop :=
  match s with
  | EmptyString => True
  | String c r => isDecimalDigit c /\ allDecimal r
  end.

End GuardianProps.

Module RecoveryProps.
Import Recovery.

(** What a later status [s'] may be, given the status [s] now: executed
    and expired stay, cancelled stays or turns into expired. *)
Definition settled (s s' : RecoveryStatus) : Prop :=
  match s with
  | executed => s' = executed
  | expired => s' = expired
  | cancelled => s' = cancelled \/ s' = expired
  | _ => True
  end.

(** Every clock reading of the calls is at most [t]. *)
Definition readingsUpTo (t : Z) (calls : list (Call * (nat -> Z))) : Prop :=
  forall c clock k, In (c, clock) calls -> clock k <= t.

(** How a call with the readings [clock] may leave a request [r]: as
    [r'], with a settled status and the same expiry, and still cancelled
    when no reading is past the expiry. *)
Definition evolves (r r' : RecoveryRequest) (clock : nat -> Z) : Prop :=
  settled (status r) (status r')
  /\ expiresAt r' = expiresAt r
  /\ (status r = cancelled -> (forall k, clock k <= expiresAt r) ->
      status r' = cancelled).

(** After a call the request [r] that was filed under [rid] is still
    filed there, as some [r'] it evolved into. *)
Definition after (rid : string) (r : RecoveryRequest) (clock : nat -> Z)
    (m' : RecoveryManager) : Prop :=
  exists r', JsMap.get rid (requests m') = Some r' /\ evolves r r' clock.

End RecoveryProps.

(* ================================================================== *)
(** * Concrete wallets and requests *)
(* ================================================================== *)

Module Fixtures.

(** Stand-ins for the primitives, to run the wallet on concrete inputs:
    every envelope fails to open and the signer returns a fixed
    signature. *)
Definition stubPrimitives : Primitives :=
  mkPrimitives (fun _ _ => []) (fun _ _ _ => []) (fun _ _ _ => None)
               (fun _ => Some []) (fun _ => EmptyString)
               (fun _ => EmptyString) (fun _ => [])
               (fun _ _ => Some (1, 1, Some 0)).

(** Stand-ins with a cipher that keeps the plaintext as it is and a
    decoder that reads the bytes back as the string. *)
Definition plainPrimitives : Primitives :=
  mkPrimitives (fun block _ => block) (fun m _ _ => m) (fun c _ _ => Some c)
               (fun _ => Some []) (fun _ => EmptyString)
               string_of_list_byte (fun _ => [])
               (fun _ _ => Some (1, 1, Some 0)).






Definition stubEncoders : MPCWallet.Encoders :=
  MPCWallet.mkEncoders (fun _ => []) (fun _ _ _ _ => EmptyString).

Definition cfg23 : Threshold.ThresholdConfig := Threshold.mkThresholdConfig 3 2.

Definition walletState : MPCWallet.MPCWalletState :=
  MPCWallet.mkState "key-1" "04ab" "0xabc" cfg23 [] 0.

(** Shares 1 and 2 of the secret 1 split 2-of-3 with the coefficient 7. *)
Definition share1 : Threshold.KeyShare :=
  Threshold.mkKeyShare (JsNumber.Int 1) (Hex.bigIntToHex 8) "04ab" "0xabc"
                       "key-1" cfg23.

Definition share2 : Threshold.KeyShare :=
  Threshold.mkKeyShare (JsNumber.Int 2) (Hex.bigIntToHex 15) "04ab" "0xabc"
                       "key-1" cfg23.

(** A loaded wallet that has collected two shares. *)
Definition readyWallet : MPCWallet.MPCWallet :=
  MPCWallet.mkWallet (Some walletState) [share1; share2].

Definition envelope : Encryption.SerializedEncryptedPayload :=
  Encryption.mkSerialized "AAAA" "AAAA" "AAAA" 1.

(** The sealed record of share 1. *)
Definition sealed1 : MPCWallet.EncryptedKeyShare :=
  MPCWallet.mkEncryptedKeyShare (JsNumber.Int 1) envelope "04ab" "0xabc"
                                "key-1" cfg23 None.

(** The sealed record of share 3. *)
Definition sealed3 : MPCWallet.EncryptedKeyShare :=
  MPCWallet.mkEncryptedKeyShare (JsNumber.Int 3) envelope "04ab" "0xabc"
                                "key-1" cfg23 None.

(** The sealed record of share 3 of another key. *)
Definition sealedOther : MPCWallet.EncryptedKeyShare :=
  MPCWallet.mkEncryptedKeyShare (JsNumber.Int 3) envelope "04cd" "0xdef"
                                "key-2" cfg23 None.

(** Stand-ins whose [atob] throws on every string. *)
Definition noBase64Primitives : Primitives :=
  mkPrimitives (fun block _ => block) (fun m _ _ => m) (fun c _ _ => Some c)
               (fun _ => None) (fun _ => EmptyString)
               string_of_list_byte (fun _ => [])
               (fun _ _ => Some (1, 1, Some 0)).

Definition zeroHash : Threshold.HashArg := Threshold.HashBytes (List.repeat x00 32).

End Fixtures.

Module GuardianFixtures.
Import Guardian.

(** A manager with one guardian, added at time 1000. *)
Definition oneGuardian : GuardianManager :=
  snd (addGuardian "Alice" "alice@example.org" email 2 None
         (List.repeat x01 16) (fun _ => 1000) newManager).

Definition guardianId : string := "01010101010101010101010101010101".

Definition inviteParams : InviteParams :=
  mkInviteParams guardianId "0xabc" "Wallet Owner" 3 4 "sealed-share" None.

(** The invite drawn from the random bytes ff 00 00 01: its code is
    777215. *)
Definition invited : result GuardianInvite * GuardianManager :=
  createInvite inviteParams [xff; x00; x00; x01] (List.repeat x02 16)
               (fun _ => 2000) oneGuardian.

End GuardianFixtures.

Module RecoveryFixtures.
Import Recovery.

Definition at_ (t : Z) : nat -> Z := fun _ => t.

(** A request for wallet 0xabc with threshold 2, created at time 1000:
    it expires at 604801000, and its timelock lasts 172800000 ms. *)
Definition initiated : RecoveryManager :=
  snd (initiateRecovery "0xabc" "key-1" "new-owner" "lost device" 2
         (List.repeat x0a 16) (at_ 1000) (at_ 1000)
         (newManager (Some 48) (Some 7) None None)).

Definition rid : string := "0a0a0a0a0a0a0a0a0a0a0a0a0a0a0a0a".

Definition approval1 : GuardianApproval :=
  mkApproval "guardian-1" 1 (Hex.bigIntToHex 8) 0 None.

Definition approval2 : GuardianApproval :=
  mkApproval "guardian-2" 2 (Hex.bigIntToHex 15) 0 None.

(** Two guardians approve at 2000 and 3000: the request is approved and
    its timelock ends at 172803000. *)
Definition approvedManager : RecoveryManager :=
  run [(CallAddApproval rid approval1, at_ 2000);
       (CallAddApproval rid approval2, at_ 3000)] initiated.

(** The owner cancels at 5000. *)
Definition cancelledManager : RecoveryManager :=
  step (CallCancel rid) (at_ 5000) approvedManager.

(** A reading after both the timelock and the expiry. *)
Definition late : nat -> Z := at_ 700000000.

End RecoveryFixtures.

(* ================================================================== *)
(** * Share records and the consistency check
      (packages/mpc/src/shamir.ts) *)
(* ================================================================== *)

Module ShamirShares.
Import Shamir.

(** [interface SerializedShare]. *)
Record SerializedShare : Type := mkSerializedShare {
  ser_x : Z;
  ser_y : string;
  ser_threshold : Z;
  ser_totalShares : Z;
  ser_id : string
}.

(** [serializeShare(share, threshold, totalShares, secretId)]. *)
Definition serializeShare (share : Share) (threshold totalShares : Z)
    (secretId : string) : SerializedShare :=
  mkSerializedShare (x share) (y share) threshold totalShares secretId.

(** [deserializeShare(serialized)]. *)
Definition deserializeShare (serialized : SerializedShare) : Share :=
  mkShare (ser_x serialized) (ser_y serialized).

(** [array.slice(start, end)] for integer arguments: a negative index
    counts from the end of the array. *)
Definition slice {A} (start end_ : Z) (l : list A) : list A :=
  let len := Z.of_nat (List.length l) in
  let k := if start <? 0 then Z.max (len + start) 0 else Z.min start len in
  let final := if end_ <? 0 then Z.max (len + end_) 0 else Z.min end_ len in
  firstn (Z.to_nat (final - k)) (skipn (Z.to_nat k) l).

(** The loop that fills [subsets]: the windows
    [shares.slice(i, i + threshold)] for
    [i < Math.min(3, shares.length - threshold + 1)], those of length
    [threshold] only. *)
Definition subsetsOf (shares : list Share) (threshold : Z) : list (list Share) :=
  let len := Z.of_nat (List.length shares) in
  filter (fun subset => Z.of_nat (List.length subset) =? threshold)
         (map (fun i => slice (Z.of_nat i) (Z.of_nat i + threshold) shares)
              (seq 0 (Z.to_nat (Z.min 3 (len - threshold + 1))))).

(** The loop [for (let i = 1; i < subsets.length; i++)] that compares
    every other subset with [firstResult]. *)
Fixpoint compareLoop (firstResult : string) (rest : list (list Share))
  : result bool :=
  match rest with
  | [] => inr true
  | subset :: rest' =>
      match combineShares subset with
      | inl e => inl e
      | inr v =>
          if negb (String.eqb v firstResult) then inr false
          else compareLoop firstResult rest'
      end
  end.

(** [verifySharesConsistent(shares, threshold)]; what [combineShares]
    throws is thrown on. *)
Definition verifySharesConsistent (shares : list Share) (threshold : Z)
  : result bool :=
  if Z.of_nat (List.length shares) <? threshold then inr false
  else
    match subsetsOf shares threshold with
    | [] | [_] => inr true
    | first :: rest =>
        match combineShares first with
        | inl e => inl e
        | inr firstResult => compareLoop firstResult rest
        end
    end.

(** [generateSecretId()], on the bytes of [randomBytes(16)]. *)
Definition generateSecretId (bytes : list byte) : string := Hash.bytesToHex bytes.

End ShamirShares.

(* ================================================================== *)
(** * Byte and hex codecs (packages/mpc/src/threshold-signature.ts) *)
(* ================================================================== *)

(** A string of the program is a sequence of UTF-16 code units, which
    [length], [substr] and [parseInt] count and read; the model keeps a
    string as its UTF-8 bytes, and [codeUnits] reads the code units back
    from them. *)
Module Codec.

(** The number of a byte. *)
Definition code (c : ascii) : Z := Z.of_N (N_of_ascii c).

(** The six bits that a byte after the first gives to its character. *)
Definition continuation (c : ascii) : Z := Z.land (code c) 63.

(** The UTF-16 code units of a string: a character of one, two or three
    bytes is one code unit, a character of four bytes the two code
    units of a surrogate pair.  (On bytes that are not the UTF-8 of a
    string, which no string of the program has, a sequence cut short
    reads as U+FFFD.) *)
Fixpoint codeUnits (s : string) : list Z :=
  match s with
  | EmptyString => []
  | String c r =>
      let b := code c in
      if b <? 128 then b :: codeUnits r
      else if b <? 224 then
        match r with
        | String c1 r1 => (Z.land b 31 * 64 + continuation c1) :: codeUnits r1
        | _ => [65533]
        end
      else if b <? 240 then
        match r with
        | String c1 (String c2 r2) =>
            (Z.land b 15 * 4096 + continuation c1 * 64 + continuation c2)
              :: codeUnits r2
        | _ => [65533]
        end
      else
        match r with
        | String c1 (String c2 (String c3 r3)) =>
            let point := Z.land b 7 * 262144 + continuation c1 * 4096
                         + continuation c2 * 64 + continuation c3 in
            (55296 + (point - 65536) / 1024)
              :: (56320 + (point - 65536) mod 1024) :: codeUnits r3
        | _ => [65533]
        end
  end.

(** The white space that [parseInt] skips: TAB, LF, VT, FF, CR, the
    space, U+00A0, U+1680, U+2000 to U+200A, U+2028, U+2029, U+202F,
    U+205F, U+3000 and U+FEFF. *)
Definition isWhiteSpace (u : Z) : bool :=
  ((9 <=? u) && (u <=? 13)) || (u =? 32) || (u =? 160) || (u =? 5760)
  || ((8192 <=? u) && (u <=? 8202)) || (u =? 8232) || (u =? 8233)
  || (u =? 8239) || (u =? 8287) || (u =? 12288) || (u =? 65279).

(** The value of a code unit as a digit of base 16. *)
Definition hexValue (u : Z) : option Z :=
  if u <? 128 then Hex.hexVal (ascii_of_N (Z.to_N u)) else None.

(** [parseInt(s, 16)] of a string [s] of at most two code units, stored
    into a [Uint8Array]: [NaN] is stored as 0 and a negative number
    modulo 256.  (43 is the plus sign, 45 the minus sign.) *)
Definition parseByte (s : list Z) : Z :=
  match s with
  | [] => 0
  | [u] =>
      match hexValue u with Some d => d | None => 0 end
  | u1 :: u2 :: _ =>
      match hexValue u1, hexValue u2 with
      | Some d1, Some d2 => d1 * 16 + d2
      | Some d1, None => d1
      | None, Some d2 =>
          if isWhiteSpace u1 || (u1 =? 43) then d2
          else if u1 =? 45 then (256 - d2) mod 256
          else 0
      | None, None => 0
      end
  end.

(** [cleanHex.substr(i * 2, 2)] for the successive [i]: the pairs of
    code units, [count] of them. *)
Fixpoint pairs (count : nat) (s : list Z) : list (list Z) :=
  match count with
  | O => []
  | S count' =>
      match s with
      | u1 :: u2 :: r => [u1; u2] :: pairs count' r
      | _ => s :: pairs count' []
      end
  end.

(** [hexToBytes(hex)]: [new Uint8Array(cleanHex.length / 2)] has
    [floor(length / 2)] elements. *)
Definition hexToBytes (hex : string) : list byte :=
  let cleanHex := if Hex.startsWith0x hex then Hex.slice2 hex else hex in
  map (fun p => Hash.zToByte (parseByte p))
      (pairs (Nat.div (List.length (codeUnits cleanHex)) 2) (codeUnits cleanHex)).

(** [bytesToHex(bytes)]. *)
Definition bytesToHex (bytes : list byte) : string := Hash.bytesToHex bytes.

End Codec.

(* ================================================================== *)
(** * Properties stated about strings and shares *)
(* ================================================================== *)

Module HexProps.

(** A digit as [toString(16)] prints it: [0-9] or [a-f]. *)
Definition isLowerHex (c : ascii) : Prop :=
  let n := Z.of_N (N_of_ascii c) in 48 <= n <= 57 \/ 97 <= n <= 102.

Fixpoint allLowerHex (s : string) : Prop :=
  match s with
  | EmptyString => True
  | String c r => isLowerHex c /\ allLowerHex r
  end.

End HexProps.

(* ================================================================== *)
(** * Key generation (packages/mpc/src/threshold-signature.ts) *)
(* ================================================================== *)

(** The curve arithmetic of [@noble/secp256k1] that key generation
    calls: [ProjectivePoint.fromPrivateKey(key).toRawBytes(false)], and
    [None] when the library throws. *)
Record Curve : Type := mkCurve {
  fromPrivateKey : list byte -> option (list byte)
}.

Module KeyGen.
Import Threshold.

(** [const CURVE_ORDER = 0xFFFF...4141n]. *)
Definition CURVE_ORDER : Z :=
  0xFFFFFFFFFFFFFFFFFFFFFFFFFFFFFFFEBAAEDCE6AF48A03BBFD25E8CD0364141.

(** [interface DKGResult]. *)
Record DKGResult : Type := mkDKGResult {
  dkg_shares : list KeyShare;
  dkg_publicKey : string;
  dkg_address : string;
  dkg_keyId : string
}.

(** [generatePrivateKey()], on the bytes of [randomBytes(32)]. *)
Definition generatePrivateKey (bytes : list byte) : string :=
  let value :=
    fold_left (fun value byte =>
                 Z.lor (Z.shiftl value 8) (Z.of_N (Byte.to_N byte)))
              bytes 0 in
  let value := Z.rem value (CURVE_ORDER - 1) + 1 in
  Hex.padStart 64 "0"%char (Hex.toString16 value).

(** [hash.slice(-20)]: the last 20 elements, all of them when there are
    fewer. *)
Definition sliceLast20 {A} (l : list A) : list A :=
  skipn (List.length l - 20) l.

(** [publicKeyToAddress(publicKey)]. *)
Definition publicKeyToAddress (publicKey : string) : string :=
  let pubKeyBytes := Codec.hexToBytes publicKey in
  let pubKeyWithoutPrefix := skipn 1 pubKeyBytes in
  let hash := Hash.keccak_256 pubKeyWithoutPrefix in
  String.append "0x" (Codec.bytesToHex (sliceLast20 hash)).

(** [generateKeyId()], on the bytes of [randomBytes(16)]. *)
Definition generateKeyId (bytes : list byte) : string := Codec.bytesToHex bytes.

(** The [rawShares.map(...)] of both key generators. *)
Definition withMetadata (publicKey address keyId : string)
    (config : ThresholdConfig) (rawShares : list Shamir.Share) : list KeyShare :=
  map (fun share =>
         mkKeyShare (JsNumber.Int (Shamir.x share)) (Shamir.y share) publicKey
                    address keyId config)
      rawShares.

Section WithCurve.
Variable C : Curve.

(** [derivePublicKey(privateKey)]. *)
Definition derivePublicKey (privateKey : string) : result string :=
  match fromPrivateKey C (Codec.hexToBytes privateKey) with
  | None => inl SignerFailure
  | Some raw => inr (Codec.bytesToHex raw)
  end.

(** [generateDistributedKey(config)]; [keyBytes] and [idBytes] are the
    results of [randomBytes(32)] and [randomBytes(16)], [entropy] feeds
    [splitSecret]. *)
Definition generateDistributedKey (config : ThresholdConfig)
    (keyBytes idBytes : list byte) (entropy : nat -> list byte)
  : result DKGResult :=
  if threshold config <? 2 then inl ThresholdTooSmall
  else if totalShares config <? threshold config then inl TotalBelowThreshold
  else
    let privateKey := generatePrivateKey keyBytes in
    match derivePublicKey privateKey with
    | inl e => inl e
    | inr publicKey =>
        let address := publicKeyToAddress publicKey in
        let keyId := generateKeyId idBytes in
        match Shamir.splitSecret privateKey (totalShares config)
                                 (threshold config) entropy with
        | inl e => inl e
        | inr rawShares =>
            inr (mkDKGResult (withMetadata publicKey address keyId config rawShares)
                             publicKey address keyId)
        end
    end.

(** [importAndSplitKey(privateKey, config)]. *)
Definition importAndSplitKey (privateKey : string) (config : ThresholdConfig)
    (idBytes : list byte) (entropy : nat -> list byte) : result DKGResult :=
  let cleanKey :=
    if Hex.startsWith0x privateKey then Hex.slice2 privateKey else privateKey in
  match derivePublicKey cleanKey with
  | inl e => inl e
  | inr publicKey =>
      let address := publicKeyToAddress publicKey in
      let keyId := generateKeyId idBytes in
      match Shamir.splitSecret cleanKey (totalShares config)
                               (threshold config) entropy with
      | inl e => inl e
      | inr rawShares =>
          inr (mkDKGResult (withMetadata publicKey address keyId config rawShares)
                           publicKey address keyId)
      end
  end.

End WithCurve.

(** The [Share] that [signWithShares] reads off a key share. *)
Definition rawShare (s : KeyShare) : ShamirNumbers.Share :=
  ShamirNumbers.mkShare (index s) (share s).

(** The share of [Shamir] behind a key share with an integer index. *)
Definition integerShare (s : KeyShare) : Shamir.Share :=
  Shamir.mkShare (match index s with JsNumber.Int v => v | _ => 0 end)
                 (share s).

(** What [signWithShares] does with the key it has reconstructed: the
    statements after [const privateKey = combineShares(rawShares)]. *)
Definition signWithKey (P : Primitives) (messageHash : HashArg)
    (privateKey : string) : result Signed :=
  let msgHash :=
    match messageHash with
    | HashHex h => hexToBytes P h
    | HashBytes b => b
    end in
  if negb (List.length msgHash =? 32)%nat then inl BadHashLength
  else
    match signAsync P msgHash (hexToBytes P privateKey) with
    | None => inl SignerFailure
    | Some (sr, ss, recovery) =>
        let v := 27 + match recovery with Some b => b | None => 0 end in
        let r := Hex.padStart 64 "0"%char (Hex.toString16 sr) in
        let s := Hex.padStart 64 "0"%char (Hex.toString16 ss) in
        inr (mkSigned (String.append "0x" r) (String.append "0x" s) v
               (String.append "0x"
                  (String.append r (String.append s (Hex.toString16 v)))))
    end.

End KeyGen.

Module KeyGenFixtures.

(** A stand-in for the curve: every key has the same public point. *)
Definition stubCurve : Curve :=
  mkCurve (fun _ => Some (x04 :: List.repeat x11 64)).

Definition entropy7 : nat -> list byte := fun _ => List.repeat x07 32.

(** The key set generated 2-of-3 from the random bytes 09..09. *)
Definition generated : result KeyGen.DKGResult :=
  KeyGen.generateDistributedKey stubCurve Fixtures.cfg23
    (List.repeat x09 32) (List.repeat x0a 16) entropy7.



Definition sharesOf (r : result KeyGen.DKGResult) : list Threshold.KeyShare :=
  match r with
  | inr d => KeyGen.dkg_shares d
  | inl _ => []
  end.

End KeyGenFixtures.

(* ================================================================== *)
(** * Base64 ([btoa] and [atob] of the platform) *)
(* ================================================================== *)

(** [btoa] is RFC 4648 base64 with padding; [atob] is the forgiving
    decoder of the HTML standard: white space is dropped, the padding may
    be missing, and the bits left over in the last group are discarded.
    A binary string is the list of its character codes. *)
Module Base64.

Definition encodeChar (i : Z) : ascii :=
  if i <? 26 then ascii_of_N (Z.to_N (65 + i))
  else if i <? 52 then ascii_of_N (Z.to_N (71 + i))
  else if i <? 62 then ascii_of_N (Z.to_N (i - 4))
  else if i =? 62 then "+"%char
  else "/"%char.

Definition decodeChar (c : ascii) : option Z :=
  let n := Z.of_N (N_of_ascii c) in
  if (65 <=? n) && (n <=? 90) then Some (n - 65)
  else if (97 <=? n) && (n <=? 122) then Some (n - 71)
  else if (48 <=? n) && (n <=? 57) then Some (n + 4)
  else if n =? 43 then Some 62
  else if n =? 47 then Some 63
  else None.

Definition code (b : byte) : Z := Z.of_N (Byte.to_N b).

(** The 6-bit groups of the bytes, three bytes to four groups; the last
    group of an incomplete triple is filled with zero bits. *)
Fixpoint sextets (bytes : list byte) : list Z :=
  match bytes with
  | [] => []
  | [a] =>
      let n := code a * 16 in
      [n / 64; n mod 64]
  | [a; b] =>
      let n := (code a * 256 + code b) * 4 in
      [n / 4096; n / 64 mod 64; n mod 64]
  | a :: b :: c :: rest =>
      let n := (code a * 256 + code b) * 256 + code c in
      n / 262144 :: n / 4096 mod 64 :: n / 64 mod 64 :: n mod 64
      :: sextets rest
  end.

Definition padding (n : nat) : list ascii :=
  match (n mod 3)%nat with
  | 0%nat => []
  | 1%nat => ["="%char; "="%char]
  | _ => ["="%char]
  end.

(** [btoa(binary)]. *)
Definition btoa (bytes : list byte) : string :=
  string_of_list_ascii
    (map encodeChar (sextets bytes) ++ padding (List.length bytes)).

(** TAB, LF, FF, CR and SPACE. *)
Definition isAsciiWhitespace (c : ascii) : bool :=
  let n := Z.of_N (N_of_ascii c) in
  (n =? 9) || (n =? 10) || (n =? 12) || (n =? 13) || (n =? 32).

(** One or two [=] at the end are removed when the length is a multiple
    of four. *)
Definition stripPadding (cs : list ascii) : list ascii :=
  if (List.length cs mod 4 =? 0)%nat then
    match rev cs with
    | "="%char :: "="%char :: r => rev r
    | "="%char :: r => rev r
    | _ => cs
    end
  else cs.

Fixpoint values (cs : list ascii) : option (list Z) :=
  match cs with
  | [] => Some []
  | c :: r =>
      match decodeChar c, values r with
      | Some v, Some vs => Some (v :: vs)
      | _, _ => None
      end
  end.

(** Four groups to three bytes; three groups give two bytes and two
    groups one byte, the bits left over being dropped. *)
Fixpoint octets (vs : list Z) : list Z :=
  match vs with
  | v1 :: v2 :: v3 :: v4 :: rest =>
      let n := ((v1 * 64 + v2) * 64 + v3) * 64 + v4 in
      n / 65536 :: n / 256 mod 256 :: n mod 256 :: octets rest
  | [v1; v2; v3] =>
      let n := ((v1 * 64 + v2) * 64 + v3) / 4 in
      [n / 256; n mod 256]
  | [v1; v2] => [(v1 * 64 + v2) / 16]
  | _ => []
  end.

(** [atob(data)]; [None] is the [InvalidCharacterError] it throws. *)
Definition atob (data : string) : option (list byte) :=
  let cs :=
    stripPadding
      (filter (fun c => negb (isAsciiWhitespace c)) (list_ascii_of_string data)) in
  if (List.length cs mod 4 =? 1)%nat then None
  else
    match values cs with
    | None => None
    | Some vs => Some (map Hash.zToByte (octets vs))
    end.

End Base64.

(* ================================================================== *)
(** * Stored envelopes (packages/core/src/encryption.ts) *)
(* ================================================================== *)

Module Storage.

(** [uint8ArrayToBase64(bytes)]: the loop builds the binary string whose
    character codes are the bytes. *)
Definition uint8ArrayToBase64 (bytes : list byte) : string := Base64.btoa bytes.

(** [base64ToUint8Array(base64)]: the bytes are the character codes of
    the binary string that [atob] returns. *)
Definition base64ToUint8Array (base64 : string) : result (list byte) :=
  match Base64.atob base64 with
  | Some bytes => inr bytes
  | None => inl BadBase64
  end.

(** [generateSalt()], on the bytes of [randomBytes(32)]. *)
Definition generateSalt (bytes : list byte) : list byte := bytes.

(** [secureClear(data)]: [data.fill(0)]. *)
Definition secureClear (data : list byte) : list byte :=
  map (fun _ => x00) data.

(** The primitives [P] with the platform's [btoa] and [atob] in place. *)
Definition withBase64 (P : Primitives) : Primitives :=
  mkPrimitives (scryptCore P) (secretbox P) (secretbox_open P)
               Base64.atob Base64.btoa
               (textDecode P) (hexToBytes P) (signAsync P).

(** [verifyPassword(verificationPayload, password, expectedValue)]. *)
Definition verifyPassword (P : Primitives)
    (verificationPayload : Encryption.EncryptedPayload)
    (password expectedValue : string) : bool :=
  match Encryption.decrypt P verificationPayload password with
  | inr decrypted => String.eqb decrypted expectedValue
  | inl _ => false
  end.

End Storage.

(* ================================================================== *)
(** * More thrown errors *)
(* ================================================================== *)

(** The messages thrown by wallet creation and by the facade, and
    [Thrown e] for an error [e] of the functions they call. *)
Inductive Failure : Type :=
| PasswordCount     (* 'Need ${totalShares} passwords, got ${n}' *)
| GuardianCount     (* 'Expected ${guardianCount} guardians, got ${n}' *)
| NoOwnerShares     (* 'No owner shares available' *)
| NotInitialized    (* 'Wallet not initialized' *)
| Thrown (e : Error).

Definition outcome (A : Type) : Type := (Failure + A)%type.

(* ================================================================== *)
(** * MPC wallet: creation and share holders
      (packages/mpc/src/mpc-wallet.ts) *)
(* ================================================================== *)

Module WalletOps.
Import Threshold MPCWallet.

(** [interface CreateMPCWalletOptions]. *)
Record CreateMPCWalletOptions : Type := mkOptions {
  o_totalShares : Z;
  o_threshold : Z;
  o_shareLabels : option (list string)
}.

(** [interface CreateMPCWalletResult]. *)
Record CreateMPCWalletResult : Type := mkCreated {
  r_state : MPCWalletState;
  r_encryptedShares : list EncryptedKeyShare;
  r_plainShares : list KeyShare
}.

(** [array.map((element, i) => f(element, i))]. *)
Definition mapi {A B} (f : nat -> A -> B) (l : list A) : list B :=
  map (fun p => f (fst p) (snd p)) (combine (seq 0 (List.length l)) l).

Section WithPrimitives.
Variable P : Primitives.
Variable C : Curve.

(** The callback of [dkg.shares.map((share, i) => ...)]: encryption
    number [i] draws the salt [salts i] and the nonce [nonces i].  A
    password or a label missing at [i] is [undefined], which
    [TextEncoder] encodes as the empty string. *)
Definition sealShare (sharePasswords : list string)
    (shareLabels : option (list string)) (salts nonces : nat -> list byte)
    (i : nat) (share0 : KeyShare) : EncryptedKeyShare :=
  let encrypted :=
    Encryption.encrypt P (share share0) (nth i sharePasswords EmptyString)
                       (salts i) (nonces i) in
  mkEncryptedKeyShare (index share0) (Encryption.serializePayload P encrypted)
                      (publicKey share0) (address share0) (keyId share0)
                      (config share0)
                      (match shareLabels with
                       | Some labels => nth_error labels i
                       | None => None
                       end).

(** What [create] and [importKey] build from the generated key set. *)
Definition assemble (options : CreateMPCWalletOptions)
    (sharePasswords : list string) (salts nonces : nat -> list byte) (now : Z)
    (dkg : KeyGen.DKGResult) : CreateMPCWalletResult :=
  mkCreated
    (mkState (KeyGen.dkg_keyId dkg) (KeyGen.dkg_publicKey dkg)
             (KeyGen.dkg_address dkg)
             (mkThresholdConfig (o_totalShares options) (o_threshold options))
             [] now)
    (mapi (sealShare sharePasswords (o_shareLabels options) salts nonces)
          (KeyGen.dkg_shares dkg))
    (KeyGen.dkg_shares dkg).

(** [MPCWallet.create(options, sharePasswords)]; [now] is the reading
    of [Date.now()]. *)
Definition create (options : CreateMPCWalletOptions)
    (sharePasswords : list string) (keyBytes idBytes : list byte)
    (entropy salts nonces : nat -> list byte) (now : Z)
  : outcome CreateMPCWalletResult :=
  if negb (Z.of_nat (List.length sharePasswords) =? o_totalShares options)
  then inl PasswordCount
  else
    match KeyGen.generateDistributedKey C
            (mkThresholdConfig (o_totalShares options) (o_threshold options))
            keyBytes idBytes entropy with
    | inl e => inl (Thrown e)
    | inr dkg => inr (assemble options sharePasswords salts nonces now dkg)
    end.

(** [MPCWallet.importKey(privateKey, options, sharePasswords)]. *)
Definition importKey (privateKey : string) (options : CreateMPCWalletOptions)
    (sharePasswords : list string) (idBytes : list byte)
    (entropy salts nonces : nat -> list byte) (now : Z)
  : outcome CreateMPCWalletResult :=
  if negb (Z.of_nat (List.length sharePasswords) =? o_totalShares options)
  then inl PasswordCount
  else
    match KeyGen.importAndSplitKey C privateKey
            (mkThresholdConfig (o_totalShares options) (o_threshold options))
            idBytes entropy with
    | inl e => inl (Thrown e)
    | inr dkg => inr (assemble options sharePasswords salts nonces now dkg)
    end.

End WithPrimitives.

(** [getState()]. *)
Definition getState (w : MPCWallet) : option MPCWalletState := state w.

(** [getAddress()]. *)
Definition getAddress (w : MPCWallet) : option string :=
  option_map st_address (state w).

(** [getConfig()]. *)
Definition getConfig (w : MPCWallet) : option ThresholdConfig :=
  option_map st_config (state w).

Definition set_shareHolders (holders : list ShareHolder) (s : MPCWalletState)
  : MPCWalletState :=
  mkState (st_keyId s) (st_publicKey s) (st_address s) (st_config s) holders
          (st_createdAt s).

(** [addShareHolder(holder)]; the [createdAt] field of the argument is
    not read, the record gets the reading [now] of [Date.now()]. *)
Definition addShareHolder (holder : ShareHolder) (now : Z) (w : MPCWallet)
  : result unit * MPCWallet :=
  match state w with
  | None => (inl StateNotLoaded, w)
  | Some s =>
      let holder' :=
        mkShareHolder (h_id holder) (h_name holder) (h_type holder)
                      (h_shareIndex holder) (h_contact holder) now in
      (inr tt,
       mkWallet (Some (set_shareHolders (st_shareHolders s ++ [holder']) s))
                (collectedShares w))
  end.

(** [removeShareHolder(holderId)]. *)
Definition removeShareHolder (holderId : string) (w : MPCWallet) : MPCWallet :=
  match state w with
  | None => w
  | Some s =>
      mkWallet
        (Some (set_shareHolders
                 (filter (fun h => negb (String.eqb (h_id h) holderId))
                         (st_shareHolders s)) s))
        (collectedShares w)
  end.

(** [getShareHolders()]. *)
Definition getShareHolders (w : MPCWallet) : list ShareHolder :=
  match state w with
  | Some s => st_shareHolders s
  | None => []
  end.

(** The calls on a wallet object. *)
Inductive Op : Type :=
| OpLoadState (s : MPCWalletState)
| OpAddShare (encryptedShare : EncryptedKeyShare) (password : string)
| OpAddPlainShare (share0 : KeyShare)
| OpClearShares
| OpSign (c : SignCall)
| OpAddShareHolder (holder : ShareHolder) (now : Z)
| OpRemoveShareHolder (holderId : string).

(** The wallet after a call, whatever the call returned or threw. *)
Definition apply (P : Primitives) (E : Encoders) (w : MPCWallet) (op : Op)
  : MPCWallet :=
  match op with
  | OpLoadState s => loadState s w
  | OpAddShare enc password => snd (addShare P enc password w)
  | OpAddPlainShare k => snd (addPlainShare k w)
  | OpClearShares => clearShares w
  | OpSign c => snd (sign P E c w)
  | OpAddShareHolder h now => snd (addShareHolder h now w)
  | OpRemoveShareHolder hid => removeShareHolder hid w
  end.

Definition run (P : Primitives) (E : Encoders) (ops : list Op) (w : MPCWallet)
  : MPCWallet :=
  fold_left (apply P E) ops w.

(** No two shares in memory have indices that are [===], and all carry
    the key identifier of the loaded state; without a state there are
    none. *)
Definition collectedWell (w : MPCWallet) : Prop :=
  JsNumber.strictlyDistinct (map index (collectedShares w))
  /\ match state w with
     | Some s => Forall (fun k => keyId k = st_keyId s) (collectedShares w)
     | None => collectedShares w = []
     end.

End WalletOps.

Module WalletFixtures.

(** Stand-ins with the real base64 codec, a cipher that keeps the
    plaintext and a decoder that reads the bytes back as the string. *)
Definition clearPrimitives : Primitives := Storage.withBase64 Fixtures.plainPrimitives.

Definition options23 : WalletOps.CreateMPCWalletOptions :=
  WalletOps.mkOptions 3 2 None.

(** A 2-of-3 wallet created with the passwords one, two and three. *)
Definition created : outcome WalletOps.CreateMPCWalletResult :=
  WalletOps.create clearPrimitives KeyGenFixtures.stubCurve options23
    ["one"; "two"; "three"]%string (List.repeat x09 32) (List.repeat x0a 16)
    KeyGenFixtures.entropy7 (fun _ => List.repeat x01 32)
    (fun _ => List.repeat x02 24) 1000.

(** The result of that creation, and its second sealed share. *)
Definition createdResult : WalletOps.CreateMPCWalletResult := Eval vm_compute in
    match created with
    | inr r => r
    | inl _ => WalletOps.mkCreated Fixtures.walletState [] []
    end.

Definition sealedTwo : MPCWallet.EncryptedKeyShare := Eval vm_compute in
    nth 1 (WalletOps.r_encryptedShares createdResult) Fixtures.sealed1.

End WalletFixtures.

(* ================================================================== *)
(** * Guardian manager: the other methods
      (packages/social-recovery/src/guardian.ts) *)
(* ================================================================== *)

Module GuardianOps.
Import Guardian.

Definition status_eqb (a b : GuardianStatus) : bool :=
  match a, b with
  | pending, pending | accepted, accepted | declined, declined
  | revoked, revoked => true
  | _, _ => false
  end.

(** [getAllGuardians()]. *)
Definition getAllGuardians (m : GuardianManager) : list Guardian :=
  JsMap.values (guardians m).

(** [getActiveGuardians()]. *)
Definition getActiveGuardians (m : GuardianManager) : list Guardian :=
  filter (fun g => status_eqb (status g) accepted) (getAllGuardians m).

(** [updateGuardianStatus(id, status)]; [now] is the reading of
    [Date.now()], made for the status [accepted] only. *)
Definition updateGuardianStatus (gid : string) (s : GuardianStatus) (now : Z)
    (m : GuardianManager) : GuardianManager :=
  match JsMap.get gid (guardians m) with
  | None => m
  | Some guardian =>
      let g1 := set_status s guardian in
      let g2 := if status_eqb s accepted then set_acceptedAt now g1 else g1 in
      mkManager (JsMap.set gid g2 (guardians m)) (pendingInvites m)
  end.

(** [removeGuardian(id)]: [Map.delete] tells whether the key was
    there. *)
Definition removeGuardian (gid : string) (m : GuardianManager)
  : bool * GuardianManager :=
  (match JsMap.get gid (guardians m) with Some _ => true | None => false end,
   mkManager (JsMap.delete gid (guardians m)) (pendingInvites m)).

(** [revokeGuardian(id)]. *)
Definition revokeGuardian (gid : string) (now : Z) (m : GuardianManager)
  : GuardianManager :=
  updateGuardianStatus gid revoked now m.

(** The loop of [getPendingInvites] over the entries of the map: the
    expired ones are deleted by their key. *)
Definition dropExpired (now : Z) (entries : JsMap.t GuardianInvite)
  : JsMap.t GuardianInvite :=
  fold_left (fun acc e =>
               if inv_expiresAt (snd e) <? now then JsMap.delete (fst e) acc
               else acc)
            entries entries.

(** [getPendingInvites()]. *)
Definition getPendingInvites (now : Z) (m : GuardianManager)
  : list GuardianInvite * GuardianManager :=
  let invites := dropExpired now (pendingInvites m) in
  (JsMap.values invites, mkManager (guardians m) invites).

(** [cancelInvite(inviteId)]. *)
Definition cancelInvite (inviteId : string) (m : GuardianManager)
  : GuardianManager :=
  mkManager (guardians m) (JsMap.delete inviteId (pendingInvites m)).

(** The object that [exportData] returns and [importData] takes. *)
Record GuardianData : Type := mkGuardianData {
  d_guardians : list Guardian;
  d_pendingInvites : option (list GuardianInvite)
}.

(** [exportData()]. *)
Definition exportData (now : Z) (m : GuardianManager)
  : GuardianData * GuardianManager :=
  let (invites, m') := getPendingInvites now m in
  (mkGuardianData (getAllGuardians m) (Some invites), m').

(** [importData(data)]. *)
Definition importData (data : GuardianData) (m : GuardianManager)
  : GuardianManager :=
  mkManager
    (fold_left (fun acc g => JsMap.set (id g) g acc) (d_guardians data)
               JsMap.empty)
    (match d_pendingInvites data with
     | Some invites =>
         fold_left (fun acc i => JsMap.set (inv_id i) i acc) invites JsMap.empty
     | None => JsMap.empty
     end).

(** [hasEnoughGuardians(threshold)]. *)
Definition hasEnoughGuardians (threshold : Z) (m : GuardianManager) : bool :=
  threshold <=? Z.of_nat (List.length (getActiveGuardians m)).

(** [getGuardianByShareIndex(shareIndex)]. *)
Definition getGuardianByShareIndex (shareIndex0 : Z) (m : GuardianManager)
  : option Guardian :=
  find (fun g => shareIndex g =? shareIndex0) (getAllGuardians m).

(** The parameter object of [addGuardian]. *)
Record GuardianParams : Type := mkGuardianParams {
  g_name : string;
  g_contact : string;
  g_contactType : ContactType;
  g_shareIndex : Z;
  g_publicKey : option string
}.

(** The calls on a guardian manager, with the random bytes and the
    clock readings they consume. *)
Inductive Op : Type :=
| OpAddGuardian (params : GuardianParams) (idBytes : list byte) (clock : nat -> Z)
| OpUpdateStatus (gid : string) (s : GuardianStatus) (now : Z)
| OpRemoveGuardian (gid : string)
| OpRevokeGuardian (gid : string) (now : Z)
| OpCreateInvite (params : InviteParams) (codeBytes idBytes : list byte)
                 (clock : nat -> Z)
| OpProcessResponse (response : GuardianResponse) (clock : nat -> Z)
| OpGetPendingInvites (now : Z)
| OpCancelInvite (inviteId : string)
| OpExportData (now : Z)
| OpImportData (data : GuardianData).

(** The manager after a call, whatever the call returned or threw. *)
Definition apply (m : GuardianManager) (op : Op) : GuardianManager :=
  match op with
  | OpAddGuardian p idBytes clock =>
      snd (addGuardian (g_name p) (g_contact p) (g_contactType p)
                       (g_shareIndex p) (g_publicKey p) idBytes clock m)
  | OpUpdateStatus gid s now => updateGuardianStatus gid s now m
  | OpRemoveGuardian gid => snd (removeGuardian gid m)
  | OpRevokeGuardian gid now => revokeGuardian gid now m
  | OpCreateInvite p codeBytes idBytes clock =>
      snd (createInvite p codeBytes idBytes clock m)
  | OpProcessResponse r clock => snd (processResponse r clock m)
  | OpGetPendingInvites now => snd (getPendingInvites now m)
  | OpCancelInvite inviteId => cancelInvite inviteId m
  | OpExportData now => snd (exportData now m)
  | OpImportData data => importData data m
  end.

Definition run (ops : list Op) (m : GuardianManager) : GuardianManager :=
  fold_left apply ops m.

(** Every entry of a map is filed under the identifier it carries, and
    no key occurs twice. *)
Definition keyedBy {V} (key : V -> string) (m : JsMap.t V) : Prop :=
  NoDup (map fst m) /\ Forall (fun e => fst e = key (snd e)) m.

Definition wellKeyed (m : GuardianManager) : Prop :=
  keyedBy id (guardians m) /\ keyedBy inv_id (pendingInvites m).

(** Whether a call can file an invite under [inviteId]: a
    [createInvite] that draws this identifier, or an [importData] whose
    invites include it. *)
Definition files (inviteId : string) (op : Op) : bool :=
  match op with
  | OpCreateInvite _ _ idBytes _ => String.eqb (generateId idBytes) inviteId
  | OpImportData data =>
      match d_pendingInvites data with
      | Some invites => existsb (fun i => String.eqb (inv_id i) inviteId) invites
      | None => false
      end
  | _ => false
  end.

End GuardianOps.

Module GuardianOpsFixtures.
Import Guardian GuardianOps.

(** The calls that build [GuardianFixtures.invited]. *)
Definition setupCalls : list Op :=
  [OpAddGuardian (mkGuardianParams "Alice" "alice@example.org" email 2 None)
                 (List.repeat x01 16) (fun _ => 1000);
   OpCreateInvite GuardianFixtures.inviteParams [xff; x00; x00; x01]
                  (List.repeat x02 16) (fun _ => 2000)].

(** Alice accepts with the code of the invite. *)
Definition acceptance : GuardianResponse :=
  mkResponse "02020202020202020202020202020202" GuardianFixtures.guardianId
             true None "777215" 3000.

End GuardianOpsFixtures.

(* ================================================================== *)
(** * Recovery manager: the other methods and whole runs
      (packages/social-recovery/src/recovery.ts) *)
(* ================================================================== *)

Module RecoveryOps.
Import Recovery.

(** [getTimelockRemaining(requestId)]; a missing request and an unset
    or zero [timelockExpiresAt] give 0.  The request is not updated. *)
Definition getTimelockRemaining (requestId : string) (now : Z)
    (m : RecoveryManager) : Z :=
  match JsMap.get requestId (requests m) with
  | None => 0
  | Some request =>
      match timelockExpiresAt request with
      | None => 0
      | Some t => if t =? 0 then 0 else Z.max 0 (t - now)
      end
  end.

(** The parameter object of [initiateRecovery]. *)
Record InitiateParams : Type := mkInitiateParams {
  i_walletAddress : string;
  i_keyId : string;
  i_initiator : string;
  i_reason : string;
  i_threshold : Z
}.

Definition initiate (p : InitiateParams) (idBytes : list byte)
    (clock after : nat -> Z) (m : RecoveryManager)
  : result RecoveryRequest * RecoveryManager :=
  initiateRecovery (i_walletAddress p) (i_keyId p) (i_initiator p)
                   (i_reason p) (i_threshold p) idBytes clock after m.

(** The calls on a recovery manager: those of [Recovery.Call], and
    [initiateRecovery]. *)
Inductive Op : Type :=
| OpCall (c : Call) (clock : nat -> Z)
| OpInitiate (p : InitiateParams) (idBytes : list byte) (clock after : nat -> Z).

(** The manager after a call, whatever the call returned or threw. *)
Definition apply (m : RecoveryManager) (op : Op) : RecoveryManager :=
  match op with
  | OpCall c clock => step c clock m
  | OpInitiate p idBytes clock after => snd (initiate p idBytes clock after m)
  end.

Definition runOps (ops : list Op) (m : RecoveryManager) : RecoveryManager :=
  fold_left apply ops m.

(** The requests of a wallet whose stored status is pending, approved
    or ready. *)
Definition openRequests (walletAddress0 : string) (m : RecoveryManager)
  : list RecoveryRequest :=
  filter (fun r => String.eqb (walletAddress r) walletAddress0
                   && isOpen (status r))
         (JsMap.values (requests m)).

(** The guardians approve one after the other, each call with its own
    clock readings. *)
Definition approveAll (requestId : string)
    (approvals0 : list (GuardianApproval * (nat -> Z))) (m : RecoveryManager)
  : RecoveryManager :=
  run (map (fun p => (CallAddApproval requestId (fst p), snd p)) approvals0) m.

(** The shares that [executeRecovery] hands to [combineShares]. *)
Definition sharesOf (r : RecoveryRequest) : list Shamir.Share :=
  map (fun a => Shamir.mkShare (shareIndex a) (shareValue a)) (approvals r).

(** An approval as the request stores it: the argument with
    [approvedAt] set. *)
Definition stamped (p : GuardianApproval * (nat -> Z)) : GuardianApproval :=
  mkApproval (guardianId (fst p)) (shareIndex (fst p)) (shareValue (fst p))
             (snd p 1%nat) (signature (fst p)).

(** A call may turn the request [r] into [r']: the wallet is the same
    and a closed request is not opened again. *)
Definition keepsClosed (r r' : RecoveryRequest) : Prop :=
  walletAddress r' = walletAddress r
  /\ (isOpen (status r') = true -> isOpen (status r) = true).

(** The same keys in the same order, every request changed as
    [keepsClosed] allows. *)
Definition shrinks (entries entries' : JsMap.t RecoveryRequest) : Prop :=
  Forall2 (fun e e' => fst e' = fst e /\ keepsClosed (snd e) (snd e'))
          entries entries'.

End RecoveryOps.

Module RecoveryOpsFixtures.

(** Random bytes that make every drawn coefficient 7. *)
Definition coefficient7 : nat -> list byte :=
  fun _ => List.repeat x00 31 ++ [x07].

(** The request of [RecoveryFixtures.approvedManager] as it is stored. *)
Definition approvedRequest : Recovery.RecoveryRequest :=
  Recovery.mkRequest RecoveryFixtures.rid "0xabc" "key-1" "new-owner"
    "lost device" Recovery.approved 2
    [Recovery.mkApproval "guardian-1" 1 (Hex.bigIntToHex 8) 2000 None;
     Recovery.mkApproval "guardian-2" 2 (Hex.bigIntToHex 15) 3000 None]
    172800000 1000 (Some 3000) (Some 172803000) 604801000 None None.

End RecoveryOpsFixtures.

(* ================================================================== *)
(** * Social-recovery facade: the other methods
      (packages/social-recovery/src/social-recovery-wallet.ts) *)
(* ================================================================== *)

Module FacadeOps.
Import Facade.

Definition set_guardianManager (g : Guardian.GuardianManager)
    (w : SocialRecoveryWallet) : SocialRecoveryWallet :=
  mkWallet (mpcWallet w) g (recoveryManager w) (config w)
           (ownerEncryptedShares w) (state w).

Definition set_recoveryManager (r : Recovery.RecoveryManager)
    (w : SocialRecoveryWallet) : SocialRecoveryWallet :=
  mkWallet (mpcWallet w) (guardianManager w) r (config w)
           (ownerEncryptedShares w) (state w).

(** [loadState(state)]. *)
Definition loadState (st : SocialRecoveryWalletState) (w : SocialRecoveryWallet)
  : SocialRecoveryWallet :=
  mkWallet (MPCWallet.loadState (mpcState st) (mpcWallet w))
           (GuardianOps.importData
              (GuardianOps.mkGuardianData (st_guardians st) None)
              (guardianManager w))
           (recoveryManager w) (st_config st) (st_ownerShares st) (Some st).

(** [getState()]. *)
Definition getState (w : SocialRecoveryWallet) : option SocialRecoveryWalletState :=
  state w.

(** [getAddress()]. *)
Definition getAddress (w : SocialRecoveryWallet) : option string :=
  WalletOps.getAddress (mpcWallet w).

(** [getSharesNeeded()]. *)
Definition getSharesNeeded (w : SocialRecoveryWallet) : Z :=
  match WalletOps.getConfig (mpcWallet w) with
  | None => 0
  | Some config0 =>
      Z.max 0 (Threshold.threshold config0
               - MPCWallet.getCollectedShareCount (mpcWallet w))
  end.

(** [getGuardians()] and [getActiveGuardians()]. *)
Definition getGuardians (w : SocialRecoveryWallet) : list Guardian.Guardian :=
  GuardianOps.getAllGuardians (guardianManager w).

Definition getActiveGuardians (w : SocialRecoveryWallet)
  : list Guardian.Guardian :=
  GuardianOps.getActiveGuardians (guardianManager w).

(** [processGuardianResponse(response)]. *)
Definition processGuardianResponse (response : Guardian.GuardianResponse)
    (clock : nat -> Z) (w : SocialRecoveryWallet)
  : result bool * SocialRecoveryWallet :=
  let (r, g) := Guardian.processResponse response clock (guardianManager w) in
  (r, set_guardianManager g w).

(** [initiateRecovery({ initiator, reason })]. *)
Definition initiateRecovery (initiator0 reason0 : string) (idBytes : list byte)
    (clock after : nat -> Z) (w : SocialRecoveryWallet)
  : outcome Recovery.RecoveryRequest * SocialRecoveryWallet :=
  match state w with
  | None => (inl NotInitialized, w)
  | Some st =>
      let (r, rm) :=
        Recovery.initiateRecovery
          (MPCWallet.st_address (mpcState st)) (MPCWallet.st_keyId (mpcState st))
          initiator0 reason0 (threshold (config w)) idBytes clock after
          (recoveryManager w) in
      (match r with inl e => inl (Thrown e) | inr request => inr request end,
       set_recoveryManager rm w)
  end.

(** [addRecoveryApproval(requestId, guardianId, shareValue)]. *)
Definition addRecoveryApproval (requestId guardianId0 shareValue0 : string)
    (clock : nat -> Z) (w : SocialRecoveryWallet)
  : result Recovery.RecoveryRequest * SocialRecoveryWallet :=
  match Guardian.getGuardian guardianId0 (guardianManager w) with
  | None => (inl GuardianNotFound, w)
  | Some guardian =>
      let (r, rm) :=
        Recovery.addApproval requestId
          (Recovery.mkApproval guardianId0 (Guardian.shareIndex guardian)
                               shareValue0 0 None)
          clock (recoveryManager w) in
      (r, set_recoveryManager rm w)
  end.

(** [isRecoveryReady(requestId)]. *)
Definition isRecoveryReady (requestId : string) (clock : nat -> Z)
    (w : SocialRecoveryWallet) : bool * SocialRecoveryWallet :=
  let (b, rm) := Recovery.isReadyForExecution requestId clock (recoveryManager w) in
  (b, set_recoveryManager rm w).

(** [getRecoveryTimelockRemaining(requestId)]. *)
Definition getRecoveryTimelockRemaining (requestId : string) (now : Z)
    (w : SocialRecoveryWallet) : Z :=
  RecoveryOps.getTimelockRemaining requestId now (recoveryManager w).

(** [executeRecovery(requestId)]. *)
Definition executeRecovery (requestId : string) (clock : nat -> Z)
    (w : SocialRecoveryWallet) : result string * SocialRecoveryWallet :=
  let (r, rm) := Recovery.executeRecovery requestId clock (recoveryManager w) in
  (r, set_recoveryManager rm w).

(** [cancelRecovery(requestId)]. *)
Definition cancelRecovery (requestId : string) (clock : nat -> Z)
    (w : SocialRecoveryWallet) : result unit * SocialRecoveryWallet :=
  let (r, rm) := Recovery.cancelRecovery requestId clock (recoveryManager w) in
  (r, set_recoveryManager rm w).

(** [getPendingRecovery()]. *)
Definition getPendingRecovery (clock : nat -> Z) (w : SocialRecoveryWallet)
  : option Recovery.RecoveryRequest * SocialRecoveryWallet :=
  match state w with
  | None => (None, w)
  | Some st =>
      let (r, rm) :=
        Recovery.getPendingRequest (MPCWallet.st_address (mpcState st)) clock
                                   (recoveryManager w) in
      (r, set_recoveryManager rm w)
  end.

Section WithPrimitives.
Variable P : Primitives.

(** The loop of [unlockOwnerShares]: what [addShare] throws ends it. *)
Fixpoint unlockLoop (shares : list MPCWallet.EncryptedKeyShare)
    (password : string) (success : bool) (mw : MPCWallet.MPCWallet)
  : result bool * MPCWallet.MPCWallet :=
  match shares with
  | [] => (inr success, mw)
  | share0 :: rest =>
      match MPCWallet.addShare P share0 password mw with
      | (inl e, mw') => (inl e, mw')
      | (inr added, mw') => unlockLoop rest password (success && added) mw'
      end
  end.

(** [unlockOwnerShares(password)]. *)
Definition unlockOwnerShares (password : string) (w : SocialRecoveryWallet)
  : outcome bool * SocialRecoveryWallet :=
  match ownerEncryptedShares w with
  | [] => (inl NoOwnerShares, w)
  | shares =>
      let (r, mw) := unlockLoop shares password true (mpcWallet w) in
      (match r with inl e => inl (Thrown e) | inr b => inr b end,
       set_mpcWallet mw w)
  end.

End WithPrimitives.

End FacadeOps.

Module FacadeFixtures.

(** A facade whose MPC wallet is loaded with the state of
    [WalletFixtures.createdResult] and whose owner holds its first
    sealed share. *)
Definition ownerWallet : Facade.SocialRecoveryWallet :=
  Facade.mkWallet
    (MPCWallet.loadState (WalletOps.r_state WalletFixtures.createdResult)
                         MPCWallet.newWallet)
    Guardian.newManager (Recovery.newManager None None None None)
    (Facade.mkConfig 3 2 1 48 7)
    (firstn 1 (WalletOps.r_encryptedShares WalletFixtures.createdResult))
    None.

(** The same facade when the record of the owner's share gives NaN as
    its index. *)
Definition nanOwnerWallet : Facade.SocialRecoveryWallet :=
  Facade.mkWallet
    (MPCWallet.loadState (WalletOps.r_state WalletFixtures.createdResult)
                         MPCWallet.newWallet)
    Guardian.newManager (Recovery.newManager None None None None)
    (Facade.mkConfig 3 2 1 48 7)
    (map (fun sh =>
            MPCWallet.mkEncryptedKeyShare JsNumber.NaN
              (MPCWallet.e_encryptedShare sh) (MPCWallet.e_publicKey sh)
              (MPCWallet.e_address sh) (MPCWallet.e_keyId sh)
              (MPCWallet.e_config sh) (MPCWallet.e_label sh))
         (firstn 1 (WalletOps.r_encryptedShares WalletFixtures.createdResult)))
    None.

End FacadeFixtures.

(* ================================================================== *)
(** * Random blocks that make [splitSecret] draw given coefficients *)
(* ================================================================== *)

Module ShamirEntropy.
Import Field Shamir Poly Lagrange.

(** The 32 bytes, most significant first, on which [randomFieldElement]
    computes [v]. *)
Definition blockOf (v : Z) : list byte :=
  map Hash.zToByte (Hash.bigEndian 32 v).

(** What [randomBytes(32)] returns at call number [i] (counted from 1)
    when the coefficients drawn are to be [coefficients]. *)
Definition entropyOf (coefficients : list Z) (i : nat) : list byte :=
  blockOf (nth (Nat.pred i) coefficients 0).

(** The interpolation points: [secret] at 0 and the value of
    [coefficients] at every index of [indices]. *)
Definition points (indices : list Z) : list Share :=
  mkShare 0 EmptyString :: map (fun i => mkShare i EmptyString) indices.

Definition valueAt (secret : Z) (coefficients : list Z) (sh : Share) : Z :=
  if x sh =? 0 then secret else peval coefficients (x sh) mod PRIME.

(** [threshold] coefficients in the field whose polynomial has the
    value [secret] at 0 and the values of [coefficients] at [indices]. *)
Definition refit (secret : Z) (coefficients : list Z) (indices : list Z)
    (threshold : nat) : list Z :=
  let g := termsPoly (valueAt secret coefficients) [] (points indices) in
  map (fun c => c mod PRIME)
      (g ++ repeat 0 (threshold - List.length g)%nat).

End ShamirEntropy.

(* ================================================================== *)
(** * Proofs: field arithmetic *)
(* ================================================================== *)

Module FieldFacts.
Import Field.

Lemma rem_nonneg_mod a m : 0 <= a -> 0 < m -> Z.rem a m = a mod m.
Proof. intros; apply Z.rem_mod_nonneg; lia. Qed.

(** The truncating remainder is congruent to its argument. *)
Lemma rem_congr a m : 0 < m -> (Z.rem a m) mod m = a mod m.
Proof.
  intros Hm.
  assert (E : a = m * Z.quot a m + Z.rem a m) by apply Z.quot_rem'.
  rewrite E at 2.
  rewrite Z.add_comm, Z.mul_comm, Z.mod_add by lia. reflexivity.
Qed.

Lemma rem_range a m : 0 < m -> - m < Z.rem a m < m.
Proof.
  intros Hm. pose proof (Z.rem_bound_abs a m ltac:(lia)). lia.
Qed.

Lemma normalize_mod v : normalize v = v mod PRIME.
Proof.
  unfold normalize.
  assert (HP : 0 < PRIME) by reflexivity.
  pose proof (rem_range v PRIME HP).
  rewrite rem_nonneg_mod by lia.
  rewrite <- Z.add_mod_idemp_l by lia.
  rewrite rem_congr by lia.
  rewrite Z.add_mod_idemp_l by lia.
  rewrite <- (Z.mul_1_l PRIME) at 1.
  rewrite Z.mod_add by lia. reflexivity.
Qed.

Lemma pow_halve b e : 0 <= e -> b ^ e = (b * b) ^ (e / 2) * b ^ (e mod 2).
Proof.
  intros He.
  rewrite <- Z.pow_2_r, <- Z.pow_mul_r, <- Z.pow_add_r.
  - f_equal. apply Z.div_mod. lia.
  - apply Z.mul_nonneg_nonneg; [lia | apply Z.div_pos; lia].
  - apply Z.mod_pos_bound. lia.
  - lia.
  - apply Z.div_pos; lia.
Qed.

Lemma modPow_loop_spec md (Hmd : 1 < md) :
  forall fuel result base exp,
    0 <= result < md -> 0 <= base -> 0 <= exp < 2 ^ Z.of_nat fuel ->
    modPow_loop fuel result base exp md = (result * base ^ exp) mod md.
Proof.
  induction fuel as [|fuel IH]; intros result base exp Hr Hb He.
  - simpl in *. assert (exp = 0) by lia. subst.
    rewrite Z.pow_0_r, Z.mul_1_r, Z.mod_small; lia.
  - cbn [modPow_loop].
    destruct (Z.ltb_spec 0 exp) as [Hpos|Hz].
    2:{ assert (exp = 0) by lia. subst.
        rewrite Z.pow_0_r, Z.mul_1_r, Z.mod_small; lia. }
    assert (Hbb : 0 <= base * base) by nia.
    rewrite (rem_nonneg_mod (base * base)) by lia.
    rewrite Z.shiftr_div_pow2 by lia. change (2 ^ 1) with 2.
    rewrite (rem_nonneg_mod exp 2) by lia.
    assert (Hh : 0 <= exp / 2 < 2 ^ Z.of_nat fuel).
    { rewrite Nat2Z.inj_succ, Z.pow_succ_r in He by lia.
      split; [apply Z.div_pos; lia | apply Z.div_lt_upper_bound; lia]. }
    assert (Hb' : 0 <= (base * base) mod md)
      by (apply Z.mod_pos_bound; lia).
    rewrite (pow_halve base exp) by lia.
    pose proof (Z.mod_pos_bound exp 2 ltac:(lia)) as Hm2.
    destruct (Z.eqb_spec (exp mod 2) 1) as [E1|E1].
    + rewrite rem_nonneg_mod by nia.
      rewrite IH; try lia; [|apply Z.mod_pos_bound; lia].
      rewrite E1, Z.pow_1_r.
      rewrite <- Z.mul_mod_idemp_r, Z.mod_pow_l, Z.mul_mod_idemp_r by lia.
      rewrite Z.mul_mod_idemp_l by lia. f_equal. ring.
    + assert (E0 : exp mod 2 = 0) by lia.
      rewrite IH; try lia.
      rewrite E0, Z.pow_0_r, Z.mul_1_r.
      rewrite <- Z.mul_mod_idemp_r, Z.mod_pow_l, Z.mul_mod_idemp_r by lia.
      reflexivity.
Qed.

(** [modPow] computes the power residue: the fuel it takes is enough. *)
Lemma modPow_spec base exp md :
  1 < md -> 0 <= base -> 0 <= exp -> modPow base exp md = base ^ exp mod md.
Proof.
  intros Hmd Hb He. unfold modPow.
  rewrite rem_nonneg_mod by lia.
  rewrite modPow_loop_spec; try lia.
  - rewrite Z.mul_1_l, Z.mod_pow_l. reflexivity.
  - apply Z.mod_pos_bound; lia.
  - split; [lia|].
    rewrite Nat2Z.inj_succ, Z2Nat.id by apply Z.log2_nonneg.
    destruct (Z.eq_dec exp 0) as [->|Hne]; [reflexivity|].
    apply Z.log2_spec. lia.
Qed.

End FieldFacts.

(* ================================================================== *)
(** * Proofs: the certificates are sound *)
(* ================================================================== *)

Module PrimalityFacts.
Import Field Primality FieldFacts.

Lemma prime_factor_exists : forall n, 1 < n -> exists p, Z.prime p /\ (p | n).
Proof.
  intros n. pattern n. apply (well_founded_induction (Z.lt_wf 2)).
  clear n. intros n IH Hn.
  destruct (prime_dec n) as [Hp|Hnp].
  - exists n. split; [apply prime_alt; exact Hp | apply Z.divide_refl].
  - destruct (not_prime_divide n Hn Hnp) as [d [Hd Hdiv]].
    destruct (IH d ltac:(lia) ltac:(lia)) as [p [Hp Hpd]].
    exists p. split; [exact Hp | eapply Z.divide_trans; eassumption].
Qed.

Lemma no_divisor_from_sound n (Hn : 1 < n) :
  forall fuel d,
    2 <= d -> (forall k, 2 <= k < d -> ~ (k | n)) ->
    no_divisor_from fuel d n = true ->
    forall k, 1 < k < n -> ~ (k | n).
Proof.
  induction fuel as [|fuel IH]; intros d Hd Hlow Hrun; [discriminate|].
  cbn [no_divisor_from] in Hrun.
  destruct (Z.ltb_spec n (d * d)) as [Hsq|Hsq].
  - intros k Hk [c Hc].
    assert (Hc1 : 1 < c < n) by nia.
    destruct (Z_lt_le_dec k d) as [Hkd|Hkd].
    + apply (Hlow k); [lia | exists c; exact Hc].
    + destruct (Z_lt_le_dec c d) as [Hcd|Hcd].
      * apply (Hlow c); [lia | exists k; lia].
      * nia.
  - destruct (Z.eqb_spec (n mod d) 0) as [Hz|Hnz]; [discriminate|].
    apply (IH (d + 1)); [lia | | exact Hrun].
    intros k Hk Hdiv.
    destruct (Z.eq_dec k d) as [->|Hne].
    + apply Hnz. apply Z.mod_divide; [lia | exact Hdiv].
    + apply (Hlow k); [lia | exact Hdiv].
Qed.

Theorem prime_trial_sound n : prime_trial n = true -> Z.prime n.
Proof.
  unfold prime_trial. intros H. apply andb_prop in H. destruct H as [H1 H2].
  apply Z.ltb_lt in H1. split; [exact H1|].
  apply (no_divisor_from_sound n H1 (Z.to_nat (Z.sqrt n)) 2);
    [lia | intros; lia | exact H2].
Qed.

Section Residues.
Variables a p : Z.
Hypothesis Hp : 1 < p.

Lemma pow_one_sub m n :
  0 <= n <= m -> a ^ m mod p = 1 -> a ^ n mod p = 1 -> a ^ (m - n) mod p = 1.
Proof.
  intros Hmn Hm Hn.
  replace m with ((m - n) + n) in Hm by ring.
  rewrite Z.pow_add_r in Hm by lia.
  rewrite <- Z.mul_mod_idemp_r, Hn, Z.mul_1_r in Hm by lia.
  exact Hm.
Qed.

Lemma pow_one_gcd :
  forall (k : nat) m n, 0 <= m -> 0 <= n -> m + n <= Z.of_nat k ->
    a ^ m mod p = 1 -> a ^ n mod p = 1 -> a ^ Z.gcd m n mod p = 1.
Proof.
  induction k as [|k IH]; intros m n Hm Hn Hk Em En.
  - assert (m = 0) by lia. assert (n = 0) by lia. subst. exact Em.
  - destruct (Z.eq_dec m 0) as [->|Hm0].
    { rewrite Z.gcd_0_l, Z.abs_eq by lia. exact En. }
    destruct (Z.eq_dec n 0) as [->|Hn0].
    { rewrite Z.gcd_0_r, Z.abs_eq by lia. exact Em. }
    destruct (Z_le_gt_dec n m) as [Hle|Hgt].
    + rewrite Z.gcd_comm, <- Z.gcd_sub_diag_r.
      rewrite Z.gcd_comm. apply IH; [lia | lia | lia | | exact En].
      apply pow_one_sub; [lia | exact Em | exact En].
    + rewrite <- Z.gcd_sub_diag_r.
      apply IH; [lia | lia | lia | exact Em |].
      apply pow_one_sub; [lia | exact En | exact Em].
Qed.

Lemma pow_one_mul g k :
  0 <= g -> 0 <= k -> a ^ g mod p = 1 -> a ^ (g * k) mod p = 1.
Proof.
  intros Hg Hk E.
  rewrite Z.pow_mul_r by lia.
  rewrite <- Z.mod_pow_l, E, Z.pow_1_l by lia.
  apply Z.mod_1_l; lia.
Qed.

End Residues.

(** One certificate line forces [q] into [p - 1] for every prime factor
    [p] of [n]. *)
Lemma pock_line_divides n q a p :
  1 < n -> Z.prime q -> pock_line n (q, a) = true ->
  Z.prime p -> (p | n) -> (q | p - 1).
Proof.
  intros Hn Hq Hline Hp Hpn.
  pose proof (Z.prime_ge_2 _ Hq) as Hq2.
  pose proof (Z.prime_ge_2 _ Hp) as Hp2.
  unfold pock_line in Hline.
  repeat (apply andb_prop in Hline; destruct Hline as [Hline ?]).
  apply Z.leb_le in Hline.
  match goal with H : (_ mod q =? 0) = true |- _ =>
    apply Z.eqb_eq in H; rename H into Hdiv end.
  match goal with H : (modPow a (n - 1) n =? 1) = true |- _ =>
    apply Z.eqb_eq in H; rename H into Hone end.
  match goal with H : (Z.gcd _ n =? 1) = true |- _ =>
    apply Z.eqb_eq in H; rename H into Hgcd end.
  set (M := (n - 1) / q) in *.
  assert (HM : n - 1 = q * M) by (apply Z.div_exact; [lia | exact Hdiv]).
  assert (HM0 : 0 <= M) by (apply Z.div_pos; lia).
  rewrite modPow_spec in Hone by lia.
  rewrite modPow_spec in Hgcd by lia.
  assert (Hmodp : forall x, (x mod n) mod p = x mod p).
  { intros x. apply Z.mod_mod_divide. exact Hpn. }
  assert (E1 : a ^ (n - 1) mod p = 1).
  { rewrite <- Hmodp, Hone. apply Z.mod_1_l; lia. }
  assert (Ha : a mod p <> 0).
  { intros Ha0. rewrite <- Z.mod_pow_l, Ha0, Z.pow_0_l in E1 by lia.
    rewrite Z.mod_0_l in E1 by lia. discriminate. }
  pose proof (Z.fermat_nz p a Hp Ha) as E2.
  pose proof (pow_one_gcd a p ltac:(lia) (Z.to_nat (n - 1 + (p - 1)))
                (n - 1) (p - 1) ltac:(lia) ltac:(lia) ltac:(lia) E1 E2) as Eg.
  set (g := Z.gcd (n - 1) (p - 1)) in *.
  destruct (Z.eq_dec ((p - 1) mod q) 0) as [Hyes|Hno'].
  { apply Z.mod_divide in Hyes; [exact Hyes | lia]. }
  exfalso.
  assert (Hno : ~ (q | p - 1)).
  { intros D. apply Hno'. apply Z.mod_divide; [lia | exact D]. }
  assert (Hg0 : 0 < g).
  { pose proof (Z.gcd_nonneg (n - 1) (p - 1)).
    destruct (Z.eq_dec g 0) as [Hz|Hz]; [|unfold g in *; lia].
    apply Z.gcd_eq_0_l in Hz. lia. }
  assert (Hqg : ~ (q | g)).
  { intros Hqg. apply Hno. eapply Z.divide_trans; [exact Hqg|].
    apply Z.gcd_divide_r. }
  assert (Hcop : Z.gcd g q = 1).
  { rewrite Z.gcd_comm. apply Z.coprime_prime_l; assumption. }
  assert (HgM : (g | M)).
  { apply (Z.gauss g q M); [|exact Hcop].
    rewrite <- HM. apply Z.gcd_divide_l. }
  destruct HgM as [c Hc].
  assert (Hc0 : 0 <= c) by nia.
  assert (EM : a ^ M mod p = 1).
  { rewrite Hc, Z.mul_comm. apply pow_one_mul; [lia | lia | lia | exact Eg]. }
  assert (Hpd : (p | a ^ M mod n - 1)).
  { apply Z.mod_divide; [lia|].
    rewrite <- Zminus_mod_idemp_l, Hmodp, EM. reflexivity. }
  pose proof (Z.gcd_greatest _ _ _ Hpd Hpn) as H1.
  rewrite Hgcd in H1.
  apply Z.divide_1_r_nonneg in H1; lia.
Qed.

Lemma coprime_product q r :
  Z.prime q -> (forall x, In x r -> Z.prime x /\ x <> q) ->
  Z.gcd q (product r) = 1.
Proof.
  intros Hq. induction r as [|x r IH]; intros Hall.
  - apply Z.gcd_1_r.
  - cbn [product fold_right]. apply Z.coprime_mul_r.
    + destruct (Hall x (or_introl eq_refl)) as [Hx Hne].
      apply Z.coprime_prime_l; [exact Hq|].
      intros Hd. apply Hne. symmetry.
      apply Z.divide_prime_prime; assumption.
    + apply IH. intros y Hy. apply Hall. right. exact Hy.
Qed.

Lemma product_divides m :
  forall qs, (forall q, In q qs -> Z.prime q /\ (q | m)) ->
    distinct qs = true -> (product qs | m).
Proof.
  induction qs as [|q r IH]; intros Hall Hd.
  - apply Z.divide_1_l.
  - cbn [distinct] in Hd. apply andb_prop in Hd. destruct Hd as [Hnot Hd].
    apply negb_true_iff in Hnot.
    destruct (Hall q (or_introl eq_refl)) as [Hq [c Hc]].
    assert (Hr : (product r | m)).
    { apply IH; [|exact Hd]. intros y Hy. apply Hall. right. exact Hy. }
    assert (Hcop : Z.gcd (product r) q = 1).
    { rewrite Z.gcd_comm. apply coprime_product; [exact Hq|].
      intros y Hy. split; [apply Hall; right; exact Hy|].
      intros ->. 
      assert (existsb (Z.eqb q) r = true)
        by (apply existsb_exists; exists q; split; [exact Hy|apply Z.eqb_refl]).
      congruence. }
    assert (Hrc : (product r | c)).
    { apply (Z.gauss _ q c); [|exact Hcop]. rewrite Z.mul_comm, <- Hc. exact Hr. }
    destruct Hrc as [e He]. exists e.
    cbn [product fold_right]. fold (product r). rewrite Hc, He. ring.
Qed.

(** Pocklington's criterion. *)
Theorem pock_check_sound n cert :
  (forall q, In q (map fst cert) -> Z.prime q) ->
  pock_check n cert = true -> Z.prime n.
Proof.
  intros Hprimes Hchk. unfold pock_check in Hchk.
  repeat (apply andb_prop in Hchk; destruct Hchk as [Hchk ?]).
  apply Z.ltb_lt in Hchk.
  match goal with H : forallb _ _ = true |- _ => rename H into Hlines end.
  match goal with H : distinct _ = true |- _ => rename H into Hdist end.
  match goal with H : (_ <? _) = true |- _ =>
    apply Z.ltb_lt in H; rename H into Hbig end.
  set (F := product (map fst cert)) in *.
  assert (Hfactor : forall p, Z.prime p -> (p | n) -> (F | p - 1)).
  { intros p Hp Hpn. apply product_divides; [|exact Hdist].
    intros q Hq. split; [apply Hprimes; exact Hq|].
    apply in_map_iff in Hq. destruct Hq as [[q' a] [Hfst Hin]].
    cbn in Hfst. subst q'.
    rewrite forallb_forall in Hlines.
    apply (pock_line_divides n q a p); auto.
    apply Hprimes. apply in_map_iff. exists (q, a). split; [reflexivity|exact Hin]. }
  split; [exact Hchk|].
  intros k Hk [c Hc].
  assert (Hc1 : 1 < c < n) by nia.
  assert (Hsmall : exists d, 1 < d /\ d * d <= n /\ (d | n)).
  { destruct (Z_le_gt_dec k c).
    - exists k. repeat split; [lia | nia | exists c; exact Hc].
    - exists c. repeat split; [lia | nia | exists k; lia]. }
  destruct Hsmall as [d [Hd1 [Hdd Hdn]]].
  destruct (prime_factor_exists d Hd1) as [p [Hp Hpd]].
  pose proof (Z.prime_ge_2 _ Hp) as Hp2.
  assert (Hple : p <= d) by (apply Z.divide_pos_le; [lia | exact Hpd]).
  assert (HF : (F | p - 1))
    by (apply Hfactor; [exact Hp | eapply Z.divide_trans; eassumption]).
  apply Z.divide_abs_l in HF.
  apply Z.divide_pos_le in HF; [|lia].
  assert (F * F <= (p - 1) * (p - 1)) by (destruct (Z.abs_spec F); nia).
  nia.
Qed.

Ltac by_trial := apply prime_trial_sound; vm_compute; reflexivity.

Ltac by_certificate c :=
  apply (pock_check_sound _ c);
  [ cbn [map fst]; intros q Hq; repeat (destruct Hq as [<-|Hq]; [assumption|]);
    destruct Hq
  | vm_compute; reflexivity ].

Lemma prime_120233 : Z.prime 120233.
Proof. by_trial. Qed.

Lemma prime_44706919 : Z.prime 44706919.
Proof. by_trial. Qed.

Lemma prime_545358713 : Z.prime 545358713.
Proof. by_trial. Qed.

Lemma prime_1627771 : Z.prime 1627771.
Proof. by_trial. Qed.

Lemma prime_297159362677 : Z.prime 297159362677.
Proof.
  pose proof prime_1627771.
  by_certificate [(1627771, 2)].
Qed.

Lemma prime_r1 : Z.prime 29047611873442575647497758179.
Proof.
  pose proof prime_297159362677. pose proof prime_545358713.
  by_certificate [(297159362677, 2); (545358713, 2)].
Qed.

Lemma prime_q1 : Z.prime 341948486974166000522343609283189.
Proof.
  pose proof prime_r1.
  by_certificate [(29047611873442575647497758179, 2)].
Qed.

Lemma prime_q2 : Z.prime 174723607534414371449.
Proof.
  pose proof prime_44706919. pose proof prime_120233.
  by_certificate [(44706919, 2); (120233, 2)].
Qed.

(** The modulus of the sharing scheme is a prime number. *)
Theorem PRIME_prime : Z.prime PRIME.
Proof.
  pose proof prime_q1. pose proof prime_q2.
  by_certificate [(341948486974166000522343609283189, 2);
                  (174723607534414371449, 2)].
Qed.

End PrimalityFacts.

(* ================================================================== *)
(** * Proofs: hexadecimal strings *)
(* ================================================================== *)

Module HexFacts.
Import Hex.

Lemma hexVal_hexDigit d : 0 <= d < 16 -> hexVal (hexDigit d) = Some d.
Proof.
  intros H.
  assert (C : d = 0 \/ d = 1 \/ d = 2 \/ d = 3 \/ d = 4 \/ d = 5 \/ d = 6
              \/ d = 7 \/ d = 8 \/ d = 9 \/ d = 10 \/ d = 11 \/ d = 12
              \/ d = 13 \/ d = 14 \/ d = 15) by lia.
  repeat (destruct C as [->|C]; [reflexivity|]). subst d. reflexivity.
Qed.

Lemma parseHexAcc_app s1 s2 : forall a,
  parseHexAcc (s1 ++ s2) a =
  match parseHexAcc s1 a with
  | Some a' => parseHexAcc s2 a'
  | None => None
  end.
Proof.
  induction s1 as [|c s1 IH]; intros a; cbn [parseHexAcc String.append].
  - reflexivity.
  - destruct (hexVal c); [apply IH | reflexivity].
Qed.

Lemma hexDigits_parse : forall fuel v,
  0 <= v < 16 ^ Z.of_nat fuel -> parseHexAcc (hexDigits fuel v) 0 = Some v.
Proof.
  induction fuel as [|fuel IH]; intros v Hv.
  - cbn in *. f_equal. lia.
  - cbn [hexDigits]. rewrite parseHexAcc_app.
    pose proof (Z.mod_pos_bound v 16 ltac:(lia)) as Hm.
    pose proof (Z.div_mod v 16 ltac:(lia)) as Hdm.
    destruct (Z.eqb_spec (v / 16) 0) as [E|E].
    + cbn [parseHexAcc]. rewrite hexVal_hexDigit by lia. f_equal. lia.
    + rewrite IH.
      * cbn [parseHexAcc]. rewrite hexVal_hexDigit by lia. f_equal. lia.
      * rewrite Nat2Z.inj_succ, Z.pow_succ_r in Hv by lia.
        split; [apply Z.div_pos; lia | apply Z.div_lt_upper_bound; lia].
Qed.

Lemma hexDigits_nonempty fuel v : hexDigits (S fuel) v <> EmptyString.
Proof.
  cbn [hexDigits].
  destruct (if v / 16 =? 0 then EmptyString else hexDigits fuel (v / 16));
    discriminate.
Qed.

Lemma toString16_parse v :
  0 <= v -> parseHexAcc (toString16 v) 0 = Some v /\ toString16 v <> EmptyString.
Proof.
  intros Hv. unfold toString16.
  destruct (Z.ltb_spec v 0) as [?|_]; [lia|].
  split; [|apply hexDigits_nonempty].
  apply hexDigits_parse. split; [lia|].
  rewrite Nat2Z.inj_succ, Z2Nat.id by apply Z.log2_nonneg.
  destruct (Z.eq_dec v 0) as [->|Hne]; [reflexivity|].
  apply Z.lt_le_trans with (2 ^ Z.succ (Z.log2 v)).
  - apply Z.log2_spec. lia.
  - apply Z.pow_le_mono_l. pose proof (Z.log2_nonneg v). lia.
Qed.

Lemma replicate_zero_parse n s :
  parseHexAcc (replicate n "0"%char ++ s) 0 = parseHexAcc s 0.
Proof. induction n as [|n IH]; [reflexivity | exact IH]. Qed.

Lemma startsWith0x_not_hex s a : startsWith0x s = true -> parseHexAcc s a = None.
Proof.
  destruct s as [|c1 [|c2 s]]; try discriminate.
  - destruct c1 as [[] [] [] [] [] [] [] []]; discriminate.
  - destruct c1 as [[] [] [] [] [] [] [] []]; try discriminate.
    destruct c2 as [[] [] [] [] [] [] [] []]; try discriminate.
    reflexivity.
Qed.

(** A digit starts no white space. *)
Lemma digit_not_space c d r :
  hexVal c = Some d -> isStrWhiteSpace (String c r) = false.
Proof.
  destruct c as [[] [] [] [] [] [] [] []]; try discriminate;
    intros _; destruct r as [|c2 [|c3 r3]]; reflexivity.
Qed.

(** A string of digits has nothing to trim. *)
Lemma trimEnd_digits s : forall a v, parseHexAcc s a = Some v -> trimEnd s = s.
Proof.
  induction s as [|c s IH]; intros a v H; [reflexivity|].
  cbn [parseHexAcc] in H. destruct (hexVal c) as [d|] eqn:E; [|discriminate].
  cbn [trimEnd]. rewrite (digit_not_space c d s E). f_equal.
  exact (IH _ _ H).
Qed.

(** On digits only, [parseHex] reads the number, unless there is none. *)
Lemma parseHex_digits s v :
  parseHexAcc s 0 = Some v -> s <> EmptyString -> parseHex s = Some v.
Proof.
  intros H Hne. unfold parseHex. rewrite (trimEnd_digits s 0 v H).
  destruct s; [contradiction | exact H].
Qed.

(** Reading back what [bigIntToHex] printed gives the number. *)
Theorem hexToBigInt_bigIntToHex v :
  0 <= v -> hexToBigInt (bigIntToHex v) = Some v.
Proof.
  intros Hv. destruct (toString16_parse v Hv) as [Hp Hne].
  assert (Hpad : parseHexAcc (bigIntToHex v) 0 = Some v).
  { unfold bigIntToHex, padStart. rewrite replicate_zero_parse. exact Hp. }
  unfold hexToBigInt.
  destruct (startsWith0x (bigIntToHex v)) eqn:E.
  - rewrite (startsWith0x_not_hex _ 0 E) in Hpad. discriminate.
  - apply parseHex_digits; [exact Hpad|].
    unfold bigIntToHex, padStart. intros Eb.
    destruct (replicate (64 - String.length (toString16 v)) "0"); cbn in Eb.
    + contradiction.
    + discriminate.
Qed.

Lemma parseHexAcc_nonneg s : forall a v,
  0 <= a -> parseHexAcc s a = Some v -> 0 <= v.
Proof.
  induction s as [|c s IH]; intros a v Ha H; cbn [parseHexAcc] in H.
  - injection H as <-. exact Ha.
  - destruct (hexVal c) as [d|] eqn:E; [|discriminate].
    apply (IH (a * 16 + d)); [|exact H].
    unfold hexVal in E.
    repeat match type of E with
           | (if ?b then _ else _) = _ => destruct b eqn:?
           end; try discriminate; injection E as <-; lia.
Qed.

Lemma hexToBigInt_nonneg s v : hexToBigInt s = Some v -> 0 <= v.
Proof.
  unfold hexToBigInt, parseHex. intros H.
  destruct (trimEnd (if startsWith0x s then slice2 s else s)) as [|c r];
    [discriminate|].
  apply (parseHexAcc_nonneg (String c r) 0 v); [lia | exact H].
Qed.

End HexFacts.

(* ================================================================== *)
(** * Proofs: polynomials *)
(* ================================================================== *)

Module PolyFacts.
Import Poly.

Lemma peval_padd a : forall b x, peval (padd a b) x = peval a x + peval b x.
Proof.
  induction a as [|ca a IH]; intros [|cb b] x; cbn [padd peval]; try lia.
  rewrite IH. ring.
Qed.

Lemma length_padd a : forall b,
  List.length (padd a b) = Nat.max (List.length a) (List.length b).
Proof.
  induction a as [|ca a IH]; intros [|cb b]; cbn [padd List.length]; try lia.
  rewrite IH. lia.
Qed.

Lemma peval_pscale k a x : peval (pscale k a) x = k * peval a x.
Proof.
  induction a as [|c a IH]; cbn [pscale map peval]; [ring|].
  unfold pscale in IH. rewrite IH. ring.
Qed.

Lemma length_pscale k a : List.length (pscale k a) = List.length a.
Proof. apply length_map. Qed.

Lemma peval_pmulX r a x : peval (pmulX r a) x = (x - r) * peval a x.
Proof.
  unfold pmulX. rewrite peval_padd, peval_pscale. cbn [peval]. ring.
Qed.

Lemma length_pmulX r a : List.length (pmulX r a) = S (List.length a).
Proof.
  unfold pmulX. rewrite length_padd, length_pscale. cbn [List.length]. lia.
Qed.

Lemma peval_prodPoly xs X : peval (prodPoly xs) X = prodX X xs.
Proof.
  induction xs as [|xj xs IH]; cbn [prodPoly prodX fold_right].
  - cbn [peval]. ring.
  - fold (prodPoly xs). fold (prodX X xs). rewrite peval_pmulX, IH. reflexivity.
Qed.

Lemma length_prodPoly xs : List.length (prodPoly xs) = S (List.length xs).
Proof.
  induction xs as [|xj xs IH]; cbn [prodPoly fold_right]; [reflexivity|].
  fold (prodPoly xs). rewrite length_pmulX, IH. reflexivity.
Qed.

(** The factor theorem: [a = (X - r) * pdiv a r + a(r)]. *)
Lemma pdiv_spec a r : forall x,
  peval a x = (x - r) * peval (pdiv a r) x + peval a r.
Proof.
  induction a as [|c a IH]; intros x; [cbn [pdiv peval]; ring|].
  cbn [pdiv]. destruct a as [|c' a'] eqn:E; [cbn [peval]; ring|].
  rewrite <- E in *. 
  change (peval (c :: a) x) with (c + x * peval a x).
  change (peval (c :: a) r) with (c + r * peval a r).
  change (peval (peval a r :: pdiv a r) x)
    with (peval a r + x * peval (pdiv a r) x).
  rewrite (IH x). ring.
Qed.

Lemma length_pdiv a r : List.length (pdiv a r) = pred (List.length a).
Proof.
  induction a as [|c a IH]; [reflexivity|].
  cbn [pdiv]. destruct a as [|c' a']; [reflexivity|].
  cbn [List.length] in *. rewrite IH. reflexivity.
Qed.

(** A polynomial with at least as many roots, pairwise distinct modulo
    the prime [p], as it has coefficients vanishes modulo [p]
    everywhere. *)
Theorem roots_vanish p (Hp : Z.prime p) :
  forall rs a,
    (List.length a <= List.length rs)%nat ->
    distinct_mod p rs ->
    (forall r, In r rs -> (p | peval a r)) ->
    forall x, (p | peval a x).
Proof.
  induction rs as [|r rs IH]; intros a Hlen Hd Hroots x.
  - destruct a; [|cbn in Hlen; lia]. cbn. apply Z.divide_0_r.
  - destruct Hd as [Hr Hd].
    assert (Hb : forall y, (p | peval (pdiv a r) y)).
    { apply IH.
      - rewrite length_pdiv. cbn [List.length] in Hlen. lia.
      - exact Hd.
      - intros r' Hin.
        pose proof (Hroots r' (or_intror Hin)) as H1.
        pose proof (Hroots r (or_introl eq_refl)) as H2.
        rewrite (pdiv_spec a r r') in H1.
        assert (H3 : (p | (r' - r) * peval (pdiv a r) r')).
        { replace ((r' - r) * peval (pdiv a r) r')
            with ((r' - r) * peval (pdiv a r) r' + peval a r - peval a r) by ring.
          apply Z.divide_sub_r; assumption. }
        apply Z.divide_prime_mul in H3; [|exact Hp].
        destruct H3 as [H3|H3]; [|exact H3].
        exfalso. exact (Hr r' Hin H3). }
    rewrite (pdiv_spec a r x).
    apply Z.divide_add_r.
    + apply Z.divide_mul_r. apply Hb.
    + apply Hroots. left. reflexivity.
Qed.

Lemma prodX_zero X xs : In X xs -> prodX X xs = 0.
Proof.
  induction xs as [|xj xs IH]; intros Hin; [destruct Hin|].
  cbn [prodX fold_right]. fold (prodX X xs).
  destruct Hin as [->|Hin]; [lia|]. rewrite IH by exact Hin. lia.
Qed.

Lemma prodX_app X xs ys : prodX X (xs ++ ys) = prodX X xs * prodX X ys.
Proof.
  induction xs as [|xj xs IH]; cbn [prodX fold_right app].
  - fold (prodX X ys). lia.
  - fold (prodX X (xs ++ ys)). fold (prodX X xs). rewrite IH. ring.
Qed.

Lemma prodX_nonzero_mod p (Hp : Z.prime p) X xs :
  (forall xj, In xj xs -> ~ (p | X - xj)) -> ~ (p | prodX X xs).
Proof.
  induction xs as [|xj xs IH]; intros Hall.
  - cbn. intros H. apply Z.divide_1_r_nonneg in H.
    + pose proof (Z.prime_ge_2 _ Hp). lia.
    + pose proof (Z.prime_ge_2 _ Hp). lia.
  - cbn [prodX fold_right]. fold (prodX X xs). intros H.
    apply Z.divide_prime_mul in H; [|exact Hp]. destruct H as [H|H].
    + exact (Hall xj (or_introl eq_refl) H).
    + apply IH; [|exact H]. intros y Hy. apply Hall. right. exact Hy.
Qed.

End PolyFacts.

(* ================================================================== *)
(** * Proofs: split and combine *)
(* ================================================================== *)

Module ShamirFacts.
Import Field Hex Shamir Poly Lagrange FieldFacts HexFacts PolyFacts PrimalityFacts.

Lemma PRIME_pos : 0 < PRIME.
Proof. reflexivity. Qed.

Lemma congr_add_mul a a' b b' e :
  a' mod PRIME = a mod PRIME -> b' mod PRIME = b mod PRIME ->
  (a' + b' * e) mod PRIME = (a + b * e) mod PRIME.
Proof.
  intros Ha Hb.
  rewrite Z.add_mod, (Z.mul_mod b'), Ha, Hb by (pose proof PRIME_pos; lia).
  rewrite <- Z.mul_mod, <- Z.add_mod by (pose proof PRIME_pos; lia).
  reflexivity.
Qed.

Lemma congr_mul a a' b b' :
  a' mod PRIME = a mod PRIME -> b' mod PRIME = b mod PRIME ->
  (a' * b') mod PRIME = (a * b) mod PRIME.
Proof.
  intros Ha Hb.
  rewrite Z.mul_mod, Ha, Hb by (pose proof PRIME_pos; lia).
  rewrite <- Z.mul_mod by (pose proof PRIME_pos; lia). reflexivity.
Qed.

Lemma congr_add_l a a' b :
  a' mod PRIME = a mod PRIME -> (a' + b) mod PRIME = (a + b) mod PRIME.
Proof.
  intros Ha. rewrite Z.add_mod, Ha by (pose proof PRIME_pos; lia).
  rewrite <- Z.add_mod by (pose proof PRIME_pos; lia). reflexivity.
Qed.

Lemma congr_add_r a b b' :
  b' mod PRIME = b mod PRIME -> (a + b') mod PRIME = (a + b) mod PRIME.
Proof. intros Hb. rewrite !(Z.add_comm a). apply congr_add_l. exact Hb. Qed.

Lemma evaluateLoop_spec coefficients x0 : forall result xPow,
  evaluateLoop coefficients x0 result xPow mod PRIME
  = (result + xPow * peval coefficients x0) mod PRIME.
Proof.
  induction coefficients as [|coef rest IH]; intros result xPow.
  - cbn [evaluateLoop peval]. f_equal. ring.
  - cbn [evaluateLoop peval]. rewrite IH.
    transitivity ((result + coef * xPow + xPow * x0 * peval rest x0) mod PRIME).
    + apply congr_add_mul; apply rem_congr; apply PRIME_pos.
    + f_equal. ring.
Qed.

(** [evaluatePolynomial] is the residue of the polynomial's value. *)
Lemma evaluatePolynomial_spec coefficients x0 :
  evaluatePolynomial coefficients x0 = peval coefficients x0 mod PRIME.
Proof.
  unfold evaluatePolynomial. rewrite normalize_mod, evaluateLoop_spec.
  f_equal. ring.
Qed.

Section Basis.
Variables (i : nat) (xi : Z).

Lemma basisLoop_after : forall rest j num den,
  (i < j)%nat ->
  basis_ok xi (basisLoop i xi j rest num den) num den (map x rest).
Proof.
  induction rest as [|sj rest IH]; intros j num den Hj.
  - split; cbn; f_equal; ring.
  - cbn [basisLoop]. destruct (Nat.eqb_spec i j) as [E|_]; [lia|].
    destruct (IH (S j) (Z.rem (num * - x sj) PRIME)
                 (Z.rem (den * (xi - x sj)) PRIME) ltac:(lia)) as [H1 H2].
    split.
    + rewrite H1. cbn [map prodX fold_right]. fold (prodX 0 (map x rest)).
      transitivity ((num * - x sj * prodX 0 (map x rest)) mod PRIME).
      * apply congr_mul; [apply rem_congr, PRIME_pos | reflexivity].
      * f_equal. ring.
    + rewrite H2. cbn [map prodX fold_right]. fold (prodX xi (map x rest)).
      transitivity ((den * (xi - x sj) * prodX xi (map x rest)) mod PRIME).
      * apply congr_mul; [apply rem_congr, PRIME_pos | reflexivity].
      * f_equal. ring.
Qed.

Lemma basisLoop_before : forall l1 j num den si l2,
  (j + List.length l1 = i)%nat ->
  basis_ok xi (basisLoop i xi j (l1 ++ si :: l2) num den) num den
           (map x l1 ++ map x l2).
Proof.
  induction l1 as [|sj l1 IH]; intros j num den si l2 Hj.
  - cbn [app basisLoop map List.length] in *.
    destruct (Nat.eqb_spec i j) as [_|N]; [|lia].
    apply basisLoop_after. lia.
  - cbn [app basisLoop List.length] in *.
    destruct (Nat.eqb_spec i j) as [E|_]; [lia|].
    destruct (IH (S j) (Z.rem (num * - x sj) PRIME)
                 (Z.rem (den * (xi - x sj)) PRIME) si l2 ltac:(lia)) as [H1 H2].
    split.
    + rewrite H1. cbn [map app prodX fold_right].
      fold (prodX 0 (map x l1 ++ map x l2)).
      transitivity ((num * - x sj * prodX 0 (map x l1 ++ map x l2)) mod PRIME).
      * apply congr_mul; [apply rem_congr, PRIME_pos | reflexivity].
      * f_equal. ring.
    + rewrite H2. cbn [map app prodX fold_right].
      fold (prodX xi (map x l1 ++ map x l2)).
      transitivity ((den * (xi - x sj) * prodX xi (map x l1 ++ map x l2)) mod PRIME).
      * apply congr_mul; [apply rem_congr, PRIME_pos | reflexivity].
      * f_equal. ring.
Qed.

End Basis.

Section Combine.
Variable yv : Share -> Z.

(** The outer loop computes the interpolation sum at 0. *)
Lemma combineLoop_spec shares : forall todo done secret,
  shares = done ++ todo ->
  (forall s, In s todo -> hexToBigInt (y s) = Some (yv s)) ->
  exists v, combineLoop shares (List.length done) todo secret = inr v
            /\ v mod PRIME = (secret + terms yv (map x done) todo 0) mod PRIME.
Proof.
  induction todo as [|si r IH]; intros done secret Hsh Hy.
  - exists secret. split; [reflexivity|]. cbn [terms]. f_equal. ring.
  - cbn [combineLoop]. rewrite (Hy si (or_introl eq_refl)).
    pose proof (basisLoop_before (List.length done) (x si) done 0 1 1 si r
                  eq_refl) as [H1 H2].
    rewrite <- Hsh in H1, H2.
    destruct (basisLoop (List.length done) (x si) 0 shares 1 1) as [num den].
    cbn [fst snd] in H1, H2.
    set (others := map x done ++ map x r) in *.
    destruct (IH (done ++ [si])
                (Z.rem (secret + yv si *
                   Z.rem (normalize num * modInverse (normalize den) PRIME) PRIME)
                   PRIME)) as [v [Hv1 Hv2]].
    { rewrite <- app_assoc. exact Hsh. }
    { intros s Hs. apply Hy. right. exact Hs. }
    rewrite length_app in Hv1. cbn [List.length] in Hv1.
    rewrite Nat.add_1_r in Hv1.
    exists v. split; [exact Hv1|].
    rewrite Hv2. cbn [terms]. fold others.
    rewrite map_app. cbn [map].
    rewrite Z.add_assoc. apply congr_add_l.
    rewrite rem_congr by apply PRIME_pos.
    apply congr_add_r.
    rewrite <- Z.mul_assoc.
    apply congr_mul; [reflexivity|].
    rewrite rem_congr by apply PRIME_pos.
    rewrite (Z.mul_comm (cinv (x si) others) (prodX 0 others)).
    rewrite (normalize_mod num), (normalize_mod den).
    apply congr_mul.
    + rewrite Z.mod_mod by (pose proof PRIME_pos; lia).
      rewrite H1, Z.mul_1_l. reflexivity.
    + unfold cinv.
      assert (E : den mod PRIME = prodX (x si) others mod PRIME)
        by (rewrite H2, Z.mul_1_l; reflexivity).
      rewrite E. reflexivity.
Qed.

End Combine.

Lemma PRIME_big : 255 < PRIME.
Proof. reflexivity. Qed.

Lemma divide_congr a b : (PRIME | a - b) -> a mod PRIME = b mod PRIME.
Proof.
  intros [k Hk]. replace a with (b + k * PRIME) by lia.
  apply Z.mod_add. pose proof PRIME_pos. lia.
Qed.

Lemma congr_divide a b : a mod PRIME = b mod PRIME -> (PRIME | a - b).
Proof.
  intros H. apply Z.mod_divide; [pose proof PRIME_pos; lia|].
  rewrite Zminus_mod, H, Z.sub_diag. apply Z.mod_0_l.
  pose proof PRIME_pos; lia.
Qed.

Lemma small_diff a b :
  1 <= a <= 255 -> 1 <= b <= 255 -> a <> b -> ~ (PRIME | a - b).
Proof.
  intros Ha Hb Hne Hd. apply Z.divide_abs_r in Hd.
  apply Z.divide_pos_le in Hd; [|lia].
  pose proof PRIME_big. lia.
Qed.

Lemma distinct_mod_small xs :
  NoDup xs -> (forall v, In v xs -> 1 <= v <= 255) -> distinct_mod PRIME xs.
Proof.
  induction xs as [|a xs IH]; intros Hnd Hr; [exact I|].
  inversion Hnd as [|? ? Hnotin Hnd']; subst.
  split.
  - intros r' Hin. apply small_diff.
    + apply Hr. right. exact Hin.
    + apply Hr. left. reflexivity.
    + intros ->. contradiction.
  - apply IH; [exact Hnd'|]. intros v Hv. apply Hr. right. exact Hv.
Qed.

(** [modInverse] inverts the denominator of a basis value. *)
Lemma cinv_inverse xi others :
  (forall xj, In xj others -> ~ (PRIME | xi - xj)) ->
  (cinv xi others * prodX xi others) mod PRIME = 1.
Proof.
  intros Hd.
  pose proof PRIME_pos as Hpos. pose proof PRIME_big as Hbig.
  pose proof (prodX_nonzero_mod PRIME PRIME_prime xi others Hd) as Hnz.
  set (D := prodX xi others) in *.
  assert (Hd0 : D mod PRIME <> 0).
  { intros E. apply Hnz. apply Z.mod_divide; [lia | exact E]. }
  pose proof (Z.mod_pos_bound D PRIME Hpos) as Hrange.
  unfold cinv. fold D. unfold modInverse.
  rewrite modPow_spec by lia.
  rewrite Z.mul_mod_idemp_l by lia.
  rewrite <- Z.mul_mod_idemp_r by lia.
  rewrite Z.mul_comm, <- Z.pow_succ_r by lia.
  replace (Z.succ (PRIME - 2)) with (PRIME - 1) by lia.
  apply Z.fermat_nz; [exact PRIME_prime|].
  rewrite Z.mod_mod by lia. exact Hd0.
Qed.

Section Interpolation.
Variable yv : Share -> Z.

Lemma peval_termsPoly : forall todo done X,
  peval (termsPoly yv done todo) X = terms yv done todo X.
Proof.
  induction todo as [|si r IH]; intros done X; [reflexivity|].
  cbn [termsPoly terms].
  rewrite peval_padd, peval_pscale, peval_prodPoly, IH. reflexivity.
Qed.

Lemma length_termsPoly : forall todo done,
  (List.length (termsPoly yv done todo) <= List.length done + List.length todo)%nat.
Proof.
  induction todo as [|si r IH]; intros done; [cbn; lia|].
  cbn [termsPoly List.length].
  rewrite length_padd, length_pscale, length_prodPoly.
  pose proof (IH (done ++ [x si])) as H.
  rewrite !length_app, length_map in *. cbn [List.length] in H. lia.
Qed.

Lemma terms_at_done : forall todo done X,
  In X done -> terms yv done todo X = 0.
Proof.
  induction todo as [|si r IH]; intros done X Hin; [reflexivity|].
  cbn [terms].
  rewrite (prodX_zero X (done ++ map x r))
    by (apply in_or_app; left; exact Hin).
  rewrite (IH (done ++ [x si]) X) by (apply in_or_app; left; exact Hin).
  rewrite Z.mul_0_r. reflexivity.
Qed.

Lemma terms_at_todo : forall pre done sl post,
  terms yv done (pre ++ sl :: post) (x sl)
  = yv sl * cinv (x sl) (done ++ map x (pre ++ post))
    * prodX (x sl) (done ++ map x (pre ++ post)).
Proof.
  induction pre as [|s' pre IH]; intros done sl post.
  - cbn [app terms].
    rewrite (terms_at_done post (done ++ [x sl]) (x sl))
      by (apply in_or_app; right; left; reflexivity).
    apply Z.add_0_r.
  - cbn [app terms].
    rewrite (prodX_zero (x sl) (done ++ map x (pre ++ sl :: post))).
    2:{ apply in_or_app. right. apply in_map. apply in_or_app.
        right. left. reflexivity. }
    rewrite IH. cbn [map]. rewrite <- !app_assoc. cbn [app].
    rewrite Z.mul_0_r. reflexivity.
Qed.

(** Lagrange interpolation at 0: the sum that [combineShares] accumulates
    is congruent to the constant term of every polynomial of degree
    below the number of shares that passes through them. *)
Theorem interpolation shares coefficients :
  NoDup (map x shares) ->
  (forall s, In s shares -> 1 <= x s <= 255) ->
  (forall s, In s shares -> yv s = peval coefficients (x s) mod PRIME) ->
  (List.length coefficients <= List.length shares)%nat ->
  terms yv [] shares 0 mod PRIME = peval coefficients 0 mod PRIME.
Proof.
  intros Hnd Hrange Hy Hlen.
  pose proof PRIME_pos as Hpos.
  set (h := padd (termsPoly yv [] shares) (pscale (-1) coefficients)).
  assert (Hh : forall X, peval h X = terms yv [] shares X - peval coefficients X).
  { intros X. unfold h. rewrite peval_padd, peval_pscale, peval_termsPoly. ring. }
  apply divide_congr. rewrite <- Hh.
  apply (roots_vanish PRIME PRIME_prime (map x shares)).
  - unfold h. rewrite length_padd, length_pscale, length_map.
    pose proof (length_termsPoly shares []) as H. cbn [List.length] in H. lia.
  - apply distinct_mod_small; [exact Hnd|].
    intros v Hv. apply in_map_iff in Hv. destruct Hv as [s [<- Hs]].
    apply Hrange. exact Hs.
  - intros r Hr. apply in_map_iff in Hr. destruct Hr as [sl [<- Hsl]].
    destruct (in_split sl shares Hsl) as [pre [post Hsplit]].
    rewrite Hh. rewrite Hsplit at 1. rewrite terms_at_todo. cbn [app].
    apply congr_divide.
    rewrite <- Z.mul_assoc.
    rewrite <- (Z.mul_1_r (peval coefficients (x sl))).
    apply congr_mul.
    + rewrite (Hy sl Hsl). apply Z.mod_mod. lia.
    + rewrite cinv_inverse; [symmetry; apply Z.mod_1_l; pose proof PRIME_big; lia|].
      intros xj Hxj. apply in_map_iff in Hxj. destruct Hxj as [sj [<- Hsj]].
      rewrite Hsplit in Hnd, Hrange.
      apply small_diff.
      * apply Hrange. apply in_or_app. right. left. reflexivity.
      * apply Hrange. apply in_app_or in Hsj. apply in_or_app.
        destruct Hsj as [Hsj|Hsj]; [left | right; right]; exact Hsj.
      * intros Heq. rewrite map_app in Hnd. cbn [map] in Hnd.
        apply NoDup_remove_2 in Hnd. apply Hnd.
        rewrite Heq, <- map_app. apply in_map. exact Hsj.
Qed.

End Interpolation.

Lemma splitSecret_ok secret s totalShares threshold entropy :
  hexToBigInt secret = Some s -> s < PRIME ->
  2 <= threshold <= totalShares -> totalShares <= 255 ->
  splitSecret secret totalShares threshold entropy
  = inr (shareLoop (s :: drawCoefficients threshold entropy) totalShares).
Proof.
  intros Hs Hlt Hk Ht. unfold splitSecret.
  destruct (Z.ltb_spec threshold 2); [lia|].
  destruct (Z.ltb_spec totalShares threshold); [lia|].
  destruct (Z.ltb_spec 255 totalShares); [lia|].
  rewrite Hs.
  destruct (Z.leb_spec PRIME s); [lia|]. reflexivity.
Qed.

Lemma in_shareLoop coefficients totalShares sh :
  In sh (shareLoop coefficients totalShares) ->
  1 <= x sh <= totalShares
  /\ y sh = bigIntToHex (evaluatePolynomial coefficients (x sh)).
Proof.
  unfold shareLoop. intros H. apply in_map_iff in H.
  destruct H as [i [<- Hi]]. apply in_seq in Hi. cbn [x y]. split; [lia|reflexivity].
Qed.

Lemma evaluatePolynomial_range coefficients x0 :
  0 <= evaluatePolynomial coefficients x0 < PRIME.
Proof.
  rewrite evaluatePolynomial_spec. apply Z.mod_pos_bound. apply PRIME_pos.
Qed.

Lemma combine_of_split coefficients totalShares S :
  totalShares <= 255 ->
  NoDup S -> incl S (shareLoop coefficients totalShares) ->
  (2 <= List.length S)%nat ->
  (List.length coefficients <= List.length S)%nat ->
  combineShares S = inr (bigIntToHex (peval coefficients 0 mod PRIME)).
Proof.
  intros Ht Hnd Hincl H2 Hlen.
  set (yv := fun sh : Share => evaluatePolynomial coefficients (x sh)).
  assert (Hx : NoDup (map x S)).
  { apply NoDup_map_NoDup_ForallPairs; [|exact Hnd].
    intros a b Ha Hb Hab.
    destruct (in_shareLoop _ _ _ (Hincl a Ha)) as [_ Hya].
    destruct (in_shareLoop _ _ _ (Hincl b Hb)) as [_ Hyb].
    destruct a as [xa ya], b as [xb yb]. cbn [x y] in *. congruence. }
  unfold combineShares.
  destruct (Nat.ltb_spec (List.length S) 2) as [?|_]; [lia|].
  rewrite (nodup_fixed_point Z.eq_dec Hx), length_map, Nat.eqb_refl.
  cbn [negb].
  destruct (combineLoop_spec yv S S [] 0 eq_refl) as [v [Hv1 Hv2]].
  { intros sh Hsh. destruct (in_shareLoop _ _ _ (Hincl sh Hsh)) as [_ Hy].
    rewrite Hy. apply hexToBigInt_bigIntToHex.
    apply evaluatePolynomial_range. }
  cbn [List.length map] in Hv1, Hv2. rewrite Hv1.
  rewrite normalize_mod, Hv2, Z.add_0_l.
  rewrite (interpolation yv S coefficients); try assumption.
  - reflexivity.
  - intros sh Hsh. destruct (in_shareLoop _ _ _ (Hincl sh Hsh)) as [Hr _]. lia.
  - intros sh Hsh. unfold yv. apply evaluatePolynomial_spec.
Qed.

(** C1.  For a secret [s < n] and [2 <= threshold <= totalShares <= 255],
    [splitSecret] returns [totalShares] shares, and [combineShares] on
    any duplicate-free selection of at least [threshold] of them, in any
    order, returns the secret (as the 64-digit hexadecimal string of
    [s]). *)
Theorem split_combine_roundtrip secret s totalShares threshold entropy :
  hexToBigInt secret = Some s -> s < PRIME ->
  2 <= threshold <= totalShares -> totalShares <= 255 ->
  exists shares,
    splitSecret secret totalShares threshold entropy = inr shares
    /\ Z.of_nat (List.length shares) = totalShares
    /\ forall S, NoDup S -> incl S shares ->
                 threshold <= Z.of_nat (List.length S) ->
                 combineShares S = inr (bigIntToHex s).
Proof.
  intros Hs Hlt Hk Ht.
  exists (shareLoop (s :: drawCoefficients threshold entropy) totalShares).
  split; [apply splitSecret_ok; assumption|].
  split.
  { unfold shareLoop. rewrite length_map, length_seq. lia. }
  intros S Hnd Hincl Hsize.
  rewrite (combine_of_split _ totalShares S Ht Hnd Hincl).
  - cbn [peval]. rewrite Z.mul_0_l, Z.add_0_r, Z.mod_small; [reflexivity|].
    split; [eapply hexToBigInt_nonneg; exact Hs | exact Hlt].
  - lia.
  - cbn [List.length]. unfold drawCoefficients.
    rewrite length_map, length_seq. lia.
Qed.

Lemma split_combine_roundtrip_witness :
  exists shares,
    splitSecret "0x01" 3 2 (fun _ => List.repeat x07 32) = inr shares
    /\ Z.of_nat (List.length shares) = 3
    /\ forall S, NoDup S -> incl S shares ->
                 2 <= Z.of_nat (List.length S) ->
                 combineShares S = inr (bigIntToHex 1).
Proof.
  apply (split_combine_roundtrip "0x01" 1 3 2 (fun _ => List.repeat x07 32)).
  - reflexivity.
  - reflexivity.
  - lia.
  - lia.
Defined.

End ShamirFacts.

(* ================================================================== *)
(** * Proofs: the scalar sampler *)
(* ================================================================== *)

Module SamplerFacts.
Import Field Shamir FieldFacts ShamirFacts.

Lemma bytes_fold_nonneg bytes : forall acc,
  0 <= acc ->
  0 <= fold_left (fun value b => Z.lor (Z.shiftl value 8) (Z.of_N (Byte.to_N b)))
                 bytes acc.
Proof.
  induction bytes as [|b bytes IH]; intros acc Hacc; [exact Hacc|].
  cbn [fold_left]. apply IH. apply Z.lor_nonneg. split.
  - apply Z.shiftl_nonneg. exact Hacc.
  - apply N2Z.is_nonneg.
Qed.

Lemma lor_shiftl_byte a b :
  0 <= a -> 0 <= b < 256 -> Z.lor (Z.shiftl a 8) b = a * 256 + b.
Proof.
  intros Ha Hb.
  rewrite Z.shiftl_mul_pow2 by lia. change (2 ^ 8) with 256.
  assert (Hland : Z.land (a * 256) b = 0).
  { apply Z.bits_inj'. intros n Hn. rewrite Z.land_spec, Z.bits_0.
    destruct (Z.ltb_spec n 8) as [Hlt|Hge].
    - change 256 with (2 ^ 8). rewrite Z.mul_pow2_bits_low by lia. reflexivity.
    - destruct (Z.eq_dec b 0) as [->|Hb0].
      + rewrite Z.bits_0. apply andb_false_r.
      + rewrite (Z.bits_above_log2 b n); [apply andb_false_r|lia|].
        assert (Z.log2 b < 8); [|lia].
        apply Z.log2_lt_pow2; [lia|]. change (2 ^ 8) with 256. lia. }
  rewrite <- Z.lxor_lor by exact Hland.
  symmetry. apply Z.add_nocarry_lxor. exact Hland.
Qed.

Lemma byte_range b : 0 <= Z.of_N (Byte.to_N b) < 256.
Proof. pose proof (Byte.to_N_bounded b). lia. Qed.

(** The loop [value = (value << 8n) | BigInt(byte)] reads the bytes as
    one number, most significant byte first. *)
Lemma bytes_fold_bigEndian bytes : forall acc,
  0 <= acc ->
  fold_left (fun value b => Z.lor (Z.shiftl value 8) (Z.of_N (Byte.to_N b)))
            bytes acc
  = fold_left (fun v b => v * 256 + b) (Hash.bytesToZ bytes) acc.
Proof.
  induction bytes as [|b bytes IH]; intros acc Hacc; [reflexivity|].
  cbn [fold_left Hash.bytesToZ map].
  pose proof (byte_range b) as Hb.
  rewrite lor_shiftl_byte by (exact Hacc || exact Hb).
  apply IH. lia.
Qed.

Lemma randomFieldElement_bounds bytes : 0 <= randomFieldElement bytes < PRIME.
Proof.
  unfold randomFieldElement. apply Z.rem_bound_pos.
  - apply bytes_fold_nonneg. lia.
  - apply PRIME_pos.
Qed.

(** C8, as the code has it.  [randomFieldElement] returns the number
    that the bytes of [randomBytes] spell, most significant byte first,
    reduced modulo the group order: a canonical residue, at least 0 and
    strictly below the order, for every input; nothing is rejected, 0
    included. *)
Theorem randomFieldElement_range bytes :
  randomFieldElement bytes
  = Hash.fromBigEndian (Hash.bytesToZ bytes) mod PRIME
  /\ 0 <= randomFieldElement bytes < PRIME.
Proof.
  split; [|apply randomFieldElement_bounds].
  unfold randomFieldElement, Hash.fromBigEndian.
  rewrite <- bytes_fold_bigEndian by lia.
  apply Z.rem_mod_nonneg.
  - apply bytes_fold_nonneg. lia.
  - apply PRIME_pos.
Qed.

(** C8 fails as stated: 32 zero bytes are a possible result of
    [randomBytes(32)], and the sampler returns 0 on them. *)
Lemma randomFieldElement_zero :
  ~ (forall bytes, List.length bytes = 32%nat ->
       randomFieldElement bytes <> 0 /\ randomFieldElement bytes < PRIME).
Proof.
  intros H. destruct (H (List.repeat x00 32) eq_refl) as [Hnz _].
  apply Hnz. vm_compute. reflexivity.
Qed.

End SamplerFacts.

(* ================================================================== *)
(** * Proofs: maps *)
(* ================================================================== *)

Module JsMapFacts.
Import JsMap.

Lemma get_set_same {V} k (v : V) : forall m, get k (set k v m) = Some v.
Proof.
  induction m as [|[k' v'] m IH]; cbn [set get].
  - rewrite String.eqb_refl. reflexivity.
  - destruct (String.eqb k k') eqn:E; cbn [get]; rewrite ?String.eqb_refl, ?E;
      [reflexivity | exact IH].
Qed.

Lemma get_set_other {V} k k' (v : V) : forall m,
  k <> k' -> get k (set k' v m) = get k m.
Proof.
  intros m Hne. induction m as [|[k2 v2] m IH]; cbn [set get].
  - apply String.eqb_neq in Hne. rewrite Hne. reflexivity.
  - destruct (String.eqb k' k2) eqn:E; cbn [get].
    + apply String.eqb_eq in E. subst k2.
      apply String.eqb_neq in Hne. rewrite Hne. reflexivity.
    + destruct (String.eqb k k2); [reflexivity | exact IH].
Qed.

Lemma get_delete_same {V} k : forall m : t V, get k (delete k m) = None.
Proof.
  induction m as [|[k' v'] m IH]; [reflexivity|].
  unfold delete in *. cbn [filter fst].
  destruct (String.eqb k k') eqn:E; cbn [negb get]; [exact IH|].
  rewrite E. exact IH.
Qed.

Lemma get_delete_other {V} k k' : forall m : t V,
  k <> k' -> get k (delete k' m) = get k m.
Proof.
  intros m Hne. induction m as [|[k2 v2] m IH]; [reflexivity|].
  unfold delete in *. cbn [filter fst].
  destruct (String.eqb k' k2) eqn:E; cbn [negb get].
  - apply String.eqb_eq in E. subst k2.
    apply String.eqb_neq in Hne. rewrite Hne. exact IH.
  - destruct (String.eqb k k2); [reflexivity | exact IH].
Qed.

End JsMapFacts.

(* ================================================================== *)
(** * Proofs: guardian invites *)
(* ================================================================== *)

Module GuardianFacts.
Import Guardian GuardianProps JsMapFacts.

Lemma length_append s1 s2 :
  String.length (s1 ++ s2) = (String.length s1 + String.length s2)%nat.
Proof. induction s1 as [|c s1 IH]; cbn; [reflexivity | rewrite IH; reflexivity]. Qed.

Lemma allDecimal_append s1 s2 :
  allDecimal s1 -> allDecimal s2 -> allDecimal (s1 ++ s2).
Proof.
  induction s1 as [|c s1 IH]; cbn [String.append allDecimal]; [tauto|].
  intros [Hc H1] H2. split; [exact Hc | apply IH; assumption].
Qed.

Lemma decimal_digit_char d : 0 <= d < 10 ->
  isDecimalDigit (ascii_of_N (Z.to_N (48 + d))).
Proof.
  intros H. unfold isDecimalDigit.
  assert (C : d = 0 \/ d = 1 \/ d = 2 \/ d = 3 \/ d = 4 \/ d = 5 \/ d = 6
              \/ d = 7 \/ d = 8 \/ d = 9) by lia.
  repeat (destruct C as [->|C]; [vm_compute; split; discriminate|]).
  subst d. vm_compute. split; discriminate.
Qed.

Lemma decDigits_shape : forall fuel k v,
  0 <= v < 10 ^ Z.of_nat (S k) ->
  (String.length (decDigits fuel v) <= S k)%nat /\ allDecimal (decDigits fuel v).
Proof.
  induction fuel as [|fuel IH]; intros k v Hv; [cbn; split; [lia|exact I]|].
  cbn [decDigits]. rewrite length_append. cbn [String.length].
  pose proof (Z.mod_pos_bound v 10 ltac:(lia)) as Hm.
  assert (Hd : allDecimal (String (ascii_of_N (Z.to_N (48 + v mod 10))) EmptyString)).
  { split; [apply decimal_digit_char; lia | exact I]. }
  destruct (Z.eqb_spec (v / 10) 0) as [E|E].
  - cbn [String.length]. split; [lia|]. apply allDecimal_append; [exact I|exact Hd].
  - rewrite Nat2Z.inj_succ, Z.pow_succ_r in Hv by lia.
    assert (Hq : 0 <= v / 10 < 10 ^ Z.of_nat k)
      by (split; [apply Z.div_pos; lia | apply Z.div_lt_upper_bound; lia]).
    destruct k as [|k].
    { cbn in Hq. lia. }
    destruct (IH k (v / 10) Hq) as [Hl Ha].
    split; [lia|]. apply allDecimal_append; [exact Ha|exact Hd].
Qed.

Lemma length_replicate n c : String.length (Hex.replicate n c) = n.
Proof. induction n as [|n IH]; cbn; [reflexivity | rewrite IH; reflexivity]. Qed.

Lemma allDecimal_replicate n : allDecimal (Hex.replicate n "0"%char).
Proof.
  induction n as [|n IH]; cbn [Hex.replicate allDecimal]; [exact I|].
  split; [vm_compute; split; discriminate | exact IH].
Qed.

(** The verification code is six decimal digits, whatever the random
    bytes. *)
Lemma generateVerificationCode_shape bytes :
  String.length (generateVerificationCode bytes) = 6%nat
  /\ allDecimal (generateVerificationCode bytes).
Proof.
  unfold generateVerificationCode.
  match goal with |- context [Z.abs ?n mod 1000000] =>
    set (v := Z.abs n mod 1000000) end.
  assert (Hv : 0 <= v < 10 ^ Z.of_nat 6)
    by (apply Z.mod_pos_bound; reflexivity).
  destruct (decDigits_shape (S (Z.to_nat (Z.log2 v))) 5 v Hv) as [Hl Ha].
  fold (toString10 v) in Hl, Ha.
  unfold Hex.padStart. rewrite length_append, length_replicate.
  split; [lia|]. apply allDecimal_append; [apply allDecimal_replicate | exact Ha].
Qed.

Lemma option_string_eqb_spec a b : option_string_eqb a b = true <-> a = b.
Proof.
  destruct a as [s1|], b as [s2|]; cbn [option_string_eqb];
    try (split; [discriminate | intros H; discriminate H]).
  - rewrite String.eqb_eq. split; [intros ->; reflexivity | intros H; injection H as ->; reflexivity].
  - split; reflexivity.
Qed.

Lemma createInvite_stores_hash params codeBytes idBytes clock m g :
  JsMap.get (p_guardianId params) (guardians m) = Some g ->
  let code := generateVerificationCode codeBytes in
  exists invite m',
    createInvite params codeBytes idBytes clock m = (inr invite, m')
    /\ inv_verificationCode invite = code
    /\ JsMap.get (p_guardianId params) (guardians m')
       = Some (set_verificationHash
                 (Hash.bytesToHex (Hash.sha256 (list_byte_of_string code))) g)
    /\ JsMap.get (inv_id invite) (pendingInvites m') = Some invite.
Proof.
  intros Hg code. unfold createInvite. rewrite Hg.
  eexists. eexists. split; [reflexivity|].
  cbn [inv_verificationCode guardians pendingInvites inv_id].
  split; [reflexivity|]. split; apply get_set_same.
Qed.

Lemma processResponse_bad_code response clock m invite g :
  JsMap.get (resp_inviteId response) (pendingInvites m) = Some invite ->
  clock 0%nat <= inv_expiresAt invite ->
  JsMap.get (resp_guardianId response) (guardians m) = Some g ->
  verificationHash g <> Some (hashVerificationCode (resp_verificationCode response)) ->
  processResponse response clock m = (inl BadCode, m).
Proof.
  intros Hi Ht Hg Hne. unfold processResponse. rewrite Hi.
  destruct (Z.ltb_spec (inv_expiresAt invite) (clock 0%nat)); [lia|].
  rewrite Hg.
  destruct (option_string_eqb _ (verificationHash g)) eqn:E; [|reflexivity].
  apply option_string_eqb_spec in E. exfalso. apply Hne. symmetry. exact E.
Qed.

Lemma processResponse_good_code response clock m invite g :
  JsMap.get (resp_inviteId response) (pendingInvites m) = Some invite ->
  clock 0%nat <= inv_expiresAt invite ->
  JsMap.get (resp_guardianId response) (guardians m) = Some g ->
  verificationHash g = Some (hashVerificationCode (resp_verificationCode response)) ->
  exists g' m',
    processResponse response clock m = (inr (resp_accepted response), m')
    /\ JsMap.get (resp_guardianId response) (guardians m') = Some g'
    /\ status g' = (if resp_accepted response then accepted else declined)
    /\ acceptedAt g' = (if resp_accepted response then Some (clock 1%nat)
                        else acceptedAt g)
    /\ pendingInvites m' = JsMap.delete (inv_id invite) (pendingInvites m)
    /\ JsMap.get (inv_id invite) (pendingInvites m') = None.
Proof.
  intros Hi Ht Hg Heq. unfold processResponse. rewrite Hi.
  destruct (Z.ltb_spec (inv_expiresAt invite) (clock 0%nat)); [lia|].
  rewrite Hg, Heq.
  assert (E : option_string_eqb
                (Some (hashVerificationCode (resp_verificationCode response)))
                (Some (hashVerificationCode (resp_verificationCode response)))
              = true) by (apply option_string_eqb_spec; reflexivity).
  rewrite E. cbn [negb].
  eexists. eexists. split; [reflexivity|].
  cbn [guardians pendingInvites]. rewrite get_set_same.
  split; [reflexivity|].
  split; [|split; [|split; [reflexivity | apply get_delete_same]]].
  - destruct (resp_accepted response); [|reflexivity].
    destruct (resp_publicKey response) as [pk|]; [|reflexivity].
    destruct (String.eqb pk EmptyString); reflexivity.
  - destruct (resp_accepted response); [|reflexivity].
    destruct (resp_publicKey response) as [pk|]; [|reflexivity].
    destruct (String.eqb pk EmptyString); reflexivity.
Qed.

(** C7, as the code has it.  [createInvite] draws a code of six decimal
    digits and stores on the guardian record the SHA-256 hash (not
    Keccak-256) of the code's UTF-8 bytes, in hexadecimal;
    [processResponse], on an invite that is filed and has not expired,
    hashes the received code the same way, throws [BadCode] when the
    hash differs from the guardian's, and otherwise sets the guardian's
    status to accepted (recording [acceptedAt]) or declined and deletes
    the invite. *)
Theorem invite_challenge :
  (forall codeBytes,
     String.length (generateVerificationCode codeBytes) = 6%nat
     /\ allDecimal (generateVerificationCode codeBytes))
  /\ (forall params codeBytes idBytes clock m g,
        JsMap.get (p_guardianId params) (guardians m) = Some g ->
        exists invite m' g',
          createInvite params codeBytes idBytes clock m = (inr invite, m')
          /\ inv_verificationCode invite = generateVerificationCode codeBytes
          /\ JsMap.get (p_guardianId params) (guardians m') = Some g'
          /\ verificationHash g'
             = Some (Hash.bytesToHex
                       (Hash.sha256
                          (list_byte_of_string (inv_verificationCode invite)))))
  /\ (forall response clock m invite g,
        JsMap.get (resp_inviteId response) (pendingInvites m) = Some invite ->
        clock 0%nat <= inv_expiresAt invite ->
        JsMap.get (resp_guardianId response) (guardians m) = Some g ->
        let received :=
          Hash.bytesToHex
            (Hash.sha256 (list_byte_of_string (resp_verificationCode response))) in
        (verificationHash g <> Some received ->
           processResponse response clock m = (inl BadCode, m))
        /\ (verificationHash g = Some received ->
            exists g' m',
              processResponse response clock m
              = (inr (resp_accepted response), m')
              /\ JsMap.get (resp_guardianId response) (guardians m') = Some g'
              /\ status g' = (if resp_accepted response then accepted else declined)
              /\ acceptedAt g' = (if resp_accepted response then Some (clock 1%nat)
                                  else acceptedAt g)
              /\ JsMap.get (inv_id invite) (pendingInvites m') = None)).
Proof.
  split; [exact generateVerificationCode_shape|]. split.
  - intros params codeBytes idBytes clock m g Hg.
    destruct (createInvite_stores_hash params codeBytes idBytes clock m g Hg)
      as [invite [m' [H1 [H2 [H3 _]]]]].
    exists invite, m'. eexists. split; [exact H1|]. split; [exact H2|].
    split; [exact H3|]. rewrite H2. reflexivity.
  - intros response clock m invite g Hi Ht Hg received. split.
    + intros Hne. eapply processResponse_bad_code; eassumption.
    + intros Heq.
      destruct (processResponse_good_code response clock m invite g Hi Ht Hg Heq)
        as [g' [m' [H1 [H2 [H3 [H4 [_ H6]]]]]]].
      exists g', m'. repeat split; assumption.
Qed.

(** C7 fails as stated: the hash that [createInvite] stores for the
    code 777215 is the SHA-256 digest of the code, which is not its
    Keccak-256 digest. *)
Lemma verification_hash_is_not_keccak :
  option_map inv_verificationCode
    (match fst GuardianFixtures.invited with inr i => Some i | inl _ => None end)
  = Some "777215"%string
  /\ option_map verificationHash
       (JsMap.get GuardianFixtures.guardianId
                  (guardians (snd GuardianFixtures.invited)))
     = Some (Some (Hash.bytesToHex
                     (Hash.sha256 (list_byte_of_string "777215"))))
  /\ Hash.bytesToHex (Hash.sha256 (list_byte_of_string "777215"))
     <> Hash.bytesToHex (Hash.keccak_256 (list_byte_of_string "777215")).
Proof.
  split; [vm_compute; reflexivity|]. split; [vm_compute; reflexivity|].
  vm_compute. discriminate.
Qed.

End GuardianFacts.

(* ================================================================== *)
(** * Proofs: the recovery state machine *)
(* ================================================================== *)

Module RecoveryFacts.
Import Recovery RecoveryProps JsMapFacts.

Lemma settled_refl s : settled s s.
Proof. destruct s; cbn; auto. Qed.

Lemma settled_trans s1 s2 s3 : settled s1 s2 -> settled s2 s3 -> settled s1 s3.
Proof.
  destruct s1; cbn; auto.
  - intros ->. cbn. auto.
  - intros [->| ->]; cbn; auto.
  - intros ->. cbn. auto.
Qed.

(** A status that is still open has no settled past. *)
Lemma settled_open s s1 s' : settled s s1 -> isOpen s1 = true -> settled s s'.
Proof.
  destruct s; cbn; auto.
  - intros ->. discriminate.
  - intros [->| ->]; discriminate.
  - intros ->. discriminate.
Qed.

Lemma update_fields now r :
  expiresAt (updateRequestStatus now r) = expiresAt r
  /\ approvals (updateRequestStatus now r) = approvals r
  /\ walletAddress (updateRequestStatus now r) = walletAddress r.
Proof.
  unfold updateRequestStatus.
  destruct (_ && _); [repeat split|].
  destruct (_ && _); repeat split.
Qed.

Lemma update_settled now r : settled (status r) (status (updateRequestStatus now r)).
Proof.
  unfold updateRequestStatus.
  destruct (status r) eqn:E; destruct (expiresAt r <? now); cbn;
    rewrite ?E; cbn; auto;
    destruct (timelockPassed now r); cbn; rewrite ?E; cbn; auto.
Qed.

(** The expiration check comes first. *)
Lemma update_expired now r :
  expiresAt r < now -> status r <> executed ->
  status (updateRequestStatus now r) = expired.
Proof.
  intros Ht Hs. unfold updateRequestStatus.
  destruct (Z.ltb_spec (expiresAt r) now); [|lia].
  destruct (status r) eqn:E; cbn; try reflexivity. contradiction.
Qed.

Lemma update_before_expiry now r :
  now <= expiresAt r -> status r = cancelled ->
  status (updateRequestStatus now r) = cancelled.
Proof.
  intros Ht Hs. unfold updateRequestStatus.
  destruct (Z.ltb_spec (expiresAt r) now); [lia|].
  rewrite Hs. cbn. exact Hs.
Qed.

Lemma get_store rid rid' r' m :
  JsMap.get rid (requests (store rid' r' m))
  = if String.eqb rid rid' then Some r' else JsMap.get rid (requests m).
Proof.
  unfold store. cbn [requests].
  destruct (String.eqb_spec rid rid') as [->|Hne].
  - apply get_set_same.
  - apply get_set_other. exact Hne.
Qed.

Lemma evolves_refl r clock : evolves r r clock.
Proof. repeat split; [apply settled_refl | auto]. Qed.

Lemma evolves_update r clock k : evolves r (updateRequestStatus (clock k) r) clock.
Proof.
  split; [apply update_settled|]. split; [apply update_fields|].
  intros Hs Hc. apply update_before_expiry; [apply Hc | exact Hs].
Qed.

Lemma evolves_update2 r clock j k :
  evolves r (updateRequestStatus (clock k) (updateRequestStatus (clock j) r)) clock.
Proof.
  destruct (evolves_update r clock j) as [H1 [H2 H3]].
  destruct (evolves_update (updateRequestStatus (clock j) r) clock k) as [G1 [G2 G3]].
  split; [eapply settled_trans; eassumption|].
  split; [congruence|].
  intros Hs Hc. apply G3; [apply H3; assumption|].
  intros i. rewrite H2. apply Hc.
Qed.

(** A request whose status is open evolved from an unsettled one. *)
Lemma evolves_open r r1 r' clock :
  evolves r r1 clock -> isOpen (status r1) = true ->
  expiresAt r' = expiresAt r1 -> evolves r r' clock.
Proof.
  intros [H1 [H2 H3]] Ho He.
  split; [eapply settled_open; eassumption|].
  split; [congruence|].
  intros Hs Hc. rewrite (H3 Hs Hc) in Ho. discriminate.
Qed.

Lemma validate_open now r allowed r1 :
  validateRequestStatus now r allowed = (inr tt, r1) ->
  (forall s, In s allowed -> isOpen s = true) ->
  r1 = updateRequestStatus now r /\ isOpen (status r1) = true.
Proof.
  unfold validateRequestStatus. intros H Hall.
  destruct (existsb _ allowed) eqn:E; [|discriminate].
  injection H as <-. split; [reflexivity|].
  apply existsb_exists in E. destruct E as [s [Hin Hs]].
  assert (status (updateRequestStatus now r) = s)
    by (destruct (status (updateRequestStatus now r)), s; cbn in Hs;
        try discriminate; reflexivity).
  rewrite H. apply Hall. exact Hin.
Qed.

Lemma validate_fail now r allowed e r1 :
  validateRequestStatus now r allowed = (inl e, r1) ->
  r1 = updateRequestStatus now r /\ e = InvalidState.
Proof.
  unfold validateRequestStatus.
  destruct (existsb _ allowed); [discriminate|].
  intros H. injection H as <- <-. split; reflexivity.
Qed.

Ltac open_statuses :=
  intros ? Hin; cbn in Hin;
  repeat (destruct Hin as [<-|Hin]; [reflexivity|]); destruct Hin.

Section OneCall.
Variables (rid : string) (r : RecoveryRequest) (clock : nat -> Z)
          (m : RecoveryManager).
Hypothesis Hget : JsMap.get rid (requests m) = Some r.

Lemma after_same : after rid r clock m.
Proof. exists r. split; [exact Hget | apply evolves_refl]. Qed.

Lemma after_store rid' r0 r' :
  JsMap.get rid' (requests m) = Some r0 ->
  (rid' = rid -> evolves r r' clock) ->
  after rid r clock (store rid' r' m).
Proof.
  intros H0 Hev. unfold after. rewrite get_store.
  destruct (String.eqb_spec rid rid') as [E|N].
  - exists r'. split; [reflexivity | apply Hev; congruence].
  - exists r. split; [exact Hget | apply evolves_refl].
Qed.

Lemma addApproval_after rid' a : after rid r clock (snd (addApproval rid' a clock m)).
Proof.
  unfold addApproval.
  destruct (JsMap.get rid' (requests m)) as [r0|] eqn:H0; [|apply after_same].
  destruct (validateRequestStatus (clock 0%nat) r0 [pending; approved])
    as [[e|[]] r1] eqn:Hv.
  - apply validate_fail in Hv. destruct Hv as [-> _]. cbn [snd].
    apply (after_store rid' r0); [exact H0|].
    intros ->. rewrite Hget in H0. injection H0 as <-. apply evolves_update.
  - apply validate_open in Hv; [|open_statuses]. destruct Hv as [-> Ho].
    destruct (existsb _ _); cbn [snd]; apply (after_store rid' r0); try exact H0;
      intros ->; rewrite Hget in H0; injection H0 as <-.
    + apply evolves_update.
    + eapply evolves_open; [apply (evolves_update r clock 0) | exact Ho |].
      match goal with |- context [if ?c then _ else _] => destruct c end;
        reflexivity.
Qed.

Lemma executeRecovery_after rid' : after rid r clock (snd (executeRecovery rid' clock m)).
Proof.
  unfold executeRecovery.
  destruct (JsMap.get rid' (requests m)) as [r0|] eqn:H0; [|apply after_same].
  destruct (validateRequestStatus (clock 1%nat)
              (updateRequestStatus (clock 0%nat) r0) [ready])
    as [[e|[]] r1] eqn:Hv.
  - apply validate_fail in Hv. destruct Hv as [-> _]. cbn [snd].
    apply (after_store rid' r0); [exact H0|].
    intros ->. rewrite Hget in H0. injection H0 as <-. apply evolves_update2.
  - apply validate_open in Hv; [|open_statuses]. destruct Hv as [-> Ho].
    destruct (Shamir.combineShares _); cbn [snd];
      apply (after_store rid' r0); try exact H0;
      intros ->; rewrite Hget in H0; injection H0 as <-.
    + apply evolves_update2.
    + eapply evolves_open; [apply (evolves_update2 r clock 0 1) | exact Ho |].
      reflexivity.
Qed.

Lemma cancelRecovery_after rid' : after rid r clock (snd (cancelRecovery rid' clock m)).
Proof.
  unfold cancelRecovery.
  destruct (JsMap.get rid' (requests m)) as [r0|] eqn:H0; [|apply after_same].
  destruct (validateRequestStatus (clock 0%nat) r0 [pending; approved; ready])
    as [[e|[]] r1] eqn:Hv.
  - apply validate_fail in Hv. destruct Hv as [-> _]. cbn [snd].
    apply (after_store rid' r0); [exact H0|].
    intros ->. rewrite Hget in H0. injection H0 as <-. apply evolves_update.
  - apply validate_open in Hv; [|open_statuses]. destruct Hv as [-> Ho].
    cbn [snd]. apply (after_store rid' r0); [exact H0|].
    intros ->. rewrite Hget in H0. injection H0 as <-.
    eapply evolves_open; [apply (evolves_update r clock 0) | exact Ho |].
    reflexivity.
Qed.

Lemma getRequest_after rid' : after rid r clock (snd (getRequest rid' clock m)).
Proof.
  unfold getRequest.
  destruct (JsMap.get rid' (requests m)) as [r0|] eqn:H0; [|apply after_same].
  cbn [snd]. apply (after_store rid' r0); [exact H0|].
  intros ->. rewrite Hget in H0. injection H0 as <-. apply evolves_update.
Qed.

Lemma isReady_after rid' : after rid r clock (snd (isReadyForExecution rid' clock m)).
Proof.
  unfold isReadyForExecution.
  destruct (JsMap.get rid' (requests m)) as [r0|] eqn:H0; [|apply after_same].
  cbn [snd]. apply (after_store rid' r0); [exact H0|].
  intros ->. rewrite Hget in H0. injection H0 as <-. apply evolves_update.
Qed.

End OneCall.

Lemma pendingScan_get rid r clock w : forall entries k,
  JsMap.get rid entries = Some r ->
  exists r', JsMap.get rid (snd (pendingScan w clock k entries)) = Some r'
             /\ evolves r r' clock.
Proof.
  induction entries as [|[key request] rest IH]; intros k Hget; [discriminate|].
  cbn [pendingScan]. cbn [JsMap.get] in Hget.
  destruct (_ && _).
  - cbn [snd JsMap.get]. destruct (String.eqb rid key).
    + injection Hget as ->. eexists. split; [reflexivity | apply evolves_update].
    + exists r. split; [exact Hget | apply evolves_refl].
  - destruct (pendingScan w clock (S k) rest) as [found rest'] eqn:E.
    cbn [snd JsMap.get]. destruct (String.eqb rid key).
    + injection Hget as ->. eexists. split; [reflexivity | apply evolves_update].
    + specialize (IH (S k) Hget). rewrite E in IH. exact IH.
Qed.

Lemma walletScan_get rid r clock w : forall entries k,
  JsMap.get rid entries = Some r ->
  exists r', JsMap.get rid (snd (walletScan w clock k entries)) = Some r'
             /\ evolves r r' clock.
Proof.
  induction entries as [|[key request] rest IH]; intros k Hget; [discriminate|].
  cbn [walletScan]. cbn [JsMap.get] in Hget.
  destruct (String.eqb (walletAddress request) w).
  - destruct (walletScan w clock (S k) rest) as [found rest'] eqn:E.
    cbn [snd JsMap.get]. destruct (String.eqb rid key).
    + injection Hget as ->. eexists. split; [reflexivity | apply evolves_update].
    + specialize (IH (S k) Hget). rewrite E in IH. exact IH.
  - destruct (walletScan w clock k rest) as [found rest'] eqn:E.
    cbn [snd JsMap.get]. destruct (String.eqb rid key).
    + injection Hget as ->. exists r. split; [reflexivity | apply evolves_refl].
    + specialize (IH k Hget). rewrite E in IH. exact IH.
Qed.

(** Whatever the call, the request stays filed and evolves. *)
Lemma step_after rid r c clock m :
  JsMap.get rid (requests m) = Some r -> after rid r clock (step c clock m).
Proof.
  intros Hget. destruct c; cbn [step].
  - apply addApproval_after. exact Hget.
  - apply executeRecovery_after. exact Hget.
  - apply cancelRecovery_after. exact Hget.
  - apply getRequest_after. exact Hget.
  - apply isReady_after. exact Hget.
  - unfold getPendingRequest.
    destruct (pendingScan_get rid r clock walletAddress0 (requests m) 0%nat Hget)
      as [r' [H1 H2]].
    destruct (pendingScan walletAddress0 clock 0 (requests m)) as [found entries].
    cbn [snd requests] in *. exists r'. split; assumption.
  - unfold getRequestsForWallet.
    destruct (walletScan_get rid r clock walletAddress0 (requests m) 0%nat Hget)
      as [r' [H1 H2]].
    destruct (walletScan walletAddress0 clock 0 (requests m)) as [found entries].
    cbn [snd requests] in *. exists r'. split; assumption.
Qed.

Lemma run_after rid : forall calls r m,
  JsMap.get rid (requests m) = Some r ->
  exists r', JsMap.get rid (requests (run calls m)) = Some r'
             /\ settled (status r) (status r')
             /\ expiresAt r' = expiresAt r
             /\ (status r = cancelled -> readingsUpTo (expiresAt r) calls ->
                 status r' = cancelled).
Proof.
  induction calls as [|[c clock] calls IH]; intros r m Hget.
  - exists r. cbn [run]. repeat split; auto using settled_refl.
  - cbn [run].
    destruct (step_after rid r c clock m Hget) as [r1 [G1 [G2 [G3 G4]]]].
    destruct (IH r1 _ G1) as [r' [H1 [H2 [H3 H4]]]].
    exists r'. split; [exact H1|].
    split; [eapply settled_trans; eassumption|].
    split; [congruence|].
    intros Hs Hc.
    assert (Hs1 : status r1 = cancelled).
    { apply G4; [exact Hs|]. intros k. apply (Hc c clock k). left. reflexivity. }
    apply H4; [exact Hs1|].
    intros c' clock' k Hin. rewrite G3. apply (Hc c' clock' k). right. exact Hin.
Qed.

Lemma In_insertByCreatedAt r' r : forall sorted,
  In r' (insertByCreatedAt r sorted) <-> r' = r \/ In r' sorted.
Proof.
  induction sorted as [|r0 rest IH]; cbn [insertByCreatedAt].
  - cbn. intuition congruence.
  - destruct (createdAt r0 <=? createdAt r); cbn [In].
    + intuition congruence.
    + rewrite IH. intuition congruence.
Qed.

Lemma In_sorted r' : forall found,
  In r' (fold_right insertByCreatedAt [] found) <-> In r' found.
Proof.
  induction found as [|r found IH]; cbn [fold_right]; [reflexivity|].
  rewrite In_insertByCreatedAt, IH. cbn [In]. intuition congruence.
Qed.

(** The update past the expiry of a request that is not executed. *)
Lemma update_past now r :
  expiresAt r < now -> status r <> executed ->
  updateRequestStatus now r = set_status expired r.
Proof.
  intros Ht Hs. unfold updateRequestStatus.
  destruct (Z.ltb_spec (expiresAt r) now); [|lia].
  destruct (status r) eqn:E; cbn; try reflexivity. contradiction.
Qed.

(** [getRequestsForWallet] returns updates of requests of the wallet. *)
Lemma walletScan_found w clock : forall entries k r',
  In r' (fst (walletScan w clock k entries)) ->
  exists j r0, In r0 (map snd entries) /\ walletAddress r0 = w
               /\ r' = updateRequestStatus (clock j) r0.
Proof.
  induction entries as [|[key request] rest IH]; intros k r' H; [destruct H|].
  cbn [walletScan] in H.
  destruct (String.eqb_spec (walletAddress request) w) as [E|E].
  - destruct (walletScan w clock (S k) rest) as [found rest'] eqn:E2.
    cbn [fst] in H. destruct H as [<-|H].
    + exists k, request. split; [left; reflexivity|]. split; [exact E|reflexivity].
    + specialize (IH (S k) r'). rewrite E2 in IH.
      destruct (IH H) as [j [r0 [H1 H2]]].
      exists j, r0. split; [right; exact H1 | exact H2].
  - destruct (walletScan w clock k rest) as [found rest'] eqn:E2.
    cbn [fst] in H. specialize (IH k r'). rewrite E2 in IH.
    destruct (IH H) as [j [r0 [H1 H2]]].
    exists j, r0. split; [right; exact H1 | exact H2].
Qed.

(** It visits every request of the wallet: the request comes back, and
    is filed, as updated at one of the readings. *)
Lemma walletScan_visits rid r clock : forall entries k,
  JsMap.get rid entries = Some r ->
  exists j,
    In (updateRequestStatus (clock j) r)
       (fst (walletScan (walletAddress r) clock k entries))
    /\ JsMap.get rid (snd (walletScan (walletAddress r) clock k entries))
       = Some (updateRequestStatus (clock j) r).
Proof.
  induction entries as [|[key request] rest IH]; intros k Hget; [discriminate|].
  cbn [walletScan]. cbn [JsMap.get] in Hget.
  destruct (String.eqb rid key) eqn:Ek.
  - injection Hget as ->. rewrite String.eqb_refl.
    destruct (walletScan (walletAddress r) clock (S k) rest) as [found rest'].
    cbn [fst snd JsMap.get]. rewrite Ek. exists k.
    split; [left; reflexivity | reflexivity].
  - destruct (String.eqb (walletAddress request) (walletAddress r)).
    + destruct (IH (S k) Hget) as [j [H1 H2]].
      destruct (walletScan (walletAddress r) clock (S k) rest) as [found rest'].
      cbn [fst snd JsMap.get] in *. rewrite Ek. exists j.
      split; [right; exact H1 | exact H2].
    + destruct (IH k Hget) as [j [H1 H2]].
      destruct (walletScan (walletAddress r) clock k rest) as [found rest'].
      cbn [fst snd JsMap.get] in *. rewrite Ek. exists j.
      split; [exact H1 | exact H2].
Qed.

(** The scan of [getPendingRequest] either stops before the request
    filed under [rid] or files it as updated at one of the readings. *)
Lemma pendingScan_visits rid r w clock : forall entries k,
  JsMap.get rid entries = Some r ->
  (forall j, isOpen (status (updateRequestStatus (clock j) r)) = false) ->
  (exists j, JsMap.get rid (snd (pendingScan w clock k entries))
             = Some (updateRequestStatus (clock j) r))
  \/ (JsMap.get rid (snd (pendingScan w clock k entries)) = Some r
      /\ fst (pendingScan w clock k entries) <> None).
Proof.
  induction entries as [|[key request] rest IH]; intros k Hget Hclosed;
    [discriminate|].
  cbn [pendingScan]. cbn [JsMap.get] in Hget.
  destruct (String.eqb rid key) eqn:Ek.
  - injection Hget as ->. rewrite Hclosed, andb_false_r.
    destruct (pendingScan w clock (S k) rest) as [found rest'].
    cbn [fst snd JsMap.get]. rewrite Ek. left. exists k. reflexivity.
  - destruct (_ && _).
    + cbn [fst snd JsMap.get]. rewrite Ek. right.
      split; [exact Hget | discriminate].
    + specialize (IH (S k) Hget Hclosed).
      destruct (pendingScan w clock (S k) rest) as [found rest'].
      cbn [fst snd JsMap.get] in *. rewrite Ek. exact IH.
Qed.

End RecoveryFacts.

Module RecoveryClaims.
Import Recovery RecoveryProps JsMapFacts RecoveryFacts.

(** C2, as the code has it.  Under [addApproval], [executeRecovery],
    [cancelRecovery] and the status-updating reads, at any clock
    readings, a request stays filed; once executed it stays executed,
    once expired it stays expired; a cancelled request stays cancelled
    or becomes expired, and it stays cancelled as long as no call reads
    the clock after [expiresAt] (the expiration check exempts executed
    requests only). *)
Theorem terminal_statuses rid calls m r :
  JsMap.get rid (requests m) = Some r ->
  exists r',
    JsMap.get rid (requests (run calls m)) = Some r'
    /\ (status r = executed -> status r' = executed)
    /\ (status r = expired -> status r' = expired)
    /\ (status r = cancelled -> status r' = cancelled \/ status r' = expired)
    /\ (status r = cancelled -> readingsUpTo (expiresAt r) calls ->
        status r' = cancelled).
Proof.
  intros Hget.
  destruct (run_after rid calls r m Hget) as [r' [H1 [H2 [_ H4]]]].
  exists r'. split; [exact H1|].
  repeat split; try (intros Hs; rewrite Hs in H2; exact H2). exact H4.
Qed.

Lemma terminal_statuses_witness :
  exists r',
    JsMap.get RecoveryFixtures.rid
      (requests (run [(CallGetRequest RecoveryFixtures.rid, RecoveryFixtures.late)]
                     RecoveryFixtures.cancelledManager)) = Some r'
    /\ status r' = expired.
Proof.
  destruct (terminal_statuses RecoveryFixtures.rid
              [(CallGetRequest RecoveryFixtures.rid, RecoveryFixtures.late)]
              RecoveryFixtures.cancelledManager
              (mkRequest RecoveryFixtures.rid "0xabc" "key-1" "new-owner"
                 "lost device" cancelled 2
                 [mkApproval "guardian-1" 1 EmptyString 2000 None;
                  mkApproval "guardian-2" 2 EmptyString 3000 None]
                 172800000 1000 (Some 3000) (Some 172803000) 604801000 None None)
              eq_refl) as [r' [H1 [_ [_ [H3 _]]]]].
  exists r'. split; [exact H1|].
  vm_compute in H1. injection H1 as <-. reflexivity.
Defined.

(** C2 fails as stated: a cancelled request that is read after its
    expiry has the status expired. *)
Lemma cancelled_becomes_expired :
  statusOf RecoveryFixtures.rid RecoveryFixtures.cancelledManager = Some cancelled
  /\ statusOf RecoveryFixtures.rid
       (step (CallGetRequest RecoveryFixtures.rid) RecoveryFixtures.late
             RecoveryFixtures.cancelledManager) = Some expired.
Proof. vm_compute. split; reflexivity. Qed.

(** C9.  [cancelRecovery] on a filed request succeeds exactly when the
    status, after the update at the call's clock reading, is pending,
    approved or ready, and throws [InvalidState] otherwise; on success the
    stored request is cancelled and every approval it holds has the
    empty string as [shareValue]. *)
Theorem cancel_outcome rid r clock m :
  JsMap.get rid (requests m) = Some r ->
  let r1 := updateRequestStatus (clock 0%nat) r in
  is_ok (fst (cancelRecovery rid clock m)) = isOpen (status r1)
  /\ (isOpen (status r1) = false ->
      fst (cancelRecovery rid clock m) = inl InvalidState)
  /\ (isOpen (status r1) = true ->
      exists r',
        cancelRecovery rid clock m = (inr tt, store rid r' m)
        /\ JsMap.get rid (requests (snd (cancelRecovery rid clock m))) = Some r'
        /\ status r' = cancelled
        /\ Forall (fun a => shareValue a = EmptyString) (approvals r')
        /\ map guardianId (approvals r') = map guardianId (approvals r)).
Proof.
  intros Hget r1. unfold cancelRecovery, validateRequestStatus. rewrite Hget.
  fold r1. change (existsb (status_eqb (status r1)) [pending; approved; ready])
    with (isOpen (status r1)).
  destruct (isOpen (status r1)) eqn:Ho; cbn [fst snd is_ok].
  - split; [reflexivity|]. split; [discriminate|]. intros _.
    eexists. split; [reflexivity|]. rewrite get_store, String.eqb_refl.
    split; [reflexivity|]. cbn [status approvals set_approvals set_status].
    split; [reflexivity|]. split.
    + apply Forall_forall. intros a Ha. apply in_map_iff in Ha.
      destruct Ha as [a0 [<- _]]. reflexivity.
    + rewrite map_map. cbn [guardianId set_shareValue].
      unfold r1. destruct (update_fields (clock 0%nat) r) as [_ [-> _]].
      reflexivity.
  - split; [reflexivity|]. split; [reflexivity|]. discriminate.
Qed.

Lemma cancel_outcome_witness :
  is_ok (fst (cancelRecovery RecoveryFixtures.rid (RecoveryFixtures.at_ 5000)
                RecoveryFixtures.approvedManager)) = true
  /\ statusOf RecoveryFixtures.rid RecoveryFixtures.cancelledManager
     = Some cancelled.
Proof.
  pose proof (cancel_outcome RecoveryFixtures.rid
                (mkRequest RecoveryFixtures.rid "0xabc" "key-1" "new-owner"
                   "lost device" approved 2
                   [mkApproval "guardian-1" 1 (Hex.bigIntToHex 8) 2000 None;
                    mkApproval "guardian-2" 2 (Hex.bigIntToHex 15) 3000 None]
                   172800000 1000 (Some 3000) (Some 172803000) 604801000
                   None None)
                (RecoveryFixtures.at_ 5000) RecoveryFixtures.approvedManager
                eq_refl) as [H1 _].
  split; [rewrite H1; reflexivity | reflexivity].
Defined.

Lemma stored_expired rid r m :
  JsMap.get rid (requests m) = Some r -> status r = expired ->
  forall clock,
    (forall a, fst (addApproval rid a clock m) = inl InvalidState)
    /\ fst (executeRecovery rid clock m) = inl InvalidState
    /\ fst (isReadyForExecution rid clock m) = false.
Proof.
  intros Hget Hs clock.
  assert (Hu : forall now, status (updateRequestStatus now r) = expired).
  { intros now. pose proof (update_settled now r) as H. rewrite Hs in H. exact H. }
  assert (Hu2 : forall now now',
             status (updateRequestStatus now' (updateRequestStatus now r)) = expired).
  { intros now now'. pose proof (update_settled now' (updateRequestStatus now r)) as H.
    rewrite Hu in H. exact H. }
  repeat split.
  - intros a. unfold addApproval, validateRequestStatus. rewrite Hget, Hu. reflexivity.
  - unfold executeRecovery, validateRequestStatus. rewrite Hget, Hu2. reflexivity.
  - unfold isReadyForExecution. rewrite Hget. cbn [fst]. rewrite Hu. reflexivity.
Qed.

Lemma pendingScan_found w clock : forall entries k r',
  fst (pendingScan w clock k entries) = Some r' ->
  isOpen (status r') = true
  /\ exists j r0, r' = updateRequestStatus (clock j) r0 /\ In r0 (map snd entries).
Proof.
  induction entries as [|[key request] rest IH]; intros k r' H; [discriminate|].
  cbn [pendingScan] in H.
  destruct (_ && _) eqn:E.
  - cbn [fst] in H. injection H as <-. apply andb_prop in E. destruct E as [_ E].
    split; [exact E|]. exists k, request. split; [reflexivity | left; reflexivity].
  - destruct (pendingScan w clock (S k) rest) as [found rest'] eqn:E2.
    cbn [fst] in H. specialize (IH (S k) r'). rewrite E2 in IH.
    destruct (IH H) as [Ho [j [r0 [H1 H2]]]].
    split; [exact Ho|]. exists j, r0. split; [exact H1 | right; exact H2].
Qed.

(** C10.  When the clock reading is past [expiresAt] and the request is
    not executed, the status update gives expired, whatever the status
    was, an approved request whose timelock has ended included: the read
    returns the request as expired, [isReadyForExecution] is false,
    [addApproval] and [executeRecovery] throw [InvalidState]; after the
    read, under any further calls at any clock readings, the status
    stays expired (never ready) and the two calls keep failing.  The two
    reads that scan the map see the same at readings past the expiry:
    [getRequestsForWallet] on the request's wallet returns the request
    as expired and files it so, and whatever it returns for any wallet
    is executed or expired when its expiry has passed;
    [getPendingRequest] never returns the request, returns only open
    requests that it updated at a reading not past their expiry, and
    files the request as expired unless the scan stopped before it. *)
Theorem expiry_precedence rid r clock m :
  JsMap.get rid (requests m) = Some r ->
  status r <> executed ->
  expiresAt r < clock 0%nat ->
  status (updateRequestStatus (clock 0%nat) r) = expired
  /\ option_map status (fst (getRequest rid clock m)) = Some expired
  /\ fst (isReadyForExecution rid clock m) = false
  /\ (forall a, fst (addApproval rid a clock m) = inl InvalidState)
  /\ fst (executeRecovery rid clock m) = inl InvalidState
  /\ (forall calls clock' a,
        let m' := run calls (snd (getRequest rid clock m)) in
        statusOf rid m' = Some expired
        /\ fst (addApproval rid a clock' m') = inl InvalidState
        /\ fst (executeRecovery rid clock' m') = inl InvalidState
        /\ fst (isReadyForExecution rid clock' m') = false)
  /\ (forall w found,
        fst (getPendingRequest w clock m) = Some found ->
        exists j, clock j <= expiresAt found)
  /\ (forall clock',
        (forall k, expiresAt r < clock' k) ->
        let read := getRequestsForWallet (walletAddress r) clock' m in
        In (set_status expired r) (fst read)
        /\ statusOf rid (snd read) = Some expired)
  /\ (forall clock' w r',
        In r' (fst (getRequestsForWallet w clock' m)) ->
        (forall k, expiresAt r' < clock' k) ->
        status r' = executed \/ status r' = expired)
  /\ (forall clock' w,
        (forall k, expiresAt r < clock' k) ->
        let read := getPendingRequest w clock' m in
        (forall found,
           fst read = Some found ->
           isOpen (status found) = true
           /\ found <> set_status expired r
           /\ exists j, clock' j <= expiresAt found)
        /\ (fst read = None -> statusOf rid (snd read) = Some expired)
        /\ (statusOf rid (snd read) = Some expired
            \/ statusOf rid (snd read) = Some (status r))).
Proof.
  intros Hget Hs Ht.
  pose proof (update_expired (clock 0%nat) r Ht Hs) as Hexp.
  assert (Hfound : forall w clock' found,
             fst (getPendingRequest w clock' m) = Some found ->
             isOpen (status found) = true
             /\ exists j, clock' j <= expiresAt found).
  { intros w clock' found Hf. unfold getPendingRequest in Hf.
    pose proof (pendingScan_found w clock' (requests m) 0%nat found) as Hp.
    destruct (pendingScan w clock' 0 (requests m)) as [f entries].
    cbn [fst] in Hf, Hp. destruct (Hp Hf) as [Ho [j [r0 [-> _]]]].
    split; [exact Ho|].
    exists j. destruct (update_fields (clock' j) r0) as [-> _].
    destruct (Z_le_gt_dec (clock' j) (expiresAt r0)) as [Hle|Hgt]; [exact Hle|].
    exfalso.
    destruct (status r0) eqn:E0;
      try (rewrite update_expired in Ho; [discriminate | lia | congruence]).
    pose proof (update_settled (clock' j) r0) as H. rewrite E0 in H. cbn in H.
    rewrite H in Ho. discriminate. }
  split; [exact Hexp|].
  split; [unfold getRequest; rewrite Hget; cbn; rewrite Hexp; reflexivity|].
  split; [unfold isReadyForExecution; rewrite Hget; cbn [fst]; rewrite Hexp;
          reflexivity|].
  split; [intros a; unfold addApproval, validateRequestStatus;
          rewrite Hget, Hexp; reflexivity|].
  split.
  { unfold executeRecovery, validateRequestStatus. rewrite Hget.
    pose proof (update_settled (clock 1%nat) (updateRequestStatus (clock 0%nat) r)) as H.
    rewrite Hexp in H. cbn in H. rewrite H. reflexivity. }
  split.
  { intros calls clock' a m'. subst m'.
    assert (Hg1 : JsMap.get rid (requests (snd (getRequest rid clock m)))
                  = Some (updateRequestStatus (clock 0%nat) r)).
    { unfold getRequest. rewrite Hget. cbn [snd].
      rewrite get_store, String.eqb_refl. reflexivity. }
    destruct (run_after rid calls _ _ Hg1) as [r' [H1 [H2 _]]].
    rewrite Hexp in H2. cbn in H2.
    destruct (stored_expired rid r' _ H1 H2 clock') as [Ha [He Hr]].
    split; [unfold statusOf; rewrite H1; cbn; rewrite H2; reflexivity|].
    split; [apply Ha|]. split; [exact He | exact Hr]. }
  split.
  { intros w found Hf. apply (Hfound w clock found Hf). }
  split.
  { intros clock' Hpast read. subst read. unfold getRequestsForWallet, statusOf.
    destruct (walletScan_visits rid r clock' (requests m) 0%nat Hget)
      as [j [H1 H2]].
    destruct (walletScan (walletAddress r) clock' 0 (requests m))
      as [found entries].
    cbn [fst snd requests] in *.
    rewrite (update_past (clock' j) r (Hpast j) Hs) in H1, H2.
    split; [apply (proj2 (In_sorted _ _)); exact H1|]. rewrite H2. reflexivity. }
  split.
  { intros clock' w r' Hin Hpast. unfold getRequestsForWallet in Hin.
    pose proof (walletScan_found w clock' (requests m) 0%nat r') as Hw.
    destruct (walletScan w clock' 0 (requests m)) as [found entries].
    cbn [fst] in Hin, Hw. apply (proj1 (In_sorted _ _)) in Hin.
    destruct (Hw Hin) as [j [r0 [_ [_ ->]]]].
    destruct (update_fields (clock' j) r0) as [He _].
    destruct (status r0) eqn:E0;
      try (right; apply update_expired;
           [rewrite <- He; apply Hpast | congruence]).
    left. pose proof (update_settled (clock' j) r0) as H. rewrite E0 in H.
    exact H. }
  intros clock' w Hpast read. subst read.
  assert (Hclosed : forall j,
             isOpen (status (updateRequestStatus (clock' j) r)) = false).
  { intros j. rewrite (update_expired (clock' j) r (Hpast j) Hs). reflexivity. }
  split.
  { intros found Hf. destruct (Hfound w clock' found Hf) as [Ho Hj].
    split; [exact Ho|]. split; [|exact Hj].
    intros ->. cbn in Ho. discriminate. }
  unfold getPendingRequest, statusOf.
  destruct (pendingScan_visits rid r w clock' (requests m) 0%nat Hget Hclosed)
    as [[j Hj]|[Hsame Hsome]];
    destruct (pendingScan w clock' 0 (requests m)) as [f entries];
    cbn [fst snd requests] in *.
  - rewrite Hj. cbn [option_map].
    rewrite (update_expired (clock' j) r (Hpast j) Hs).
    split; [reflexivity | left; reflexivity].
  - rewrite Hsame. cbn [option_map].
    split; [intros ->; contradiction | right; reflexivity].
Qed.

Lemma expiry_precedence_witness :
  status (updateRequestStatus (RecoveryFixtures.late 0%nat)
            (mkRequest RecoveryFixtures.rid "0xabc" "key-1" "new-owner"
               "lost device" approved 2
               [mkApproval "guardian-1" 1 (Hex.bigIntToHex 8) 2000 None;
                mkApproval "guardian-2" 2 (Hex.bigIntToHex 15) 3000 None]
               172800000 1000 (Some 3000) (Some 172803000) 604801000
               None None)) = expired
  /\ fst (executeRecovery RecoveryFixtures.rid RecoveryFixtures.late
            RecoveryFixtures.approvedManager) = inl InvalidState
  /\ map status
       (fst (getRequestsForWallet "0xabc" RecoveryFixtures.late
               RecoveryFixtures.approvedManager)) = [expired]
  /\ fst (getPendingRequest "0xabc" RecoveryFixtures.late
            RecoveryFixtures.approvedManager) = None
  /\ statusOf RecoveryFixtures.rid
       (snd (getPendingRequest "0xabc" RecoveryFixtures.late
               RecoveryFixtures.approvedManager)) = Some expired.
Proof.
  pose proof (expiry_precedence RecoveryFixtures.rid
                (mkRequest RecoveryFixtures.rid "0xabc" "key-1" "new-owner"
                   "lost device" approved 2
                   [mkApproval "guardian-1" 1 (Hex.bigIntToHex 8) 2000 None;
                    mkApproval "guardian-2" 2 (Hex.bigIntToHex 15) 3000 None]
                   172800000 1000 (Some 3000) (Some 172803000) 604801000
                   None None)
                RecoveryFixtures.late RecoveryFixtures.approvedManager
                eq_refl ltac:(discriminate) ltac:(reflexivity))
    as [H1 [_ [_ [_ [H5 [_ [_ [_ [_ H10]]]]]]]]].
  destruct (H10 RecoveryFixtures.late "0xabc"%string
              ltac:(intros k; reflexivity)) as [_ [H11 _]].
  split; [exact H1|]. split; [exact H5|].
  split; [vm_compute; reflexivity|].
  split; [vm_compute; reflexivity|].
  apply H11. vm_compute. reflexivity.
Defined.

End RecoveryClaims.

(* ================================================================== *)
(** * Proofs: the envelope cipher *)
(* ================================================================== *)

Module EncryptionFacts.
Import Encryption EnvelopeProps Fixtures.


Lemma decrypt_encrypt P plaintext w saltBytes nonceBytes w' :
  decrypt P (encrypt P plaintext w saltBytes nonceBytes) w'
  = match secretbox_open P
            (secretbox P (list_byte_of_string plaintext) nonceBytes
                       (deriveKey P w saltBytes))
            nonceBytes (deriveKey P w' saltBytes) with
    | None => inl Undecryptable
    | Some bytes => inr (textDecode P bytes)
    end.
Proof. reflexivity. Qed.












End EncryptionFacts.

(* ================================================================== *)
(** * Proofs: the MPC wallet *)
(* ================================================================== *)

Module WalletFacts.
Import Threshold MPCWallet.

Section WithPrimitives.
Variable P : Primitives.
Variable E : Encoders.

Lemma signWithShares_two h shares signed :
  signWithShares P h shares = inr signed -> (2 <= List.length shares)%nat.
Proof.
  destruct shares as [|a [|b r]]; cbn [signWithShares]; try discriminate.
  intros _. cbn [List.length]. lia.
Qed.

Lemma signHash_keeps h w sig w' :
  signHash P h w = (inr sig, w') ->
  w' = w /\ (2 <= List.length (collectedShares w))%nat.
Proof.
  unfold signHash. destruct (canSign w); cbn [negb]; [|discriminate].
  destruct (signWithShares P h (collectedShares w)) as [e|signed] eqn:Hs;
    [discriminate|].
  intros H. injection H as _ <-. split; [reflexivity|].
  eapply signWithShares_two. exact Hs.
Qed.

Lemma signMessage_keeps msg w sig w' :
  signMessage P msg w = (inr sig, w') ->
  w' = w /\ (2 <= List.length (collectedShares w))%nat.
Proof.
  unfold signMessage, signPersonalMessage.
  destruct (canSign w); cbn [negb]; [|discriminate].
  match goal with |- context [signWithShares P ?h ?l] =>
    destruct (signWithShares P h l) as [e|signed] eqn:Hs end; [discriminate|].
  intros H. injection H as _ <-. split; [reflexivity|].
  eapply signWithShares_two. exact Hs.
Qed.

Lemma signTransaction_keeps tx w sig w' :
  signTransaction P E tx w = (inr sig, w') ->
  w' = w /\ (2 <= List.length (collectedShares w))%nat.
Proof.
  unfold signTransaction. destruct (canSign w); cbn [negb]; [|discriminate].
  match goal with |- context [signWithShares P ?h ?l] =>
    destruct (signWithShares P h l) as [e|signed] eqn:Hs end; [discriminate|].
  intros H. injection H as _ <-. split; [reflexivity|].
  eapply signWithShares_two. exact Hs.
Qed.

End WithPrimitives.

(** C3, as the code has it.  A successful [signHash], [signMessage] or
    [signTransaction] leaves [collectedShares] as it was, with the two
    or more shares it signed with; the shares are dropped by
    [clearShares] (the facade's [lock]) and by [loadState]. *)
Theorem sign_keeps_shares P E call w sig w' :
  sign P E call w = (inr sig, w') ->
  collectedShares w' = collectedShares w
  /\ (2 <= List.length (collectedShares w'))%nat
  /\ collectedShares (clearShares w') = []
  /\ (forall s, collectedShares (loadState s w') = [])
  /\ (forall fw, collectedShares (Facade.mpcWallet (Facade.lock fw)) = []).
Proof.
  intros H.
  assert (Hk : w' = w /\ (2 <= List.length (collectedShares w))%nat).
  { destruct call; cbn [sign] in H.
    - eapply signHash_keeps; exact H.
    - eapply signMessage_keeps; exact H.
    - eapply signTransaction_keeps; exact H. }
  destruct Hk as [-> Hlen].
  repeat split; try reflexivity. exact Hlen.
Qed.

Lemma sign_keeps_shares_witness :
  collectedShares Fixtures.readyWallet = collectedShares Fixtures.readyWallet
  /\ (2 <= List.length (collectedShares Fixtures.readyWallet))%nat
  /\ collectedShares (clearShares Fixtures.readyWallet) = []
  /\ (forall s, collectedShares (loadState s Fixtures.readyWallet) = [])
  /\ (forall fw, collectedShares (Facade.mpcWallet (Facade.lock fw)) = []).
Proof.
  apply (sign_keeps_shares Fixtures.stubPrimitives Fixtures.stubEncoders
           (SignHash Fixtures.zeroHash) Fixtures.readyWallet
           (String.append "0x"
              (String.append (Hex.bigIntToHex 1)
                 (String.append (Hex.bigIntToHex 1) "1b")))).
  vm_compute. reflexivity.
Defined.

(** C3 fails as stated: after a successful [signHash] on a wallet
    holding two shares the two shares are still collected. *)
Lemma sign_does_not_clear :
  is_ok (fst (signHash Fixtures.stubPrimitives Fixtures.zeroHash
                       Fixtures.readyWallet)) = true
  /\ collectedShares (snd (signHash Fixtures.stubPrimitives Fixtures.zeroHash
                                    Fixtures.readyWallet))
     = [Fixtures.share1; Fixtures.share2].
Proof. vm_compute. split; reflexivity. Qed.

(** C6, as the code has it.  On a loaded wallet [addShare] throws
    [WrongWallet] when the record's [keyId] differs from the state's;
    otherwise it returns [false], without throwing and without changing
    the wallet, when the index is already collected, and also when
    anything is thrown inside the [try] block: by [deserializePayload]
    (a string that [atob] refuses) or by [decrypt] (a wrong password, a
    corrupted box, another version).  In the one remaining case, the
    envelope opening to [shareValue], it returns [true] and the share
    is collected last. *)
Theorem addShare_outcomes P enc password w s :
  state w = Some s ->
  let opened :=
    match Encryption.deserializePayload P (e_encryptedShare enc) with
    | inl e => inl e
    | inr payload => Encryption.decrypt P payload password
    end in
  let collected :=
    existsb (fun k => JsNumber.strictEq (index k) (e_index enc))
            (collectedShares w) in
  (e_keyId enc <> st_keyId s ->
     addShare P enc password w = (inl WrongWallet, w))
  /\ (e_keyId enc = st_keyId s -> collected = true ->
      addShare P enc password w = (inr false, w))
  /\ (e_keyId enc = st_keyId s ->
      forall e, opened = inl e ->
                addShare P enc password w = (inr false, w))
  /\ (e_keyId enc = st_keyId s -> collected = false ->
      forall shareValue,
        opened = inr shareValue ->
        addShare P enc password w
        = (inr true,
           mkWallet (state w)
             (collectedShares w
              ++ [mkKeyShare (e_index enc) shareValue (e_publicKey enc)
                             (e_address enc) (e_keyId enc) (e_config enc)]))).
Proof.
  intros Hs opened collected. subst opened collected. unfold addShare. rewrite Hs.
  repeat split.
  - intros Hne. apply String.eqb_neq in Hne. rewrite Hne. reflexivity.
  - intros Heq Hdup. apply String.eqb_eq in Heq. rewrite Heq, Hdup. reflexivity.
  - intros Heq e He. apply String.eqb_eq in Heq. rewrite Heq.
    cbn [negb].
    destruct (existsb _ (collectedShares w)); [reflexivity|].
    destruct (Encryption.deserializePayload P (e_encryptedShare enc));
      [reflexivity|].
    rewrite He. reflexivity.
  - intros Heq Hnew shareValue Hv. apply String.eqb_eq in Heq. rewrite Heq, Hnew.
    cbn [negb].
    destruct (Encryption.deserializePayload P (e_encryptedShare enc));
      [discriminate|].
    rewrite Hv. reflexivity.
Qed.

Lemma addShare_outcomes_witness :
  addShare Fixtures.stubPrimitives Fixtures.sealedOther "pw" Fixtures.readyWallet
  = (inl WrongWallet, Fixtures.readyWallet)
  /\ addShare Fixtures.stubPrimitives Fixtures.sealed1 "pw" Fixtures.readyWallet
     = (inr false, Fixtures.readyWallet)
  /\ addShare Fixtures.stubPrimitives Fixtures.sealed3 "wrong" Fixtures.readyWallet
     = (inr false, Fixtures.readyWallet)
  /\ addShare Fixtures.noBase64Primitives Fixtures.sealed3 "pw" Fixtures.readyWallet
     = (inr false, Fixtures.readyWallet)
  /\ is_ok (fst (addShare Fixtures.plainPrimitives Fixtures.sealed3 "pw"
                          Fixtures.readyWallet)) = true.
Proof.
  destruct (addShare_outcomes Fixtures.stubPrimitives Fixtures.sealedOther "pw"
              Fixtures.readyWallet Fixtures.walletState eq_refl) as [H1 _].
  destruct (addShare_outcomes Fixtures.stubPrimitives Fixtures.sealed1 "pw"
              Fixtures.readyWallet Fixtures.walletState eq_refl) as [_ [H2 _]].
  destruct (addShare_outcomes Fixtures.stubPrimitives Fixtures.sealed3 "wrong"
              Fixtures.readyWallet Fixtures.walletState eq_refl)
    as [_ [_ [H3 _]]].
  destruct (addShare_outcomes Fixtures.noBase64Primitives Fixtures.sealed3 "pw"
              Fixtures.readyWallet Fixtures.walletState eq_refl)
    as [_ [_ [H4 _]]].
  destruct (addShare_outcomes Fixtures.plainPrimitives Fixtures.sealed3 "pw"
              Fixtures.readyWallet Fixtures.walletState eq_refl)
    as [_ [_ [_ H5]]].
  split; [apply H1; discriminate|].
  split; [apply H2; reflexivity|].
  split; [apply (H3 eq_refl Undecryptable); reflexivity|].
  split; [apply (H4 eq_refl BadBase64); reflexivity|].
  rewrite (H5 eq_refl eq_refl EmptyString eq_refl). reflexivity.
Defined.

(** C6 fails as stated: adding share 1 again to a wallet that holds it
    returns [false]; nothing is thrown. *)
Lemma addShare_duplicate_returns_false :
  addShare Fixtures.stubPrimitives Fixtures.sealed1 "pw" Fixtures.readyWallet
  = (inr false, Fixtures.readyWallet).
Proof. vm_compute. reflexivity. Qed.

(** A wrong password on a share not yet collected: [false] again. *)
Example addShare_wrong_password :
  addShare Fixtures.stubPrimitives Fixtures.sealed3 "wrong" Fixtures.readyWallet
  = (inr false, Fixtures.readyWallet).
Proof. vm_compute. reflexivity. Qed.

End WalletFacts.

(* ================================================================== *)
(** * Proofs: the facade's configuration *)
(* ================================================================== *)

Module FacadeFacts.
Import Facade.

(** What [validateConfig] checks when the fields of the merged
    configuration are integers: the constructor throws, with one of the
    four messages, exactly when [threshold >= 2], [ownerShares >= 1],
    [totalShares - ownerShares >= threshold - ownerShares] or
    [totalShares >= threshold] is violated.  The third comparison has
    [ownerShares] on both sides, so it is the fourth one again, and
    nothing bounds [ownerShares] by [totalShares - 1]. *)
Lemma newWallet_validation c :
  let cfg := mergeConfig c in
  (threshold cfg < 2 \/ ownerShares cfg < 1
   \/ totalShares cfg - ownerShares cfg < threshold cfg - ownerShares cfg
   \/ totalShares cfg < threshold cfg)
  <-> (exists e, newWallet c = inl e /\ isConfigInvalid e = true).
Proof.
  intros cfg. unfold newWallet, validateConfig. fold cfg.
  destruct (Z.ltb_spec (threshold cfg) 2);
    [split; [intros _; eexists; split; reflexivity | intros _; lia]|].
  destruct (Z.ltb_spec (ownerShares cfg) 1);
    [split; [intros _; eexists; split; reflexivity | intros _; lia]|].
  destruct (Z.ltb_spec (totalShares cfg - ownerShares cfg)
                       (threshold cfg - ownerShares cfg));
    [split; [intros _; eexists; split; reflexivity | intros _; lia]|].
  destruct (Z.ltb_spec (totalShares cfg) (threshold cfg));
    [split; [intros _; eexists; split; reflexivity | intros _; lia]|].
  split; [lia|]. intros [e [He _]]. discriminate.
Qed.

(** The guardian-share check never fires on its own: whenever it would
    throw, so would the comparison of the threshold with the total. *)
Lemma guardian_check_is_total_check c :
  (totalShares c - ownerShares c <? threshold c - ownerShares c)
  = (totalShares c <? threshold c).
Proof.
  destruct (Z.ltb_spec (totalShares c - ownerShares c)
                       (threshold c - ownerShares c));
    destruct (Z.ltb_spec (totalShares c) (threshold c)); try reflexivity; lia.
Qed.

(** C5.  The code at [{ totalShares: 3, threshold: 2, ownerShares: 3 }]:
    the owner holds more than [totalShares - 1] shares, the guardians
    hold none, fewer than the threshold that a recovery without the
    owner needs, and still [validateConfig] returns and the constructor
    gives a wallet; the message 'Not enough guardian shares for recovery
    without owner' is not thrown. *)
Theorem newWallet_accepts_all_owner :
  let c := mkPartial (Some 3) (Some 2) (Some 3) None None in
  let cfg := mergeConfig c in
  ownerShares cfg > totalShares cfg - 1
  /\ totalShares cfg - ownerShares cfg = 0
  /\ totalShares cfg - ownerShares cfg < threshold cfg
  /\ validateConfig cfg = inr tt
  /\ is_ok (newWallet c) = true.
Proof. vm_compute. repeat split; reflexivity. Qed.

End FacadeFacts.

Module FieldLaws.
Import Field FieldFacts PrimalityFacts ShamirFacts.

(** X1.  For every non-negative a, modInverse(a, PRIME) lies in [0,
    PRIME); it is the multiplicative inverse of a modulo PRIME when
    PRIME does not divide a, and it is 0, without any error, when PRIME
    divides a. *)
Theorem modInverse_inverts a :
  0 <= a ->
  0 <= modInverse a PRIME < PRIME
  /\ (a mod PRIME <> 0 -> (a * modInverse a PRIME) mod PRIME = 1)
  /\ (a mod PRIME = 0 -> modInverse a PRIME = 0).
Proof.
  intros Ha.
  pose proof PRIME_pos as Hpos. pose proof PRIME_big as Hbig.
  unfold modInverse. rewrite modPow_spec by lia.
  split; [apply Z.mod_pos_bound; lia|]. split.
  - intros Hnz. rewrite Z.mul_mod_idemp_r by lia.
    rewrite <- Z.pow_succ_r by lia.
    replace (Z.succ (PRIME - 2)) with (PRIME - 1) by lia.
    apply Z.fermat_nz; [exact PRIME_prime | exact Hnz].
  - intros Hz.
    replace (PRIME - 2) with (Z.succ (PRIME - 3)) by lia.
    rewrite Z.pow_succ_r by lia.
    rewrite <- Z.mul_mod_idemp_l by lia. rewrite Hz. cbn [Z.mul].
    apply Z.mod_0_l. lia.
Qed.

Lemma modInverse_inverts_witness :
  0 <= modInverse 2 PRIME < PRIME
  /\ (2 mod PRIME <> 0 -> (2 * modInverse 2 PRIME) mod PRIME = 1)
  /\ (2 mod PRIME = 0 -> modInverse 2 PRIME = 0).
Proof. apply modInverse_inverts. lia. Defined.

End FieldLaws.

Module HexLaws.
Import Hex HexFacts HexProps.

Lemma hexDigits_length : forall fuel k v,
  0 <= v < 16 ^ Z.of_nat (S k) ->
  (String.length (hexDigits fuel v) <= S k)%nat.
Proof.
  induction fuel as [|fuel IH]; intros k v Hv; [cbn; lia|].
  cbn [hexDigits]. rewrite GuardianFacts.length_append. cbn [String.length].
  destruct (Z.eqb_spec (v / 16) 0) as [E|E]; [cbn; lia|].
  destruct k as [|k].
  - exfalso. apply E. apply Z.div_small. cbn in Hv. lia.
  - assert (H : (String.length (hexDigits fuel (v / 16)) <= S k)%nat).
    { apply IH. split; [apply Z.div_pos; lia|].
      apply Z.div_lt_upper_bound; [lia|].
      replace (16 ^ Z.of_nat (S (S k))) with (16 * 16 ^ Z.of_nat (S k)) in Hv;
        [lia|].
      rewrite (Nat2Z.inj_succ (S k)), Z.pow_succ_r by lia. reflexivity. }
    lia.
Qed.

Lemma isLowerHex_hexDigit d : 0 <= d < 16 -> isLowerHex (hexDigit d).
Proof.
  intros Hd. unfold isLowerHex, hexDigit.
  destruct (Z.ltb_spec d 10).
  - rewrite N_ascii_embedding by lia. lia.
  - rewrite N_ascii_embedding by lia. lia.
Qed.

Lemma allLowerHex_append s1 s2 :
  allLowerHex s1 -> allLowerHex s2 -> allLowerHex (s1 ++ s2).
Proof.
  induction s1 as [|c s1 IH]; cbn; [tauto|].
  intros [Hc H1] H2. split; [exact Hc | apply IH; assumption].
Qed.

Lemma allLowerHex_hexDigits : forall fuel v, 0 <= v -> allLowerHex (hexDigits fuel v).
Proof.
  induction fuel as [|fuel IH]; intros v Hv; [exact I|].
  cbn [hexDigits]. apply allLowerHex_append.
  - destruct (v / 16 =? 0); [exact I|]. apply IH. apply Z.div_pos; lia.
  - cbn. split; [|exact I]. apply isLowerHex_hexDigit.
    apply Z.mod_pos_bound. lia.
Qed.

Lemma allLowerHex_replicate n : allLowerHex (replicate n "0"%char).
Proof.
  induction n as [|n IH]; cbn; [exact I|]. split; [|exact IH].
  unfold isLowerHex. cbn. lia.
Qed.

Lemma toString16_length v :
  0 <= v < 2 ^ 256 -> (String.length (toString16 v) <= 64)%nat.
Proof.
  intros Hv. unfold toString16.
  destruct (Z.ltb_spec v 0); [lia|].
  apply (hexDigits_length _ 63). change (16 ^ Z.of_nat 64) with (2 ^ 256). exact Hv.
Qed.

Lemma bigIntToHex_length v :
  0 <= v < 2 ^ 256 -> String.length (bigIntToHex v) = 64%nat.
Proof.
  intros Hv. pose proof (toString16_length v Hv) as H.
  unfold bigIntToHex, padStart.
  rewrite GuardianFacts.length_append, GuardianFacts.length_replicate. lia.
Qed.

Lemma bigIntToHex_lower v : 0 <= v -> allLowerHex (bigIntToHex v).
Proof.
  intros Hv. unfold bigIntToHex, padStart. apply allLowerHex_append.
  - apply allLowerHex_replicate.
  - unfold toString16. destruct (Z.ltb_spec v 0); [lia|].
    apply allLowerHex_hexDigits. exact Hv.
Qed.

Lemma hexToBigInt_prefixed s :
  hexToBigInt (String "0" (String "x" s)) = parseHex s.
Proof. reflexivity. Qed.

Lemma parseHex_bigIntToHex v : 0 <= v -> parseHex (bigIntToHex v) = Some v.
Proof.
  intros Hv. pose proof (hexToBigInt_bigIntToHex v Hv) as H.
  unfold hexToBigInt in H.
  destruct (startsWith0x (bigIntToHex v)) eqn:E; [|exact H].
  exfalso. destruct (toString16_parse v Hv) as [Hp _].
  assert (Hpad : parseHexAcc (bigIntToHex v) 0 = Some v).
  { unfold bigIntToHex, padStart. rewrite replicate_zero_parse. exact Hp. }
  rewrite (startsWith0x_not_hex _ 0 E) in Hpad. discriminate.
Qed.

(** X2.  For 0 <= v < 2^256, bigIntToHex(v) is exactly 64 lower-case
    hexadecimal digits, and hexToBigInt reads v back from it, with or
    without a 0x prefix. *)
Theorem bigIntToHex_reads_back v :
  0 <= v < 2 ^ 256 ->
  String.length (bigIntToHex v) = 64%nat
  /\ allLowerHex (bigIntToHex v)
  /\ hexToBigInt (bigIntToHex v) = Some v
  /\ hexToBigInt (String.append "0x" (bigIntToHex v)) = Some v.
Proof.
  intros Hv. split; [apply bigIntToHex_length; exact Hv|].
  split; [apply bigIntToHex_lower; lia|].
  split; [apply hexToBigInt_bigIntToHex; lia|].
  cbn [String.append]. rewrite hexToBigInt_prefixed.
  apply parseHex_bigIntToHex. lia.
Qed.

Lemma bigIntToHex_reads_back_witness :
  String.length (bigIntToHex 255) = 64%nat
  /\ allLowerHex (bigIntToHex 255)
  /\ hexToBigInt (bigIntToHex 255) = Some 255
  /\ hexToBigInt (String.append "0x" (bigIntToHex 255)) = Some 255.
Proof. apply bigIntToHex_reads_back. lia. Defined.

End HexLaws.

Module ShamirLaws.
Import Field Hex Shamir Poly Lagrange ShamirShares.
Import FieldFacts HexFacts ShamirFacts HexLaws.

Lemma PRIME_256 : PRIME < 2 ^ 256.
Proof. reflexivity. Qed.

Lemma splitSecret_inv secret totalShares threshold entropy shares :
  splitSecret secret totalShares threshold entropy = inr shares ->
  2 <= threshold <= totalShares /\ totalShares <= 255
  /\ exists s, hexToBigInt secret = Some s /\ 0 <= s < PRIME
     /\ shares = shareLoop (s :: drawCoefficients threshold entropy) totalShares.
Proof.
  unfold splitSecret. intros H.
  destruct (Z.ltb_spec threshold 2); [discriminate|].
  destruct (Z.ltb_spec totalShares threshold); [discriminate|].
  destruct (Z.ltb_spec 255 totalShares); [discriminate|].
  destruct (hexToBigInt secret) as [s|] eqn:Es; [|discriminate].
  destruct (Z.leb_spec PRIME s); [discriminate|].
  injection H as <-.
  split; [lia|]. split; [lia|]. exists s.
  split; [reflexivity|]. split; [|reflexivity].
  split; [eapply hexToBigInt_nonneg; exact Es | assumption].
Qed.

Lemma length_drawCoefficients threshold entropy :
  List.length (drawCoefficients threshold entropy) = Z.to_nat (threshold - 1).
Proof. unfold drawCoefficients. rewrite length_map, length_seq. reflexivity. Qed.


(** The indices of the shares that [splitSecret] returns. *)
Lemma splitSecret_indices secret totalShares threshold entropy shares :
  splitSecret secret totalShares threshold entropy = inr shares ->
  map x shares = map Z.of_nat (seq 1 (Z.to_nat totalShares)).
Proof.
  intros H. destruct (splitSecret_inv _ _ _ _ _ H) as [_ [_ [s [_ [_ ->]]]]].
  unfold shareLoop. rewrite map_map. cbn [x]. reflexivity.
Qed.



Lemma nodup_length_le {A} (dec : forall a b : A, {a = b} + {a <> b}) l :
  (List.length (nodup dec l) <= List.length l)%nat.
Proof.
  induction l as [|a l IH]; cbn; [lia|].
  destruct (in_dec dec a l); cbn; lia.
Qed.

Lemma nodup_length_NoDup {A} (dec : forall a b : A, {a = b} + {a <> b}) l :
  List.length (nodup dec l) = List.length l <-> NoDup l.
Proof.
  split.
  - induction l as [|a l IH]; cbn; [constructor|].
    destruct (in_dec dec a l) as [Hin|Hin]; cbn; intros H.
    + pose proof (nodup_length_le dec l). lia.
    + constructor; [exact Hin | apply IH; lia].
  - intros H. rewrite (nodup_fixed_point dec H). reflexivity.
Qed.

Lemma combineLoop_syntax shares : forall todo i secret,
  Exists (fun sh => hexToBigInt (y sh) = None) todo ->
  combineLoop shares i todo secret = inl SyntaxError.
Proof.
  induction todo as [|si todo IH]; intros i secret H; [inversion H|].
  cbn [combineLoop].
  destruct (hexToBigInt (y si)) as [yi|] eqn:E; [|reflexivity].
  destruct (basisLoop i (x si) 0 shares 1 1) as [num den].
  apply IH. inversion H as [? ? Hh|? ? Ht]; subst; [congruence | exact Ht].
Qed.

Lemma combineLoop_parsed shares todo done secret :
  shares = done ++ todo ->
  Forall (fun sh => hexToBigInt (y sh) <> None) todo ->
  exists v, combineLoop shares (List.length done) todo secret = inr v.
Proof.
  intros Hs Hall.
  set (yv := fun sh : Share =>
               match hexToBigInt (y sh) with Some v => v | None => 0 end).
  destruct (combineLoop_spec yv shares todo done secret Hs) as [v [Hv _]].
  - intros sh Hsh. rewrite Forall_forall in Hall. specialize (Hall sh Hsh).
    unfold yv. destruct (hexToBigInt (y sh)); [reflexivity | contradiction].
  - exists v. exact Hv.
Qed.

Lemma combineLoop_error shares : forall todo i secret e,
  combineLoop shares i todo secret = inl e -> e = SyntaxError.
Proof.
  induction todo as [|si todo IH]; intros i secret e H; [discriminate|].
  cbn [combineLoop] in H.
  destruct (hexToBigInt (y si)) as [yi|]; [|congruence].
  destruct (basisLoop i (x si) 0 shares 1 1) as [num den].
  eapply IH. exact H.
Qed.

(** The errors of [combineShares] on shares with different indices. *)
Lemma combineShares_error_kind shares e :
  NoDup (map x shares) -> combineShares shares = inl e ->
  e = TooFewShares \/ e = SyntaxError.
Proof.
  intros Hd. unfold combineShares.
  destruct (List.length shares <? 2)%nat; [left; congruence|].
  rewrite (nodup_fixed_point Z.eq_dec Hd), length_map, Nat.eqb_refl.
  cbn [negb].
  destruct (combineLoop shares 0 shares 0) as [e'|v] eqn:E; [|discriminate].
  intros H. injection H as <-. right.
  eapply combineLoop_error. exact E.
Qed.

Lemma normalize_range v : 0 <= normalize v < PRIME.
Proof. rewrite normalize_mod. apply Z.mod_pos_bound. apply PRIME_pos. Qed.

(** [combineShares] on shares whose [x] are integers: too few shares,
    then a repeated [x], then a [y] that is no hexadecimal number, and
    in every other case the 64-digit string of a value in [0, PRIME).
    There is no check of a threshold. *)
Lemma combineShares_of_integers shares :
  ((List.length shares < 2)%nat -> combineShares shares = inl TooFewShares)
  /\ ((2 <= List.length shares)%nat -> ~ NoDup (map x shares) ->
      combineShares shares = inl DuplicateIndex)
  /\ ((2 <= List.length shares)%nat -> NoDup (map x shares) ->
      Exists (fun sh => hexToBigInt (y sh) = None) shares ->
      combineShares shares = inl SyntaxError)
  /\ ((2 <= List.length shares)%nat -> NoDup (map x shares) ->
      Forall (fun sh => hexToBigInt (y sh) <> None) shares ->
      exists v, 0 <= v < PRIME /\ combineShares shares = inr (bigIntToHex v)).
Proof.
  unfold combineShares. repeat split.
  - intros H. destruct (Nat.ltb_spec (List.length shares) 2); [reflexivity | lia].
  - intros H Hd. destruct (Nat.ltb_spec (List.length shares) 2); [lia|].
    destruct (Nat.eqb_spec (List.length (nodup Z.eq_dec (map x shares)))
                           (List.length shares)) as [E|E]; [|reflexivity].
    exfalso. apply Hd. apply (nodup_length_NoDup Z.eq_dec).
    rewrite E, length_map. reflexivity.
  - intros H Hd Hbad. destruct (Nat.ltb_spec (List.length shares) 2); [lia|].
    rewrite (nodup_fixed_point Z.eq_dec Hd), length_map, Nat.eqb_refl.
    cbn [negb]. rewrite (combineLoop_syntax shares shares 0%nat 0 Hbad).
    reflexivity.
  - intros H Hd Hall. destruct (Nat.ltb_spec (List.length shares) 2); [lia|].
    rewrite (nodup_fixed_point Z.eq_dec Hd), length_map, Nat.eqb_refl.
    cbn [negb].
    destruct (combineLoop_parsed shares shares [] 0 eq_refl Hall) as [v Hv].
    cbn [List.length] in Hv. rewrite Hv.
    exists (normalize v). split; [apply normalize_range | reflexivity].
Qed.

End ShamirLaws.

Module ConsistencyLaws.
Import Field Hex Shamir Poly ShamirShares.
Import FieldFacts HexFacts ShamirFacts ShamirLaws.

Lemma NoDup_skipn {A} n (l : list A) : NoDup l -> NoDup (skipn n l).
Proof.
  intros H. rewrite <- (firstn_skipn n l) in H.
  apply NoDup_app_remove_l in H. exact H.
Qed.

Lemma NoDup_firstn {A} n (l : list A) : NoDup l -> NoDup (firstn n l).
Proof.
  intros H. rewrite <- (firstn_skipn n l) in H.
  apply NoDup_app_remove_r in H. exact H.
Qed.

Lemma incl_firstn {A} n (l : list A) : incl (firstn n l) l.
Proof.
  intros a Ha. rewrite <- (firstn_skipn n l). apply in_or_app. left. exact Ha.
Qed.

Lemma incl_skipn {A} n (l : list A) : incl (skipn n l) l.
Proof.
  intros a Ha. rewrite <- (firstn_skipn n l). apply in_or_app. right. exact Ha.
Qed.

Lemma slice_NoDup {A} a b (l : list A) : NoDup l -> NoDup (slice a b l).
Proof. intros H. unfold slice. apply NoDup_firstn, NoDup_skipn, H. Qed.

Lemma slice_incl {A} a b (l : list A) : incl (slice a b l) l.
Proof.
  unfold slice. eapply incl_tran; [apply incl_firstn | apply incl_skipn].
Qed.

Lemma in_subsetsOf shares threshold w :
  In w (subsetsOf shares threshold) ->
  Z.of_nat (List.length w) = threshold
  /\ exists a b, w = slice a b shares.
Proof.
  unfold subsetsOf. intros H. apply filter_In in H. destruct H as [Hin Hlen].
  apply in_map_iff in Hin. destruct Hin as [i [<- _]].
  split; [apply Z.eqb_eq; exact Hlen | eauto].
Qed.

Lemma compareLoop_same R : forall rest,
  Forall (fun w => combineShares w = inr R) rest ->
  compareLoop R rest = inr true.
Proof.
  induction rest as [|w rest IH]; intros H; [reflexivity|].
  inversion H as [|? ? Hw Hr]; subst. cbn [compareLoop].
  rewrite Hw, String.eqb_refl. cbn [negb]. apply IH. exact Hr.
Qed.

(** X5.  For every duplicate-free selection S of the shares returned by
    splitSecret(secret, n, k), verifySharesConsistent(S, k) returns true
    when S holds at least k shares and false when it holds fewer. *)
Theorem verifySharesConsistent_accepts secret totalShares threshold entropy
    shares S :
  splitSecret secret totalShares threshold entropy = inr shares ->
  NoDup S -> incl S shares ->
  verifySharesConsistent S threshold
  = inr (threshold <=? Z.of_nat (List.length S)).
Proof.
  intros H Hnd Hincl.
  destruct (splitSecret_inv _ _ _ _ _ H) as [Hk [Ht [s [Hs [Hr ->]]]]].
  set (c := s :: drawCoefficients threshold entropy) in *.
  set (R := bigIntToHex (peval c 0 mod PRIME)).
  unfold verifySharesConsistent.
  destruct (Z.ltb_spec (Z.of_nat (List.length S)) threshold) as [Hlt|Hge].
  { destruct (Z.leb_spec threshold (Z.of_nat (List.length S))); [lia|reflexivity]. }
  destruct (Z.leb_spec threshold (Z.of_nat (List.length S))); [|lia].
  assert (Hall : Forall (fun w => combineShares w = inr R)
                        (subsetsOf S threshold)).
  { apply Forall_forall. intros w Hw.
    destruct (in_subsetsOf _ _ _ Hw) as [Hlen [a [b ->]]].
    apply (combine_of_split c totalShares); [exact Ht | | | |].
    - apply slice_NoDup. exact Hnd.
    - eapply incl_tran; [apply slice_incl | exact Hincl].
    - lia.
    - unfold c. cbn [List.length]. rewrite length_drawCoefficients. lia. }
  destruct (subsetsOf S threshold) as [|first [|second rest]];
    [reflexivity | reflexivity |].
  inversion Hall as [|? ? Hf Hrest]; subst. rewrite Hf.
  apply compareLoop_same. exact Hrest.
Qed.

Lemma verifySharesConsistent_accepts_witness :
  verifySharesConsistent
    (shareLoop (42 :: drawCoefficients 2 (fun _ => List.repeat x07 32)) 3) 2
  = inr true.
Proof.
  refine (verifySharesConsistent_accepts "2a" 3 2 (fun _ => List.repeat x07 32)
            _ _ eq_refl _ _).
  - unfold shareLoop. apply NoDup_map_NoDup_ForallPairs.
    + intros a b _ _ E. injection E as E _. lia.
    + apply seq_NoDup.
  - apply incl_refl.
Defined.

Lemma subsetsOf_negative shares threshold :
  threshold < 0 -> subsetsOf shares threshold = [].
Proof.
  intros H. unfold subsetsOf.
  induction (map _ _) as [|w l IH]; [reflexivity|].
  cbn [filter]. destruct (Z.eqb_spec (Z.of_nat (List.length w)) threshold); [lia|].
  exact IH.
Qed.

Lemma window_prefix (prefix tail : list Share) threshold i :
  0 <= threshold ->
  Z.of_nat (List.length prefix) = threshold + 2 -> (i <= 2)%nat ->
  slice (Z.of_nat i) (Z.of_nat i + threshold) (prefix ++ tail)
  = firstn (Z.to_nat threshold) (skipn i prefix).
Proof.
  intros Hk Hlen Hi. unfold slice. rewrite length_app.
  destruct (Z.ltb_spec (Z.of_nat i) 0); [lia|].
  destruct (Z.ltb_spec (Z.of_nat i + threshold) 0); [lia|].
  rewrite !Z.min_l by lia.
  replace (Z.of_nat i + threshold - Z.of_nat i) with threshold by lia.
  rewrite Nat2Z.id.
  rewrite skipn_app.
  rewrite firstn_app.
  replace (Z.to_nat threshold - List.length (skipn i prefix))%nat with 0%nat
    by (rewrite length_skipn; lia).
  cbn [firstn]. apply app_nil_r.
Qed.

Lemma subsetsOf_prefix (prefix tail : list Share) threshold :
  0 <= threshold ->
  Z.of_nat (List.length prefix) = threshold + 2 ->
  subsetsOf (prefix ++ tail) threshold = subsetsOf prefix threshold.
Proof.
  intros Hk Hlen. unfold subsetsOf.
  rewrite length_app.
  replace (Z.min 3 (Z.of_nat (List.length prefix + List.length tail)
                    - threshold + 1)) with 3 by lia.
  replace (Z.min 3 (Z.of_nat (List.length prefix) - threshold + 1)) with 3 by lia.
  f_equal. apply map_ext_in. intros i Hi. apply in_seq in Hi.
  rewrite (window_prefix prefix tail threshold i Hk Hlen) by lia.
  rewrite <- (app_nil_r prefix) at 2.
  rewrite (window_prefix prefix [] threshold i Hk Hlen) by lia.
  reflexivity.
Qed.

(** X6.  verifySharesConsistent returns true for every list of exactly
    threshold shares, whatever they hold, and on longer lists it reads
    only the first threshold+2 shares: two lists that agree on them get
    the same result. *)
Theorem verifySharesConsistent_reads_a_prefix threshold :
  (forall shares,
     Z.of_nat (List.length shares) = threshold ->
     verifySharesConsistent shares threshold = inr true)
  /\ (forall prefix tail tail',
        Z.of_nat (List.length prefix) = threshold + 2 ->
        verifySharesConsistent (prefix ++ tail) threshold
        = verifySharesConsistent (prefix ++ tail') threshold).
Proof.
  split.
  - intros shares Hlen. unfold verifySharesConsistent.
    destruct (Z.ltb_spec (Z.of_nat (List.length shares)) threshold); [lia|].
    unfold subsetsOf.
    replace (Z.min 3 (Z.of_nat (List.length shares) - threshold + 1)) with 1
      by lia.
    change (Z.to_nat 1) with 1%nat. cbn [seq map filter].
    match goal with
    | |- context [Z.eqb ?a ?b] => destruct (Z.eqb a b)
    end; reflexivity.
  - intros prefix tail tail' Hlen.
    destruct (Z.ltb_spec threshold 0) as [Hneg|Hpos].
    + unfold verifySharesConsistent.
      rewrite !subsetsOf_negative by exact Hneg.
      destruct (Z.ltb_spec (Z.of_nat (List.length (prefix ++ tail))) threshold);
        [lia|].
      destruct (Z.ltb_spec (Z.of_nat (List.length (prefix ++ tail'))) threshold);
        [lia|].
      reflexivity.
    + unfold verifySharesConsistent.
      rewrite !(subsetsOf_prefix prefix _ threshold Hpos Hlen).
      rewrite !length_app.
      destruct (Z.ltb_spec (Z.of_nat (List.length prefix + List.length tail))
                           threshold); [lia|].
      destruct (Z.ltb_spec (Z.of_nat (List.length prefix + List.length tail'))
                           threshold); [lia|].
      reflexivity.
Qed.

End ConsistencyLaws.

Module CodecLaws.
Import Hex HexProps HexLaws Codec.

Lemma hexDigit_not_x d : 0 <= d < 16 -> hexDigit d <> "x"%char.
Proof.
  intros Hd E. pose proof (isLowerHex_hexDigit d Hd) as H.
  rewrite E in H. unfold isLowerHex in H. cbn in H. lia.
Qed.

Lemma byte_value_range b : 0 <= Z.of_N (Byte.to_N b) < 256.
Proof.
  pose proof (Byte.to_N_bounded b) as H.
  split; [apply N2Z.is_nonneg|]. lia.
Qed.

Lemma zToByte_value b : Hash.zToByte (Z.of_N (Byte.to_N b)) = b.
Proof.
  unfold Hash.zToByte. pose proof (byte_value_range b) as H.
  rewrite Z.mod_small by lia. rewrite N2Z.id, Byte.of_to_N. reflexivity.
Qed.

Lemma nibbles v : 0 <= v < 256 -> 0 <= v / 16 < 16 /\ 0 <= v mod 16 < 16.
Proof.
  intros H. split.
  - split; [apply Z.div_pos; lia | apply Z.div_lt_upper_bound; lia].
  - apply Z.mod_pos_bound. lia.
Qed.

Lemma length_bytesToHex bs :
  String.length (Hash.bytesToHex bs) = (2 * List.length bs)%nat.
Proof. induction bs as [|b r IH]; cbn [Hash.bytesToHex String.length List.length]; lia. Qed.

Lemma allLowerHex_bytesToHex bs : allLowerHex (Hash.bytesToHex bs).
Proof.
  induction bs as [|b r IH]; [exact I|].
  cbn [Hash.bytesToHex allLowerHex].
  destruct (nibbles _ (byte_value_range b)) as [H1 H2].
  split; [apply isLowerHex_hexDigit; exact H1|].
  split; [apply isLowerHex_hexDigit; exact H2 | exact IH].
Qed.

Lemma startsWith0x_bytesToHex bs : startsWith0x (Hash.bytesToHex bs) = false.
Proof.
  destruct bs as [|b r]; [reflexivity|].
  cbn [Hash.bytesToHex].
  destruct (nibbles _ (byte_value_range b)) as [H1 H2].
  pose proof (hexDigit_not_x _ H2) as Hx.
  unfold startsWith0x.
  destruct (hexDigit (Z.of_N (Byte.to_N b) / 16)) as [[] [] [] [] [] [] [] []];
    try reflexivity.
  destruct (hexDigit (Z.of_N (Byte.to_N b) mod 16)) as [[] [] [] [] [] [] [] []];
    try reflexivity.
  contradiction Hx. reflexivity.
Qed.

Lemma code_hexDigit d : 0 <= d < 16 -> code (hexDigit d) < 128.
Proof.
  intros Hd. pose proof (isLowerHex_hexDigit d Hd) as H.
  unfold isLowerHex in H. unfold code. lia.
Qed.

Lemma hexValue_code c : code c < 128 -> hexValue (code c) = hexVal c.
Proof.
  intros H. unfold hexValue. destruct (Z.ltb_spec (code c) 128); [|lia].
  unfold code. rewrite N2Z.id, ascii_N_embedding. reflexivity.
Qed.

Lemma hexValue_hexDigit d : 0 <= d < 16 -> hexValue (code (hexDigit d)) = Some d.
Proof.
  intros Hd. rewrite hexValue_code by (apply code_hexDigit; exact Hd).
  apply HexFacts.hexVal_hexDigit. exact Hd.
Qed.

(** The digits of [bytesToHex] are one code unit each. *)
Lemma codeUnits_bytesToHex bs :
  codeUnits (Hash.bytesToHex bs)
  = flat_map (fun b => [code (hexDigit (Z.of_N (Byte.to_N b) / 16));
                        code (hexDigit (Z.of_N (Byte.to_N b) mod 16))]) bs.
Proof.
  induction bs as [|b r IH]; [reflexivity|].
  destruct (nibbles _ (byte_value_range b)) as [H1 H2].
  pose proof (code_hexDigit _ H1) as L1. pose proof (code_hexDigit _ H2) as L2.
  cbn [Hash.bytesToHex flat_map app]. rewrite <- IH.
  set (c1 := hexDigit (Z.of_N (Byte.to_N b) / 16)) in *.
  set (c2 := hexDigit (Z.of_N (Byte.to_N b) mod 16)) in *.
  set (rest := Hash.bytesToHex r).
  change (codeUnits (String c1 (String c2 rest)))
    with (if code c1 <? 128 then code c1 :: codeUnits (String c2 rest)
          else if code c1 <? 224 then
            (Z.land (code c1) 31 * 64 + continuation c2) :: codeUnits rest
          else if code c1 <? 240 then
            match rest with
            | String c3 r2 =>
                (Z.land (code c1) 15 * 4096 + continuation c2 * 64
                 + continuation c3) :: codeUnits r2
            | _ => [65533]
            end
          else
            match rest with
            | String c3 (String c4 r3) =>
                let point := Z.land (code c1) 7 * 262144 + continuation c2 * 4096
                             + continuation c3 * 64 + continuation c4 in
                (55296 + (point - 65536) / 1024)
                  :: (56320 + (point - 65536) mod 1024) :: codeUnits r3
            | _ => [65533]
            end).
  destruct (Z.ltb_spec (code c1) 128); [|lia]. f_equal.
  destruct rest as [|c3 rest'].
  - change (codeUnits (String c2 EmptyString))
      with (if code c2 <? 128 then [code c2]
            else if code c2 <? 224 then [65533]
            else if code c2 <? 240 then [65533] else [65533]).
    destruct (Z.ltb_spec (code c2) 128); [reflexivity | lia].
  - generalize (String c3 rest'). intros tail.
    destruct tail as [|c4 tail]; cbn [codeUnits];
      destruct (Z.ltb_spec (code c2) 128); first [reflexivity | lia].
Qed.

Lemma pairs_bytesToHex bs :
  map (fun p => Hash.zToByte (parseByte p))
      (pairs (List.length bs) (codeUnits (Hash.bytesToHex bs))) = bs.
Proof.
  rewrite codeUnits_bytesToHex.
  induction bs as [|b r IH]; [reflexivity|].
  cbn [flat_map app List.length pairs map]. rewrite IH. f_equal.
  destruct (nibbles _ (byte_value_range b)) as [H1 H2].
  unfold parseByte. rewrite !hexValue_hexDigit by assumption.
  rewrite <- (zToByte_value b) at 3. f_equal.
  pose proof (Z.div_mod (Z.of_N (Byte.to_N b)) 16). lia.
Qed.

Lemma length_codeUnits_bytesToHex bs :
  List.length (codeUnits (Hash.bytesToHex bs)) = (2 * List.length bs)%nat.
Proof.
  rewrite codeUnits_bytesToHex.
  induction bs as [|b r IH]; [reflexivity|].
  cbn [flat_map app List.length]. rewrite IH. lia.
Qed.

Lemma hexToBytes_plain bs : hexToBytes (Hash.bytesToHex bs) = bs.
Proof.
  unfold hexToBytes. rewrite startsWith0x_bytesToHex, length_codeUnits_bytesToHex.
  replace (Nat.div (2 * List.length bs) 2) with (List.length bs).
  - apply pairs_bytesToHex.
  - rewrite Nat.mul_comm, Nat.div_mul; [reflexivity | discriminate].
Qed.

(** [hexToBytes] drops one 0x before it reads the digits. *)
Lemma hexToBytes_prefixed bs :
  hexToBytes (String.append "0x" (Hash.bytesToHex bs)) = bs.
Proof.
  pose proof (hexToBytes_plain bs) as H. unfold hexToBytes in H |- *.
  rewrite startsWith0x_bytesToHex in H. cbn [String.append startsWith0x slice2].
  exact H.
Qed.

(** X7.  bytesToHex(bytes) is 2*length lower-case hexadecimal digits,
    and hexToBytes reads the same bytes back from it, with or without a
    0x prefix. *)
Theorem hexToBytes_bytesToHex bs :
  hexToBytes (bytesToHex bs) = bs
  /\ hexToBytes (String.append "0x" (bytesToHex bs)) = bs
  /\ String.length (bytesToHex bs) = (2 * List.length bs)%nat
  /\ allLowerHex (bytesToHex bs).
Proof.
  unfold bytesToHex.
  split; [apply hexToBytes_plain|].
  split; [apply hexToBytes_prefixed|].
  split; [apply length_bytesToHex | apply allLowerHex_bytesToHex].
Qed.

(** A character outside ASCII is one code unit, whatever the number of
    its bytes: '2a' followed by U+00A0 has three code units and gives
    one byte, and U+00A0 before 'f' is white space that [parseInt]
    skips. *)
Example hexToBytes_counts_code_units :
  let nbsp := String (ascii_of_nat 194) (String (ascii_of_nat 160) EmptyString) in
  hexToBytes (String.append "2a" nbsp) = [x2a]
  /\ hexToBytes (String.append nbsp "f") = [x0f].
Proof. vm_compute. split; reflexivity. Qed.

End CodecLaws.

(* ================================================================== *)
(** * Proofs: shares named by numbers *)
(* ================================================================== *)

Module NumberLaws.
Import JsNumber.

Lemma sameValueZero_eq a b : sameValueZero a b = true <-> a = b.
Proof.
  destruct a, b; cbn; try (split; [discriminate | discriminate]);
    try (rewrite Z.eqb_eq; split; [intros ->; reflexivity | intros H; injection H; auto]).
  split; reflexivity.
Qed.

Lemma sameValueZero_neq a b : sameValueZero a b = false <-> a <> b.
Proof.
  split.
  - intros H E. apply sameValueZero_eq in E. congruence.
  - intros H. destruct (sameValueZero a b) eqn:E; [|reflexivity].
    apply sameValueZero_eq in E. contradiction.
Qed.

(** [===] differs from the equality of the values on NaN only. *)
Lemma strictEq_eq a b : strictEq a b = true <-> a = b /\ a <> NaN.
Proof.
  destruct a, b; cbn; try (split; [discriminate | intros [H _]; discriminate H]);
    try (rewrite Z.eqb_eq; split;
         [intros ->; split; [reflexivity | discriminate]
         | intros [H _]; injection H; auto]).
  split; [discriminate | intros [_ H]; contradiction].
Qed.

Lemma strictEq_sym a b : strictEq a b = strictEq b a.
Proof. destruct a, b; cbn; try reflexivity; apply Z.eqb_sym. Qed.

Lemma strictEq_refl a : isNaN a = false -> strictEq a a = true.
Proof. destruct a; cbn; try discriminate; intros _; apply Z.eqb_refl. Qed.

Lemma strictlyDistinct_snoc : forall l a,
  strictlyDistinct l -> (forall b, In b l -> strictEq b a = false) ->
  strictlyDistinct (l ++ [a]).
Proof.
  induction l as [|b l IH]; intros a Hl Ha; cbn [app strictlyDistinct].
  - split; [intros v' []|exact I].
  - destruct Hl as [Hb Hl]. split.
    + intros v' Hv. apply in_app_or in Hv. destruct Hv as [Hv|[<-|[]]].
      * apply Hb. exact Hv.
      * apply Ha. left. reflexivity.
    + apply IH; [exact Hl|]. intros c Hc. apply Ha. right. exact Hc.
Qed.

(** Numbers that are pairwise not [===] are pairwise different values,
    unless NaN is among them twice. *)
Lemma strictlyDistinct_NoDup : forall l,
  strictlyDistinct l -> (List.length (filter isNaN l) <= 1)%nat -> NoDup l.
Proof.
  induction l as [|a l IH]; intros Hd Hn; [constructor|].
  destruct Hd as [Ha Hl]. cbn [filter] in Hn. constructor.
  - intros Hin. pose proof (Ha a Hin) as Hself.
    destruct (isNaN a) eqn:En.
    + assert (In a (filter isNaN l)) by (apply filter_In; split; assumption).
      destruct (filter isNaN l); [contradiction|]. cbn [List.length] in Hn. lia.
    + rewrite (strictEq_refl a En) in Hself. discriminate.
  - apply IH; [exact Hl|]. destruct (isNaN a); cbn [List.length] in Hn; lia.
Qed.

Lemma In_distinctValues v : forall l, In v (distinctValues l) <-> In v l.
Proof.
  induction l as [|a l IH]; cbn [distinctValues In]; [reflexivity|].
  rewrite filter_In, IH.
  destruct (sameValueZero a v) eqn:E.
  - apply sameValueZero_eq in E. subst a. cbn. intuition.
  - apply sameValueZero_neq in E. cbn. intuition.
Qed.

Lemma length_distinctValues_le : forall l,
  (List.length (distinctValues l) <= List.length l)%nat.
Proof.
  induction l as [|a l IH]; cbn [distinctValues List.length]; [lia|].
  pose proof (filter_length_le (fun v' => negb (sameValueZero a v'))
                               (distinctValues l)). lia.
Qed.

Lemma filter_all {A} (f : A -> bool) : forall l,
  List.length (filter f l) = List.length l -> forall a, In a l -> f a = true.
Proof.
  induction l as [|b l IH]; intros H a Ha; [destruct Ha|].
  cbn [filter] in H. destruct (f b) eqn:E.
  - cbn [List.length] in H. destruct Ha as [<-|Ha]; [exact E|].
    apply IH; [lia | exact Ha].
  - pose proof (filter_length_le f l). cbn [List.length] in H. lia.
Qed.

Lemma filter_none_dropped {A} (f : A -> bool) : forall l,
  (forall a, In a l -> f a = true) -> filter f l = l.
Proof.
  induction l as [|b l IH]; intros H; [reflexivity|].
  cbn [filter]. rewrite (H b (or_introl eq_refl)). f_equal.
  apply IH. intros a Ha. apply H. right. exact Ha.
Qed.

(** The [Set] has as many elements as the list exactly when no value
    occurs twice in the list. *)
Lemma distinctValues_all : forall l,
  List.length (distinctValues l) = List.length l <-> NoDup l.
Proof.
  induction l as [|a l IH]; cbn [distinctValues List.length].
  - split; [constructor | reflexivity].
  - pose proof (filter_length_le (fun v' => negb (sameValueZero a v'))
                                 (distinctValues l)) as Hf.
    pose proof (length_distinctValues_le l) as Hl.
    split.
    + intros H. constructor.
      * intros Hin. apply (proj2 (In_distinctValues _ _)) in Hin.
        assert (Hall : List.length
                         (filter (fun v' => negb (sameValueZero a v'))
                                 (distinctValues l))
                       = List.length (distinctValues l)) by lia.
        pose proof (filter_all _ _ Hall a Hin) as Ha. cbn in Ha.
        rewrite (proj2 (sameValueZero_eq a a) eq_refl) in Ha. discriminate.
      * apply IH. lia.
    + intros H. inversion H as [|a' l' Hnot Hnd]; subst.
      rewrite filter_none_dropped.
      * f_equal. apply IH. exact Hnd.
      * intros v Hv. apply (proj1 (In_distinctValues _ _)) in Hv.
        apply negb_true_iff. apply sameValueZero_neq.
        intros ->. contradiction.
Qed.

Lemma distinctValues_test l :
  (List.length (distinctValues l) =? List.length l)%nat = true <-> NoDup l.
Proof. rewrite Nat.eqb_eq. apply distinctValues_all. Qed.

Lemma NoDup_Int l : NoDup (map Int l) <-> NoDup l.
Proof.
  split.
  - apply NoDup_map_inv.
  - intros H. induction H as [|a l Hnot Hnd IH]; [constructor|].
    cbn [map]. constructor; [|exact IH].
    intros Hin. apply in_map_iff in Hin. destruct Hin as [b [E Hb]].
    injection E as ->. contradiction.
Qed.

Lemma basisLoop_ofInteger i xi : forall rest j num den,
  ShamirNumbers.basisLoop i xi j (map ShamirNumbers.ofInteger rest) num den
  = inr (Shamir.basisLoop i xi j rest num den).
Proof.
  induction rest as [|sj rest IH]; intros j num den; [reflexivity|].
  cbn [map ShamirNumbers.basisLoop Shamir.basisLoop].
  destruct (Nat.eqb i j); [apply IH|].
  cbn [ShamirNumbers.ofInteger ShamirNumbers.x toBigInt]. apply IH.
Qed.

Lemma combineLoop_ofInteger shares : forall todo i secret,
  ShamirNumbers.combineLoop (map ShamirNumbers.ofInteger shares) i
                            (map ShamirNumbers.ofInteger todo) secret
  = Shamir.combineLoop shares i todo secret.
Proof.
  induction todo as [|si todo IH]; intros i secret; [reflexivity|].
  cbn [map ShamirNumbers.combineLoop Shamir.combineLoop].
  cbn [ShamirNumbers.ofInteger ShamirNumbers.x ShamirNumbers.y toBigInt].
  destruct (Hex.hexToBigInt (Shamir.y si)); [|reflexivity].
  rewrite basisLoop_ofInteger.
  destruct (Shamir.basisLoop i (Shamir.x si) 0 shares 1 1) as [num den].
  apply IH.
Qed.

Lemma nodup_same xs :
  List.length (nodup Z.eq_dec xs) = List.length xs -> NoDup xs.
Proof.
  intros E. assert (Hsame : nodup Z.eq_dec xs = xs).
  { induction xs as [|a xs IHx]; [reflexivity|].
    cbn [nodup List.length] in *.
    assert (Hle : (List.length (nodup Z.eq_dec xs) <= List.length xs)%nat).
    { apply NoDup_incl_length; [apply NoDup_nodup|].
      intros v Hv. apply nodup_In in Hv. exact Hv. }
    destruct (in_dec Z.eq_dec a xs) as [Hin|Hin]; [lia|].
    cbn [List.length] in E. f_equal. apply IHx. lia. }
  rewrite <- Hsame. apply NoDup_nodup.
Qed.

(** The two duplicate tests agree on integers. *)
Lemma duplicate_test_Int xs :
  (List.length (distinctValues (map Int xs)) =? List.length xs)%nat
  = (List.length (nodup Z.eq_dec xs) =? List.length xs)%nat.
Proof.
  destruct (Nat.eqb_spec (List.length (nodup Z.eq_dec xs)) (List.length xs))
    as [E|E].
  - apply Nat.eqb_eq. rewrite <- (length_map Int xs).
    apply distinctValues_all. apply NoDup_Int. apply nodup_same. exact E.
  - apply Nat.eqb_neq. intros E2. apply E.
    rewrite <- (length_map Int xs) in E2.
    apply distinctValues_all in E2. apply NoDup_Int in E2.
    rewrite (nodup_fixed_point Z.eq_dec E2). reflexivity.
Qed.

Lemma basisLoop_error i xi : forall rest j num den e,
  ShamirNumbers.basisLoop i xi j rest num den = inl e -> e = RangeError.
Proof.
  induction rest as [|sj rest IH]; intros j num den e H; [discriminate|].
  cbn [ShamirNumbers.basisLoop] in H.
  destruct (Nat.eqb i j); [exact (IH _ _ _ _ H)|].
  destruct (toBigInt (ShamirNumbers.x sj)); [exact (IH _ _ _ _ H)|].
  injection H as <-. reflexivity.
Qed.

Lemma combineLoop_thrown shares : forall todo i secret e,
  ShamirNumbers.combineLoop shares i todo secret = inl e ->
  e = RangeError \/ e = SyntaxError.
Proof.
  induction todo as [|si todo IH]; intros i secret e H; [discriminate|].
  cbn [ShamirNumbers.combineLoop] in H.
  destruct (toBigInt (ShamirNumbers.x si)) as [xi|];
    [|injection H as <-; left; reflexivity].
  destruct (Hex.hexToBigInt (ShamirNumbers.y si));
    [|injection H as <-; right; reflexivity].
  destruct (ShamirNumbers.basisLoop i xi 0 shares 1 1) as [e'|[num den]] eqn:Eb.
  - injection H as <-. left. exact (basisLoop_error _ _ _ _ _ _ _ Eb).
  - exact (IH _ _ _ H).
Qed.

(** What [combineShares] can throw; it reports duplicates only when a
    value occurs twice among the [x]. *)
Lemma combineShares_error_kinds shares e :
  ShamirNumbers.combineShares shares = inl e ->
  e = TooFewShares
  \/ (e = DuplicateIndex /\ ~ NoDup (map ShamirNumbers.x shares))
  \/ e = RangeError \/ e = SyntaxError.
Proof.
  unfold ShamirNumbers.combineShares.
  destruct (List.length shares <? 2)%nat;
    [intros H; injection H as <-; left; reflexivity|].
  destruct (List.length (distinctValues (map ShamirNumbers.x shares))
            =? List.length shares)%nat eqn:Ed; cbn [negb].
  - destruct (ShamirNumbers.combineLoop shares 0 shares 0) as [e'|v] eqn:El;
      [|discriminate].
    intros H. injection H as <-. right. right.
    exact (combineLoop_thrown _ _ _ _ _ El).
  - intros H. injection H as <-. right. left. split; [reflexivity|].
    intros Hnd. apply distinctValues_all in Hnd. rewrite length_map in Hnd.
    rewrite Hnd, Nat.eqb_refl in Ed. discriminate.
Qed.

(** On shares with integers as [x] the two models of [combineShares]
    agree. *)
Lemma combineShares_ofInteger shares :
  ShamirNumbers.combineShares (map ShamirNumbers.ofInteger shares)
  = Shamir.combineShares shares.
Proof.
  unfold ShamirNumbers.combineShares, Shamir.combineShares.
  rewrite length_map, combineLoop_ofInteger.
  destruct (List.length shares <? 2)%nat; [reflexivity|].
  assert (Hx : map ShamirNumbers.x (map ShamirNumbers.ofInteger shares)
               = map Int (map Shamir.x shares))
    by (rewrite !map_map; reflexivity).
  rewrite Hx. rewrite <- (length_map Shamir.x shares).
  rewrite duplicate_test_Int. reflexivity.
Qed.

End NumberLaws.

Module CombineLaws.
Import Field Hex JsNumber NumberLaws ShamirNumbers.

Lemma basisLoop_nonint i xi : forall rest j num den,
  (i < j)%nat ->
  Exists (fun sh => toBigInt (x sh) = None) rest ->
  basisLoop i xi j rest num den = inl RangeError.
Proof.
  induction rest as [|sj rest IH]; intros j num den Hj H; [inversion H|].
  cbn [basisLoop].
  destruct (Nat.eqb_spec i j); [lia|].
  destruct (toBigInt (x sj)) as [xj|] eqn:E; [|reflexivity].
  apply IH; [lia|].
  inversion H as [? ? Hh|? ? Ht]; subst; [congruence | exact Ht].
Qed.

Lemma ofInteger_toInteger : forall shares,
  Forall (fun sh => toBigInt (x sh) <> None) shares ->
  map ofInteger (map toInteger shares) = shares.
Proof.
  induction shares as [|[xs ys] shares IH]; intros H; [reflexivity|].
  inversion H as [|? ? Hx Hrest]; subst. cbn [map]. rewrite (IH Hrest).
  f_equal. destruct xs; cbn in Hx; try contradiction; reflexivity.
Qed.

(** X4.  combineShares throws 'Need at least 2 shares to reconstruct' on
    fewer than two shares; else 'Duplicate share indices detected' when
    two shares have the same x, as a [Set] counts numbers (NaN twice is
    one value); else, when some x is not an integer, what the first
    share throws if it throws (a RangeError for its x, a SyntaxError
    for its y) and a RangeError otherwise; else a SyntaxError when
    every x is an integer and some y is not a hexadecimal number (white
    space behind the digits is allowed); and in every other case it
    returns the 64-digit hex string of a value in [0, PRIME).  It checks
    no threshold. *)
Theorem combineShares_outcomes shares :
  ((List.length shares < 2)%nat -> combineShares shares = inl TooFewShares)
  /\ ((2 <= List.length shares)%nat -> ~ NoDup (map x shares) ->
      combineShares shares = inl DuplicateIndex)
  /\ ((2 <= List.length shares)%nat -> NoDup (map x shares) ->
      Exists (fun sh => toBigInt (x sh) = None) shares ->
      combineShares shares = inl (firstThrown shares))
  /\ ((2 <= List.length shares)%nat -> NoDup (map x shares) ->
      Forall (fun sh => toBigInt (x sh) <> None) shares ->
      Exists (fun sh => hexToBigInt (y sh) = None) shares ->
      combineShares shares = inl SyntaxError)
  /\ ((2 <= List.length shares)%nat -> NoDup (map x shares) ->
      Forall (fun sh => toBigInt (x sh) <> None) shares ->
      Forall (fun sh => hexToBigInt (y sh) <> None) shares ->
      exists v, 0 <= v < PRIME /\ combineShares shares = inr (bigIntToHex v)).
Proof.
  assert (Hint : forall l,
             Forall (fun sh => toBigInt (x sh) <> None) l ->
             NoDup (map x l) ->
             combineShares l = Shamir.combineShares (map toInteger l)
             /\ NoDup (map Shamir.x (map toInteger l))).
  { intros l Hall Hnd. split.
    - rewrite <- (ofInteger_toInteger l Hall) at 1.
      apply combineShares_ofInteger.
    - apply NoDup_Int. rewrite <- (ofInteger_toInteger l Hall) in Hnd.
      rewrite !map_map in *. exact Hnd. }
  split; [|split; [|split; [|split]]].
  - intros H. unfold combineShares.
    destruct (Nat.ltb_spec (List.length shares) 2); [reflexivity | lia].
  - intros H Hd. unfold combineShares.
    destruct (Nat.ltb_spec (List.length shares) 2); [lia|].
    destruct (List.length (distinctValues (map x shares))
              =? List.length shares)%nat eqn:Ed; [|reflexivity].
    exfalso. apply Hd. apply distinctValues_all.
    rewrite length_map. apply Nat.eqb_eq. exact Ed.
  - intros H Hd Hbad. unfold combineShares.
    destruct (Nat.ltb_spec (List.length shares) 2); [lia|].
    apply distinctValues_all in Hd. rewrite length_map in Hd.
    rewrite Hd, Nat.eqb_refl. cbn [negb].
    destruct shares as [|first others]; [inversion Hbad|].
    cbn [combineLoop firstThrown].
    destruct (toBigInt (x first)) as [xi|] eqn:Ex; [|reflexivity].
    destruct (hexToBigInt (y first)) as [yi|]; [|reflexivity].
    cbn [basisLoop Nat.eqb].
    rewrite basisLoop_nonint; [reflexivity | lia |].
    inversion Hbad as [? ? Hh|? ? Ht]; subst; [congruence | exact Ht].
  - intros H Hd Hall Hbad. destruct (Hint shares Hall Hd) as [-> Hd'].
    apply (proj1 (proj2 (proj2 (ShamirLaws.combineShares_of_integers _))));
      [rewrite length_map; exact H | exact Hd' |].
    apply Exists_exists. apply Exists_exists in Hbad.
    destruct Hbad as [sh [Hin Hy]]. exists (toInteger sh).
    split; [apply in_map; exact Hin | exact Hy].
  - intros H Hd Hall Hgood. destruct (Hint shares Hall Hd) as [-> Hd'].
    apply (proj2 (proj2 (proj2 (ShamirLaws.combineShares_of_integers _))));
      [rewrite length_map; exact H | exact Hd' |].
    apply Forall_forall. intros sh Hin. apply in_map_iff in Hin.
    destruct Hin as [sh0 [<- Hin0]]. rewrite Forall_forall in Hgood.
    exact (Hgood sh0 Hin0).
Qed.

(** The white space that [BigInt] lets pass: the shares 08 and 0f of the
    secret 1, written with a space and with a line feed behind them. *)
Example combineShares_trims_white_space :
  combineShares [mkShare (Int 1) "08 ";
                 mkShare (Int 2) (String.append "0f" (String (ascii_of_nat 10) EmptyString))]
  = inr (bigIntToHex 1).
Proof. vm_compute. reflexivity. Qed.

(** A fraction as [x]: [BigInt] throws. *)
Example combineShares_fraction :
  combineShares [mkShare (Int 1) "08"; mkShare (NonInteger 4609434218613702656) "0f"]
  = inl RangeError.
Proof. vm_compute. reflexivity. Qed.

Lemma combineShares_outcomes_witness :
  combineShares [mkShare (Int 1) "08"] = inl TooFewShares
  /\ combineShares [mkShare NaN "08"; mkShare NaN "0f"] = inl DuplicateIndex
  /\ combineShares [mkShare (Int 1) "0g"; mkShare NaN "0f"] = inl SyntaxError
  /\ combineShares [mkShare (Int 1) "08"; mkShare (Int 2) "0g"] = inl SyntaxError
  /\ exists v, 0 <= v < PRIME
       /\ combineShares [mkShare (Int 1) "08"; mkShare (Int 2) "0f"]
          = inr (bigIntToHex v).
Proof.
  split; [|split; [|split; [|split]]].
  - apply (proj1 (combineShares_outcomes _)). cbn. lia.
  - apply (proj1 (proj2 (combineShares_outcomes _))); [cbn; lia|].
    intros H. inversion H as [|? ? Hn _]; subst. apply Hn. left. reflexivity.
  - apply (proj1 (proj2 (proj2 (combineShares_outcomes
             [mkShare (Int 1) "0g"; mkShare NaN "0f"])))); [cbn; lia | |].
    + repeat constructor; cbn; intuition discriminate.
    + right. left. reflexivity.
  - apply (proj1 (proj2 (proj2 (proj2 (combineShares_outcomes _)))));
      [cbn; lia | | |].
    + repeat constructor; cbn; intuition discriminate.
    + repeat constructor; cbn; discriminate.
    + right. left. vm_compute. reflexivity.
  - apply (proj2 (proj2 (proj2 (proj2 (combineShares_outcomes _)))));
      [cbn; lia | | |].
    + repeat constructor; cbn; intuition discriminate.
    + repeat constructor; cbn; discriminate.
    + repeat constructor; vm_compute; discriminate.
Defined.

End CombineLaws.

Module KeyGenLaws.
Import Field Hex Shamir Threshold KeyGen JsNumber.
Import FieldFacts HexFacts ShamirFacts HexLaws ShamirLaws CodecLaws NumberLaws.

Lemma CURVE_ORDER_PRIME : CURVE_ORDER = PRIME.
Proof. reflexivity. Qed.

(** The key that [generatePrivateKey] prints. *)
Lemma generatePrivateKey_value bytes :
  exists v,
    1 <= v < CURVE_ORDER
    /\ generatePrivateKey bytes = bigIntToHex v
    /\ hexToBigInt (generatePrivateKey bytes) = Some v.
Proof.
  unfold generatePrivateKey.
  set (value := fold_left _ bytes 0).
  assert (Hv : 0 <= value) by (apply SamplerFacts.bytes_fold_nonneg; lia).
  pose proof PRIME_big as Hbig. pose proof PRIME_256 as H256.
  assert (Hr : 0 <= Z.rem value (CURVE_ORDER - 1) < CURVE_ORDER - 1).
  { rewrite CURVE_ORDER_PRIME. rewrite rem_nonneg_mod by lia.
    apply Z.mod_pos_bound. lia. }
  rewrite CURVE_ORDER_PRIME in *.
  exists (Z.rem value (PRIME - 1) + 1).
  split; [lia|]. split; [reflexivity|].
  apply (hexToBigInt_bigIntToHex (Z.rem value (PRIME - 1) + 1)). lia.
Qed.

(** X8.  For every random input, generatePrivateKey returns the 64-digit
    hex string of a number v with 1 <= v < CURVE_ORDER: the key is never
    zero. *)
Theorem generatePrivateKey_range bytes :
  exists v,
    1 <= v < CURVE_ORDER
    /\ generatePrivateKey bytes = bigIntToHex v
    /\ hexToBigInt (generatePrivateKey bytes) = Some v
    /\ String.length (generatePrivateKey bytes) = 64%nat.
Proof.
  destruct (generatePrivateKey_value bytes) as [v [Hv [Hkey Hparse]]].
  exists v. split; [exact Hv|]. split; [exact Hkey|]. split; [exact Hparse|].
  rewrite Hkey. apply bigIntToHex_length.
  pose proof PRIME_256 as H256. rewrite CURVE_ORDER_PRIME in Hv. lia.
Qed.

Lemma length_keccakRound st rc : List.length (Hash.Keccak.keccakRound st rc) = 25%nat.
Proof.
  unfold Hash.Keccak.keccakRound, Hash.Keccak.iota.
  destruct (Hash.Keccak.chi _) as [|l0 rest] eqn:E.
  - apply (f_equal (@List.length Z)) in E. unfold Hash.Keccak.chi in E.
    rewrite length_map in E. discriminate E.
  - apply (f_equal (@List.length Z)) in E. unfold Hash.Keccak.chi in E.
    rewrite length_map in E. cbn [List.length] in *. exact (eq_sym E).
Qed.

Lemma length_absorb st block : List.length (Hash.Keccak.absorb st block) = 25%nat.
Proof.
  unfold Hash.Keccak.absorb, Hash.Keccak.keccakF.
  unfold Hash.Keccak.RC. cbn [fold_left]. apply length_keccakRound.
Qed.

Lemma length_fold_absorb : forall blocks st,
  List.length st = 25%nat ->
  List.length (fold_left Hash.Keccak.absorb blocks st) = 25%nat.
Proof.
  induction blocks as [|b blocks IH]; intros st H; [exact H|].
  cbn [fold_left]. apply IH. apply length_absorb.
Qed.

Lemma length_littleEndian n : forall v, List.length (Hash.littleEndian n v) = n.
Proof. induction n as [|n IH]; intros v; cbn; [reflexivity | rewrite IH; reflexivity]. Qed.

Lemma length_flat_map_const {A B} (f : A -> list B) k l :
  (forall a, List.length (f a) = k) ->
  List.length (flat_map f l) = (k * List.length l)%nat.
Proof.
  intros H. induction l as [|a l IH]; cbn [flat_map List.length]; [lia|].
  rewrite length_app, H, IH. lia.
Qed.

Lemma length_keccak_256 msg : List.length (Hash.keccak_256 msg) = 32%nat.
Proof.
  unfold Hash.keccak_256, Hash.Keccak.keccak256Z.
  rewrite length_map, length_firstn.
  rewrite (length_flat_map_const _ 8%nat) by (intros; apply length_littleEndian).
  rewrite length_fold_absorb by reflexivity. reflexivity.
Qed.

(** X9.  publicKeyToAddress returns, for every input, '0x' followed by
    40 lower-case hexadecimal digits: the last 20 bytes of the
    Keccak-256 hash of the key bytes after the first one. *)
Theorem publicKeyToAddress_shape publicKey :
  exists digits,
    publicKeyToAddress publicKey = String.append "0x" digits
    /\ String.length digits = 40%nat
    /\ HexProps.allLowerHex digits
    /\ Codec.hexToBytes (publicKeyToAddress publicKey)
       = skipn 12 (Hash.keccak_256 (skipn 1 (Codec.hexToBytes publicKey))).
Proof.
  unfold publicKeyToAddress.
  set (hash := Hash.keccak_256 _).
  assert (Hlen : List.length hash = 32%nat) by apply length_keccak_256.
  exists (Codec.bytesToHex (sliceLast20 hash)).
  pose proof (hexToBytes_prefixed (sliceLast20 hash)) as H2.
  pose proof (length_bytesToHex (sliceLast20 hash)) as H3.
  pose proof (allLowerHex_bytesToHex (sliceLast20 hash)) as H4.
  fold (Codec.bytesToHex (sliceLast20 hash)) in H2, H3, H4.
  split; [reflexivity|]. split.
  - rewrite H3. unfold sliceLast20. rewrite length_skipn, Hlen. reflexivity.
  - split; [exact H4|]. rewrite H2. unfold sliceLast20. rewrite Hlen. reflexivity.
Qed.

Lemma rawShare_withMetadata pk addr kid cfg raw :
  map rawShare (withMetadata pk addr kid cfg raw)
  = map ShamirNumbers.ofInteger raw.
Proof. unfold withMetadata. rewrite map_map. reflexivity. Qed.

Lemma in_withMetadata pk addr kid cfg raw ks :
  In ks (withMetadata pk addr kid cfg raw) ->
  exists r,
    In r raw /\ ks = mkKeyShare (Int (x r)) (y r) pk addr kid cfg.
Proof.
  unfold withMetadata. intros H. apply in_map_iff in H.
  destruct H as [r [<- Hin]]. exists r. split; [exact Hin | reflexivity].
Qed.

Lemma quorum_raw pk addr kid cfg raw S :
  NoDup S -> incl S (withMetadata pk addr kid cfg raw) ->
  NoDup (map integerShare S) /\ incl (map integerShare S) raw
  /\ map rawShare S = map ShamirNumbers.ofInteger (map integerShare S).
Proof.
  intros Hnd Hincl. split; [|split].
  - apply NoDup_map_NoDup_ForallPairs; [|exact Hnd].
    intros a b Ha Hb E.
    destruct (in_withMetadata _ _ _ _ _ _ (Hincl a Ha)) as [ra [_ ->]].
    destruct (in_withMetadata _ _ _ _ _ _ (Hincl b Hb)) as [rb [_ ->]].
    cbn [integerShare index share] in E. injection E as -> ->. reflexivity.
  - intros r Hr. apply in_map_iff in Hr. destruct Hr as [ks [<- Hks]].
    destruct (in_withMetadata _ _ _ _ _ _ (Hincl ks Hks)) as [r [Hin ->]].
    cbn [integerShare index share]. destruct r. exact Hin.
  - rewrite map_map. apply map_ext_in. intros ks Hks.
    destruct (in_withMetadata _ _ _ _ _ _ (Hincl ks Hks)) as [r [_ ->]].
    reflexivity.
Qed.

(** With the checks of [signWithShares] passed and the key rebuilt, the
    call is [signWithKey] on that key. *)
Lemma signWithShares_rebuilt P h S kid cfg key :
  (2 <= List.length S)%nat ->
  Forall (fun ks => keyId ks = kid /\ config ks = cfg) S ->
  threshold cfg <= Z.of_nat (List.length S) ->
  ShamirNumbers.combineShares (map rawShare S) = inr key ->
  signWithShares P h S = signWithKey P h key.
Proof.
  intros H2 Hall Hk Hc. unfold signWithShares.
  destruct S as [|first [|second rest]]; [cbn in H2; lia | cbn in H2; lia |].
  set (S := first :: second :: rest) in *.
  assert (Hf : keyId first = kid /\ config first = cfg).
  { rewrite Forall_forall in Hall. apply Hall. left. reflexivity. }
  destruct Hf as [Hf1 Hf2]. rewrite Hf2.
  destruct (Z.ltb_spec (Z.of_nat (List.length S)) (threshold cfg)); [lia|].
  assert (Hids : forallb (fun s => String.eqb (keyId s) (keyId first)) S = true).
  { apply forallb_forall. intros ks Hks. rewrite Forall_forall in Hall.
    destruct (Hall ks Hks) as [-> _]. rewrite Hf1. apply String.eqb_refl. }
  rewrite Hids. cbn [negb].
  change (map (fun s => ShamirNumbers.mkShare (index s) (share s)) S)
    with (map rawShare S).
  rewrite Hc. reflexivity.
Qed.

Lemma split_quorum key v totalShares0 threshold0 entropy raw S :
  hexToBigInt key = Some v ->
  splitSecret key totalShares0 threshold0 entropy = inr raw ->
  NoDup S -> incl S raw -> threshold0 <= Z.of_nat (List.length S) ->
  combineShares S = inr (bigIntToHex v).
Proof.
  intros Hv Hsplit Hnd Hincl Hk.
  destruct (splitSecret_inv _ _ _ _ _ Hsplit) as [Hk2 [Ht [s [Hs [Hr ->]]]]].
  rewrite Hv in Hs. injection Hs as <-.
  rewrite (combine_of_split _ totalShares0 S Ht Hnd Hincl).
  - cbn [Poly.peval]. rewrite Z.mul_0_l, Z.add_0_r, Z.mod_small; [reflexivity|].
    exact Hr.
  - lia.
  - cbn [List.length]. rewrite length_drawCoefficients. lia.
Qed.

Lemma Forall_metadata pk addr kid cfg raw S :
  incl S (withMetadata pk addr kid cfg raw) ->
  Forall (fun ks => keyId ks = kid /\ config ks = cfg) S.
Proof.
  intros Hincl. apply Forall_forall. intros ks Hks.
  destruct (in_withMetadata _ _ _ _ _ _ (Hincl ks Hks)) as [r [_ ->]].
  cbn. split; reflexivity.
Qed.

(** X10.  When generateDistributedKey returns, its shares have the
    indices 1..totalShares and all carry the result's keyId, publicKey
    and address and the given config; every duplicate-free selection of
    at least threshold of them recombines to the generated private key,
    and signWithShares on it is the signing computation with that key,
    the same for every such selection. *)
Theorem generateDistributedKey_quorum C cfg keyBytes idBytes entropy dkg :
  generateDistributedKey C cfg keyBytes idBytes entropy = inr dkg ->
  map index (dkg_shares dkg)
  = map (fun i => Int (Z.of_nat i)) (seq 1 (Z.to_nat (totalShares cfg)))
  /\ Forall (fun ks => keyId ks = dkg_keyId dkg
                       /\ publicKey ks = dkg_publicKey dkg
                       /\ address ks = dkg_address dkg
                       /\ config ks = cfg) (dkg_shares dkg)
  /\ forall S,
       NoDup S -> incl S (dkg_shares dkg) ->
       threshold cfg <= Z.of_nat (List.length S) ->
       ShamirNumbers.combineShares (map rawShare S)
       = inr (generatePrivateKey keyBytes)
       /\ forall P h,
            signWithShares P h S
            = signWithKey P h (generatePrivateKey keyBytes).
Proof.
  unfold generateDistributedKey. intros H.
  destruct (Z.ltb_spec (threshold cfg) 2) as [|Hk2]; [discriminate|].
  destruct (Z.ltb_spec (totalShares cfg) (threshold cfg)); [discriminate|].
  destruct (derivePublicKey C _) as [e|pk]; [discriminate|].
  destruct (splitSecret _ _ _ entropy) as [e|raw] eqn:Hsplit; [discriminate|].
  injection H as <-. cbn [dkg_shares dkg_keyId dkg_publicKey dkg_address].
  set (addr := publicKeyToAddress pk). set (kid := generateKeyId idBytes).
  destruct (generatePrivateKey_value keyBytes) as [v [Hv [Hkey Hparse]]].
  split.
  { pose proof (splitSecret_indices _ _ _ _ _ Hsplit) as Hx.
    rewrite <- (map_map Z.of_nat Int), <- Hx. unfold withMetadata.
    rewrite !map_map. reflexivity. }
  split.
  { apply Forall_forall. intros ks Hks.
    destruct (in_withMetadata _ _ _ _ _ _ Hks) as [r [_ ->]]. cbn. tauto. }
  intros S Hnd Hincl Hsize.
  destruct (quorum_raw _ _ _ _ _ _ Hnd Hincl) as [Hnd' [Hincl' Hraw]].
  assert (Hc : ShamirNumbers.combineShares (map rawShare S)
               = inr (generatePrivateKey keyBytes)).
  { rewrite Hraw, combineShares_ofInteger, Hkey.
    apply (split_quorum (generatePrivateKey keyBytes) v (totalShares cfg)
             (threshold cfg) entropy raw); try assumption.
    rewrite length_map. exact Hsize. }
  split; [exact Hc|]. intros P h.
  apply (signWithShares_rebuilt P h S kid cfg); [lia | | lia | exact Hc].
  apply (Forall_metadata pk addr kid cfg raw). exact Hincl.
Qed.

Lemma generateDistributedKey_quorum_witness :
  map index (KeyGenFixtures.sharesOf KeyGenFixtures.generated)
  = [Int 1; Int 2; Int 3].
Proof.
  assert (H : exists d, KeyGenFixtures.generated = inr d).
  { eexists. vm_compute. reflexivity. }
  destruct KeyGenFixtures.generated as [e|d] eqn:E.
  - exfalso. destruct H as [d H]. discriminate H.
  - exact (proj1 (generateDistributedKey_quorum _ _ _ _ _ d E)).
Defined.



End KeyGenLaws.

Module Base64Laws.
Import Base64 CodecLaws.

Lemma list_ind3 {A} (Q : list A -> Prop) :
  Q [] -> (forall a, Q [a]) -> (forall a b, Q [a; b]) ->
  (forall a b c r, Q r -> Q (a :: b :: c :: r)) ->
  forall l, Q l.
Proof.
  intros H0 H1 H2 H3.
  assert (H : forall l, Q l /\ (forall a, Q (a :: l)) /\ (forall a b, Q (a :: b :: l))).
  { induction l as [|x l [IH0 [IH1 IH2]]].
    - repeat split; auto.
    - repeat split; auto. }
  intros l. apply H.
Qed.

Lemma encodeChar_table i :
  0 <= i < 64 ->
  decodeChar (encodeChar i) = Some i
  /\ isAsciiWhitespace (encodeChar i) = false
  /\ encodeChar i <> "="%char.
Proof.
  intros Hi.
  assert (Hall : forallb
            (fun n => let c := encodeChar (Z.of_nat n) in
                      match decodeChar c with
                      | Some j => j =? Z.of_nat n
                      | None => false
                      end
                      && negb (isAsciiWhitespace c)
                      && negb (Ascii.eqb c "="%char))
            (seq 0 64) = true) by (vm_compute; reflexivity).
  rewrite forallb_forall in Hall.
  specialize (Hall (Z.to_nat i)).
  rewrite Z2Nat.id in Hall by lia.
  assert (Hin : In (Z.to_nat i) (seq 0 64)) by (apply in_seq; lia).
  specialize (Hall Hin). cbv zeta in Hall.
  apply andb_prop in Hall. destruct Hall as [Hall H3].
  apply andb_prop in Hall. destruct Hall as [H1 H2].
  split.
  - destruct (decodeChar (encodeChar i)) as [j|]; [|discriminate].
    apply Z.eqb_eq in H1. congruence.
  - split.
    + destruct (isAsciiWhitespace (encodeChar i)); [discriminate | reflexivity].
    + intros E. rewrite E in H3. discriminate.
Qed.

Lemma code_range b : 0 <= code b < 256.
Proof. apply byte_value_range. Qed.

Lemma zToByte_code b : Hash.zToByte (code b) = b.
Proof. apply zToByte_value. Qed.

Lemma group3 a b c :
  0 <= a < 256 -> 0 <= b < 256 -> 0 <= c < 256 ->
  let n := (a * 256 + b) * 256 + c in
  let m := ((n / 262144 * 64 + n / 4096 mod 64) * 64 + n / 64 mod 64) * 64
           + n mod 64 in
  (0 <= n / 262144 < 64 /\ 0 <= n / 4096 mod 64 < 64
   /\ 0 <= n / 64 mod 64 < 64 /\ 0 <= n mod 64 < 64)
  /\ m / 65536 = a /\ m / 256 mod 256 = b /\ m mod 256 = c.
Proof.
  intros Ha Hb Hc n m.
  assert (Hm : m = n).
  { unfold m. Z.div_mod_to_equations. lia. }
  rewrite Hm. unfold n. repeat split; Z.div_mod_to_equations; lia.
Qed.

Lemma group2 a b :
  0 <= a < 256 -> 0 <= b < 256 ->
  let n := (a * 256 + b) * 4 in
  let m := ((n / 4096 * 64 + n / 64 mod 64) * 64 + n mod 64) / 4 in
  (0 <= n / 4096 < 64 /\ 0 <= n / 64 mod 64 < 64 /\ 0 <= n mod 64 < 64)
  /\ m / 256 = a /\ m mod 256 = b.
Proof.
  intros Ha Hb n m.
  assert (Hm : m = a * 256 + b).
  { unfold m, n. Z.div_mod_to_equations. lia. }
  rewrite Hm. unfold n. repeat split; Z.div_mod_to_equations; lia.
Qed.

Lemma group1 a :
  0 <= a < 256 ->
  let n := a * 16 in
  (0 <= n / 64 < 64 /\ 0 <= n mod 64 < 64)
  /\ (n / 64 * 64 + n mod 64) / 16 = a.
Proof.
  intros Ha n. unfold n. repeat split; Z.div_mod_to_equations; lia.
Qed.

Lemma sextets_range : forall bytes, Forall (fun v => 0 <= v < 64) (sextets bytes).
Proof.
  apply list_ind3.
  - constructor.
  - intros a. destruct (group1 _ (code_range a)) as [[H1 H2] _].
    cbn [sextets]. constructor; [exact H1|]. constructor; [exact H2|]. constructor.
  - intros a b.
    destruct (group2 _ _ (code_range a) (code_range b)) as [[H1 [H2 H3]] _].
    cbn [sextets]. constructor; [exact H1|]. constructor; [exact H2|].
    constructor; [exact H3|]. constructor.
  - intros a b c r IH.
    destruct (group3 _ _ _ (code_range a) (code_range b) (code_range c))
      as [[H1 [H2 [H3 H4]]] _].
    cbn [sextets]. constructor; [exact H1|]. constructor; [exact H2|].
    constructor; [exact H3|]. constructor; [exact H4 | exact IH].
Qed.

Lemma octets_sextets : forall bytes, octets (sextets bytes) = map code bytes.
Proof.
  apply list_ind3.
  - reflexivity.
  - intros a. destruct (group1 _ (code_range a)) as [_ H].
    cbn [sextets octets map]. rewrite H. reflexivity.
  - intros a b.
    destruct (group2 _ _ (code_range a) (code_range b)) as [_ [H1 H2]].
    cbn [sextets octets map]. rewrite H1, H2. reflexivity.
  - intros a b c r IH.
    destruct (group3 _ _ _ (code_range a) (code_range b) (code_range c))
      as [_ [H1 [H2 H3]]].
    cbn [sextets octets map]. rewrite H1, H2, H3, IH. reflexivity.
Qed.

Lemma padding_step n : padding (S (S (S n))) = padding n.
Proof.
  unfold padding. replace (S (S (S n))) with (n + 1 * 3)%nat by lia.
  rewrite Nat.Div0.mod_add. reflexivity.
Qed.

(** The length of the encoding is a multiple of four, and without the
    padding it is not one more than such a multiple. *)
Lemma sextets_length : forall bytes,
  ((List.length (sextets bytes) + List.length (padding (List.length bytes)))
     mod 4 = 0)%nat
  /\ (List.length (sextets bytes) mod 4 <> 1)%nat.
Proof.
  apply list_ind3.
  - split; [reflexivity | discriminate].
  - intros a. split; [reflexivity | discriminate].
  - intros a b. split; [reflexivity | discriminate].
  - intros a b c r [IH1 IH2].
    cbn [sextets List.length]. rewrite padding_step.
    replace (S (S (S (S (List.length (sextets r)))))
             + List.length (padding (List.length r)))%nat
      with ((List.length (sextets r) + List.length (padding (List.length r)))
            + 1 * 4)%nat by lia.
    replace (S (S (S (S (List.length (sextets r))))))
      with (List.length (sextets r) + 1 * 4)%nat by lia.
    rewrite !Nat.Div0.mod_add. split; assumption.
Qed.

Lemma values_encode vs :
  Forall (fun v => 0 <= v < 64) vs -> values (map encodeChar vs) = Some vs.
Proof.
  induction 1 as [|v vs Hv _ IH]; [reflexivity|].
  cbn [map values]. destruct (encodeChar_table v Hv) as [-> _]. rewrite IH.
  reflexivity.
Qed.

Lemma filter_encode vs :
  Forall (fun v => 0 <= v < 64) vs ->
  filter (fun c => negb (isAsciiWhitespace c)) (map encodeChar vs)
  = map encodeChar vs.
Proof.
  induction 1 as [|v vs Hv _ IH]; [reflexivity|].
  cbn [map filter]. destruct (encodeChar_table v Hv) as [_ [-> _]].
  cbn [negb]. rewrite IH. reflexivity.
Qed.

Lemma strip_no_padding cs :
  Forall (fun c => c <> "="%char) cs -> stripPadding cs = cs.
Proof.
  intros H. unfold stripPadding.
  destruct (List.length cs mod 4 =? 0)%nat; [|reflexivity].
  assert (Hr : Forall (fun c => c <> "="%char) (rev cs)).
  { apply Forall_forall. intros c Hc. rewrite Forall_forall in H.
    apply H. apply in_rev. exact Hc. }
  destruct (rev cs) as [|c r]; [reflexivity|].
  inversion Hr as [|? ? Hc _]; subst.
  destruct c as [[] [] [] [] [] [] [] []]; try reflexivity.
  contradiction Hc. reflexivity.
Qed.

Lemma strip_one cs :
  Forall (fun c => c <> "="%char) cs ->
  (List.length (cs ++ ["="%char]) mod 4 = 0)%nat ->
  stripPadding (cs ++ ["="%char]) = cs.
Proof.
  intros H Hlen. unfold stripPadding. rewrite Hlen. cbn [Nat.eqb].
  rewrite rev_app_distr. cbn [rev app].
  assert (Hr : Forall (fun c => c <> "="%char) (rev cs)).
  { apply Forall_forall. intros c Hc. rewrite Forall_forall in H.
    apply H. apply in_rev. exact Hc. }
  rewrite <- (rev_involutive cs) at 2.
  destruct (rev cs) as [|c r]; [reflexivity|].
  inversion Hr as [|? ? Hc _]; subst.
  destruct c as [[] [] [] [] [] [] [] []]; try reflexivity.
  contradiction Hc. reflexivity.
Qed.

Lemma strip_two cs :
  (List.length (cs ++ ["="%char; "="%char]) mod 4 = 0)%nat ->
  stripPadding (cs ++ ["="%char; "="%char]) = cs.
Proof.
  intros Hlen. unfold stripPadding. rewrite Hlen. cbn [Nat.eqb].
  rewrite rev_app_distr. cbn [rev app]. apply rev_involutive.
Qed.

Lemma encode_no_padding vs :
  Forall (fun v => 0 <= v < 64) vs ->
  Forall (fun c => c <> "="%char) (map encodeChar vs).
Proof.
  induction 1 as [|v vs Hv _ IH]; constructor; [|exact IH].
  apply (encodeChar_table v Hv).
Qed.

Lemma padding_cases n :
  padding n = [] \/ padding n = ["="%char] \/ padding n = ["="%char; "="%char].
Proof.
  unfold padding. destruct (n mod 3)%nat as [|[|k]]; auto.
Qed.

Lemma filter_padding n :
  filter (fun c => negb (isAsciiWhitespace c)) (padding n) = padding n.
Proof.
  destruct (padding_cases n) as [-> | [-> | ->]]; reflexivity.
Qed.

Lemma atob_btoa bytes : atob (btoa bytes) = Some bytes.
Proof.
  unfold atob, btoa. rewrite list_ascii_of_string_of_list_ascii.
  pose proof (sextets_range bytes) as Hr.
  destruct (sextets_length bytes) as [Hl1 Hl2].
  rewrite filter_app, (filter_encode _ Hr), filter_padding.
  set (body := map encodeChar (sextets bytes)).
  assert (Hs : stripPadding (body ++ padding (List.length bytes)) = body).
  { destruct (padding_cases (List.length bytes)) as [E | [E | E]];
      rewrite E in *.
    - rewrite app_nil_r. apply strip_no_padding. apply encode_no_padding, Hr.
    - apply strip_one; [apply encode_no_padding, Hr|].
      rewrite length_app. unfold body. rewrite length_map. exact Hl1.
    - apply strip_two.
      rewrite length_app. unfold body. rewrite length_map. exact Hl1. }
  rewrite Hs. unfold body at 1. rewrite length_map.
  destruct (Nat.eqb_spec (List.length (sextets bytes) mod 4) 1);
    [contradiction|].
  unfold body. rewrite (values_encode _ Hr), octets_sextets, map_map.
  f_equal. rewrite <- (map_id bytes) at 2. apply map_ext. apply zToByte_code.
Qed.

(** X12.  base64ToUint8Array(uint8ArrayToBase64(bytes)) returns bytes
    for every byte array, so uint8ArrayToBase64 is injective. *)
Theorem base64_round_trip bytes :
  Storage.base64ToUint8Array (Storage.uint8ArrayToBase64 bytes) = inr bytes
  /\ (forall bytes',
        Storage.uint8ArrayToBase64 bytes' = Storage.uint8ArrayToBase64 bytes ->
        bytes' = bytes).
Proof.
  unfold Storage.base64ToUint8Array, Storage.uint8ArrayToBase64.
  split; [rewrite atob_btoa; reflexivity|].
  intros bytes' H. apply (f_equal atob) in H. rewrite !atob_btoa in H.
  congruence.
Qed.

End Base64Laws.

Module StorageLaws.
Import Encryption Storage Base64Laws.

(** X13.  deserializePayload(serializePayload(payload)) returns the same
    payload (ciphertext, nonce, salt and version) for every payload. *)
Theorem stored_payload_reads_back P payload :
  deserializePayload (withBase64 P) (serializePayload (withBase64 P) payload)
  = inr payload.
Proof.
  unfold deserializePayload, serializePayload, withBase64.
  cbn [atob btoa s_ciphertext s_nonce s_salt s_version].
  rewrite !atob_btoa. destruct payload; reflexivity.
Qed.

(** Unsealing under primitives that invert each other. *)
Lemma decrypt_sealed P plaintext w saltBytes nonceBytes :
  (forall m n k, secretbox_open P (secretbox P m n k) n k = Some m) ->
  textDecode P (list_byte_of_string plaintext) = plaintext ->
  decrypt P (encrypt P plaintext w saltBytes nonceBytes) w = inr plaintext.
Proof.
  intros Hbox Htext. rewrite EncryptionFacts.decrypt_encrypt, Hbox, Htext.
  reflexivity.
Qed.

(** verifyPassword returns true exactly when decrypt returns the
    expected value, false for every payload of another version, and on
    encrypt(value, w) with the password w it returns whether value
    equals the expected value. *)
Theorem verifyPassword_outcomes P value w saltBytes nonceBytes :
  (forall m n k, secretbox_open P (secretbox P m n k) n k = Some m) ->
  textDecode P (list_byte_of_string value) = value ->
  (forall expected,
     verifyPassword P (encrypt P value w saltBytes nonceBytes) w expected
     = String.eqb value expected)
  /\ (forall payload password expected,
        version payload <> ENCRYPTION_VERSION ->
        verifyPassword P payload password expected = false)
  /\ (forall payload password expected,
        verifyPassword P payload password expected = true
        <-> decrypt P payload password = inr expected).
Proof.
  intros Hbox Htext. split; [|split].
  - intros expected. unfold verifyPassword.
    rewrite (decrypt_sealed P value w saltBytes nonceBytes Hbox Htext).
    reflexivity.
  - intros payload password expected Hv. unfold verifyPassword, decrypt.
    destruct (Z.eqb_spec (version payload) ENCRYPTION_VERSION); [contradiction|].
    reflexivity.
  - intros payload password expected. unfold verifyPassword.
    destruct (decrypt P payload password) as [e|d].
    + split; [discriminate | discriminate].
    + rewrite String.eqb_eq. split; [intros ->; reflexivity | congruence].
Qed.

Lemma verifyPassword_outcomes_witness :
  verifyPassword Fixtures.plainPrimitives
    (encrypt Fixtures.plainPrimitives "wallet-check" "password"
             (List.repeat x01 32) (List.repeat x02 24)) "password" "wallet-check"
  = true.
Proof.
  exact (proj1 (verifyPassword_outcomes Fixtures.plainPrimitives "wallet-check"
                  "password" (List.repeat x01 32) (List.repeat x02 24)
                  (fun m n k => eq_refl) eq_refl) "wallet-check"%string).
Defined.

End StorageLaws.

Module WalletLaws.
Import Threshold MPCWallet WalletOps.
Import ShamirLaws KeyGenLaws StorageLaws.

Lemma NoDup_snoc {A} (l : list A) a : NoDup l -> ~ In a l -> NoDup (l ++ [a]).
Proof.
  induction l as [|b l IH]; intros Hnd Hin; cbn [app].
  - constructor; [intros [] | constructor].
  - inversion Hnd as [|? ? Hb Hl]; subst. constructor.
    + intros H. apply in_app_or in H. destruct H as [H|[H|[]]].
      * contradiction.
      * apply Hin. left. symmetry. exact H.
    + apply IH; [exact Hl|]. intros H. apply Hin. right. exact H.
Qed.

Lemma index_fresh i (l : list KeyShare) :
  existsb (fun k => JsNumber.strictEq (index k) i) l = false ->
  forall b, In b (map index l) -> JsNumber.strictEq b i = false.
Proof.
  intros H b Hin. apply in_map_iff in Hin. destruct Hin as [k [<- Hk]].
  destruct (JsNumber.strictEq (index k) i) eqn:E; [|reflexivity].
  assert (Ht : existsb (fun k0 => JsNumber.strictEq (index k0) i) l = true).
  { apply existsb_exists. exists k. split; [exact Hk | exact E]. }
  congruence.
Qed.

Lemma collectedWell_push w s k :
  collectedWell w -> state w = Some s -> keyId k = st_keyId s ->
  existsb (fun k0 => JsNumber.strictEq (index k0) (index k)) (collectedShares w)
  = false ->
  collectedWell (mkWallet (state w) (collectedShares w ++ [k])).
Proof.
  intros [Hnd Hk] Hs Hid Hnew. unfold collectedWell. cbn [state collectedShares].
  rewrite Hs in *. split.
  - rewrite map_app. cbn [map]. apply NumberLaws.strictlyDistinct_snoc;
      [exact Hnd|].
    apply index_fresh. exact Hnew.
  - apply Forall_app. split; [exact Hk|]. constructor; [exact Hid | constructor].
Qed.

Section WithPrimitives.
Variable P : Primitives.
Variable E : Encoders.

Lemma addShare_well enc password w :
  collectedWell w -> collectedWell (snd (addShare P enc password w)).
Proof.
  intros Hw. unfold addShare.
  destruct (state w) as [s|] eqn:Hs; [|exact Hw].
  destruct (String.eqb_spec (e_keyId enc) (st_keyId s)) as [Hid|]; [|exact Hw].
  cbn [negb].
  destruct (existsb _ (collectedShares w)) eqn:Hex; [exact Hw|].
  destruct (Encryption.deserializePayload P _) as [e|payload]; [exact Hw|].
  destruct (Encryption.decrypt P payload password) as [e|shareValue]; [exact Hw|].
  cbn [snd]. rewrite <- Hs.
  apply (collectedWell_push w s); [exact Hw | exact Hs | exact Hid | exact Hex].
Qed.

Lemma addPlainShare_well k w :
  collectedWell w -> collectedWell (snd (addPlainShare k w)).
Proof.
  intros Hw. unfold addPlainShare.
  destruct (state w) as [s|] eqn:Hs; [|exact Hw].
  destruct (String.eqb_spec (keyId k) (st_keyId s)) as [Hid|]; [|exact Hw].
  cbn [negb].
  destruct (existsb _ (collectedShares w)) eqn:Hex; [exact Hw|].
  cbn [snd]. rewrite <- Hs.
  apply (collectedWell_push w s); [exact Hw | exact Hs | exact Hid | exact Hex].
Qed.

Lemma sign_same c w : snd (sign P E c w) = w.
Proof.
  destruct c as [h|msg|tx]; cbn [sign].
  - unfold signHash. destruct (canSign w); [|reflexivity]. cbn [negb].
    destruct (signWithShares P h (collectedShares w)); reflexivity.
  - unfold signMessage. destruct (canSign w); reflexivity.
  - unfold signTransaction. destruct (canSign w); [|reflexivity]. cbn [negb].
    destruct (signWithShares P _ (collectedShares w)); reflexivity.
Qed.

Lemma apply_well op w : collectedWell w -> collectedWell (apply P E w op).
Proof.
  intros Hw. destruct op as [s|enc pw|k| |c|h now|hid]; cbn [apply].
  - split; [exact I | constructor].
  - apply addShare_well. exact Hw.
  - apply addPlainShare_well. exact Hw.
  - destruct Hw as [_ Hk]. split; [exact I|]. cbn [clearShares state collectedShares].
    destruct (state w); [constructor | reflexivity].
  - rewrite sign_same. exact Hw.
  - unfold addShareHolder. destruct (state w) as [s|] eqn:Hs; [|exact Hw].
    destruct Hw as [Hnd Hk]. rewrite Hs in Hk. split; [exact Hnd | exact Hk].
  - unfold removeShareHolder. destruct (state w) as [s|] eqn:Hs; [|exact Hw].
    destruct Hw as [Hnd Hk]. rewrite Hs in Hk. split; [exact Hnd | exact Hk].
Qed.

Lemma run_well : forall ops w, collectedWell w -> collectedWell (run P E ops w).
Proof.
  induction ops as [|op ops IH]; intros w Hw; [exact Hw|].
  cbn [run fold_left]. apply IH. apply apply_well. exact Hw.
Qed.

(** The errors of [signWithShares] on the shares of a wallet. *)
Lemma signWithShares_well h w e :
  collectedWell w ->
  signWithShares P h (collectedShares w) = inl e ->
  e <> MixedKeys
  /\ (e = DuplicateIndex ->
      (2 <= List.length (filter JsNumber.isNaN
                                (map index (collectedShares w))))%nat).
Proof.
  intros [Hnd Hk]. unfold signWithShares.
  destruct (collectedShares w) as [|first [|second rest]] eqn:Hc;
    [intros H; injection H as <-; split; discriminate
    |intros H; injection H as <-; split; discriminate|].
  set (S := first :: second :: rest) in *.
  destruct (state w) as [s|]; [|discriminate Hk].
  destruct (_ <? _); [intros H; injection H as <-; split; discriminate|].
  assert (Hids : forallb (fun k => String.eqb (keyId k) (keyId first)) S = true).
  { apply forallb_forall. intros k Hin. rewrite Forall_forall in Hk.
    rewrite (Hk k Hin), (Hk first (or_introl eq_refl)). apply String.eqb_refl. }
  rewrite Hids. cbn [negb].
  destruct (ShamirNumbers.combineShares _) as [e'|key] eqn:Ec.
  - intros H. injection H as <-.
    destruct (NumberLaws.combineShares_error_kinds _ _ Ec)
      as [-> | [[-> Hdup] | [-> | ->]]]; split; try discriminate.
    intros _. rewrite map_map in Hdup. cbn [ShamirNumbers.x] in Hdup.
    destruct (le_lt_dec 2 (List.length (filter JsNumber.isNaN (map index S))))
      as [Hge|Hlt]; [exact Hge|].
    assert (Hn : NoDup (map index S))
      by (apply NumberLaws.strictlyDistinct_NoDup; [exact Hnd | lia]).
    contradiction (Hdup Hn).
  - destruct (negb _); [intros H; injection H as <-; split; discriminate|].
    destruct (signAsync P _ _) as [[[sr ss] recovery]|];
      [discriminate | intros H; injection H as <-; split; discriminate].
Qed.

Lemma sign_well c w e :
  collectedWell w -> fst (sign P E c w) = inl e ->
  e <> MixedKeys
  /\ (e = DuplicateIndex ->
      (2 <= List.length (filter JsNumber.isNaN
                                (map index (collectedShares w))))%nat).
Proof.
  intros Hw. destruct c as [h|msg|tx]; cbn [sign].
  - unfold signHash. destruct (canSign w); cbn [negb fst].
    + destruct (signWithShares P h (collectedShares w)) as [e'|sg] eqn:Es;
        cbn [fst]; [|discriminate].
      intros H. injection H as <-. eapply signWithShares_well; eassumption.
    + intros H. injection H as <-. split; discriminate.
  - unfold signMessage. destruct (canSign w); cbn [negb fst].
    + unfold signPersonalMessage.
      destruct (signWithShares P _ (collectedShares w)) as [e'|sg] eqn:Es;
        [|discriminate].
      intros H. injection H as <-. eapply signWithShares_well; eassumption.
    + intros H. injection H as <-. split; discriminate.
  - unfold signTransaction. destruct (canSign w); cbn [negb fst].
    + destruct (signWithShares P _ (collectedShares w)) as [e'|sg] eqn:Es;
        cbn [fst]; [|discriminate].
      intros H. injection H as <-. eapply signWithShares_well; eassumption.
    + intros H. injection H as <-. split; discriminate.
Qed.

End WithPrimitives.

Lemma newWallet_well : collectedWell newWallet.
Proof. split; [exact I | reflexivity]. Qed.

(** X14.  After any sequence of calls on a new MPCWallet (loadState,
    addShare, addPlainShare, clearShares, the signing methods,
    addShareHolder, removeShareHolder), no two collected shares have
    indices that are [===], all carry the keyId of the loaded state, and
    none are held without a state.  So a signing call never fails with
    'All shares must belong to the same key', and it fails with
    'Duplicate share indices detected' only when two collected shares
    have the index NaN, which [===] does not tell from itself and the
    [Set] of combineShares counts once; with at most one NaN the
    collected indices are pairwise different values. *)
Theorem collected_shares_invariant P E ops :
  let w := run P E ops newWallet in
  JsNumber.strictlyDistinct (map index (collectedShares w))
  /\ (forall s, state w = Some s ->
        Forall (fun k => keyId k = st_keyId s) (collectedShares w))
  /\ (state w = None -> collectedShares w = [])
  /\ (forall c e, fst (sign P E c w) = inl e ->
        e <> MixedKeys
        /\ (e = DuplicateIndex ->
            (2 <= List.length (filter JsNumber.isNaN
                                      (map index (collectedShares w))))%nat))
  /\ ((List.length (filter JsNumber.isNaN (map index (collectedShares w)))
       <= 1)%nat ->
      NoDup (map index (collectedShares w))).
Proof.
  intros w. assert (Hw : collectedWell w) by (apply run_well, newWallet_well).
  destruct Hw as [Hnd Hk]. split; [exact Hnd|]. split; [|split; [|split]].
  - intros s Hs. rewrite Hs in Hk. exact Hk.
  - intros Hs. rewrite Hs in Hk. exact Hk.
  - intros c e. apply sign_well. split; assumption.
  - apply NumberLaws.strictlyDistinct_NoDup. exact Hnd.
Qed.

(** Where the indices stop being different: two plain shares whose
    index is NaN are both taken, since NaN is not [===] to itself, and
    the [Set] of [combineShares] then counts them as one. *)
Example nan_indices_collide :
  let nan1 := mkKeyShare JsNumber.NaN (Hex.bigIntToHex 8) "04ab" "0xabc"
                         "key-1" Fixtures.cfg23 in
  let nan2 := mkKeyShare JsNumber.NaN (Hex.bigIntToHex 15) "04ab" "0xabc"
                         "key-1" Fixtures.cfg23 in
  let w := run Fixtures.stubPrimitives Fixtures.stubEncoders
               [OpLoadState Fixtures.walletState; OpAddPlainShare nan1;
                OpAddPlainShare nan2] newWallet in
  collectedShares w = [nan1; nan2]
  /\ fst (signHash Fixtures.stubPrimitives Fixtures.zeroHash w)
     = inl DuplicateIndex.
Proof. vm_compute. split; reflexivity. Qed.

Lemma nth_error_mapi {A B} (f : nat -> A -> B) (l : list A) i b :
  nth_error (mapi f l) i = Some b ->
  exists a, nth_error l i = Some a /\ b = f i a.
Proof.
  unfold mapi.
  assert (G : forall (l0 : list A) start i0,
             nth_error (map (fun p => f (fst p) (snd p))
                            (combine (seq start (List.length l0)) l0)) i0 = Some b ->
             exists a, nth_error l0 i0 = Some a /\ b = f (start + i0)%nat a).
  { induction l0 as [|a l0 IH]; intros start i0 H.
    - destruct i0; discriminate H.
    - destruct i0 as [|i0]; cbn in H.
      + injection H as <-. exists a. rewrite Nat.add_0_r. split; reflexivity.
      + destruct (IH (S start) i0 H) as [a' [Ha Hb]]. exists a'.
        split; [exact Ha|]. rewrite Hb. f_equal. lia. }
  intros H. exact (G l 0%nat i H).
Qed.

Lemma shareLoop_lower coefficients totalShares0 sh :
  In sh (Shamir.shareLoop coefficients totalShares0) ->
  HexProps.allLowerHex (Shamir.y sh).
Proof.
  intros H. destruct (ShamirFacts.in_shareLoop _ _ _ H) as [_ ->].
  apply HexLaws.bigIntToHex_lower.
  apply ShamirFacts.evaluatePolynomial_range.
Qed.

Lemma deserialize_serialize P payload :
  (forall b, atob P (btoa P b) = Some b) ->
  Encryption.deserializePayload P (Encryption.serializePayload P payload)
  = inr payload.
Proof.
  intros H. unfold Encryption.deserializePayload, Encryption.serializePayload.
  cbn [Encryption.s_ciphertext Encryption.s_nonce Encryption.s_salt
       Encryption.s_version].
  rewrite !H. destruct payload; reflexivity.
Qed.

(** A share sealed by [sealShare] is unsealed by its password. *)
Lemma addShare_sealed P pws labels salts nonces i plain w s :
  (forall b, atob P (btoa P b) = Some b) ->
  (forall m n k, secretbox_open P (secretbox P m n k) n k = Some m) ->
  textDecode P (list_byte_of_string (share plain)) = share plain ->
  state w = Some s -> keyId plain = st_keyId s ->
  existsb (fun k => JsNumber.strictEq (index k) (index plain))
          (collectedShares w) = false ->
  addShare P (sealShare P pws labels salts nonces i plain)
           (nth i pws EmptyString) w
  = (inr true, mkWallet (state w) (collectedShares w ++ [plain])).
Proof.
  intros Hb64 Hbox Htext Hs Hid Hnew. unfold addShare, sealShare.
  cbn [e_keyId e_index e_encryptedShare e_publicKey e_address e_config].
  rewrite Hs.
  destruct (String.eqb_spec (keyId plain) (st_keyId s)); [|contradiction].
  cbn [negb]. rewrite Hnew.
  rewrite (deserialize_serialize P _ Hb64).
  rewrite (decrypt_sealed P _ _ _ _ Hbox Htext).
  destruct plain; reflexivity.
Qed.

Lemma created_shares P C options pws keyBytes idBytes entropy salts nonces now res :
  create P C options pws keyBytes idBytes entropy salts nonces now = inr res ->
  exists dkg,
    KeyGen.generateDistributedKey C
      (mkThresholdConfig (o_totalShares options) (o_threshold options))
      keyBytes idBytes entropy = inr dkg
    /\ res = assemble P options pws salts nonces now dkg.
Proof.
  unfold create. destruct (negb _); [discriminate|].
  destruct (KeyGen.generateDistributedKey _ _ _ _ _) as [e|dkg]; [discriminate|].
  intros H. injection H as <-. exists dkg. split; reflexivity.
Qed.

Lemma dkg_share_facts C cfg keyBytes idBytes entropy dkg plain :
  KeyGen.generateDistributedKey C cfg keyBytes idBytes entropy = inr dkg ->
  In plain (KeyGen.dkg_shares dkg) ->
  keyId plain = KeyGen.dkg_keyId dkg /\ HexProps.allLowerHex (share plain).
Proof.
  unfold KeyGen.generateDistributedKey. intros H Hin.
  destruct (_ <? 2); [discriminate|].
  destruct (_ <? _); [discriminate|].
  destruct (KeyGen.derivePublicKey C _) as [e|pk]; [discriminate|].
  destruct (Shamir.splitSecret _ _ _ entropy) as [e|raw] eqn:Hsplit;
    [discriminate|].
  injection H as <-. cbn [KeyGen.dkg_shares KeyGen.dkg_keyId] in *.
  destruct (in_withMetadata _ _ _ _ _ _ Hin) as [r [Hraw ->]].
  split; [reflexivity|]. cbn [share].
  destruct (splitSecret_inv _ _ _ _ _ Hsplit) as [_ [_ [v [_ [_ ->]]]]].
  apply (shareLoop_lower _ _ _ Hraw).
Qed.

(** X15.  With a cipher, base64 codec and text decoder that invert their
    counterparts, the i-th encrypted share returned by MPCWallet.create
    is unsealed by the i-th password: addShare, on a wallet loaded with
    the returned state that does not hold that index yet, returns true
    and appends exactly the i-th plain share. *)
Theorem created_share_unseals P C options pws keyBytes idBytes entropy
    salts nonces now res i enc w :
  (forall b, atob P (btoa P b) = Some b) ->
  (forall m n k, secretbox_open P (secretbox P m n k) n k = Some m) ->
  (forall s, HexProps.allLowerHex s ->
             textDecode P (list_byte_of_string s) = s) ->
  create P C options pws keyBytes idBytes entropy salts nonces now = inr res ->
  nth_error (r_encryptedShares res) i = Some enc ->
  state w = Some (r_state res) ->
  existsb (fun k => JsNumber.strictEq (index k) (e_index enc))
          (collectedShares w) = false ->
  exists plain,
    nth_error (r_plainShares res) i = Some plain
    /\ index plain = e_index enc
    /\ addShare P enc (nth i pws EmptyString) w
       = (inr true, mkWallet (state w) (collectedShares w ++ [plain])).
Proof.
  intros Hb64 Hbox Htext Hc Hnth Hs Hnew.
  destruct (created_shares _ _ _ _ _ _ _ _ _ _ _ Hc) as [dkg [Hdkg ->]].
  cbn [assemble r_encryptedShares r_plainShares r_state] in *.
  destruct (nth_error_mapi _ _ _ _ Hnth) as [plain [Hp ->]].
  exists plain. split; [exact Hp|]. split; [reflexivity|].
  destruct (dkg_share_facts _ _ _ _ _ _ plain Hdkg (nth_error_In _ _ Hp))
    as [Hid Hlow].
  eapply (addShare_sealed P pws _ salts nonces i plain w _ Hb64 Hbox);
    [apply Htext; exact Hlow | exact Hs | exact Hid | exact Hnew].
Qed.

Lemma created_share_unseals_witness :
  exists plain,
    nth_error (r_plainShares WalletFixtures.createdResult) 1 = Some plain
    /\ index plain = e_index WalletFixtures.sealedTwo
    /\ addShare WalletFixtures.clearPrimitives WalletFixtures.sealedTwo "two"
         (loadState (r_state WalletFixtures.createdResult) newWallet)
       = (inr true,
          mkWallet (Some (r_state WalletFixtures.createdResult)) [plain]).
Proof.
  apply (created_share_unseals WalletFixtures.clearPrimitives
           KeyGenFixtures.stubCurve WalletFixtures.options23
           ["one"; "two"; "three"]%string (List.repeat x09 32)
           (List.repeat x0a 16) KeyGenFixtures.entropy7
           (fun _ => List.repeat x01 32) (fun _ => List.repeat x02 24) 1000
           WalletFixtures.createdResult 1 WalletFixtures.sealedTwo
           (loadState (r_state WalletFixtures.createdResult) newWallet)).
  - exact Base64Laws.atob_btoa.
  - intros m n k. reflexivity.
  - intros s _. apply string_of_list_byte_of_string.
  - vm_compute. reflexivity.
  - reflexivity.
  - reflexivity.
  - reflexivity.
Defined.

(** X16.  On a loaded wallet addShareHolder appends the holder with
    createdAt set to the clock reading and leaves the collected shares
    alone; removeShareHolder(id) keeps exactly the holders with another
    id, in order, so removing a holder just added under a fresh id
    restores the list. *)
Theorem share_holder_records holder now w s :
  state w = Some s ->
  let added :=
    mkShareHolder (h_id holder) (h_name holder) (h_type holder)
                  (h_shareIndex holder) (h_contact holder) now in
  let w1 := snd (addShareHolder holder now w) in
  fst (addShareHolder holder now w) = inr tt
  /\ getShareHolders w1 = getShareHolders w ++ [added]
  /\ collectedShares w1 = collectedShares w
  /\ (forall holderId h,
        In h (getShareHolders (removeShareHolder holderId w))
        <-> In h (getShareHolders w) /\ h_id h <> holderId)
  /\ (Forall (fun h => h_id h <> h_id holder) (getShareHolders w) ->
      getShareHolders (removeShareHolder (h_id holder) w1) = getShareHolders w).
Proof.
  intros Hs added w1. unfold w1, addShareHolder, removeShareHolder, getShareHolders.
  rewrite Hs. cbn [fst snd state collectedShares set_shareHolders st_shareHolders].
  fold added.
  split; [reflexivity|]. split; [reflexivity|]. split; [reflexivity|]. split.
  - intros holderId h. rewrite filter_In.
    destruct (String.eqb_spec (h_id h) holderId) as [E|E]; cbn [negb].
    + split; [intros [_ H]; discriminate | intros [_ H]; contradiction].
    + split; [intros [H _]; split; assumption | intros [H _]; split; [exact H | reflexivity]].
  - intros Hfresh. rewrite filter_app. cbn [filter h_id added].
    rewrite String.eqb_refl. cbn [negb]. rewrite app_nil_r.
    induction (st_shareHolders s) as [|h l IH]; [reflexivity|].
    inversion Hfresh as [|? ? Hh Hl]; subst. cbn [filter].
    destruct (String.eqb_spec (h_id h) (h_id holder)); [contradiction|].
    cbn [negb]. rewrite (IH Hl). reflexivity.
Qed.

Lemma share_holder_records_witness :
  getShareHolders
    (snd (addShareHolder (mkShareHolder "h1" "Phone" device 2 None 0) 77
                         Fixtures.readyWallet))
  = [mkShareHolder "h1" "Phone" device 2 None 77].
Proof.
  exact (proj1 (proj2 (share_holder_records
                         (mkShareHolder "h1" "Phone" device 2 None 0) 77
                         Fixtures.readyWallet Fixtures.walletState eq_refl))).
Defined.

End WalletLaws.

Module JsMapLaws.
Import JsMap.

Lemma get_In {V} k (v : V) : forall m, get k m = Some v -> In (k, v) m.
Proof.
  induction m as [|[k' v'] m IH]; cbn [get]; [discriminate|].
  destruct (String.eqb_spec k k') as [->|Hne]; intros H.
  - injection H as ->. left. reflexivity.
  - right. apply IH. exact H.
Qed.

Lemma get_None {V} k : forall m : t V, get k m = None <-> ~ In k (map fst m).
Proof.
  induction m as [|[k' v'] m IH]; cbn [get map fst In]; [tauto|].
  destruct (String.eqb_spec k k') as [->|Hne].
  - split; [discriminate | intros H; exfalso; apply H; left; reflexivity].
  - rewrite IH. split; [intros H [E|E]; [congruence | contradiction] | tauto].
Qed.

Lemma In_get {V} k (v : V) : forall m,
  NoDup (map fst m) -> In (k, v) m -> get k m = Some v.
Proof.
  induction m as [|[k' v'] m IH]; cbn [map fst get]; intros Hnd Hin;
    [contradiction|].
  inversion Hnd as [|? ? Hk Hm]; subst.
  destruct Hin as [E|Hin].
  - injection E as -> ->. rewrite String.eqb_refl. reflexivity.
  - destruct (String.eqb_spec k k') as [->|Hne]; [|apply IH; assumption].
    exfalso. apply Hk. apply in_map_iff. exists (k', v). split; [reflexivity | exact Hin].
Qed.

Lemma set_absent {V} k (v : V) : forall m,
  ~ In k (map fst m) -> set k v m = m ++ [(k, v)].
Proof.
  induction m as [|[k' v'] m IH]; cbn [set map fst In app]; intros H;
    [reflexivity|].
  destruct (String.eqb_spec k k') as [->|Hne]; [exfalso; apply H; left; reflexivity|].
  rewrite IH; [reflexivity|]. intros Hin. apply H. right. exact Hin.
Qed.

Lemma set_keys_present {V} k (v : V) : forall m,
  In k (map fst m) -> map fst (set k v m) = map fst m.
Proof.
  induction m as [|[k' v'] m IH]; cbn [set map fst In]; intros H; [contradiction|].
  destruct (String.eqb_spec k k') as [->|Hne]; [reflexivity|].
  cbn [map fst]. rewrite IH; [reflexivity|]. destruct H as [E|H]; [congruence | exact H].
Qed.

Lemma set_NoDup {V} k (v : V) m : NoDup (map fst m) -> NoDup (map fst (set k v m)).
Proof.
  intros H. destruct (in_dec string_dec k (map fst m)) as [Hin|Hin].
  - rewrite set_keys_present by exact Hin. exact H.
  - rewrite set_absent by exact Hin. rewrite map_app. cbn [map fst].
    clear -H Hin. induction (map fst m) as [|a l IH]; cbn [app].
    + constructor; [intros [] | constructor].
    + inversion H as [|? ? Ha Hl]; subst. constructor.
      * intros Hx. apply in_app_or in Hx. destruct Hx as [Hx|[Hx|[]]];
          [contradiction | apply Hin; left; symmetry; exact Hx].
      * apply IH; [exact Hl|]. intros Hx. apply Hin. right. exact Hx.
Qed.

Lemma set_Forall {V} (Q : string * V -> Prop) k (v : V) : forall m,
  Q (k, v) -> Forall Q m -> Forall Q (set k v m).
Proof.
  induction m as [|[k' v'] m IH]; cbn [set]; intros Hq Hm.
  - constructor; [exact Hq | constructor].
  - inversion Hm as [|? ? Hh Ht]; subst.
    destruct (String.eqb k k'); constructor; auto.
Qed.

(** The entries of [set k v m]: the new one, and the old ones under
    other keys. *)
Lemma In_set {V} k (v : V) e : forall m,
  NoDup (map fst m) ->
  (In e (set k v m) <-> e = (k, v) \/ (In e m /\ fst e <> k)).
Proof.
  induction m as [|[k' v'] m IH]; cbn [set In map fst]; intros Hnd.
  - split; [intros [H|[]]; left; symmetry; exact H
           | intros [H|[[] _]]; left; symmetry; exact H].
  - inversion Hnd as [|? ? Hk Hm]; subst.
    destruct (String.eqb_spec k k') as [->|Hne]; cbn [In].
    + split.
      * intros [H|H]; [left; symmetry; exact H|]. right. split; [right; exact H|].
        intros E. apply Hk. apply in_map_iff. exists e. split; [exact E | exact H].
      * intros [H|[[H|H] Hf]]; [left; symmetry; exact H | | right; exact H].
        subst e. contradiction Hf. reflexivity.
    + rewrite (IH Hm). split.
      * intros [H|[H|[H Hf]]].
        -- right. split; [left; exact H|]. subst e. cbn. congruence.
        -- left. exact H.
        -- right. split; [right; exact H | exact Hf].
      * intros [H|[[H|H] Hf]]; [right; left; exact H | left; exact H |].
        right. right. split; assumption.
Qed.

Lemma delete_NoDup {V} k (m : t V) :
  NoDup (map fst m) -> NoDup (map fst (delete k m)).
Proof.
  unfold delete. induction m as [|[k' v'] m IH]; cbn [filter map fst]; intros H;
    [constructor|].
  inversion H as [|? ? Hk Hm]; subst.
  destruct (negb (String.eqb k k')); [|apply IH; exact Hm].
  cbn [map fst]. constructor; [|apply IH; exact Hm].
  intros Hin. apply Hk. apply in_map_iff in Hin.
  destruct Hin as [e [He Hin]]. apply filter_In in Hin.
  apply in_map_iff. exists e. split; [exact He | apply Hin].
Qed.

Lemma delete_Forall {V} (Q : string * V -> Prop) k (m : t V) :
  Forall Q m -> Forall Q (delete k m).
Proof.
  unfold delete. intros H. apply Forall_forall. intros e He.
  apply filter_In in He. rewrite Forall_forall in H. apply H, He.
Qed.

End JsMapLaws.

Module GuardianLaws.
Import Guardian GuardianOps JsMapLaws.

Lemma keyedBy_empty {V} (key : V -> string) : keyedBy key JsMap.empty.
Proof. split; constructor. Qed.

Lemma keyedBy_set {V} (key : V -> string) k v m :
  keyedBy key m -> k = key v -> keyedBy key (JsMap.set k v m).
Proof.
  intros [Hnd Hk] E. split; [apply set_NoDup; exact Hnd|].
  apply set_Forall; [exact E | exact Hk].
Qed.

Lemma keyedBy_delete {V} (key : V -> string) k m :
  keyedBy key m -> keyedBy key (JsMap.delete k m).
Proof.
  intros [Hnd Hk]. split; [apply delete_NoDup; exact Hnd|].
  apply delete_Forall. exact Hk.
Qed.

Lemma keyedBy_get {V} (key : V -> string) k v m :
  keyedBy key m -> JsMap.get k m = Some v -> key v = k.
Proof.
  intros [_ Hk] H. apply get_In in H. rewrite Forall_forall in Hk.
  symmetry. exact (Hk _ H).
Qed.

Lemma keyedBy_import {V} (key : V -> string) : forall l m,
  keyedBy key m ->
  keyedBy key (fold_left (fun acc v => JsMap.set (key v) v acc) l m).
Proof.
  induction l as [|v l IH]; intros m H; [exact H|].
  cbn [fold_left]. apply IH. apply keyedBy_set; [exact H | reflexivity].
Qed.

(** The loop of [getPendingInvites] removes from the map the entries
    that share a key with an expired entry it visits. *)
Lemma dropExpired_fold now : forall todo (acc : JsMap.t GuardianInvite),
  fold_left (fun acc e =>
               if inv_expiresAt (snd e) <? now then JsMap.delete (fst e) acc
               else acc) todo acc
  = filter (fun e : string * GuardianInvite =>
              negb (existsb (fun t => String.eqb (fst t) (fst e)
                                      && (inv_expiresAt (snd t) <? now)) todo))
           acc.
Proof.
  induction todo as [|t todo IH]; intros acc; cbn [fold_left existsb].
  - cbn [negb]. induction acc as [|a acc IHa]; [reflexivity|].
    cbn [filter]. rewrite <- IHa. reflexivity.
  - rewrite IH. destruct (inv_expiresAt (snd t) <? now) eqn:Et.
    + unfold JsMap.delete. induction acc as [|a acc IHa]; [reflexivity|].
      cbn [filter]. rewrite andb_true_r.
      destruct (String.eqb (fst t) (fst a)); cbn [negb orb filter];
        [exact IHa|].
      destruct (negb _); [rewrite IHa; reflexivity | exact IHa].
    + apply filter_ext. intros a. rewrite andb_false_r. reflexivity.
Qed.

Lemma dropExpired_filter now entries :
  NoDup (map fst entries) ->
  dropExpired now entries
  = filter (fun e => negb (inv_expiresAt (snd e) <? now)) entries.
Proof.
  intros Hnd. unfold dropExpired. rewrite dropExpired_fold.
  apply filter_ext_in. intros e He. f_equal.
  destruct (inv_expiresAt (snd e) <? now) eqn:Ee.
  - apply existsb_exists. exists e. split; [exact He|].
    rewrite String.eqb_refl, Ee. reflexivity.
  - apply not_true_is_false. intros H. apply existsb_exists in H.
    destruct H as [t [Ht Hc]]. apply andb_prop in Hc. destruct Hc as [Hk Hx].
    apply String.eqb_eq in Hk.
    assert (t = e).
    { destruct t as [kt vt], e as [ke ve]. cbn [fst] in Hk. subst kt.
      pose proof (In_get _ _ _ Hnd Ht) as H1.
      pose proof (In_get _ _ _ Hnd He) as H2. congruence. }
    subst t. congruence.
Qed.

Lemma keyedBy_filter {V} (key : V -> string) f m :
  keyedBy key m -> keyedBy key (filter f m).
Proof.
  intros [Hnd Hk]. split.
  - clear Hk. induction m as [|[k v] m IH]; cbn [filter map fst]; [constructor|].
    inversion Hnd as [|? ? Hn Hm]; subst.
    destruct (f (k, v)); [|apply IH; exact Hm].
    cbn [map fst]. constructor; [|apply IH; exact Hm].
    intros Hin. apply Hn. apply in_map_iff in Hin.
    destruct Hin as [e [He Hin]]. apply filter_In in Hin.
    apply in_map_iff. exists e. split; [exact He | apply Hin].
  - apply Forall_forall. intros e He. apply filter_In in He.
    rewrite Forall_forall in Hk. apply Hk, He.
Qed.

Lemma getPendingInvites_wellKeyed now m :
  wellKeyed m -> wellKeyed (snd (getPendingInvites now m)).
Proof.
  intros [Hg Hi]. split; [exact Hg|]. cbn [getPendingInvites snd pendingInvites].
  rewrite dropExpired_filter by apply Hi. apply keyedBy_filter. exact Hi.
Qed.

Lemma apply_wellKeyed op m : wellKeyed m -> wellKeyed (apply m op).
Proof.
  intros Hw. pose proof Hw as [Hg Hi].
  destruct op as [p idBytes clock|gid s now|gid|gid now|p codeBytes idBytes clock
                 |r clock|now|inviteId|now|data]; cbn [apply].
  - split; [|exact Hi]. cbn [addGuardian snd guardians].
    apply keyedBy_set; [exact Hg | reflexivity].
  - unfold updateGuardianStatus.
    destruct (JsMap.get gid (guardians m)) as [g|] eqn:Eg; [|exact Hw].
    split; [|exact Hi]. cbn [guardians].
    apply keyedBy_set; [exact Hg|].
    rewrite <- (keyedBy_get id gid g _ Hg Eg).
    destruct (status_eqb s accepted); reflexivity.
  - split; [|exact Hi]. cbn [removeGuardian snd guardians].
    apply keyedBy_delete. exact Hg.
  - unfold revokeGuardian, updateGuardianStatus.
    destruct (JsMap.get gid (guardians m)) as [g|] eqn:Eg; [|exact Hw].
    split; [|exact Hi]. cbn [guardians].
    apply keyedBy_set; [exact Hg|].
    rewrite <- (keyedBy_get id gid g _ Hg Eg). reflexivity.
  - unfold createInvite.
    destruct (JsMap.get (p_guardianId p) (guardians m)) as [g|] eqn:Eg;
      [|exact Hw].
    split; cbn [snd guardians pendingInvites].
    + apply keyedBy_set; [exact Hg|].
      rewrite <- (keyedBy_get id _ g _ Hg Eg). reflexivity.
    + apply keyedBy_set; [exact Hi | reflexivity].
  - unfold processResponse.
    destruct (JsMap.get (resp_inviteId r) (pendingInvites m)) as [invite|];
      [|exact Hw].
    destruct (inv_expiresAt invite <? clock 0%nat).
    { split; [exact Hg|]. apply keyedBy_delete. exact Hi. }
    destruct (JsMap.get (resp_guardianId r) (guardians m)) as [g|] eqn:Eg;
      [|exact Hw].
    destruct (negb _); [exact Hw|].
    split; cbn [snd guardians pendingInvites].
    + apply keyedBy_set; [exact Hg|].
      rewrite <- (keyedBy_get id _ g _ Hg Eg).
      destruct (resp_accepted r); [|reflexivity].
      destruct (resp_publicKey r) as [pk|]; [|reflexivity].
      destruct (String.eqb pk EmptyString); reflexivity.
    + apply keyedBy_delete. exact Hi.
  - apply getPendingInvites_wellKeyed. exact Hw.
  - split; [exact Hg|]. apply keyedBy_delete. exact Hi.
  - unfold exportData.
    pose proof (getPendingInvites_wellKeyed now m Hw) as H.
    destruct (getPendingInvites now m) as [invites m']. exact H.
  - unfold importData. split; cbn [guardians pendingInvites].
    + apply keyedBy_import. apply keyedBy_empty.
    + destruct (d_pendingInvites data) as [l|];
        [apply keyedBy_import|]; apply keyedBy_empty.
Qed.

Lemma run_wellKeyed : forall ops m, wellKeyed m -> wellKeyed (run ops m).
Proof.
  induction ops as [|op ops IH]; intros m H; [exact H|].
  cbn [run fold_left]. apply IH. apply apply_wellKeyed. exact H.
Qed.

Lemma reachable_wellKeyed ops : wellKeyed (run ops newManager).
Proof. apply run_wellKeyed. split; apply keyedBy_empty. Qed.

Lemma values_filter {V} (f : V -> bool) (m : JsMap.t V) :
  JsMap.values (filter (fun e => f (snd e)) m) = filter f (JsMap.values m).
Proof.
  unfold JsMap.values. induction m as [|[k v] m IH]; [reflexivity|].
  cbn [filter map snd]. destruct (f v); cbn [map snd]; rewrite IH; reflexivity.
Qed.

Lemma get_filter {V} (f : string * V -> bool) k v : forall m,
  NoDup (map fst m) -> JsMap.get k m = Some v ->
  JsMap.get k (filter f m) = if f (k, v) then Some v else None.
Proof.
  induction m as [|[k' v'] m IH]; cbn [JsMap.get map fst filter]; intros Hnd H;
    [discriminate|].
  inversion Hnd as [|? ? Hk Hm]; subst.
  destruct (String.eqb_spec k k') as [->|Hne].
  - injection H as ->. destruct (f (k', v)) eqn:Ef.
    + cbn [JsMap.get]. rewrite String.eqb_refl. reflexivity.
    + apply get_None. intros Hin. apply Hk. apply in_map_iff in Hin.
      destruct Hin as [e [He Hin]]. apply filter_In in Hin.
      apply in_map_iff. exists e. split; [exact He | apply Hin].
  - destruct (f (k', v')); [|apply IH; assumption].
    cbn [JsMap.get]. destruct (String.eqb_spec k k'); [contradiction|].
    apply IH; assumption.
Qed.

(** X17.  On every guardian manager reachable from a new one,
    getPendingInvites at time now returns exactly the stored invites
    with expiresAt >= now, in order, deletes the others from the manager
    (they can no longer be looked up) and leaves the guardians
    unchanged. *)
Theorem getPendingInvites_drops_expired ops now :
  let m := run ops newManager in
  let r := getPendingInvites now m in
  fst r = filter (fun i => negb (inv_expiresAt i <? now))
                 (JsMap.values (pendingInvites m))
  /\ JsMap.values (pendingInvites (snd r)) = fst r
  /\ guardians (snd r) = guardians m
  /\ forall key invite,
       JsMap.get key (pendingInvites m) = Some invite ->
       JsMap.get key (pendingInvites (snd r))
       = if inv_expiresAt invite <? now then None else Some invite.
Proof.
  intros m r. destruct (reachable_wellKeyed ops) as [_ [Hnd _]]. fold m in Hnd.
  unfold r, getPendingInvites. cbn [fst snd guardians pendingInvites].
  rewrite (dropExpired_filter now _ Hnd).
  split; [apply (values_filter (fun i => negb (inv_expiresAt i <? now)))|].
  split; [reflexivity|]. split; [reflexivity|].
  intros key invite H.
  rewrite (get_filter _ key invite _ Hnd H). cbn [snd].
  destruct (inv_expiresAt invite <? now); reflexivity.
Qed.

Lemma import_values {V} (key : V -> string) : forall rest acc,
  NoDup (map fst (acc ++ rest)) ->
  Forall (fun e => fst e = key (snd e)) rest ->
  fold_left (fun a v => JsMap.set (key v) v a) (JsMap.values rest) acc
  = acc ++ rest.
Proof.
  induction rest as [|[k v] rest IH]; intros acc Hnd Hk.
  - cbn. rewrite app_nil_r. reflexivity.
  - inversion Hk as [|? ? Hh Ht]; subst. cbn [fst snd] in Hh. subst k.
    cbn [JsMap.values map snd fold_left].
    rewrite set_absent.
    + change (map snd rest) with (JsMap.values rest).
      rewrite IH; [rewrite <- app_assoc; reflexivity | | exact Ht].
      rewrite <- app_assoc. exact Hnd.
    + rewrite map_app in Hnd. cbn [map fst] in Hnd.
      apply NoDup_remove_2 in Hnd. intros Hin. apply Hnd.
      apply in_or_app. left. exact Hin.
Qed.

Lemma import_keyed {V} (key : V -> string) m :
  keyedBy key m ->
  fold_left (fun a v => JsMap.set (key v) v a) (JsMap.values m) JsMap.empty = m.
Proof.
  intros [Hnd Hk]. apply (import_values key m []); assumption.
Qed.

(** X18.  On every guardian manager reachable from a new one,
    importData(exportData()) on any manager rebuilds exactly the
    exporting manager as exportData left it: the same guardians and the
    unexpired invites, in the same order. *)
Theorem export_import_round_trip ops now m0 :
  let m := run ops newManager in
  importData (fst (exportData now m)) m0 = snd (exportData now m)
  /\ guardians (snd (exportData now m)) = guardians m.
Proof.
  intros m. pose proof (reachable_wellKeyed ops) as Hw. fold m in Hw.
  pose proof (getPendingInvites_wellKeyed now m Hw) as [_ Hi].
  destruct Hw as [Hg _].
  unfold exportData, importData, getAllGuardians in *.
  cbn [getPendingInvites fst snd d_guardians d_pendingInvites guardians
       pendingInvites] in *.
  rewrite (import_keyed id _ Hg), (import_keyed inv_id _ Hi).
  split; reflexivity.
Qed.

Lemma get_filter_none {V} (f : string * V -> bool) k : forall m : JsMap.t V,
  JsMap.get k m = None -> JsMap.get k (filter f m) = None.
Proof.
  intros m H. apply get_None. apply get_None in H. intros Hin. apply H.
  apply in_map_iff in Hin. destruct Hin as [e [He Hf]].
  apply filter_In in Hf. apply in_map_iff. exists e. split; [exact He | apply Hf].
Qed.

Lemma get_delete_none {V} k k' (m : JsMap.t V) :
  JsMap.get k m = None -> JsMap.get k (JsMap.delete k' m) = None.
Proof. apply get_filter_none. Qed.

Lemma import_get_none {V} (key : V -> string) k : forall l (acc : JsMap.t V),
  existsb (fun i => String.eqb (key i) k) l = false ->
  JsMap.get k acc = None ->
  JsMap.get k (fold_left (fun acc i => JsMap.set (key i) i acc) l acc) = None.
Proof.
  induction l as [|i l IH]; intros acc Hl Hacc; [exact Hacc|].
  cbn [existsb] in Hl. apply orb_false_elim in Hl. destruct Hl as [Hi Hl].
  cbn [fold_left]. apply IH; [exact Hl|].
  rewrite JsMapFacts.get_set_other; [exact Hacc|].
  apply String.eqb_neq in Hi. congruence.
Qed.

(** An invite that is not filed stays so under every call that does not
    file it. *)
Lemma apply_keeps_gone iid op m :
  JsMap.get iid (pendingInvites m) = None ->
  files iid op = false ->
  JsMap.get iid (pendingInvites (apply m op)) = None.
Proof.
  intros Hgone Hf. destruct op; cbn [apply files] in *.
  - exact Hgone.
  - unfold updateGuardianStatus. destruct (JsMap.get gid (guardians m)); exact Hgone.
  - exact Hgone.
  - unfold revokeGuardian, updateGuardianStatus.
    destruct (JsMap.get gid (guardians m)); exact Hgone.
  - unfold createInvite.
    destruct (JsMap.get (p_guardianId params) (guardians m)); [|exact Hgone].
    cbn [snd pendingInvites inv_id]. rewrite JsMapFacts.get_set_other; [exact Hgone|].
    apply String.eqb_neq in Hf. congruence.
  - unfold processResponse.
    destruct (JsMap.get (resp_inviteId response) (pendingInvites m));
      [|exact Hgone].
    destruct (_ <? _); [apply get_delete_none; exact Hgone|].
    destruct (JsMap.get (resp_guardianId response) (guardians m));
      [|exact Hgone].
    destruct (negb _); [exact Hgone|].
    apply get_delete_none; exact Hgone.
  - unfold getPendingInvites, dropExpired. cbn [snd pendingInvites].
    rewrite dropExpired_fold. apply get_filter_none. exact Hgone.
  - apply get_delete_none. exact Hgone.
  - unfold exportData, getPendingInvites, dropExpired. cbn [snd pendingInvites].
    rewrite dropExpired_fold. apply get_filter_none. exact Hgone.
  - unfold importData. cbn [pendingInvites].
    destruct (d_pendingInvites data) as [invites|]; [|reflexivity].
    apply import_get_none; [exact Hf | reflexivity].
Qed.

Lemma run_keeps_gone iid : forall later m,
  JsMap.get iid (pendingInvites m) = None ->
  forallb (fun op => negb (files iid op)) later = true ->
  JsMap.get iid (pendingInvites (run later m)) = None.
Proof.
  induction later as [|op later IH]; intros m Hgone Hf; [exact Hgone|].
  cbn [forallb] in Hf. apply andb_prop in Hf. destruct Hf as [Hop Hf].
  unfold run. cbn [fold_left]. apply IH; [|exact Hf].
  apply apply_keeps_gone; [exact Hgone|].
  destruct (files iid op); [discriminate | reflexivity].
Qed.

(** X19.  On every guardian manager reachable from a new one, once
    processResponse has returned for an invite (accepted or declined) or
    has thrown 'Invite has expired', every processResponse for the same
    invite id - with any response, at any time, after any later calls
    that do not file that id again (no createInvite that draws it, no
    importData whose invites contain it) - throws 'Invite not found'
    and changes nothing. *)
Theorem invite_is_single_use ops r clock m' later r' clock' :
  let m := run ops newManager in
  (exists b, processResponse r clock m = (inr b, m'))
  \/ processResponse r clock m = (inl InviteExpired, m') ->
  forallb (fun op => negb (files (resp_inviteId r) op)) later = true ->
  resp_inviteId r' = resp_inviteId r ->
  processResponse r' clock' (run later m')
  = (inl InviteNotFound, run later m').
Proof.
  intros m H Hlater Hid.
  destruct (reachable_wellKeyed ops) as [_ Hi]. fold m in Hi.
  assert (Hgone : JsMap.get (resp_inviteId r) (pendingInvites m') = None).
  { unfold processResponse in H.
    destruct (JsMap.get (resp_inviteId r) (pendingInvites m)) as [invite|] eqn:Ei.
    2:{ destruct H as [[b H]|H]; discriminate H. }
    pose proof (keyedBy_get inv_id _ _ _ Hi Ei) as Hkey.
    destruct (inv_expiresAt invite <? clock 0%nat).
    { destruct H as [[b H]|H]; [discriminate H|]. injection H as <-.
      cbn [pendingInvites]. rewrite Hkey. apply JsMapFacts.get_delete_same. }
    destruct (JsMap.get (resp_guardianId r) (guardians m)) as [g|].
    2:{ destruct H as [[b H]|H]; discriminate H. }
    destruct (negb _).
    { destruct H as [[b H]|H]; discriminate H. }
    destruct H as [[b H]|H]; [|discriminate H]. injection H as _ <-.
    cbn [pendingInvites]. rewrite Hkey. apply JsMapFacts.get_delete_same. }
  unfold processResponse. rewrite Hid.
  rewrite (run_keeps_gone _ later m' Hgone Hlater). reflexivity.
Qed.

Lemma invite_is_single_use_witness :
  let m := run GuardianOpsFixtures.setupCalls newManager in
  let m' := snd (processResponse GuardianOpsFixtures.acceptance (fun _ => 3000) m) in
  let later := [OpRevokeGuardian GuardianFixtures.guardianId 3500;
                OpGetPendingInvites 3600] in
  let again :=
    mkResponse "02020202020202020202020202020202" GuardianFixtures.guardianId
               false None "000000" 4000 in
  processResponse again (fun _ => 4000) (run later m')
  = (inl InviteNotFound, run later m').
Proof.
  intros m m' later again.
  apply (invite_is_single_use GuardianOpsFixtures.setupCalls
           GuardianOpsFixtures.acceptance (fun _ => 3000) m' later again
           (fun _ => 4000)).
  - left. exists true. vm_compute. reflexivity.
  - reflexivity.
  - reflexivity.
Defined.

(** The guarantee ends where the invite is filed again: data exported
    before the response and imported after it brings the invite back,
    and the same response is accepted a second time. *)
Example imported_invite_is_accepted_again :
  let m := run GuardianOpsFixtures.setupCalls newManager in
  let saved := fst (exportData 2500 m) in
  let m' := snd (processResponse GuardianOpsFixtures.acceptance (fun _ => 3000) m) in
  fst (processResponse GuardianOpsFixtures.acceptance (fun _ => 3000) m) = inr true
  /\ fst (processResponse GuardianOpsFixtures.acceptance (fun _ => 4000)
            (importData saved m')) = inr true.
Proof. vm_compute. split; reflexivity. Qed.

(** X20.  revokeGuardian sets the guardian's status to revoked but keeps
    its pending invites and verification hash: an accepting
    processResponse with the right code for a still valid invite
    succeeds afterwards and sets the status back to accepted. *)
Theorem revoked_guardian_reaccepts r clock now m invite g :
  JsMap.get (resp_inviteId r) (pendingInvites m) = Some invite ->
  clock 0%nat <= inv_expiresAt invite ->
  JsMap.get (resp_guardianId r) (guardians m) = Some g ->
  verificationHash g = Some (hashVerificationCode (resp_verificationCode r)) ->
  resp_accepted r = true ->
  let m1 := revokeGuardian (resp_guardianId r) now m in
  option_map status (getGuardian (resp_guardianId r) m1) = Some revoked
  /\ pendingInvites m1 = pendingInvites m
  /\ exists m2 g2,
       processResponse r clock m1 = (inr true, m2)
       /\ getGuardian (resp_guardianId r) m2 = Some g2
       /\ status g2 = accepted.
Proof.
  intros Hi Ht Hg Hh Ha m1.
  assert (Hg1 : JsMap.get (resp_guardianId r) (guardians m1)
                = Some (set_status revoked g)).
  { unfold m1, revokeGuardian, updateGuardianStatus. rewrite Hg.
    cbn [status_eqb guardians]. apply JsMapFacts.get_set_same. }
  assert (Hp : pendingInvites m1 = pendingInvites m).
  { unfold m1, revokeGuardian, updateGuardianStatus. rewrite Hg. reflexivity. }
  split; [unfold getGuardian; rewrite Hg1; reflexivity|].
  split; [exact Hp|].
  destruct (GuardianFacts.processResponse_good_code r clock m1 invite
              (set_status revoked g)) as [g2 [m2 [H1 [H2 [H3 _]]]]].
  - rewrite Hp. exact Hi.
  - exact Ht.
  - exact Hg1.
  - exact Hh.
  - exists m2, g2. rewrite Ha in H1, H3. split; [exact H1|].
    split; [exact H2 | exact H3].
Qed.

Lemma revoked_guardian_reaccepts_witness :
  let m := run GuardianOpsFixtures.setupCalls newManager in
  let m1 := revokeGuardian GuardianFixtures.guardianId 2500 m in
  option_map status (getGuardian GuardianFixtures.guardianId m1) = Some revoked
  /\ option_map status
       (getGuardian GuardianFixtures.guardianId
          (snd (processResponse GuardianOpsFixtures.acceptance (fun _ => 3000) m1)))
     = Some accepted.
Proof.
  intros m m1.
  destruct (revoked_guardian_reaccepts GuardianOpsFixtures.acceptance
              (fun _ => 3000) 2500 m
              (mkInvite "02020202020202020202020202020202"
                        GuardianFixtures.guardianId "0xabc" "Wallet Owner" 3 4
                        "sealed-share" "777215" 604802000 2000)
              (mkGuardian GuardianFixtures.guardianId "Alice" "alice@example.org"
                          email 2 pending 1000 None None
                          (Some (hashVerificationCode "777215"))))
    as [H1 [_ [m2 [g2 [H2 [H3 H4]]]]]].
  - vm_compute. reflexivity.
  - vm_compute. discriminate.
  - vm_compute. reflexivity.
  - reflexivity.
  - reflexivity.
  - change (resp_guardianId GuardianOpsFixtures.acceptance)
      with GuardianFixtures.guardianId in *.
    split; [exact H1|]. unfold m1. rewrite H2. cbn [snd]. rewrite H3.
    cbn [option_map]. rewrite H4. reflexivity.
Defined.

Lemma In_values {V} (v : V) (m : JsMap.t V) :
  In v (JsMap.values m) <-> exists k, In (k, v) m.
Proof.
  unfold JsMap.values. rewrite in_map_iff. split.
  - intros [[k v'] [E H]]. cbn in E. subst v'. exists k. exact H.
  - intros [k H]. exists (k, v). split; [reflexivity | exact H].
Qed.

Lemma In_active g m :
  In g (getActiveGuardians m)
  <-> (exists k, In (k, g) (guardians m)) /\ status g = accepted.
Proof.
  unfold getActiveGuardians, getAllGuardians. rewrite filter_In, In_values.
  split; intros [H1 H2]; (split; [exact H1|]).
  - destruct (status g); try discriminate; reflexivity.
  - rewrite H2. reflexivity.
Qed.

(** X21.  On every guardian manager reachable from a new one, after
    revokeGuardian(id) or removeGuardian(id) the active guardians are
    exactly the previously active ones with another id; removeGuardian
    returns true exactly when the id was filed, and the guardian cannot
    be looked up afterwards. *)
Theorem revoked_or_removed_is_inactive ops gid now g :
  let m := run ops newManager in
  (In g (getActiveGuardians (revokeGuardian gid now m))
   <-> In g (getActiveGuardians m) /\ id g <> gid)
  /\ (In g (getActiveGuardians (snd (removeGuardian gid m)))
      <-> In g (getActiveGuardians m) /\ id g <> gid)
  /\ (fst (removeGuardian gid m) = true
      <-> exists g0, getGuardian gid m = Some g0)
  /\ getGuardian gid (snd (removeGuardian gid m)) = None.
Proof.
  intros m. destruct (reachable_wellKeyed ops) as [[Hnd Hk] _]. fold m in Hnd, Hk.
  assert (Hid : forall k g0, In (k, g0) (guardians m) -> k = id g0).
  { intros k g0 H. rewrite Forall_forall in Hk. exact (Hk _ H). }
  split; [|split; [|split]].
  - rewrite !In_active. unfold revokeGuardian, updateGuardianStatus.
    destruct (JsMap.get gid (guardians m)) as [g0|] eqn:Eg.
    + cbn [status_eqb guardians]. split.
      * intros [[k H] Hs]. apply (In_set _ _ _ _ Hnd) in H.
        destruct H as [H|[H Hf]].
        -- injection H as _ ->. discriminate Hs.
        -- cbn [fst] in Hf. rewrite (Hid _ _ H) in Hf.
           split; [split; [exists k; exact H | exact Hs] | exact Hf].
      * intros [[[k H] Hs] Hne]. split; [|exact Hs]. exists k.
        apply (In_set _ _ _ _ Hnd). right. split; [exact H|].
        cbn [fst]. rewrite (Hid _ _ H). exact Hne.
    + split; [|tauto]. intros [[k H] Hs]. split; [split; [exists k; exact H | exact Hs]|].
      intros E. apply (get_None gid (guardians m)) in Eg. apply Eg.
      apply in_map_iff. exists (k, g). split; [|exact H].
      cbn [fst]. rewrite (Hid _ _ H). exact E.
  - rewrite !In_active. cbn [removeGuardian snd guardians]. unfold JsMap.delete.
    split.
    + intros [[k H] Hs]. apply filter_In in H. destruct H as [H Hf].
      cbn [fst] in Hf. split; [split; [exists k; exact H | exact Hs]|].
      intros E. rewrite (Hid _ _ H), E, String.eqb_refl in Hf. discriminate.
    + intros [[[k H] Hs] Hne]. split; [|exact Hs]. exists k.
      apply filter_In. split; [exact H|]. cbn [fst].
      rewrite (Hid _ _ H).
      destruct (String.eqb_spec gid (id g)); [congruence | reflexivity].
  - cbn [removeGuardian fst]. unfold getGuardian.
    destruct (JsMap.get gid (guardians m)) as [g0|].
    + split; [intros _; exists g0; reflexivity | reflexivity].
    + split; [discriminate | intros [g0 H]; discriminate].
  - unfold getGuardian. cbn [removeGuardian snd guardians].
    apply JsMapFacts.get_delete_same.
Qed.

End GuardianLaws.

Module RecoveryLaws.
Import Recovery RecoveryOps RecoveryFacts JsMapLaws.

Lemma store_keeps rid r m :
  lastAttempt (store rid r m) = lastAttempt m /\ config (store rid r m) = config m.
Proof. split; reflexivity. Qed.

Lemma step_keeps c clock m :
  lastAttempt (step c clock m) = lastAttempt m
  /\ config (step c clock m) = config m.
Proof.
  destruct c as [rid a|rid|rid|rid|rid|w|w]; cbn [step].
  - unfold addApproval. destruct (JsMap.get rid (requests m)); [|split; reflexivity].
    destruct (validateRequestStatus _ _ _) as [[e|u] r1]; [split; reflexivity|].
    destruct (existsb _ _); split; reflexivity.
  - unfold executeRecovery. destruct (JsMap.get rid (requests m)); [|split; reflexivity].
    destruct (validateRequestStatus _ _ _) as [[e|u] r1]; [split; reflexivity|].
    destruct (Shamir.combineShares _); split; reflexivity.
  - unfold cancelRecovery. destruct (JsMap.get rid (requests m)); [|split; reflexivity].
    destruct (validateRequestStatus _ _ _) as [[e|u] r1]; split; reflexivity.
  - unfold getRequest. destruct (JsMap.get rid (requests m)); split; reflexivity.
  - unfold isReadyForExecution.
    destruct (JsMap.get rid (requests m)); split; reflexivity.
  - unfold getPendingRequest. destruct (pendingScan _ _ _ _); split; reflexivity.
  - unfold getRequestsForWallet. destruct (walletScan _ _ _ _); split; reflexivity.
Qed.

Lemma run_keeps : forall calls m,
  lastAttempt (run calls m) = lastAttempt m /\ config (run calls m) = config m.
Proof.
  induction calls as [|[c clock] calls IH]; intros m; [split; reflexivity|].
  cbn [run]. destruct (IH (step c clock m)) as [H1 H2].
  destruct (step_keeps c clock m) as [H3 H4]. split; congruence.
Qed.

Lemma initiate_ok w k i r t idBytes clock after m req m1 :
  initiateRecovery w k i r t idBytes clock after m = (inr req, m1) ->
  JsMap.get w (lastAttempt m1) = Some (after 2%nat)
  /\ config m1 = config m
  /\ JsMap.get (id req) (requests m1) = Some req
  /\ status req = pending /\ approvals req = [] /\ walletAddress req = w
  /\ threshold req = t
  /\ createdAt req = after 0%nat
  /\ expiresAt req = after 1%nat + expirationDays (config m) * 24 * 60 * 60 * 1000
  /\ timelockMs req = timelockHours (config m) * 60 * 60 * 1000.
Proof.
  unfold initiateRecovery. destruct (cooldownActive _ _ _); [discriminate|].
  unfold getPendingRequest.
  destruct (pendingScan _ _ _ _) as [[found|] entries]; [discriminate|].
  intros H. injection H as <- <-. cbn.
  rewrite !JsMapFacts.get_set_same. repeat split; reflexivity.
Qed.

(** X22.  After initiateRecovery has succeeded for a wallet at a
    non-zero clock reading t, every initiateRecovery for the same wallet
    less than cooldownHours hours after t fails with 'Please wait ...
    hours between recovery attempts' and changes nothing, whatever
    approvals, executions, cancellations or reads happened in between
    (also when the first request was cancelled or executed). *)
Theorem cooldown_blocks_new_requests w k i r t idBytes clock after m req m1
    calls k' i' r' t' idBytes' clock' after' :
  initiateRecovery w k i r t idBytes clock after m = (inr req, m1) ->
  after 2%nat <> 0 ->
  clock' 0%nat - after 2%nat < cooldownHours (config m) * 60 * 60 * 1000 ->
  let m2 := run calls m1 in
  initiateRecovery w k' i' r' t' idBytes' clock' after' m2 = (inl Cooldown, m2).
Proof.
  intros H Hnz Hc m2.
  destruct (initiate_ok _ _ _ _ _ _ _ _ _ _ _ H) as [Hl [Hcfg _]].
  destruct (run_keeps calls m1) as [Hl2 Hc2]. fold m2 in Hl2, Hc2.
  unfold initiateRecovery, cooldownActive. rewrite Hl2, Hl, Hc2, Hcfg.
  destruct (Z.eqb_spec (after 2%nat) 0); [contradiction|]. cbn [negb andb].
  destruct (Z.ltb_spec (clock' 0%nat - after 2%nat)
                       (cooldownHours (config m) * 60 * 60 * 1000)); [|lia].
  reflexivity.
Qed.

Lemma cooldown_blocks_new_requests_witness :
  let m2 := run [(CallCancel RecoveryFixtures.rid, RecoveryFixtures.at_ 5000)]
                RecoveryFixtures.initiated in
  initiateRecovery "0xabc" "key-1" "someone" "again" 2 (List.repeat x0b 16)
    (RecoveryFixtures.at_ 6000) (RecoveryFixtures.at_ 6000) m2
  = (inl Cooldown, m2).
Proof.
  assert (H : exists req,
             initiateRecovery "0xabc" "key-1" "new-owner" "lost device" 2
               (List.repeat x0a 16) (RecoveryFixtures.at_ 1000)
               (RecoveryFixtures.at_ 1000) (newManager (Some 48) (Some 7) None None)
             = (inr req, RecoveryFixtures.initiated)).
  { eexists. reflexivity. }
  destruct H as [req H].
  apply (cooldown_blocks_new_requests _ _ _ _ _ _ _ _ _ req
           RecoveryFixtures.initiated
           [(CallCancel RecoveryFixtures.rid, RecoveryFixtures.at_ 5000)]
           "key-1" "someone" "again" 2 (List.repeat x0b 16)
           (RecoveryFixtures.at_ 6000) (RecoveryFixtures.at_ 6000) H).
  - discriminate.
  - reflexivity.
Defined.

Lemma keepsClosed_refl r : keepsClosed r r.
Proof. split; [reflexivity | tauto]. Qed.

Lemma keepsClosed_trans r1 r2 r3 :
  keepsClosed r1 r2 -> keepsClosed r2 r3 -> keepsClosed r1 r3.
Proof. intros [H1 H2] [H3 H4]. split; [congruence | tauto]. Qed.

Lemma update_keepsClosed now r : keepsClosed r (updateRequestStatus now r).
Proof.
  unfold keepsClosed, updateRequestStatus.
  destruct (_ && _); [split; [reflexivity | discriminate]|].
  destruct (status_eqb (status r) approved && _) eqn:E;
    [|split; [reflexivity | tauto]].
  split; [reflexivity|]. intros _. apply andb_prop in E. destruct E as [E _].
  destruct (status r); try discriminate E; reflexivity.
Qed.

Lemma validate_snd now r allowed :
  snd (validateRequestStatus now r allowed) = updateRequestStatus now r.
Proof. unfold validateRequestStatus. destruct (existsb _ _); reflexivity. Qed.

Lemma validate_ok now r allowed u r1 :
  validateRequestStatus now r allowed = (inr u, r1) ->
  r1 = updateRequestStatus now r /\ In (status r1) allowed.
Proof.
  unfold validateRequestStatus.
  destruct (existsb _ allowed) eqn:E; [|discriminate].
  intros H. injection H as _ <-. split; [reflexivity|].
  apply existsb_exists in E. destruct E as [s [Hs Hq]].
  destruct (status (updateRequestStatus now r)), s; try discriminate Hq; exact Hs.
Qed.

Lemma shrinks_refl entries : shrinks entries entries.
Proof.
  induction entries as [|e l IH]; constructor; [|exact IH].
  split; [reflexivity | apply keepsClosed_refl].
Qed.

Lemma shrinks_trans e1 e2 e3 : shrinks e1 e2 -> shrinks e2 e3 -> shrinks e1 e3.
Proof.
  intros H. revert e3. induction H as [|a b l1 l2 [Hk Hc] _ IH]; intros e3 H3.
  - inversion H3. constructor.
  - inversion H3 as [|b' c l2' l3 [Hk' Hc'] Ht]; subst. constructor.
    + split; [congruence | eapply keepsClosed_trans; eassumption].
    + apply IH. exact Ht.
Qed.

Lemma shrinks_set k v v' : forall entries,
  JsMap.get k entries = Some v -> keepsClosed v v' ->
  shrinks entries (JsMap.set k v' entries).
Proof.
  induction entries as [|[k0 v0] l IH]; cbn [JsMap.get JsMap.set]; intros H Hc;
    [discriminate|].
  destruct (String.eqb_spec k k0) as [->|Hne].
  - injection H as ->. constructor; [split; [reflexivity | exact Hc]|].
    apply shrinks_refl.
  - constructor; [split; [reflexivity | apply keepsClosed_refl]|].
    apply IH; assumption.
Qed.

Lemma shrinks_store rid r r' m :
  JsMap.get rid (requests m) = Some r -> keepsClosed r r' ->
  shrinks (requests m) (requests (store rid r' m)).
Proof.
  intros H Hc. cbn [store requests]. apply (shrinks_set rid r r'); assumption.
Qed.

Lemma closed_keepsClosed r r' :
  walletAddress r' = walletAddress r -> isOpen (status r') = false ->
  keepsClosed r r'.
Proof. intros H1 H2. split; [exact H1 | congruence]. Qed.

Lemma open_in s l : In s l -> (forall x, In x l -> isOpen x = true) ->
  isOpen s = true.
Proof. intros H Hl. apply Hl, H. Qed.

Lemma addApproval_shrinks rid a clock m :
  shrinks (requests m) (requests (snd (addApproval rid a clock m))).
Proof.
  unfold addApproval.
  destruct (JsMap.get rid (requests m)) as [r|] eqn:Eg; [|apply shrinks_refl].
  destruct (validateRequestStatus _ r _) as [[e|u] r1] eqn:Ev.
  - pose proof (validate_snd (clock 0%nat) r [pending; approved]) as Hs.
    rewrite Ev in Hs. cbn [snd] in Hs. subst r1.
    apply (shrinks_store _ r); [exact Eg | apply update_keepsClosed].
  - destruct (validate_ok _ _ _ _ _ Ev) as [-> Hin].
    set (r1 := updateRequestStatus (clock 0%nat) r) in *.
    pose proof (update_keepsClosed (clock 0%nat) r) as [Hw Ho]. fold r1 in Hw, Ho.
    assert (Hopen : isOpen (status r) = true).
    { apply Ho. destruct Hin as [<-|[<-|[]]]; reflexivity. }
    destruct (existsb _ (approvals r1)).
    + apply (shrinks_store _ r); [exact Eg|]. split; [exact Hw | exact Ho].
    + apply (shrinks_store _ r); [exact Eg|].
      split; [|intros _; exact Hopen].
      destruct (_ && _); cbn; exact Hw.
Qed.

Lemma executeRecovery_shrinks rid clock m :
  shrinks (requests m) (requests (snd (executeRecovery rid clock m))).
Proof.
  unfold executeRecovery.
  destruct (JsMap.get rid (requests m)) as [r|] eqn:Eg; [|apply shrinks_refl].
  set (r0 := updateRequestStatus (clock 0%nat) r).
  assert (H0 : keepsClosed r r0) by apply update_keepsClosed.
  destruct (validateRequestStatus _ r0 _) as [[e|u] r1] eqn:Ev.
  - pose proof (validate_snd (clock 1%nat) r0 [ready]) as Hs.
    rewrite Ev in Hs. cbn [snd] in Hs. subst r1.
    apply (shrinks_store _ r); [exact Eg|].
    eapply keepsClosed_trans; [exact H0 | apply update_keepsClosed].
  - destruct (validate_ok _ _ _ _ _ Ev) as [-> _].
    assert (H1 : keepsClosed r (updateRequestStatus (clock 1%nat) r0)).
    { eapply keepsClosed_trans; [exact H0 | apply update_keepsClosed]. }
    destruct (Shamir.combineShares _).
    + apply (shrinks_store _ r); [exact Eg | exact H1].
    + apply (shrinks_store _ r); [exact Eg|].
      apply closed_keepsClosed; [apply H1 | reflexivity].
Qed.

Lemma cancelRecovery_shrinks rid clock m :
  shrinks (requests m) (requests (snd (cancelRecovery rid clock m))).
Proof.
  unfold cancelRecovery.
  destruct (JsMap.get rid (requests m)) as [r|] eqn:Eg; [|apply shrinks_refl].
  destruct (validateRequestStatus _ r _) as [[e|u] r1] eqn:Ev.
  - pose proof (validate_snd (clock 0%nat) r [pending; approved; ready]) as Hs.
    rewrite Ev in Hs. cbn [snd] in Hs. subst r1.
    apply (shrinks_store _ r); [exact Eg | apply update_keepsClosed].
  - destruct (validate_ok _ _ _ _ _ Ev) as [-> _].
    apply (shrinks_store _ r); [exact Eg|].
    apply closed_keepsClosed; [apply update_keepsClosed | reflexivity].
Qed.

Lemma pendingScan_shrinks w clock : forall entries k,
  shrinks entries (snd (pendingScan w clock k entries)).
Proof.
  induction entries as [|[key r] l IH]; intros k; cbn [pendingScan];
    [constructor|].
  destruct (_ && _).
  - constructor; [split; [reflexivity | apply update_keepsClosed]|].
    apply shrinks_refl.
  - specialize (IH (S k)). destruct (pendingScan w clock (S k) l) as [found rest].
    constructor; [split; [reflexivity | apply update_keepsClosed] | exact IH].
Qed.

Lemma walletScan_shrinks w clock : forall entries k,
  shrinks entries (snd (walletScan w clock k entries)).
Proof.
  induction entries as [|[key r] l IH]; intros k; cbn [walletScan];
    [constructor|].
  destruct (String.eqb _ _).
  - specialize (IH (S k)). destruct (walletScan w clock (S k) l) as [found rest].
    constructor; [split; [reflexivity | apply update_keepsClosed] | exact IH].
  - specialize (IH k). destruct (walletScan w clock k l) as [found rest].
    constructor; [split; [reflexivity | apply keepsClosed_refl] | exact IH].
Qed.

Lemma step_shrinks c clock m : shrinks (requests m) (requests (step c clock m)).
Proof.
  destruct c as [rid a|rid|rid|rid|rid|w|w]; cbn [step].
  - apply addApproval_shrinks.
  - apply executeRecovery_shrinks.
  - apply cancelRecovery_shrinks.
  - unfold getRequest.
    destruct (JsMap.get rid (requests m)) as [r|] eqn:Eg; [|apply shrinks_refl].
    apply (shrinks_store _ r); [exact Eg | apply update_keepsClosed].
  - unfold isReadyForExecution.
    destruct (JsMap.get rid (requests m)) as [r|] eqn:Eg; [|apply shrinks_refl].
    apply (shrinks_store _ r); [exact Eg | apply update_keepsClosed].
  - unfold getPendingRequest.
    pose proof (pendingScan_shrinks w clock (requests m) 0) as H.
    destruct (pendingScan w clock 0 (requests m)) as [found entries]. exact H.
  - unfold getRequestsForWallet.
    pose proof (walletScan_shrinks w clock (requests m) 0) as H.
    destruct (walletScan w clock 0 (requests m)) as [found entries]. exact H.
Qed.

(** The open requests of a wallet, counted on the entries. *)
Lemma shrinks_count w entries entries' :
  shrinks entries entries' ->
  (List.length (filter (fun r => String.eqb (walletAddress r) w
                                 && isOpen (status r))
                       (JsMap.values entries'))
   <= List.length (filter (fun r => String.eqb (walletAddress r) w
                                    && isOpen (status r))
                          (JsMap.values entries)))%nat.
Proof.
  induction 1 as [|[k r] [k' r'] l l' [_ [Hw Ho]] _ IH]; [cbn; lia|].
  cbn [JsMap.values map snd filter] in *. rewrite Hw.
  destruct (String.eqb (walletAddress r) w); cbn [andb]; [|exact IH].
  destruct (isOpen (status r')) eqn:E'.
  - rewrite (Ho eq_refl). cbn [List.length]. unfold JsMap.values in IH. lia.
  - destruct (isOpen (status r)); cbn [List.length]; unfold JsMap.values in IH; lia.
Qed.

Lemma pendingScan_none w clock : forall entries k,
  fst (pendingScan w clock k entries) = None ->
  filter (fun r => String.eqb (walletAddress r) w && isOpen (status r))
         (JsMap.values (snd (pendingScan w clock k entries))) = [].
Proof.
  induction entries as [|[key r] l IH]; intros k; cbn [pendingScan];
    [reflexivity|].
  destruct (_ && _) eqn:E; [discriminate|].
  specialize (IH (S k)). destruct (pendingScan w clock (S k) l) as [found rest].
  cbn [fst snd] in *. intros H. cbn [JsMap.values map snd filter].
  rewrite E. apply IH. exact H.
Qed.

Lemma filter_set_le {V} (f : V -> bool) k v : forall m : JsMap.t V,
  (List.length (filter f (JsMap.values (JsMap.set k v m)))
   <= List.length (filter f (JsMap.values m)) + (if f v then 1 else 0))%nat.
Proof.
  unfold JsMap.values.
  induction m as [|[k0 v0] m IH]; cbn [JsMap.set map snd filter].
  - destruct (f v); cbn; lia.
  - destruct (String.eqb k k0); cbn [map snd filter].
    + destruct (f v), (f v0); cbn [List.length]; lia.
    + destruct (f v0); cbn [List.length]; lia.
Qed.

Lemma apply_open_count w op m :
  (forall w', (List.length (openRequests w' m) <= 1)%nat) ->
  (List.length (openRequests w (apply m op)) <= 1)%nat.
Proof.
  intros Hm. destruct op as [c clock|p idBytes clock after]; cbn [apply].
  - pose proof (shrinks_count w _ _ (step_shrinks c clock m)) as H.
    specialize (Hm w). unfold openRequests in *. lia.
  - unfold initiate, initiateRecovery.
    destruct (cooldownActive _ _ _); [apply Hm|].
    unfold getPendingRequest.
    pose proof (pendingScan_shrinks (i_walletAddress p)
                  (fun k => clock (S k)) (requests m) 0) as Hs.
    pose proof (pendingScan_none (i_walletAddress p)
                  (fun k => clock (S k)) (requests m) 0) as Hn.
    destruct (pendingScan _ _ 0 (requests m)) as [[found|] entries];
      cbn [fst snd] in *.
    + pose proof (shrinks_count w _ _ Hs) as H. specialize (Hm w).
      unfold openRequests in *. cbn [requests]. lia.
    + cbn [snd requests config]. unfold openRequests. cbn [requests].
      match goal with
      | |- (List.length (filter ?f (JsMap.values (JsMap.set ?k ?v _))) <= 1)%nat =>
          pose proof (filter_set_le f k v entries) as Hle;
          cbn [walletAddress status] in Hle
      end.
      destruct (String.eqb_spec (i_walletAddress p) w) as [E|Hne].
      * rewrite E in Hn. rewrite (Hn eq_refl) in Hle. cbn [List.length] in Hle.
        destruct (_ && _) in Hle; lia.
      * cbn [andb] in Hle.
        pose proof (shrinks_count w _ _ Hs) as H. specialize (Hm w).
        unfold openRequests in Hm. lia.
Qed.

Lemma runOps_open_count : forall ops m,
  (forall w, (List.length (openRequests w m) <= 1)%nat) ->
  forall w, (List.length (openRequests w (runOps ops m)) <= 1)%nat.
Proof.
  induction ops as [|op ops IH]; intros m Hm w; [apply Hm|].
  cbn [runOps fold_left]. apply IH. intros w'. apply apply_open_count. exact Hm.
Qed.

(** X23.  After any sequence of calls on a new RecoveryManager
    (initiateRecovery, addApproval, executeRecovery, cancelRecovery and
    the reading methods, at any clock readings and with any random ids),
    every wallet address has at most one stored request whose status is
    pending, approved or ready; and what getPendingRequest returns is a
    request of that wallet with such a status. *)
Theorem one_open_request_per_wallet ops timelockHours0 expirationDays0
    notifyOwner0 cooldownHours0 w :
  let m := runOps ops (newManager timelockHours0 expirationDays0
                                  notifyOwner0 cooldownHours0) in
  (List.length (openRequests w m) <= 1)%nat
  /\ forall clock r,
       fst (getPendingRequest w clock m) = Some r ->
       walletAddress r = w /\ isOpen (status r) = true.
Proof.
  intros m. split.
  - apply runOps_open_count. intros w'. cbn. lia.
  - intros clock r H.
    unfold getPendingRequest in H.
    destruct (pendingScan w clock 0 (requests m)) as [found entries] eqn:E.
    cbn [fst] in H. subst found.
    assert (G : forall entries0 k es,
               pendingScan w clock k entries0 = (Some r, es) ->
               walletAddress r = w /\ isOpen (status r) = true).
    { induction entries0 as [|[key r0] l IH]; intros k es Hp; cbn [pendingScan] in Hp;
        [discriminate|].
      destruct (String.eqb_spec (walletAddress (updateRequestStatus (clock k) r0)) w)
        as [Hw|Hw]; cbn [andb] in Hp.
      - destruct (isOpen (status (updateRequestStatus (clock k) r0))) eqn:Eo.
        + injection Hp as <- _. split; [exact Hw | exact Eo].
        + destruct (pendingScan w clock (S k) l) as [f rest] eqn:Er.
          injection Hp as -> _. eapply IH. exact Er.
      - destruct (pendingScan w clock (S k) l) as [f rest] eqn:Er.
        injection Hp as -> _. eapply IH. exact Er. }
    eapply G. exact E.
Qed.

Lemma update_idle now r :
  now <= expiresAt r -> status r <> approved -> updateRequestStatus now r = r.
Proof.
  intros Ht Hs. unfold updateRequestStatus.
  destruct (Z.ltb_spec (expiresAt r) now); [lia|]. cbn [andb].
  destruct (status r); try reflexivity. contradiction Hs. reflexivity.
Qed.

Lemma update_waiting now r :
  status r = approved ->
  (forall T, timelockExpiresAt r = Some T -> now < T) ->
  updateRequestStatus now r = r \/ status (updateRequestStatus now r) = expired.
Proof.
  intros Hs HT. unfold updateRequestStatus.
  destruct (_ && _); [right; reflexivity|]. left.
  rewrite Hs. cbn [status_eqb andb]. unfold timelockPassed.
  destruct (timelockExpiresAt r) as [T|]; [|reflexivity].
  specialize (HT T eq_refl).
  destruct (Z.leb_spec T now); [lia|]. rewrite andb_false_r. reflexivity.
Qed.

Lemma update_expired_stays now r :
  status r = expired -> status (updateRequestStatus now r) = expired.
Proof.
  intros Hs. unfold updateRequestStatus.
  destruct (_ && _); [reflexivity|]. rewrite Hs. cbn [status_eqb andb]. exact Hs.
Qed.

Lemma update_pending now r :
  status r = pending ->
  status (updateRequestStatus now r) = pending
  \/ status (updateRequestStatus now r) = expired.
Proof.
  intros Hs. unfold updateRequestStatus.
  destruct (_ && _); [right; reflexivity|]. rewrite Hs. cbn [status_eqb andb].
  left. exact Hs.
Qed.

Lemma update_secret now r :
  recoveredSecret (updateRequestStatus now r) = recoveredSecret r.
Proof.
  unfold updateRequestStatus. destruct (_ && _); [reflexivity|].
  destruct (_ && _); reflexivity.
Qed.

Lemma executeRecovery_not_ready rid r clock m :
  JsMap.get rid (requests m) = Some r ->
  status (updateRequestStatus (clock 1%nat) (updateRequestStatus (clock 0%nat) r))
  <> ready ->
  executeRecovery rid clock m
  = (inl InvalidState,
     store rid (updateRequestStatus (clock 1%nat)
                  (updateRequestStatus (clock 0%nat) r)) m).
Proof.
  intros Hg Hs. unfold executeRecovery, validateRequestStatus. rewrite Hg.
  set (r1 := updateRequestStatus (clock 1%nat) _) in *.
  cbn [existsb]. destruct (status r1); try reflexivity. contradiction Hs. reflexivity.
Qed.

(** X24.  executeRecovery on a stored request that is pending, or
    approved with both clock readings of the call earlier than
    timelockExpiresAt, fails with 'Invalid request status: ...'; the
    request is then neither ready nor executed and its recoveredSecret
    is unchanged. *)
Theorem timelock_is_enforced rid r clock m :
  JsMap.get rid (requests m) = Some r ->
  status r = pending
  \/ (status r = approved
      /\ forall T, timelockExpiresAt r = Some T ->
                   clock 0%nat < T /\ clock 1%nat < T) ->
  fst (executeRecovery rid clock m) = inl InvalidState
  /\ exists r',
       JsMap.get rid (requests (snd (executeRecovery rid clock m))) = Some r'
       /\ status r' <> executed /\ status r' <> ready
       /\ recoveredSecret r' = recoveredSecret r.
Proof.
  intros Hg Hs.
  set (r0 := updateRequestStatus (clock 0%nat) r).
  set (r1 := updateRequestStatus (clock 1%nat) r0).
  assert (H1 : status r1 <> ready /\ status r1 <> executed).
  { destruct Hs as [Hs|[Hs HT]].
    - destruct (update_pending (clock 0%nat) r Hs) as [H0|H0]; fold r0 in H0.
      + destruct (update_pending (clock 1%nat) r0 H0) as [H|H]; fold r1 in H;
          rewrite H; split; discriminate.
      + pose proof (update_expired_stays (clock 1%nat) r0 H0) as H. fold r1 in H.
        rewrite H. split; discriminate.
    - destruct (update_waiting (clock 0%nat) r Hs) as [H0|H0].
      { intros T HTt. apply (HT T HTt). }
      + fold r0 in H0.
        destruct (update_waiting (clock 1%nat) r Hs) as [H|H].
        { intros T HTt. apply (HT T HTt). }
        * unfold r1. rewrite H0, H, Hs. split; discriminate.
        * unfold r1. rewrite H0, H. split; discriminate.
      + fold r0 in H0.
        pose proof (update_expired_stays (clock 1%nat) r0 H0) as H. fold r1 in H.
        rewrite H. split; discriminate. }
  destruct H1 as [Hr He].
  rewrite (executeRecovery_not_ready rid r clock m Hg Hr). fold r0 r1.
  cbn [fst snd]. split; [reflexivity|]. exists r1.
  split; [cbn [store requests]; apply JsMapFacts.get_set_same|].
  split; [exact He|]. split; [exact Hr|].
  unfold r1, r0. rewrite !update_secret. reflexivity.
Qed.

Lemma timelock_is_enforced_witness :
  fst (executeRecovery RecoveryFixtures.rid (RecoveryFixtures.at_ 4000)
         RecoveryFixtures.approvedManager) = inl InvalidState.
Proof.
  refine (proj1 (timelock_is_enforced RecoveryFixtures.rid
            (mkRequest RecoveryFixtures.rid "0xabc" "key-1" "new-owner"
               "lost device" approved 2
               [mkApproval "guardian-1" 1 (Hex.bigIntToHex 8) 2000 None;
                mkApproval "guardian-2" 2 (Hex.bigIntToHex 15) 3000 None]
               172800000 1000 (Some 3000) (Some 172803000) 604801000
               None None)
            (RecoveryFixtures.at_ 4000) RecoveryFixtures.approvedManager _ _)).
  - reflexivity.
  - right. split; [reflexivity|]. intros T H. injection H as <-.
    unfold RecoveryFixtures.at_. lia.
Defined.

Lemma validate_pending now r :
  status r = pending -> now <= expiresAt r ->
  validateRequestStatus now r [pending; approved] = (inr tt, r).
Proof.
  intros Hs Ht. unfold validateRequestStatus.
  rewrite (update_idle now r Ht) by (rewrite Hs; discriminate).
  rewrite Hs. reflexivity.
Qed.

(** One approval of a guardian who has not approved yet, on a pending
    request before its expiry. *)
Lemma addApproval_pending rid a clock m r :
  JsMap.get rid (requests m) = Some r ->
  status r = pending -> clock 0%nat <= expiresAt r ->
  ~ In (guardianId a) (map guardianId (approvals r)) ->
  let r2 := set_approvals (approvals r ++ [stamped (a, clock)]) r in
  let r3 :=
    if threshold r <=? Z.of_nat (List.length (approvals r) + 1)
    then set_approved (clock 2%nat) (clock 3%nat + timelockMs r) r2
    else r2 in
  addApproval rid a clock m = (inr r3, store rid r3 m).
Proof.
  intros Hg Hs Ht Hnew r2 r3. unfold addApproval. rewrite Hg.
  rewrite (validate_pending _ r Hs Ht).
  assert (Hd : existsb (fun a0 => String.eqb (guardianId a0) (guardianId a))
                       (approvals r) = false).
  { apply not_true_is_false. intros H. apply existsb_exists in H.
    destruct H as [a0 [Hin He]]. apply String.eqb_eq in He.
    apply Hnew. rewrite <- He. apply in_map. exact Hin. }
  rewrite Hd. cbn [set_approvals approvals threshold status timelockMs].
  rewrite length_app. cbn [List.length]. rewrite Hs. cbn [status_eqb].
  rewrite andb_true_r. unfold r3, r2, stamped. cbn [fst snd].
  destruct (_ <=? _); reflexivity.
Qed.

Lemma approve_steps rid d : forall apps m r,
  JsMap.get rid (requests m) = Some r ->
  status r = pending ->
  apps <> [] ->
  Z.of_nat (List.length (approvals r) + List.length apps) = threshold r ->
  NoDup (map guardianId (approvals r ++ map stamped apps)) ->
  (forall p, In p apps -> snd p 0%nat <= expiresAt r) ->
  let final := snd (last apps d) in
  JsMap.get rid (requests (approveAll rid apps m))
  = Some (set_approved (final 2%nat) (final 3%nat + timelockMs r)
            (set_approvals (approvals r ++ map stamped apps) r)).
Proof.
  induction apps as [|[a clock] rest IH]; intros m r Hg Hs Hne Hlen Hnd Hexp;
    [contradiction|].
  assert (Hnew : ~ In (guardianId a) (map guardianId (approvals r))).
  { rewrite map_app in Hnd. cbn [map] in Hnd.
    apply NoDup_remove_2 in Hnd. intros H. apply Hnd.
    apply in_or_app. left. exact H. }
  assert (Ht : clock 0%nat <= expiresAt r).
  { apply (Hexp (a, clock)). left. reflexivity. }
  pose proof (addApproval_pending rid a clock m r Hg Hs Ht Hnew) as Hstep.
  cbv zeta in Hstep.
  unfold approveAll. cbn [map run step fst snd]. rewrite Hstep. cbn [snd].
  destruct rest as [|p rest].
  - cbn [List.length] in Hlen.
    destruct (Z.leb_spec (threshold r) (Z.of_nat (List.length (approvals r) + 1)));
      [|lia].
    cbn [map run last snd]. cbn [store requests].
    rewrite JsMapFacts.get_set_same. reflexivity.
  - cbn [List.length] in Hlen.
    destruct (Z.leb_spec (threshold r) (Z.of_nat (List.length (approvals r) + 1)));
      [lia|].
    pose proof (IH (store rid (set_approvals
                                 (approvals r ++ [stamped (a, clock)]) r) m)
                   (set_approvals (approvals r ++ [stamped (a, clock)]) r))
      as HIH.
    unfold approveAll in HIH.
    cbn [set_approvals approvals status threshold expiresAt timelockMs] in HIH.
    rewrite <- !app_assoc in HIH. cbn [app] in HIH.
    change (last ((a, clock) :: p :: rest)) with (last (p :: rest)).
    apply HIH.
    + cbn [store requests]. apply JsMapFacts.get_set_same.
    + exact Hs.
    + discriminate.
    + rewrite length_app. cbn [List.length]. lia.
    + exact Hnd.
    + intros q Hq. apply Hexp. right. exact Hq.
Qed.

(** X25.  On a pending request, when guardians that have not approved
    yet approve one after the other before the expiry and their number
    brings the approvals up to the threshold, the request ends approved,
    its approvals are the old ones followed by the new ones in order,
    each stamped with its own clock reading, and timelockExpiresAt is
    the clock reading of the last approval plus timelockMs. *)
Theorem approvals_start_the_timelock rid apps m r d :
  JsMap.get rid (requests m) = Some r ->
  status r = pending ->
  apps <> [] ->
  Z.of_nat (List.length (approvals r) + List.length apps) = threshold r ->
  NoDup (map guardianId (approvals r ++ map stamped apps)) ->
  (forall p, In p apps -> snd p 0%nat <= expiresAt r) ->
  exists r',
    JsMap.get rid (requests (approveAll rid apps m)) = Some r'
    /\ status r' = approved
    /\ approvals r' = approvals r ++ map stamped apps
    /\ req_approvedAt r' = Some (snd (last apps d) 2%nat)
    /\ timelockExpiresAt r' = Some (snd (last apps d) 3%nat + timelockMs r)
    /\ expiresAt r' = expiresAt r /\ threshold r' = threshold r
    /\ walletAddress r' = walletAddress r.
Proof.
  intros Hg Hs Hne Hlen Hnd Hexp.
  pose proof (approve_steps rid d apps m r Hg Hs Hne Hlen Hnd Hexp) as H.
  cbv zeta in H.
  eexists. split; [exact H|]. cbn. repeat split; reflexivity.
Qed.

Lemma approvals_start_the_timelock_witness :
  exists r',
    JsMap.get RecoveryFixtures.rid
      (requests (approveAll RecoveryFixtures.rid
                   [(RecoveryFixtures.approval1, RecoveryFixtures.at_ 2000);
                    (RecoveryFixtures.approval2, RecoveryFixtures.at_ 3000)]
                   RecoveryFixtures.initiated)) = Some r'
    /\ status r' = approved
    /\ timelockExpiresAt r' = Some 172803000.
Proof.
  destruct (approvals_start_the_timelock RecoveryFixtures.rid
              [(RecoveryFixtures.approval1, RecoveryFixtures.at_ 2000);
               (RecoveryFixtures.approval2, RecoveryFixtures.at_ 3000)]
              RecoveryFixtures.initiated
              (mkRequest RecoveryFixtures.rid "0xabc" "key-1" "new-owner"
                 "lost device" pending 2 [] 172800000 1000 None None 604801000
                 None None)
              (RecoveryFixtures.approval1, RecoveryFixtures.at_ 0))
    as [r' [H1 [H2 [_ [_ [H5 _]]]]]].
  - reflexivity.
  - reflexivity.
  - discriminate.
  - reflexivity.
  - cbn. repeat constructor; cbn; intuition discriminate.
  - intros p [<-|[<-|[]]]; cbn; unfold RecoveryFixtures.at_; lia.
  - exists r'. split; [exact H1|]. split; [exact H2 | exact H5].
Defined.

(** Past the timelock and before the expiry, an approved or ready
    request is ready after the update. *)
Lemma update_ready now r :
  status r = approved \/ status r = ready ->
  (status r = approved ->
   exists T, timelockExpiresAt r = Some T /\ T <> 0 /\ T <= now) ->
  now <= expiresAt r ->
  updateRequestStatus now r = set_status ready r.
Proof.
  intros Hs HT Ht. unfold updateRequestStatus.
  destruct (Z.ltb_spec (expiresAt r) now); [lia|]. cbn [andb].
  destruct Hs as [Hs|Hs].
  - destruct (HT Hs) as [T [H1 [H2 H3]]]. rewrite Hs. cbn [status_eqb andb].
    unfold timelockPassed. rewrite H1.
    destruct (Z.eqb_spec T 0); [contradiction|].
    destruct (Z.leb_spec T now); [reflexivity | lia].
  - rewrite Hs. cbn [status_eqb andb]. destruct r; cbn in *. subst. reflexivity.
Qed.

Lemma update_executed now r :
  status r = executed -> updateRequestStatus now r = r.
Proof.
  intros Hs. unfold updateRequestStatus. rewrite Hs. cbn [status_eqb negb andb].
  rewrite andb_false_r. reflexivity.
Qed.

(** X26.  If the approvals of an approved (timelock passed) or ready
    request carry at least threshold different shares of
    splitSecret(secret, n, threshold), then executeRecovery before the
    expiry returns the secret as a 64-digit hex string, stores it in
    recoveredSecret with status executed and executedAt, keeps the
    approvals with their share values, and every later executeRecovery
    on that request fails. *)
Theorem executeRecovery_returns_the_secret secret s totalShares0 threshold0 entropy
    shares rid r clock m :
  Shamir.splitSecret secret totalShares0 threshold0 entropy = inr shares ->
  Hex.hexToBigInt secret = Some s ->
  JsMap.get rid (requests m) = Some r ->
  status r = approved \/ status r = ready ->
  (status r = approved ->
   exists T, timelockExpiresAt r = Some T /\ T <> 0 /\ T <= clock 0%nat) ->
  clock 0%nat <= expiresAt r -> clock 1%nat <= expiresAt r ->
  NoDup (sharesOf r) -> incl (sharesOf r) shares ->
  threshold0 <= Z.of_nat (List.length (approvals r)) ->
  exists r',
    executeRecovery rid clock m = (inr (Hex.bigIntToHex s), store rid r' m)
    /\ status r' = executed
    /\ recoveredSecret r' = Some (Hex.bigIntToHex s)
    /\ executedAt r' = Some (clock 2%nat)
    /\ approvals r' = approvals r
    /\ forall clock',
         fst (executeRecovery rid clock' (store rid r' m)) = inl InvalidState.
Proof.
  intros Hsplit Hs Hg Hst HT Ht0 Ht1 Hnd Hincl Hk.
  assert (Hc : Shamir.combineShares (sharesOf r) = inr (Hex.bigIntToHex s)).
  { apply (KeyGenLaws.split_quorum secret s totalShares0 threshold0 entropy shares);
      try assumption.
    unfold sharesOf. rewrite length_map. exact Hk. }
  exists (set_executed (clock 2%nat) (Hex.bigIntToHex s) (set_status ready r)).
  split.
  - unfold executeRecovery. rewrite Hg.
    rewrite (update_ready (clock 0%nat) r Hst HT Ht0).
    unfold validateRequestStatus.
    rewrite (update_idle (clock 1%nat) (set_status ready r))
      by (cbn; first [exact Ht1 | discriminate]).
    cbn [status set_status existsb status_eqb orb approvals].
    change (map (fun a => Shamir.mkShare (shareIndex a) (shareValue a))
                (approvals r)) with (sharesOf r).
    rewrite Hc. reflexivity.
  - split; [reflexivity|]. split; [reflexivity|]. split; [reflexivity|].
    split; [reflexivity|]. intros clock'.
    set (r' := set_executed (clock 2%nat) (Hex.bigIntToHex s)
                            (set_status ready r)).
    rewrite (executeRecovery_not_ready rid r' clock' (store rid r' m)).
    + reflexivity.
    + cbn [store requests]. apply JsMapFacts.get_set_same.
    + rewrite (update_executed (clock' 0%nat) r' eq_refl).
      rewrite (update_executed (clock' 1%nat) r' eq_refl). discriminate.
Qed.

Lemma executeRecovery_returns_the_secret_witness :
  fst (executeRecovery RecoveryFixtures.rid (RecoveryFixtures.at_ 172803000)
         RecoveryFixtures.approvedManager)
  = inr (Hex.bigIntToHex 1).
Proof.
  destruct (executeRecovery_returns_the_secret "01" 1 3 2
              RecoveryOpsFixtures.coefficient7
              (Shamir.shareLoop [1; 7] 3) RecoveryFixtures.rid
              RecoveryOpsFixtures.approvedRequest
              (RecoveryFixtures.at_ 172803000) RecoveryFixtures.approvedManager)
    as [r' [H _]].
  - vm_compute. reflexivity.
  - reflexivity.
  - reflexivity.
  - left. reflexivity.
  - intros _. exists 172803000. split; [reflexivity|].
    split; [discriminate | unfold RecoveryFixtures.at_; lia].
  - unfold RecoveryFixtures.at_. cbn. lia.
  - unfold RecoveryFixtures.at_. cbn. lia.
  - cbn. constructor; [|constructor; [intros [] | constructor]].
    intros [H|[]]. discriminate H.
  - intros sh [<-|[<-|[]]]; vm_compute; auto.
  - cbn. lia.
  - rewrite H. reflexivity.
Defined.

(** For an approved request with a timelock, before its expiry,
    getTimelockRemaining is max(0, timelockExpiresAt - now), and
    isReadyForExecution at the same reading is true exactly when it is
    0. *)
Theorem ready_when_no_time_remains rid r now m T :
  JsMap.get rid (requests m) = Some r ->
  status r = approved ->
  timelockExpiresAt r = Some T -> T <> 0 ->
  now <= expiresAt r ->
  getTimelockRemaining rid now m = Z.max 0 (T - now)
  /\ (fst (isReadyForExecution rid (fun _ => now) m) = true
      <-> getTimelockRemaining rid now m = 0).
Proof.
  intros Hg Hs HT Hnz Ht.
  assert (Hr : getTimelockRemaining rid now m = Z.max 0 (T - now)).
  { unfold getTimelockRemaining. rewrite Hg, HT.
    destruct (Z.eqb_spec T 0); [contradiction | reflexivity]. }
  split; [exact Hr|].
  rewrite Hr. unfold isReadyForExecution. rewrite Hg. cbn [fst].
  unfold updateRequestStatus.
  destruct (Z.ltb_spec (expiresAt r) now); [lia|]. cbn [andb].
  rewrite Hs. cbn [status_eqb andb]. unfold timelockPassed. rewrite HT.
  destruct (Z.eqb_spec T 0); [contradiction|]. cbn [negb andb].
  destruct (Z.leb_spec T now); cbn [status set_status status_eqb].
  - split; [intros _; lia | reflexivity].
  - rewrite Hs. cbn [status_eqb]. split; [discriminate | lia].
Qed.

Lemma ready_when_no_time_remains_witness :
  getTimelockRemaining RecoveryFixtures.rid 4000 RecoveryFixtures.approvedManager
  = 172799000.
Proof.
  refine (proj1 (ready_when_no_time_remains RecoveryFixtures.rid
                   RecoveryOpsFixtures.approvedRequest 4000
                   RecoveryFixtures.approvedManager 172803000 _ _ _ _ _)).
  - reflexivity.
  - reflexivity.
  - reflexivity.
  - discriminate.
  - cbn. lia.
Defined.

End RecoveryLaws.

Module FacadeLaws.
Import Threshold MPCWallet FacadeOps.

(** X27.  On a facade whose MPC wallet has a state, canSign() is true
    exactly when getSharesNeeded() is 0, and getSharesNeeded() is max(0,
    threshold - collected); without a state getSharesNeeded() is 0
    although canSign() is false. *)
Theorem canSign_when_no_share_is_needed w :
  match state (Facade.mpcWallet w) with
  | None => getSharesNeeded w = 0 /\ Facade.canSign w = false
  | Some s =>
      (Facade.canSign w = true <-> getSharesNeeded w = 0)
      /\ getSharesNeeded w
         = Z.max 0 (threshold (st_config s)
                    - Z.of_nat (List.length (collectedShares (Facade.mpcWallet w))))
  end.
Proof.
  unfold getSharesNeeded, Facade.canSign, MPCWallet.canSign, WalletOps.getConfig,
    getCollectedShareCount.
  destruct (state (Facade.mpcWallet w)) as [s|]; cbn [option_map].
  - split; [|reflexivity].
    destruct (Z.leb_spec (threshold (st_config s))
                (Z.of_nat (List.length (collectedShares (Facade.mpcWallet w))))).
    + split; [intros _; lia | reflexivity].
    + split; [discriminate | lia].
  - split; reflexivity.
Qed.

Section WithPrimitives.
Variable P : Primitives.

Lemma addShare_result sh pw mw r mw' :
  addShare P sh pw mw = (r, mw') ->
  state mw' = state mw
  /\ ((r = inr true /\ exists s k,
         state mw = Some s /\ e_keyId sh = st_keyId s
         /\ index k = e_index sh
         /\ collectedShares mw' = collectedShares mw ++ [k])
      \/ (r <> inr true /\ mw' = mw)).
Proof.
  unfold addShare.
  destruct (state mw) as [s|] eqn:Hs.
  2:{ intros H. injection H as <- <-. split; [exact Hs|].
      right. split; [discriminate | reflexivity]. }
  destruct (String.eqb_spec (e_keyId sh) (st_keyId s)) as [Hid|Hid]; cbn [negb].
  2:{ intros H. injection H as <- <-. split; [exact Hs|].
      right. split; [discriminate | reflexivity]. }
  destruct (existsb _ _).
  { intros H. injection H as <- <-. split; [exact Hs|].
    right. split; [discriminate | reflexivity]. }
  destruct (Encryption.deserializePayload P _) as [e|payload].
  { intros H. injection H as <- <-. split; [exact Hs|].
    right. split; [discriminate | reflexivity]. }
  destruct (Encryption.decrypt P payload pw) as [e|v].
  { intros H. injection H as <- <-. split; [exact Hs|].
    right. split; [discriminate | reflexivity]. }
  intros H. injection H as <- <-. cbn [state collectedShares].
  split; [reflexivity|]. left. split; [reflexivity|].
  eexists s, _. split; [reflexivity|]. split; [exact Hid|].
  split; [|reflexivity]. reflexivity.
Qed.

Lemma unlockLoop_failed : forall shares pw mw b mw',
  unlockLoop P shares pw false mw = (inr b, mw') -> b = false.
Proof.
  induction shares as [|sh rest IH]; intros pw mw b mw' H; cbn [unlockLoop] in H.
  - injection H as <- _. reflexivity.
  - destruct (addShare P sh pw mw) as [[e|added] mw1]; [discriminate|].
    cbn [andb] in H. eapply IH. exact H.
Qed.

Lemma existsb_app_l (f : KeyShare -> bool) l l' :
  existsb f l = true -> existsb f (l ++ l') = true.
Proof. intros H. rewrite existsb_app, H. reflexivity. Qed.

(** A successful unlocking has added every share of the list; a share
    whose index is not NaN is then found in memory by its index. *)
Lemma unlockLoop_added : forall shares pw mw mw',
  unlockLoop P shares pw true mw = (inr true, mw') ->
  state mw' = state mw
  /\ List.length (collectedShares mw')
     = (List.length (collectedShares mw) + List.length shares)%nat
  /\ (forall f, existsb f (collectedShares mw) = true ->
                existsb f (collectedShares mw') = true)
  /\ (shares <> [] ->
      exists s, state mw = Some s
        /\ Forall (fun sh =>
                     e_keyId sh = st_keyId s
                     /\ (JsNumber.isNaN (e_index sh) = false ->
                         existsb (fun k => JsNumber.strictEq (index k) (e_index sh))
                                 (collectedShares mw') = true)) shares).
Proof.
  induction shares as [|sh rest IH]; intros pw mw mw' H;
    cbn [unlockLoop] in H.
  - injection H as <-. split; [reflexivity|]. split; [cbn; lia|].
    split; [tauto|]. intros Hne. contradiction Hne. reflexivity.
  - destruct (addShare P sh pw mw) as [[e|added] mw1] eqn:Ea; [discriminate|].
    destruct added.
    2:{ cbn [andb] in H. apply unlockLoop_failed in H. discriminate H. }
    cbn [andb] in H.
    destruct (addShare_result _ _ _ _ _ Ea) as [Hst [[_ [s [k [Hs [Hid [Hk Hc]]]]]]|[Hn _]]];
      [|contradiction Hn; reflexivity].
    destruct (IH pw mw1 mw' H) as [H1 [H2 [H3 H4]]].
    split; [congruence|]. split.
    { rewrite H2, Hc, length_app. cbn [List.length]. lia. }
    split.
    { intros f Hf. apply H3. rewrite Hc. apply existsb_app_l. exact Hf. }
    intros _. exists s. split; [exact Hs|]. constructor.
    + split; [exact Hid|]. intros Hsh.
      apply H3. rewrite Hc, existsb_app. cbn [existsb].
      rewrite Hk, (NumberLaws.strictEq_refl _ Hsh). rewrite orb_true_r.
      reflexivity.
    + destruct rest as [|sh2 rest']; [constructor|].
      destruct H4 as [s' [Hs' Hall]]; [discriminate|].
      rewrite Hst, Hs in Hs'. injection Hs' as <-. exact Hall.
Qed.

(** On shares that are all in memory the loop adds nothing. *)
Lemma unlockLoop_again s : forall shares pw b mw,
  state mw = Some s ->
  Forall (fun sh =>
            e_keyId sh = st_keyId s
            /\ existsb (fun k => JsNumber.strictEq (index k) (e_index sh))
                       (collectedShares mw) = true) shares ->
  unlockLoop P shares pw b mw
  = (inr (match shares with [] => b | _ => false end), mw).
Proof.
  induction shares as [|sh rest IH]; intros pw b mw Hs Hall; [reflexivity|].
  inversion Hall as [|? ? [Hid Hex] Hrest]; subst.
  cbn [unlockLoop]. unfold addShare. rewrite Hs, Hid, String.eqb_refl.
  cbn [negb]. rewrite Hex. rewrite andb_false_r.
  rewrite (IH pw false mw Hs Hrest). destruct rest; reflexivity.
Qed.

(** X28.  When unlockOwnerShares returns true it has added one share
    per owner share to the MPC wallet and has left the stored owner
    shares as they were; and when no owner share has the index NaN,
    every further unlockOwnerShares, with any password, returns false
    and changes nothing: each share is found in memory by its index.  (A
    share whose index is NaN is never found, NaN being [===] to
    nothing.) *)
Theorem owner_shares_unlock_once password w w1 :
  unlockOwnerShares P password w = (inr true, w1) ->
  List.length (collectedShares (Facade.mpcWallet w1))
  = (List.length (collectedShares (Facade.mpcWallet w))
     + List.length (Facade.ownerEncryptedShares w))%nat
  /\ Facade.ownerEncryptedShares w1 = Facade.ownerEncryptedShares w
  /\ (Forall (fun sh => JsNumber.isNaN (e_index sh) = false)
             (Facade.ownerEncryptedShares w) ->
      forall password',
        unlockOwnerShares P password' w1 = (inr false, w1)).
Proof.
  unfold unlockOwnerShares. intros H.
  destruct (Facade.ownerEncryptedShares w) as [|sh rest] eqn:Eo; [discriminate|].
  destruct (unlockLoop P (sh :: rest) password true (Facade.mpcWallet w))
    as [[e|b] mw] eqn:El; [discriminate|].
  injection H as -> <-. cbn [Facade.set_mpcWallet Facade.mpcWallet Facade.ownerEncryptedShares].
  destruct (unlockLoop_added _ _ _ _ El) as [Hst [Hlen [_ Hall]]].
  destruct Hall as [s [Hs Hall]]; [discriminate|].
  split; [exact Hlen|]. split; [exact Eo|]. intros Hnum password'. rewrite Eo.
  rewrite (unlockLoop_again s (sh :: rest) password' true mw);
    [| congruence |].
  - unfold Facade.set_mpcWallet. cbn. reflexivity.
  - rewrite Forall_forall in *. intros sh0 Hin.
    destruct (Hall sh0 Hin) as [Hid Hex].
    split; [exact Hid | exact (Hex (Hnum sh0 Hin))].
Qed.

End WithPrimitives.

Lemma owner_shares_unlock_once_witness :
  exists w1,
    unlockOwnerShares WalletFixtures.clearPrimitives "one"
      FacadeFixtures.ownerWallet = (inr true, w1)
    /\ unlockOwnerShares WalletFixtures.clearPrimitives "one" w1 = (inr false, w1).
Proof.
  eexists. split; [vm_compute; reflexivity|].
  refine (proj2 (proj2 (owner_shares_unlock_once WalletFixtures.clearPrimitives
                          "one" FacadeFixtures.ownerWallet _ _)) _ "one"%string).
  - vm_compute. reflexivity.
  - repeat constructor.
Defined.

(** Where it ends: an owner share whose index is NaN is never found in
    memory, so the second unlocking decrypts it again, collects it a
    second time and returns true. *)
Example nan_owner_share_unlocks_again :
  let w := FacadeFixtures.nanOwnerWallet in
  let w1 := snd (unlockOwnerShares WalletFixtures.clearPrimitives "one" w) in
  let w2 := snd (unlockOwnerShares WalletFixtures.clearPrimitives "one" w1) in
  fst (unlockOwnerShares WalletFixtures.clearPrimitives "one" w) = inr true
  /\ fst (unlockOwnerShares WalletFixtures.clearPrimitives "one" w1) = inr true
  /\ List.length (collectedShares (Facade.mpcWallet w2)) = 2%nat.
Proof. vm_compute. repeat split; reflexivity. Qed.

(** X29.  addRecoveryApproval reads only the guardian's share index:
    changing the guardian's status to anything (pending, accepted,
    declined or revoked) changes neither what the call returns or throws
    nor the recovery manager it leaves. *)
Theorem recovery_approval_ignores_guardian_status w gid s now rid v clock :
  let w' :=
    set_guardianManager
      (GuardianOps.updateGuardianStatus gid s now (Facade.guardianManager w)) w in
  fst (addRecoveryApproval rid gid v clock w')
  = fst (addRecoveryApproval rid gid v clock w)
  /\ Facade.recoveryManager (snd (addRecoveryApproval rid gid v clock w'))
     = Facade.recoveryManager (snd (addRecoveryApproval rid gid v clock w)).
Proof.
  intros w'. unfold w', addRecoveryApproval, Guardian.getGuardian,
    GuardianOps.updateGuardianStatus, set_guardianManager.
  cbn [Facade.guardianManager].
  destruct (JsMap.get gid (Guardian.guardians (Facade.guardianManager w))) as [g|] eqn:Eg.
  - cbn [Guardian.guardians]. rewrite JsMapFacts.get_set_same.
    assert (Hi : Guardian.shareIndex
                   (if GuardianOps.status_eqb s Guardian.accepted
                    then Guardian.set_acceptedAt now (Guardian.set_status s g)
                    else Guardian.set_status s g) = Guardian.shareIndex g).
    { destruct (GuardianOps.status_eqb s Guardian.accepted); reflexivity. }
    rewrite Hi. cbn [Facade.recoveryManager].
    destruct (Recovery.addApproval rid _ clock (Facade.recoveryManager w)) as [r rm].
    split; reflexivity.
  - rewrite Eg. split; reflexivity.
Qed.

End FacadeLaws.

(* ================================================================== *)
(** * Proofs: fewer than [threshold] shares fit every secret *)
(* ================================================================== *)

Module SecrecyLaws.
Import Field Hex Shamir Poly Lagrange ShamirEntropy.
Import FieldFacts HexFacts PolyFacts ShamirFacts.

Lemma to_N_zToByte v : Z.of_N (Byte.to_N (Hash.zToByte v)) = v mod 256.
Proof.
  unfold Hash.zToByte.
  assert (Hr : 0 <= v mod 256 < 256) by (apply Z.mod_pos_bound; lia).
  destruct (Byte.of_N (Z.to_N (v mod 256))) as [b|] eqn:Hb.
  - apply Byte.to_of_N in Hb. rewrite Hb. apply Z2N.id. lia.
  - apply Byte.of_N_None_iff in Hb. lia.
Qed.

Lemma fold_block : forall n v acc,
  0 <= acc ->
  fold_left (fun value b => Z.lor (Z.shiftl value 8) (Z.of_N (Byte.to_N b)))
            (map Hash.zToByte (Hash.bigEndian n v)) acc
  = acc * 256 ^ Z.of_nat n + v mod 256 ^ Z.of_nat n.
Proof.
  induction n as [|n IH]; intros v acc Hacc.
  - cbn [Hash.bigEndian map fold_left]. change (256 ^ Z.of_nat 0) with 1.
    rewrite Z.mod_1_r. lia.
  - cbn [Hash.bigEndian]. rewrite map_app, fold_left_app, IH by exact Hacc.
    cbn [map fold_left]. rewrite to_N_zToByte.
    assert (Hp : 0 < 256 ^ Z.of_nat n) by (apply Z.pow_pos_nonneg; lia).
    assert (Hm : 0 <= (v / 256) mod 256 ^ Z.of_nat n < 256 ^ Z.of_nat n)
      by (apply Z.mod_pos_bound; exact Hp).
    rewrite SamplerFacts.lor_shiftl_byte; [| nia | apply Z.mod_pos_bound; lia].
    rewrite Nat2Z.inj_succ, Z.pow_succ_r by lia.
    assert (Hv : v mod (256 * 256 ^ Z.of_nat n)
                 = 256 * ((v / 256) mod 256 ^ Z.of_nat n) + v mod 256).
    { symmetry.
      apply (Z.mod_unique_pos _ _ (v / 256 / 256 ^ Z.of_nat n)).
      - pose proof (Z.mod_pos_bound v 256). lia.
      - pose proof (Z.div_mod v 256).
        pose proof (Z.div_mod (v / 256) (256 ^ Z.of_nat n)). nia. }
    rewrite Hv, Z.mod_mod by lia. ring.
Qed.

Lemma length_blockOf v : List.length (blockOf v) = 32%nat.
Proof.
  unfold blockOf. rewrite length_map.
  generalize 32%nat. intros n. revert v.
  induction n as [|n IH]; intros v; [reflexivity|].
  cbn [Hash.bigEndian]. rewrite length_app, IH. cbn. lia.
Qed.

(** [randomFieldElement] reads the block of a field element back. *)
Lemma randomFieldElement_blockOf v :
  0 <= v < PRIME -> randomFieldElement (blockOf v) = v.
Proof.
  intros Hv. unfold randomFieldElement, blockOf.
  rewrite fold_block by lia.
  assert (Hlt : PRIME < 256 ^ Z.of_nat 32) by (vm_compute; reflexivity).
  rewrite Z.mod_small by lia. rewrite Z.mul_0_l, Z.add_0_l.
  apply Z.rem_small. exact Hv.
Qed.

Lemma drawCoefficients_entropyOf coefficients :
  (forall c, In c coefficients -> 0 <= c < PRIME) ->
  drawCoefficients (Z.of_nat (S (List.length coefficients)))
                   (entropyOf coefficients)
  = coefficients.
Proof.
  intros Hr. unfold drawCoefficients.
  replace (Z.to_nat (Z.of_nat (S (List.length coefficients)) - 1))
    with (List.length coefficients) by lia.
  apply nth_ext with (d := 0) (d' := 0).
  - rewrite length_map, length_seq. reflexivity.
  - rewrite length_map, length_seq. intros n Hn.
    rewrite (nth_indep _ 0 (randomFieldElement (entropyOf coefficients 0)))
      by (rewrite length_map, length_seq; exact Hn).
    rewrite (map_nth (fun i => randomFieldElement (entropyOf coefficients i))).
    rewrite seq_nth by exact Hn. unfold entropyOf. cbn [Nat.add Nat.pred].
    apply randomFieldElement_blockOf. apply Hr. apply nth_In. exact Hn.
Qed.

Lemma peval_zeros n X : peval (repeat 0 n) X = 0.
Proof. induction n as [|n IH]; cbn [repeat peval]; [reflexivity|]. rewrite IH. ring. Qed.

Lemma peval_app a : forall b X,
  peval (a ++ b) X = peval a X + X ^ Z.of_nat (List.length a) * peval b X.
Proof.
  induction a as [|c a IH]; intros b X.
  - cbn [app peval List.length]. change (X ^ Z.of_nat 0) with 1. ring.
  - cbn [app peval List.length]. rewrite IH, Nat2Z.inj_succ, Z.pow_succ_r by lia.
    ring.
Qed.

Lemma peval_residues cs X :
  peval (map (fun c => c mod PRIME) cs) X mod PRIME = peval cs X mod PRIME.
Proof.
  induction cs as [|c cs IH]; [reflexivity|].
  cbn [map peval].
  rewrite Z.add_mod, Z.mod_mod, (Z.mul_mod X), IH, <- (Z.mul_mod X), <- Z.add_mod;
    try reflexivity; pose proof PRIME_pos; lia.
Qed.

Lemma small_gap a b :
  0 <= a <= 255 -> 0 <= b <= 255 -> a <> b -> ~ (PRIME | a - b).
Proof.
  intros Ha Hb Hne [q Hq]. pose proof PRIME_big as Hbig.
  assert (q = 0) by nia. lia.
Qed.

(** The interpolation sum takes the value of each of its points. *)
Lemma terms_through yv P sl :
  NoDup (map x P) -> (forall s, In s P -> 0 <= x s <= 255) -> In sl P ->
  terms yv [] P (x sl) mod PRIME = yv sl mod PRIME.
Proof.
  intros Hnd Hr Hin.
  destruct (in_split _ _ Hin) as [pre [post ->]].
  rewrite (terms_at_todo yv pre [] sl post). cbn [app].
  rewrite map_app in Hnd. cbn [map] in Hnd.
  pose proof (NoDup_remove_2 _ _ _ Hnd) as Hnot.
  rewrite <- map_app in Hnot.
  assert (Hinv : (cinv (x sl) (map x (pre ++ post))
                  * prodX (x sl) (map x (pre ++ post))) mod PRIME = 1).
  { apply cinv_inverse. intros xj Hj.
    apply small_gap.
    - apply Hr. exact Hin.
    - apply in_map_iff in Hj. destruct Hj as [s [<- Hs]].
      apply Hr. apply in_app_iff in Hs. apply in_or_app.
      destruct Hs as [Hs|Hs]; [left; exact Hs|right; right; exact Hs].
    - intros E. apply Hnot. rewrite E. exact Hj. }
  rewrite <- Z.mul_assoc, Z.mul_mod, Hinv, Z.mul_1_r, Z.mod_mod;
    try reflexivity; pose proof PRIME_pos; lia.
Qed.

Section Refit.
Variables (secret : Z) (coefficients indices : list Z) (threshold : nat).
Hypothesis Hsecret : 0 <= secret < PRIME.
Hypothesis Hnd : NoDup indices.
Hypothesis Hrange : forall i, In i indices -> 1 <= i <= 255.
Hypothesis Hfew : (S (List.length indices) <= threshold)%nat.

Lemma points_NoDup : NoDup (map x (points indices)).
Proof.
  unfold points. cbn [map x]. rewrite map_map. cbn [x]. rewrite map_id.
  constructor; [|exact Hnd].
  intros H. apply Hrange in H. lia.
Qed.

Lemma points_range s : In s (points indices) -> 0 <= x s <= 255.
Proof.
  unfold points. intros [<-|H]; [cbn; lia|].
  apply in_map_iff in H. destruct H as [i [<- Hi]]. cbn [x].
  apply Hrange in Hi. lia.
Qed.

Lemma length_refit : List.length (refit secret coefficients indices threshold) = threshold.
Proof.
  unfold refit. rewrite length_map, length_app, repeat_length.
  pose proof (length_termsPoly (valueAt secret coefficients) (points indices) [])
    as Hl.
  unfold points in Hl at 2. cbn [List.length] in Hl. rewrite length_map in Hl.
  lia.
Qed.

Lemma refit_range c :
  In c (refit secret coefficients indices threshold) -> 0 <= c < PRIME.
Proof.
  unfold refit. intros H. apply in_map_iff in H. destruct H as [c0 [<- _]].
  apply Z.mod_pos_bound. apply PRIME_pos.
Qed.

Lemma peval_refit sl :
  In sl (points indices) ->
  peval (refit secret coefficients indices threshold) (x sl) mod PRIME
  = valueAt secret coefficients sl mod PRIME.
Proof.
  intros Hin. unfold refit.
  rewrite peval_residues, peval_app, peval_zeros, Z.mul_0_r, Z.add_0_r.
  rewrite peval_termsPoly.
  apply terms_through; [exact points_NoDup|exact points_range|exact Hin].
Qed.

(** The refitted coefficients start with the secret. *)
Lemma refit_head :
  exists rest, refit secret coefficients indices threshold = secret :: rest.
Proof.
  pose proof length_refit as Hl.
  destruct (refit secret coefficients indices threshold) as [|c rest] eqn:E.
  - cbn in Hl. lia.
  - exists rest. f_equal.
    assert (Hc : 0 <= c < PRIME) by (apply refit_range; rewrite E; left; reflexivity).
    pose proof (peval_refit (mkShare 0 EmptyString)) as H0.
    rewrite E in H0. cbn [x peval] in H0. unfold valueAt in H0. cbn [x] in H0.
    change (0 =? 0) with true in H0. cbv iota in H0.
    rewrite Z.mul_0_l, Z.add_0_r in H0.
    rewrite !Z.mod_small in H0 by lia.
    apply H0. unfold points. left. reflexivity.
Qed.

(** They give every chosen index the share value it had. *)
Lemma refit_values i :
  In i indices ->
  evaluatePolynomial (refit secret coefficients indices threshold) i
  = evaluatePolynomial coefficients i.
Proof.
  intros Hi. rewrite !evaluatePolynomial_spec.
  pose proof (peval_refit (mkShare i EmptyString)) as H.
  cbn [x] in H. rewrite H.
  - unfold valueAt. cbn [x].
    destruct (Z.eqb_spec i 0) as [E|_]; [apply Hrange in Hi; lia|].
    apply Z.mod_mod. pose proof PRIME_pos. lia.
  - unfold points. right.
    apply (in_map (fun j => mkShare j EmptyString)). exact Hi.
Qed.

End Refit.

Lemma shareLoop_has coefficients totalShares i :
  1 <= i <= totalShares ->
  In (mkShare i (bigIntToHex (evaluatePolynomial coefficients i)))
     (shareLoop coefficients totalShares).
Proof.
  intros Hi. unfold shareLoop. apply in_map_iff.
  exists (Z.to_nat i). cbv zeta. rewrite Z2Nat.id by lia.
  split; [reflexivity|]. apply in_seq. lia.
Qed.

(** X30.  Fewer than threshold shares do not determine the secret: for
    any shares that splitSecret returned and any selection of fewer than
    threshold of them, and for every other secret below PRIME, there are
    32-byte random blocks with which splitSecret(other secret, same
    totalShares, same threshold) returns all the selected shares as
    well. *)
Theorem fewer_shares_fit_every_secret
    secret s other s' totalShares threshold entropy :
  hexToBigInt secret = Some s -> s < PRIME ->
  hexToBigInt other = Some s' -> s' < PRIME ->
  2 <= threshold <= totalShares -> totalShares <= 255 ->
  exists shares,
    splitSecret secret totalShares threshold entropy = inr shares
    /\ forall held, incl held shares -> Z.of_nat (List.length held) < threshold ->
         exists entropy' shares',
           (forall i, List.length (entropy' i) = 32%nat)
           /\ splitSecret other totalShares threshold entropy' = inr shares'
           /\ incl held shares'.
Proof.
  intros Hs Hlt Hs' Hlt' Hth Htot.
  set (f := s :: drawCoefficients threshold entropy).
  exists (shareLoop f totalShares). split.
  { apply splitSecret_ok; assumption. }
  intros held Hincl Hfew.
  set (indices := nodup Z.eq_dec (map x held)).
  assert (Hnd : NoDup indices) by apply NoDup_nodup.
  assert (Hrange : forall i, In i indices -> 1 <= i <= 255).
  { intros i Hi. apply nodup_In in Hi. apply in_map_iff in Hi.
    destruct Hi as [sh [<- Hsh]]. apply Hincl in Hsh.
    apply in_shareLoop in Hsh. lia. }
  assert (Hlen : (S (List.length indices) <= Z.to_nat threshold)%nat).
  { assert (List.length indices <= List.length (map x held))%nat.
    { apply NoDup_incl_length; [exact Hnd|].
      intros i Hi. apply nodup_In in Hi. exact Hi. }
    rewrite length_map in H. lia. }
  pose proof (hexToBigInt_nonneg _ _ Hs') as Hnn.
  assert (Hsec : 0 <= s' < PRIME) by lia.
  destruct (refit_head s' f indices (Z.to_nat threshold) Hsec Hnd Hrange Hlen)
    as [rest Hg].
  pose proof (length_refit s' f indices (Z.to_nat threshold) Hlen) as Hgl.
  rewrite Hg in Hgl. cbn [List.length] in Hgl.
  assert (Hrest : forall c, In c rest -> 0 <= c < PRIME).
  { intros c Hc. apply (refit_range s' f indices (Z.to_nat threshold)).
    rewrite Hg. right. exact Hc. }
  exists (entropyOf rest), (shareLoop (s' :: rest) totalShares).
  split; [intros i; apply length_blockOf|]. split.
  { rewrite (splitSecret_ok other s' totalShares threshold _ Hs' Hlt' Hth Htot).
    replace threshold with (Z.of_nat (S (List.length rest))) at 1 by lia.
    rewrite drawCoefficients_entropyOf by exact Hrest. reflexivity. }
  intros sh Hsh. pose proof (Hincl sh Hsh) as Hin.
  apply in_shareLoop in Hin. destruct Hin as [Hx Hy].
  assert (Hi : In (x sh) indices).
  { apply nodup_In. apply in_map. exact Hsh. }
  pose proof (refit_values s' f indices (Z.to_nat threshold) Hnd Hrange Hlen
                (x sh) Hi) as Hv.
  rewrite Hg in Hv.
  destruct sh as [xi yi]. cbn [x y] in *. subst yi. rewrite <- Hv.
  apply shareLoop_has. exact Hx.
Qed.

Lemma fewer_shares_fit_every_secret_witness :
  exists shares,
    splitSecret "0x01" 3 2 (fun _ => List.repeat x07 32) = inr shares
    /\ forall held, incl held shares -> Z.of_nat (List.length held) < 2 ->
         exists entropy' shares',
           (forall i, List.length (entropy' i) = 32%nat)
           /\ splitSecret "0x02" 3 2 entropy' = inr shares'
           /\ incl held shares'.
Proof.
  apply (fewer_shares_fit_every_secret "0x01" 1 "0x02" 2 3 2).
  - reflexivity.
  - vm_compute. reflexivity.
  - reflexivity.
  - vm_compute. reflexivity.
  - lia.
  - lia.
Defined.

End SecrecyLaws.
